(** * The cancellation tree of the [source] package (a port of Go's
    [context]): leaf, value-binding, cancelable and deadline contexts.

    The development follows the source file top to bottom.  Objects that
    the Go code mutates through pointers ([cancelCtx] and [timerCtx]
    structs, channels, timers) live in an explicit store; every method is
    a state transformer that may panic.  The mutex [mu] is not modelled:
    each method body runs as one atomic step. *)

From Stdlib Require Import ZArith String Lia.
From stdpp Require Import base list.

Local Open Scope Z_scope.

(** ** Outcomes of fallible code *)

Inductive outcome (A : Type) : Type :=
| Ok (a : A)
| Panic (msg : string)
| OutOfFuel.
Arguments Ok {A} a.
Arguments Panic {A} msg.
Arguments OutOfFuel {A}.

Definition obind {A B} (m : outcome A) (k : A -> outcome B) : outcome B :=
  match m with
  | Ok a => k a
  | Panic msg => Panic msg
  | OutOfFuel => OutOfFuel
  end.

(** ** Values *)

(** Addresses of [cancelCtx] / [timerCtx] structs, identities of
    channels and of timers are natural numbers; a [time.Time] is a number
    of nanoseconds on one clock. *)
Abbreviation loc := nat (only parsing).
Abbreviation chan := nat (only parsing).
Abbreviation timer_id := nat (only parsing).
Abbreviation time := Z (only parsing).

(** [error] values that occur in the package; [errorOther] stands for the
    errors a foreign [Context] implementation may report. *)
Inductive error : Type :=
| Canceled
| DeadlineExceeded
| errorOther (msg : string).

Definition error_eq_dec (a b : error) : {a = b} + {a <> b}.
Proof. decide equality. apply string_dec. Defined.

(** The dynamic values of type [any] that keys and bound values range
    over.  [float64_ bits] is the [float64] with the IEEE-754 bit pattern
    [bits] (what [math.Float64bits] gives, below [2^64]); [slice_] is a
    value of the non-comparable type [[]int]; [array1_ e] is the value
    [[1]any{e}] of the array type [[1]any], which is comparable as a type
    whatever its element holds; [ptr_cancelCtxKey] is [&cancelCtxKey];
    [ptr_cancelCtx p] is a [*cancelCtx]. *)
Inductive any : Type :=
| nil_
| int_ (n : Z)
| float64_ (bits : Z)
| string_ (s : string)
| slice_ (l : list Z)
| array1_ (elem : any)
| ptr_cancelCtxKey
| ptr_cancelCtx (p : loc).

(** Modelled from the spec: [reflectlite] is not among the sources;
    [Comparable] decides whether the dynamic type of a (non-nil) value is
    equality-comparable (spec 4.2).  It looks at the type only: an array
    of interfaces is comparable, a slice is not. *)
Definition Comparable (v : any) : bool :=
  match v with
  | slice_ _ => false
  | _ => true
  end.

(** [==] on [float64]: a NaN (exponent bits all set, fraction not zero)
    equals nothing, itself included; the two zeros are equal; any other
    two values are equal when their bit patterns are. *)
Definition float64_isNaN (bits : Z) : bool :=
  (Z.land (Z.shiftr bits 52) (Z.ones 11) =? Z.ones 11)
  && negb (Z.land bits (Z.ones 52) =? 0).

Definition float64_isZero (bits : Z) : bool :=
  Z.land bits (Z.ones 63) =? 0.

Definition float64_eq (a b : Z) : bool :=
  if float64_isNaN a || float64_isNaN b then false
  else if float64_isZero a && float64_isZero b then true
  else a =? b.

(** Go's [==] on interface values: equal dynamic types and equal values.
    Values of different dynamic types are unequal; comparing two values
    of one non-comparable type panics, also when they are met as the
    elements of two arrays. *)
Fixpoint any_eq (a b : any) {struct a} : outcome bool :=
  match a, b with
  | nil_, nil_ => Ok true
  | int_ x, int_ y => Ok (Z.eqb x y)
  | float64_ x, float64_ y => Ok (float64_eq x y)
  | string_ x, string_ y => Ok (String.eqb x y)
  | slice_ _, slice_ _ =>
      Panic "runtime error: comparing uncomparable type []int"
  | array1_ x, array1_ y => any_eq x y
  | ptr_cancelCtxKey, ptr_cancelCtxKey => Ok true
  | ptr_cancelCtx p, ptr_cancelCtx q => Ok (Nat.eqb p q)
  | _, _ => Ok false
  end.

(** A foreign implementation of the [Context] interface, given by what
    its four methods answer. *)
Record foreign : Type := {
  f_Deadline : option time;
  f_Done : option chan;
  f_Err : option error;
  f_Value : any -> any
}.

(** A [Context] interface value.  The embedded [Context] field of
    [valueCtx] and [cancelCtx] and the [deadline] field of [timerCtx] are
    written by the constructors only, so they travel with the pointer;
    the mutable fields are in the store at address [p]. *)
Inductive Context : Type :=
| emptyCtx (todo : bool)
| valueCtx (parent : Context) (key val : any)
| cancelCtx (parent : Context) (p : loc)
| timerCtx (parent : Context) (p : loc) (deadline : time)
| foreignCtx (impl : foreign).

Definition background : Context := emptyCtx false.
Definition todo : Context := emptyCtx true.
Definition Background : Context := background.
Definition TODO : Context := todo.

(** The [canceler] interface is implemented by [*cancelCtx] and
    [*timerCtx]. *)
Inductive canceler : Type :=
| cancelCtx_ (parent : Context) (p : loc)
| timerCtx_ (parent : Context) (p : loc) (deadline : time).

Definition canceler_ptr (c : canceler) : loc :=
  match c with
  | cancelCtx_ _ p => p
  | timerCtx_ _ p _ => p
  end.

Definition canceler_parent (c : canceler) : Context :=
  match c with
  | cancelCtx_ parent _ => parent
  | timerCtx_ parent _ _ => parent
  end.

Definition canceler_Context (c : canceler) : Context :=
  match c with
  | cancelCtx_ parent p => cancelCtx parent p
  | timerCtx_ parent p d => timerCtx parent p d
  end.

(** Map keys of type [canceler] are compared by dynamic type and
    address. *)
Definition same_canceler (a b : canceler) : bool :=
  match a, b with
  | cancelCtx_ _ p, cancelCtx_ _ q => Nat.eqb p q
  | timerCtx_ _ p _, timerCtx_ _ q _ => Nat.eqb p q
  | _, _ => false
  end.

(** ** The store *)

(** Mutable fields of a [cancelCtx]; [timer] is the extra mutable field
    of a [timerCtx] and stays [None] in a plain [cancelCtx].  [children]
    is [None] for a nil map. *)
Record node : Type := {
  done : option chan;
  children : option (list canceler);
  err : option error;
  timer : option timer_id
}.

Definition new_node : node :=
  {| done := None; children := None; err := None; timer := None |}.

Record timer_rec : Type := {
  t_target : canceler;     (* the callback runs target.cancel(true, DeadlineExceeded) *)
  t_dur : Z;
  t_active : bool
}.

Record state : Type := {
  heap : list node;                    (* cancelCtx / timerCtx structs by address *)
  chans : list bool;                   (* channels by identity: closed? *)
  timers : list timer_rec;
  goroutines : Z;                      (* int32 counter *)
  waiters : list (Context * canceler)  (* goroutines started by propagateCancel *)
}.

(** [closedchan] is the first channel made, closed by [init]. *)
Definition closedchan : chan := 0%nat.

Definition init : state :=
  {| heap := []; chans := [true]; timers := []; goroutines := 0;
     waiters := [] |}.

Definition set_heap (h : list node) (st : state) : state :=
  {| heap := h; chans := chans st; timers := timers st;
     goroutines := goroutines st; waiters := waiters st |}.
Definition set_chans (cs : list bool) (st : state) : state :=
  {| heap := heap st; chans := cs; timers := timers st;
     goroutines := goroutines st; waiters := waiters st |}.
Definition set_timers (ts : list timer_rec) (st : state) : state :=
  {| heap := heap st; chans := chans st; timers := ts;
     goroutines := goroutines st; waiters := waiters st |}.
Definition set_goroutines (g : Z) (st : state) : state :=
  {| heap := heap st; chans := chans st; timers := timers st;
     goroutines := g; waiters := waiters st |}.
Definition set_waiters (ws : list (Context * canceler)) (st : state) : state :=
  {| heap := heap st; chans := chans st; timers := timers st;
     goroutines := goroutines st; waiters := ws |}.

(** ** The state-and-panic monad *)

Definition M (A : Type) : Type := state -> outcome (A * state).

Definition ret {A} (a : A) : M A := fun st => Ok (a, st).
Definition bind {A B} (m : M A) (k : A -> M B) : M B :=
  fun st =>
    match m st with
    | Ok (a, st') => k a st'
    | Panic msg => Panic msg
    | OutOfFuel => OutOfFuel
    end.
Definition panic {A} (msg : string) : M A := fun _ => Panic msg.
Definition out_of_fuel {A} : M A := fun _ => OutOfFuel.
Definition lift {A} (o : outcome A) : M A :=
  fun st => match o with
            | Ok a => Ok (a, st)
            | Panic msg => Panic msg
            | OutOfFuel => OutOfFuel
            end.
Definition get : M state := fun st => Ok (st, st).
Definition modify (f : state -> state) : M unit := fun st => Ok (tt, f st).

Notation "x <- m ;; k" := (bind m (fun x => k))
  (at level 100, m at next level, right associativity).
Notation "m ;;; k" := (bind m (fun _ => k))
  (at level 100, right associativity).

Definition nil_deref : string :=
  "runtime error: invalid memory address or nil pointer dereference"%string.

(** Reading and writing the struct at address [p]. *)
Definition load (p : loc) : M node :=
  fun st => match heap st !! p with
            | Some n => Ok (n, st)
            | None => Panic nil_deref
            end.
Definition store (p : loc) (n : node) : M unit :=
  modify (fun st => set_heap (<[p := n]> (heap st)) st).

(** [make(chan struct{})], [close(d)] and the non-blocking receive of
    [select { case <-d: ... default: }]. *)
Definition make_chan : M chan :=
  fun st => Ok (length (chans st), set_chans (chans st ++ [false]) st).
Definition is_closed (st : state) (d : chan) : bool :=
  match chans st !! d with
  | Some b => b
  | None => false
  end.
Definition close (d : chan) : M unit :=
  fun st => if is_closed st d then Panic "close of closed channel"
            else Ok (tt, set_chans (<[d := true]> (chans st)) st).

Definition alloc (n : node) : M loc :=
  fun st => Ok (length (heap st), set_heap (heap st ++ [n]) st).

Definition set_done (p : loc) (d : option chan) : M unit :=
  n <- load p ;;
  store p {| done := d; children := children n; err := err n;
             timer := timer n |}.
Definition set_children (p : loc) (cs : option (list canceler)) : M unit :=
  n <- load p ;;
  store p {| done := done n; children := cs; err := err n;
             timer := timer n |}.
Definition set_err (p : loc) (e : option error) : M unit :=
  n <- load p ;;
  store p {| done := done n; children := children n; err := e;
             timer := timer n |}.
Definition set_timer (p : loc) (t : option timer_id) : M unit :=
  n <- load p ;;
  store p {| done := done n; children := children n; err := err n;
             timer := t |}.

Fixpoint for_each {A} (l : list A) (f : A -> M unit) : M unit :=
  match l with
  | [] => ret tt
  | x :: l' => f x ;;; for_each l' f
  end.

(** ** Methods of the four context types *)

(** [Deadline]: [emptyCtx] has none, [timerCtx] reports its own; a
    [valueCtx] or [cancelCtx] has no [Deadline] method of its own, so the
    call is promoted to the embedded parent. *)
Fixpoint Deadline (c : Context) : option time :=
  match c with
  | emptyCtx _ => None
  | valueCtx parent _ _ => Deadline parent
  | cancelCtx parent _ => Deadline parent
  | timerCtx _ _ deadline => Some deadline
  | foreignCtx f => f_Deadline f
  end.

(** [cancelCtx.Done]: the channel is made on first use. *)
Definition cancelCtx_Done (p : loc) : M (option chan) :=
  n <- load p ;;
  match done n with
  | Some d => ret (Some d)
  | None =>
      d <- make_chan ;;
      set_done p (Some d) ;;;
      ret (Some d)
  end.

Fixpoint Done (c : Context) : M (option chan) :=
  match c with
  | emptyCtx _ => ret None
  | valueCtx parent _ _ => Done parent
  | cancelCtx _ p => cancelCtx_Done p
  | timerCtx _ p _ => cancelCtx_Done p
  | foreignCtx f => ret (f_Done f)
  end.

Definition cancelCtx_Err (p : loc) : M (option error) :=
  n <- load p ;; ret (err n).

Fixpoint Err (c : Context) : M (option error) :=
  match c with
  | emptyCtx _ => ret None
  | valueCtx parent _ _ => Err parent
  | cancelCtx _ p => cancelCtx_Err p
  | timerCtx _ p _ => cancelCtx_Err p
  | foreignCtx f => ret (f_Err f)
  end.

(** The loop of [value]: one iteration per constructor of the chain. *)
Fixpoint value (c : Context) (key : any) : outcome any :=
  match c with
  | valueCtx parent k v =>
      obind (any_eq key k) (fun b => if b then Ok v else value parent key)
  | cancelCtx parent p =>
      obind (any_eq key ptr_cancelCtxKey)
            (fun b => if b then Ok (ptr_cancelCtx p) else value parent key)
  | timerCtx parent p _ =>
      obind (any_eq key ptr_cancelCtxKey)
            (fun b => if b then Ok (ptr_cancelCtx p) else value parent key)
  | emptyCtx _ => Ok nil_
  | foreignCtx f => Ok (f_Value f key)
  end.

Definition cancelCtx_Value (parent : Context) (p : loc) (key : any)
  : outcome any :=
  obind (any_eq key ptr_cancelCtxKey)
        (fun b => if b then Ok (ptr_cancelCtx p) else value parent key).

Definition valueCtx_Value (parent : Context) (k v : any) (key : any)
  : outcome any :=
  obind (any_eq k key) (fun b => if b then Ok v else value parent key).

Definition Value (c : Context) (key : any) : outcome any :=
  match c with
  | emptyCtx _ => Ok nil_
  | valueCtx parent k v => valueCtx_Value parent k v key
  | cancelCtx parent p => cancelCtx_Value parent p key
  | timerCtx parent p _ => cancelCtx_Value parent p key
  | foreignCtx f => Ok (f_Value f key)
  end.

(** ** Finding the cancelable ancestor *)

Definition chan_eq (a b : option chan) : bool :=
  match a, b with
  | None, None => true
  | Some x, Some y => Nat.eqb x y
  | _, _ => false
  end.

Definition parentCancelCtx (parent : Context) : M (option loc) :=
  d <- Done parent ;;
  if chan_eq d (Some closedchan) || chan_eq d None then ret None
  else
    v <- lift (Value parent ptr_cancelCtxKey) ;;
    match v with
    | ptr_cancelCtx p =>
        n <- load p ;;
        if negb (chan_eq (done n) d) then ret None else ret (Some p)
    | _ => ret None
    end.

(** [delete(m, child)] on the key set of the map. *)
Definition map_delete (child : canceler) (cs : list canceler) : list canceler :=
  filter (fun x => same_canceler child x = false) cs.

(** [m[child] = struct{}{}]. *)
Definition map_add (child : canceler) (cs : list canceler) : list canceler :=
  if existsb (same_canceler child) cs then cs else child :: cs.

Definition removeChild (parent : Context) (child : canceler) : M unit :=
  r <- parentCancelCtx parent ;;
  match r with
  | None => ret tt
  | Some p =>
      n <- load p ;;
      match children n with
      | Some cs => set_children p (Some (map_delete child cs))
      | None => ret tt
      end
  end.

(** ** Cancellation *)

Definition Stop (t : timer_id) : M unit :=
  modify (fun st =>
    match timers st !! t with
    | Some r =>
        set_timers (<[t := {| t_target := t_target r; t_dur := t_dur r;
                              t_active := false |}]> (timers st)) st
    | None => st
    end).

Section cancel_bodies.
(** The bodies of the two [cancel] methods, over the dynamic dispatch
    [child.cancel] they recurse through. *)
Variable child_cancel : canceler -> bool -> option error -> M unit.

Definition cancelCtx_cancel_body (parent : Context) (p : loc)
    (removeFromParent : bool) (e : option error) : M unit :=
  match e with
  | None => panic "context: internal error: missing cancel error"
  | Some _ =>
      c <- load p ;;
      match err c with
      | Some _ => ret tt                      (* already canceled *)
      | None =>
          set_err p e ;;;
          match done c with
          | None => set_done p (Some closedchan)
          | Some d => close d
          end ;;;
          for_each (default [] (children c))
                   (fun child => child_cancel child false e) ;;;
          set_children p None ;;;
          if removeFromParent
          then removeChild parent (cancelCtx_ parent p)
          else ret tt
      end
  end.

Definition timerCtx_cancel_body (parent : Context) (p : loc)
    (deadline : time) (removeFromParent : bool) (e : option error)
  : M unit :=
  cancelCtx_cancel_body parent p false e ;;;
  (if removeFromParent
   then removeChild parent (timerCtx_ parent p deadline)
   else ret tt) ;;;
  c <- load p ;;
  match timer c with
  | Some t => Stop t ;;; set_timer p None
  | None => ret tt
  end.
End cancel_bodies.

(** [child.cancel(removeFromParent, err)], with [fuel] bounding the depth
    of the cascade. *)
Fixpoint cancel_fuel (fuel : nat) (c : canceler) (removeFromParent : bool)
    (e : option error) : M unit :=
  match fuel with
  | O => out_of_fuel
  | S fuel' =>
      match c with
      | cancelCtx_ parent p =>
          cancelCtx_cancel_body (cancel_fuel fuel') parent p
                                removeFromParent e
      | timerCtx_ parent p deadline =>
          timerCtx_cancel_body (cancel_fuel fuel') parent p deadline
                               removeFromParent e
      end
  end.

(** A cascade never nests deeper than the number of structs in the
    store (see [cancel_fuel_enough] below). *)
Definition enough (st : state) : nat := S (length (heap st)).

Definition cancel (c : canceler) (removeFromParent : bool)
    (e : option error) : M unit :=
  st <- get ;; cancel_fuel (enough st) c removeFromParent e.

(** ** Constructors *)

Definition WithValue (parent : option Context) (key val : any)
  : outcome Context :=
  match parent with
  | None => Panic "cannot create context from nil parent"
  | Some parent =>
      match key with
      | nil_ => Panic "nil key"
      | _ =>
          if negb (Comparable key) then Panic "key is not comparable"
          else Ok (valueCtx parent key val)
      end
  end.

(** A [CancelFunc] is a closure [func() { c.cancel(b, Canceled) }]. *)
Record CancelFunc : Type := {
  cf_target : canceler;
  cf_removeFromParent : bool
}.

Definition call (f : CancelFunc) : M unit :=
  cancel (cf_target f) (cf_removeFromParent f) (Some Canceled).

(** [atomic.AddInt32] wraps around. *)
Definition wrap32 (z : Z) : Z := (z + 2 ^ 31) mod 2 ^ 32 - 2 ^ 31.

Definition children_add (p : loc) (child : canceler) : M unit :=
  n <- load p ;;
  set_children p (Some (map_add child (default [] (children n)))).

Definition propagateCancel (parent : Context) (child : canceler) : M unit :=
  d <- Done parent ;;
  match d with
  | None => ret tt                           (* parent is never canceled *)
  | Some d =>
      st <- get ;;
      if is_closed st d then
        e <- Err parent ;; cancel child false e
      else
        r <- parentCancelCtx parent ;;
        match r with
        | Some p =>
            n <- load p ;;
            match err n with
            | Some e => cancel child false (Some e)
            | None => children_add p child
            end
        | None =>
            modify (fun st => set_goroutines (wrap32 (goroutines st + 1)) st) ;;;
            modify (fun st => set_waiters (waiters st ++ [(parent, child)]) st)
        end
  end.

Definition newCancelCtx : M loc := alloc new_node.

Definition WithCancel (parent : option Context) : M (Context * CancelFunc) :=
  match parent with
  | None => panic "cannot create context from nil parent"
  | Some parent =>
      p <- newCancelCtx ;;
      propagateCancel parent (cancelCtx_ parent p) ;;;
      ret (cancelCtx parent p,
           {| cf_target := cancelCtx_ parent p; cf_removeFromParent := true |})
  end.

(** [time.Time.Sub] saturates at the bounds of [time.Duration] (int64). *)
Definition Sub (t u : time) : Z :=
  Z.max (- 2 ^ 63) (Z.min (2 ^ 63 - 1) (t - u)).

(** [time.Until(d)] when the clock reads [now]. *)
Definition Until (d now : time) : Z := Sub d now.

Definition AfterFunc (dur : Z) (target : canceler) : M timer_id :=
  fun st =>
    Ok (length (timers st),
        set_timers (timers st ++ [{| t_target := target; t_dur := dur;
                                     t_active := true |}]) st).

(** [now] is what the clock reads when [time.Until] is evaluated. *)
Definition WithDeadline (parent : option Context) (d : time) (now : time)
  : M (Context * CancelFunc) :=
  match parent with
  | None => panic "cannot create context from nil parent"
  | Some parent =>
      if match Deadline parent with
         | Some cur => cur <? d
         | None => false
         end
      then WithCancel (Some parent)
      else
        p <- newCancelCtx ;;
        let c := timerCtx_ parent p d in
        propagateCancel parent c ;;;
        let dur := Until d now in
        if dur <=? 0 then
          cancel c true (Some DeadlineExceeded) ;;;
          ret (timerCtx parent p d,
               {| cf_target := c; cf_removeFromParent := false |})
        else
          n <- load p ;;
          match err n with
          | None => t <- AfterFunc dur c ;; set_timer p (Some t)
          | Some _ => ret tt
          end ;;;
          ret (timerCtx parent p d,
               {| cf_target := c; cf_removeFromParent := true |})
  end.

(** [now1] is the reading of [time.Now()] in [WithTimeout], [now2] the
    later one inside [WithDeadline]. *)
Definition WithTimeout (parent : option Context) (timeout : Z)
    (now1 now2 : time) : M (Context * CancelFunc) :=
  WithDeadline parent (now1 + timeout) now2.

(** The function given to [time.AfterFunc]. *)
Definition timer_callback (c : canceler) : M unit :=
  cancel c true (Some DeadlineExceeded).

(** The runtime fires an active timer: it runs the callback once. *)
Definition fire (t : timer_id) : M unit :=
  st <- get ;;
  match timers st !! t with
  | Some r =>
      if t_active r then Stop t ;;; timer_callback (t_target r)
      else ret tt
  | None => ret tt
  end.


(** The goroutine that [propagateCancel] starts, run once its two
    channel expressions are evaluated: it cancels the child when the
    parent's channel is closed, ends when the child's is, and otherwise
    stays blocked ([false]). *)
Definition waiter_body (parent : Context) (child : canceler) : M bool :=
  dp <- Done parent ;;
  dc <- Done (canceler_Context child) ;;
  st <- get ;;
  if match dp with Some d => is_closed st d | None => false end then
    e <- Err parent ;; cancel child false e ;;; ret true
  else if match dc with Some d => is_closed st d | None => false end then
    ret true
  else ret false.
(** * Specification-side definitions *)


Definition any_eq_dec (a b : any) : {a = b} + {a <> b}.
Proof. repeat decide equality. Defined.

(** A chain of value-binding nodes above [root], built by [WithValue];
    the head of [bs] is the binding of the node the lookup starts from. *)
Fixpoint bind_all (root : Context) (bs : list (any * any)) : outcome Context :=
  match bs with
  | [] => Ok root
  | (k, v) :: bs' =>
      obind (bind_all root bs') (fun c => WithValue (Some c) k v)
  end.

(** [k == k'] holds: the comparison returns, and returns true. *)
Definition key_matches (k k' : any) : bool :=
  match any_eq k k' with
  | Ok true => true
  | _ => false
  end.

(** The comparison of [k] with [k'] returns: it does not panic. *)
Definition comparable_with (k k' : any) : bool :=
  match any_eq k k' with
  | Ok _ => true
  | _ => false
  end.

(** The value holds no value of a non-comparable type, at any depth. *)
Fixpoint safe_key (v : any) : bool :=
  match v with
  | slice_ _ => false
  | array1_ e => safe_key e
  | _ => true
  end.

(** The value holds no value of a non-comparable type and no NaN, at
    any depth. *)
Fixpoint self_equal (v : any) : bool :=
  match v with
  | slice_ _ => false
  | float64_ bits => negb (float64_isNaN bits)
  | array1_ e => self_equal e
  | _ => true
  end.

(** The bit pattern of the NaN that [math.NaN] returns. *)
Definition NaN_bits : Z := 9221120237041090561.

(** The value bound by the first binding of [bs] whose key [k] is [==]
    to, if any. *)
Fixpoint nearest (k : any) (bs : list (any * any)) : option any :=
  match bs with
  | [] => None
  | (k', v) :: bs' => if key_matches k k' then Some v else nearest k bs'
  end.

(** The node itself followed by its ancestors, as far as the chain of
    embedded parents can be followed. *)
Fixpoint path (c : Context) : list Context :=
  c :: match c with
       | valueCtx parent _ _ => path parent
       | cancelCtx parent _ => path parent
       | timerCtx parent _ _ => path parent
       | _ => []
       end.

Definition is_deadline_node (c : Context) : bool :=
  match c with
  | timerCtx _ _ _ => true
  | _ => false
  end.

Definition is_foreign (c : Context) : bool :=
  match c with
  | foreignCtx _ => true
  | _ => false
  end.

(** No foreign implementation on the path to the root. *)
Definition native (c : Context) : bool :=
  forallb (fun a => negb (is_foreign a)) (path c).

(** The deadline of the first deadline node on the path, if any. *)
Definition nearest_deadline (c : Context) : option time :=
  match List.find is_deadline_node (path c) with
  | Some (timerCtx _ _ d) => Some d
  | _ => None
  end.

(** ** Store updates *)

Definition with_done (n : node) (d : option chan) : node :=
  {| done := d; children := children n; err := err n; timer := timer n |}.
Definition with_children (n : node) (cs : option (list canceler)) : node :=
  {| done := done n; children := cs; err := err n; timer := timer n |}.
Definition with_err (n : node) (e : option error) : node :=
  {| done := done n; children := children n; err := e; timer := timer n |}.
Definition with_timer (n : node) (t : option timer_id) : node :=
  {| done := done n; children := children n; err := err n; timer := t |}.

Definition upd (p : loc) (n : node) (st : state) : state :=
  set_heap (<[p := n]> (heap st)) st.

(** The state after [Done] had to make the channel of the struct at [p]. *)
Definition made_done (p : loc) (n : node) (st : state) : state :=
  upd p (with_done n (Some (length (chans st))))
      (set_chans (chans st ++ [false]) st).

(** The struct and the state after the first two steps of a
    cancellation that takes effect: [err] is set, and the [done] channel
    is closed, or replaced by [closedchan] where none was made. *)
Definition mark (n : node) (e : error) : node :=
  {| done := Some (default closedchan (done n)); children := children n;
     err := Some e; timer := timer n |}.

Definition mark_state (p : loc) (n : node) (e : error) (st : state) : state :=
  upd p (mark n e)
      (match done n with
       | Some d => set_chans (<[d := true]> (chans st)) st
       | None => st
       end).

(** ** Programs and reachable states *)

(** A [*cancelCtx] value is allocated below [n]. *)
Definition ptr_bounded (n : nat) (v : any) : bool :=
  match v with
  | ptr_cancelCtx q => Nat.ltb q n
  | _ => true
  end.

(** Every struct a context refers to is allocated below [n]: the structs
    on its path, and the [*cancelCtx] values it holds or, for a foreign
    implementation, answers the internal key with. *)
Fixpoint bounded (n : nat) (c : Context) : bool :=
  match c with
  | emptyCtx _ => true
  | valueCtx parent _ v => ptr_bounded n v && bounded n parent
  | cancelCtx parent p => Nat.ltb p n && bounded n parent
  | timerCtx parent p _ => Nat.ltb p n && bounded n parent
  | foreignCtx f => ptr_bounded n (f_Value f ptr_cancelCtxKey)
  end.

(** What [Done] answers when no channel has to be made. *)
Fixpoint peek_Done (h : list node) (c : Context) : option chan :=
  match c with
  | emptyCtx _ => None
  | valueCtx parent _ _ => peek_Done h parent
  | cancelCtx _ p => n ← h !! p; done n
  | timerCtx _ p _ => n ← h !! p; done n
  | foreignCtx f => f_Done f
  end.

(** The struct at [p] is registered in some [children] map. *)
Definition tracked (st : state) (p : loc) : bool :=
  existsb (fun n => existsb (fun ch => Nat.eqb (canceler_ptr ch) p)
                            (default [] (children n)))
          (heap st).

(** The operations a program performs on the package, one at a time.
    [OpCall p] invokes the [CancelFunc] that was returned together with
    the struct at [p]; [OpFire] is the runtime firing an active timer;
    [OpCallback] is a timer callback that had already started when the
    timer was stopped; [OpWaiter i] lets the [i]-th waiting goroutine
    look at its channels. *)
Inductive op : Type :=
| OpDone (c : Context)
| OpWithCancel (parent : Context)
| OpWithDeadline (parent : Context) (d now : time)
| OpCall (p : loc)
| OpFire (t : timer_id)
| OpCallback (t : timer_id)
| OpWaiter (i : nat).

(** The program state: the store and the cancel functions handed out so
    far, the one for the struct at [p] at index [p]. *)
Definition world : Type := state * list CancelFunc.

Definition result_state {A} (r : outcome (A * state)) : option state :=
  match r with
  | Ok (_, st) => Some st
  | _ => None
  end.

Definition exec (o : op) (w : world) : option world :=
  let '(st, fs) := w in
  match o with
  | OpDone c =>
      if bounded (length (heap st)) c
      then st' ← result_state (Done c st); Some (st', fs)
      else None
  | OpWithCancel parent =>
      if bounded (length (heap st)) parent
      then match WithCancel (Some parent) st with
           | Ok ((_, f), st') => Some (st', (fs ++ [f])%list)
           | _ => None
           end
      else None
  | OpWithDeadline parent d now =>
      if bounded (length (heap st)) parent
      then match WithDeadline (Some parent) d now st with
           | Ok ((_, f), st') => Some (st', (fs ++ [f])%list)
           | _ => None
           end
      else None
  | OpCall p =>
      f ← fs !! p; st' ← result_state (call f st); Some (st', fs)
  | OpFire t =>
      st' ← result_state (fire t st); Some (st', fs)
  | OpCallback t =>
      r ← timers st !! t;
      st' ← result_state (timer_callback (t_target r) st); Some (st', fs)
  | OpWaiter i =>
      w ← waiters st !! i;
      match waiter_body w.1 w.2 st with
      | Ok (true, st') => Some (set_waiters (delete i (waiters st')) st', fs)
      | Ok (false, st') => Some (st', fs)
      | _ => None
      end
  end.

Fixpoint run (tr : list op) (w : world) : option world :=
  match tr with
  | [] => Some w
  | o :: tr' => w' ← exec o w; run tr' w'
  end.

Definition reachable (w : world) : Prop :=
  exists tr, run tr (init, []) = Some w.

(** ** Invariants of the store *)

Definition lives (st : state) (p : loc) : Prop :=
  exists n, heap st !! p = Some n /\ err n = None.

Definition dead (st : state) (p : loc) : Prop :=
  exists n, heap st !! p = Some n /\ err n <> None.

(** The invariant that holds at every point of a cascade.  [hs] lists,
    by address, the [canceler] each struct was created as; [x] is the
    struct, if any, that may be registered with a live parent although
    it is canceled already (the one whose [removeChild] is pending). *)
Record pinv (hs : list canceler) (x : option loc) (st : state) : Prop := {
  pi_len : length hs = length (heap st);
  pi_hs : forall p c, hs !! p = Some c ->
      canceler_ptr c = p /\ bounded p (canceler_parent c) = true;
  pi_cc : is_closed st closedchan = true;
  pi_done : forall p n d, heap st !! p = Some n -> done n = Some d ->
      (d < length (chans st))%nat
      /\ (is_closed st d = true <-> err n <> None);
  pi_err : forall p n, heap st !! p = Some n -> err n <> None ->
      done n <> None;
  pi_uniq : forall p q n m d,
      heap st !! p = Some n -> heap st !! q = Some m ->
      done n = Some d -> done m = Some d -> p = q \/ d = closedchan;
  pi_child : forall p n cs ch,
      heap st !! p = Some n -> children n = Some cs -> ch ∈ cs ->
      hs !! canceler_ptr ch = Some ch
      /\ Value (canceler_parent ch) ptr_cancelCtxKey = Ok (ptr_cancelCtx p)
      /\ exists d, done n = Some d /\ d <> closedchan
                   /\ peek_Done (heap st) (canceler_parent ch) = Some d;
  pi_nodup : forall p n cs,
      heap st !! p = Some n -> children n = Some cs ->
      NoDup (canceler_ptr <$> cs);
  pi_live : forall p n cs ch,
      heap st !! p = Some n -> children n = Some cs -> ch ∈ cs ->
      err n = None ->
      lives st (canceler_ptr ch) \/ x = Some (canceler_ptr ch);
  pi_timer : forall p n t, heap st !! p = Some n -> timer n = Some t ->
      (t < length (timers st))%nat
      /\ exists parent d, hs !! p = Some (timerCtx_ parent p d);
  pi_timers : forall t r, timers st !! t = Some r ->
      hs !! canceler_ptr (t_target r) = Some (t_target r);
  pi_waiters : forall parent child, (parent, child) ∈ waiters st ->
      hs !! canceler_ptr child = Some child
      /\ parent = canceler_parent child
      /\ tracked st (canceler_ptr child) = false
}.

(** The invariant between operations: no cascade is under way, so a
    canceled struct has no children left, and a cancel function that does
    not detach belongs to a struct that is canceled already. *)
Record inv (fs : list CancelFunc) (st : state) : Prop := {
  inv_p : pinv (cf_target <$> fs) None st;
  inv_Q : forall p n, heap st !! p = Some n -> err n <> None ->
      children n = None;
  inv_f : forall p f, fs !! p = Some f -> cf_removeFromParent f = false ->
      dead st p
}.

(** ** What a cancellation changes *)

(** The three fields a cancellation decides on are the same. *)
Definition same_core (n n' : node) : Prop :=
  done n' = done n /\ children n' = children n /\ err n' = err n.

(** The struct was live and has been canceled with [e]: its map is
    dropped, its channel is the one it had, or [closedchan] if it had
    none, and every child it had is canceled in [st']. *)
Definition newly (st' : state) (e : error) (n n' : node) : Prop :=
  err n = None /\ err n' = Some e /\ children n' = None
  /\ done n' = Some (default closedchan (done n))
  /\ forall cs ch, children n = Some cs -> ch ∈ cs ->
       dead st' (canceler_ptr ch).

(** [st'] comes from [st] by a cascade with cause [e]. *)
Record cascade (e : error) (st st' : state) : Prop := {
  ca_heap : length (heap st') = length (heap st);
  ca_chans : length (chans st') = length (chans st);
  ca_closed : forall d, is_closed st d = true -> is_closed st' d = true;
  ca_timers : length (timers st') = length (timers st);
  ca_node : forall p n', heap st' !! p = Some n' ->
      exists n, heap st !! p = Some n
        /\ (same_core n n' \/ newly st' e n n')
}.

(** [st'] comes from [st] by steps that cancel nothing: channels are
    made and children are deleted; the timers are as they were. *)
Record quiet (st st' : state) : Prop := {
  qu_heap : length (heap st') = length (heap st);
  qu_closed : forall d, is_closed st' d = is_closed st d;
  qu_chans : (length (chans st) <= length (chans st'))%nat;
  qu_timers : timers st' = timers st;
  qu_node : forall p n', heap st' !! p = Some n' ->
      exists n, heap st !! p = Some n
        /\ err n' = err n /\ timer n' = timer n
        /\ (forall d, done n = Some d -> done n' = Some d)
        /\ (children n' = children n
            \/ exists cs cs', children n = Some cs /\ children n' = Some cs'
                 /\ cs' `sublist_of` cs)
}.

(** No cascade is under way: a canceled struct has no children. *)
Definition settled (st : state) : Prop :=
  forall p n, heap st !! p = Some n -> err n <> None -> children n = None.

(** A canceled struct may be registered with a live one only if it is
    the exempted [x]. *)
Definition exempt (x : option loc) (st : state) (p : loc) : Prop :=
  forall q m cs ch, heap st !! q = Some m -> children m = Some cs ->
    ch ∈ cs -> canceler_ptr ch = p -> err m = None -> x = Some p.

(** The condition under which [parentCancelCtx parent] succeeds with
    [q] in a state where [Done] has nothing left to make. *)
Definition found (st : state) (parent : Context) (q : loc) : Prop :=
  Value parent ptr_cancelCtxKey = Ok (ptr_cancelCtx q)
  /\ exists m d, heap st !! q = Some m /\ done m = Some d
       /\ d <> closedchan /\ peek_Done (heap st) parent = Some d.

(** The state after [Stop t]. *)
Definition stop_state (t : timer_id) (st : state) : state :=
  match timers st !! t with
  | Some r =>
      set_timers (<[t := {| t_target := t_target r; t_dur := t_dur r;
                            t_active := false |}]> (timers st)) st
  | None => st
  end.

(** The state after the last step of [timerCtx.cancel]: the timer of a
    deadline struct, if it has one, is stopped and released. *)
Definition released (c : canceler) (st : state) : state :=
  match c with
  | cancelCtx_ _ _ => st
  | timerCtx_ _ p _ =>
      match heap st !! p with
      | Some n =>
          match timer n with
          | Some t => upd p (with_timer n None) (stop_state t st)
          | None => st
          end
      | None => st
      end
  end.

(** What every step of the package respects: no struct disappears, a
    recorded error and a made channel stay, and a closed channel stays
    closed. *)
Record mono (st st' : state) : Prop := {
  mo_node : forall p n, heap st !! p = Some n ->
      exists n', heap st' !! p = Some n'
        /\ (forall e, err n = Some e -> err n' = Some e)
        /\ (forall d, done n = Some d -> done n' = Some d);
  mo_closed : forall d, is_closed st d = true -> is_closed st' d = true
}.

(** The state after [newCancelCtx]. *)
Definition alloc_state (st : state) : state :=
  set_heap (heap st ++ [new_node]) st.

(** The state after [propagateCancel] registered [child] with the
    struct at [q] holding [m]. *)
Definition add_state (q : loc) (m : node) (child : canceler) (st : state)
  : state :=
  upd q (with_children m (Some (map_add child (default [] (children m))))) st.

(** The state after [propagateCancel] started a goroutine. *)
Definition wait_state (parent : Context) (child : canceler) (st : state)
  : state :=
  set_waiters (waiters st ++ [(parent, child)])
              (set_goroutines (wrap32 (goroutines st + 1)) st).

(** The state after [WithDeadline] armed the timer of the struct at [p]. *)
Definition arm_state (p : loc) (n : node) (dur : Z) (c : canceler)
    (st : state) : state :=
  upd p (with_timer n (Some (length (timers st))))
      (set_timers (timers st ++ [{| t_target := c; t_dur := dur;
                                    t_active := true |}]) st).

(** ** Notions the claims are stated with *)

(** [ch] is registered with the struct at [p], or with a struct that is
    registered below it. *)
Inductive descendant (st : state) : loc -> canceler -> Prop :=
| desc_child p n cs ch :
    heap st !! p = Some n -> children n = Some cs -> ch ∈ cs ->
    descendant st p ch
| desc_step p ch ch' :
    descendant st p ch -> descendant st (canceler_ptr ch) ch' ->
    descendant st p ch'.

(** The context has a [Done] channel already and that channel is
    closed. *)
Definition signaled (st : state) (c : Context) : bool :=
  match peek_Done (heap st) c with
  | Some d => is_closed st d
  | None => false
  end.

(** ** Sample states *)

(** A reachable program state used by the witnesses: a cancelable
    context below the background, then a deadline context below a value
    binding, whose channel has been asked for. *)
Definition sample_trace : list op :=
  [OpWithCancel Background;
   OpWithDeadline (valueCtx (cancelCtx Background 0%nat) (int_ 1) (int_ 5))
                  50 0;
   OpDone (timerCtx (valueCtx (cancelCtx Background 0%nat) (int_ 1) (int_ 5))
                    1%nat 50)].

Definition sample_world : world :=
  Eval vm_compute in
    match run sample_trace (init, []) with
    | Some w => w
    | None => (init, [])
    end.


(** ** Notions the further properties are stated with *)

(** The bindings on the path from a context to its root, the nearest
    first; cancelable and deadline nodes bind nothing. *)
Fixpoint bindings (c : Context) : list (any * any) :=
  match c with
  | valueCtx parent k v => (k, v) :: bindings parent
  | cancelCtx parent _ => bindings parent
  | timerCtx parent _ _ => bindings parent
  | _ => []
  end.

(** The struct of the first cancelable or deadline node on the path. *)
Fixpoint nearest_canceler (c : Context) : option loc :=
  match c with
  | valueCtx parent _ _ => nearest_canceler parent
  | cancelCtx _ p => Some p
  | timerCtx _ p _ => Some p
  | _ => None
  end.

(** A key that a client of the package can bind: [WithValue] wants it
    comparable, and [cancelCtxKey] is not exported. *)
Definition client_key (k : any) : bool :=
  Comparable k && (if any_eq_dec k ptr_cancelCtxKey then false else true).

(** A context made of the package's own nodes whose bindings all have
    client keys. *)
Definition plain (c : Context) : bool :=
  native c && forallb (fun kv => client_key kv.1) (bindings c).

(** No goroutine is started and none ends: the counter and the waiting
    goroutines are the same. *)
Definition same_goroutines (st st' : state) : Prop :=
  goroutines st' = goroutines st /\ waiters st' = waiters st.

(** Every run of [m] that returns leaves the goroutines as they were. *)
Definition quiet_run {A} (m : M A) : Prop :=
  forall st a st', m st = Ok (a, st') -> same_goroutines st st'.

(** A foreign context that hands out the channel of the first struct
    while hiding the struct, and a reachable state in which a goroutine
    waits for it after that channel has been closed. *)
Definition wrapper : foreign :=
  {| f_Deadline := None; f_Done := Some 1%nat;
     f_Err := Some (errorOther "parent gone"); f_Value := fun _ => nil_ |}.

Definition waiting_trace : list op :=
  [OpWithCancel Background;
   OpDone (cancelCtx Background 0%nat);
   OpWithCancel (foreignCtx wrapper);
   OpCall 0%nat].

Definition waiting_world : world :=
  Eval vm_compute in
    match run waiting_trace (init, []) with
    | Some w => w
    | None => (init, [])
    end.

(** Every struct that is not canceled and was made below a context of
    the package is registered with the nearest cancelable ancestor of
    its parent context, and that ancestor is not canceled.  [x] is the
    struct, if any, that is being set up. *)
Definition attached (x : option loc) (hs : list canceler) (st : state)
  : Prop :=
  forall p c n q,
    hs !! p = Some c -> Some p <> x ->
    heap st !! p = Some n -> err n = None ->
    plain (canceler_parent c) = true ->
    nearest_canceler (canceler_parent c) = Some q ->
    exists m cs, heap st !! q = Some m /\ err m = None
                 /\ children m = Some cs /\ c ∈ cs.

(** [st'] keeps what [attached] needs of [st]: a struct that is live in
    [st'] is new or was live in [st], and a child of a live struct that
    is still live in [st'] is still registered there, with a live
    struct. *)
Definition carries (st st' : state) : Prop :=
  (length (heap st) <= length (heap st'))%nat
  /\ (forall p n', heap st' !! p = Some n' -> err n' = None ->
        (length (heap st) <= p)%nat
        \/ exists n, heap st !! p = Some n /\ err n = None)
  /\ (forall q m cs ch n',
        heap st !! q = Some m -> err m = None ->
        children m = Some cs -> ch ∈ cs ->
        (canceler_ptr ch < length (heap st))%nat ->
        heap st' !! canceler_ptr ch = Some n' -> err n' = None ->
        exists m' cs', heap st' !! q = Some m' /\ err m' = None
                       /\ children m' = Some cs' /\ ch ∈ cs').

(** The sample state after the cancel function of the first context has
    been called. *)
Definition canceled_world : world :=
  Eval vm_compute in
    match run (sample_trace ++ [OpCall 0%nat]) (init, []) with
    | Some w => w
    | None => (init, [])
    end.

(** Timers and the structs that hold them: a struct that holds a timer
    is not canceled and the timer is active and aimed at it; an active
    timer is held by the struct it is aimed at.  [y] is the timer, if
    any, that the runtime has just fired: it is stopped while the struct
    still holds it. *)
Definition held_but (y : option timer_id) (st : state) : Prop :=
  (forall p n t, heap st !! p = Some n -> timer n = Some t ->
     err n = None
     /\ exists r, timers st !! t = Some r
                  /\ (Some t <> y -> t_active r = true)
                  /\ canceler_ptr (t_target r) = p)
  /\ (forall t r, timers st !! t = Some r -> t_active r = true ->
        exists n, heap st !! canceler_ptr (t_target r) = Some n
                  /\ timer n = Some t).

Definition timers_held (st : state) : Prop := held_but None st.

(** What a cancellation does to the timers: timers are only stopped,
    and only together with the release by their holder; a struct keeps
    its timer only if its error is what it was.  [x] is the struct, if
    any, whose cancellation is under way and whose timer is still to be
    released. *)
Record tstep (x : option loc) (st st' : state) : Prop := {
  ts_heap : length (heap st') = length (heap st);
  ts_timers : length (timers st') = length (timers st);
  ts_rec : forall t r', timers st' !! t = Some r' ->
      exists r, timers st !! t = Some r /\ t_target r' = t_target r
                /\ (t_active r' = true -> t_active r = true);
  ts_node : forall p n', heap st' !! p = Some n' ->
      exists n, heap st !! p = Some n
        /\ (timer n' = None
            \/ (timer n' = timer n /\ (x <> Some p -> err n' = err n)));
  ts_stop : forall t r r', timers st !! t = Some r -> t_active r = true ->
      timers st' !! t = Some r' -> t_active r' = false ->
      exists p n n', heap st !! p = Some n /\ timer n = Some t
                     /\ heap st' !! p = Some n' /\ timer n' = None;
  ts_release : forall p n n' t, heap st !! p = Some n -> timer n = Some t ->
      heap st' !! p = Some n' -> timer n' = None ->
      exists r', timers st' !! t = Some r' /\ t_active r' = false
}.

(** * The framing codec of the TCP example ([netx/example/tcp.go])

    A frame is the length of the message as a little-endian [int32]
    followed by the bytes of the message.  [Decode] works on a
    [bufio.Reader]; of that type the fields and the three methods that
    [Decode] calls are modelled, over a connection that delivers its
    data in chunks and is closed by the peer afterwards. *)

Module netx.

Abbreviation byte := Byte.byte (only parsing).

Definition byte_of_Z (z : Z) : byte :=
  default Byte.x00 (Byte.of_N (Z.to_N (z mod 256))).
Definition Z_of_byte (b : byte) : Z := Z.of_N (Byte.to_N b).

(** [binary.LittleEndian.PutUint32(bs, uint32(v))] and
    [binary.LittleEndian.Uint32(bs)]. *)
Definition PutUint32 (v : Z) : list byte :=
  let u := v mod 2 ^ 32 in
  [byte_of_Z u; byte_of_Z (Z.shiftr u 8); byte_of_Z (Z.shiftr u 16);
   byte_of_Z (Z.shiftr u 24)].
Definition Uint32 (b0 b1 b2 b3 : byte) : Z :=
  Z.lor (Z.lor (Z.lor (Z_of_byte b0) (Z.shiftl (Z_of_byte b1) 8))
               (Z.shiftl (Z_of_byte b2) 16))
        (Z.shiftl (Z_of_byte b3) 24).

Inductive ioerr : Type :=
| EOF
| ErrUnexpectedEOF
| ErrBufferFull.

(** [Encode]: both writes go to a [bytes.Buffer] and cannot fail;
    [int32(len(msg))] wraps around. *)
Definition Encode (msg : list byte) : list byte * option ioerr :=
  let length := wrap32 (Z.of_nat (List.length msg)) in
  (PutUint32 length ++ msg, None).

(** A [bufio.Reader] of the default size: [rbuf] is the buffered data
    not yet read ([buf[r:w]]), [rerr] the pending error.  [rsrc] is what
    the connection below still delivers, one non-empty chunk per [Read],
    and [io.EOF] after the last. *)
Definition defaultBufSize : nat := 4096.

Record Reader : Type := {
  rbuf : list byte;
  rsrc : list (byte * list byte);
  rerr : option ioerr
}.

Definition chunk_bytes (c : byte * list byte) : list byte := c.1 :: c.2.

Definition push_chunk (data : list byte) (cs : list (byte * list byte))
  : list (byte * list byte) :=
  match data with
  | [] => cs
  | b :: t => (b, t) :: cs
  end.

(** The loop of [Peek]: [fill] as long as fewer than [n] bytes are
    buffered, the buffer is not full and no error is pending.  One
    [fill] is one [Read] of the connection into the free space. *)
Fixpoint fill_until (n : nat) (buf : list byte)
    (src : list (byte * list byte)) (e : option ioerr)
  : list byte * list (byte * list byte) * option ioerr :=
  if (List.length buf <? n)%nat && (List.length buf <? defaultBufSize)%nat
     && match e with Some _ => false | None => true end
  then match src with
       | [] => (buf, [], Some EOF)
       | c :: cs =>
           let free := (defaultBufSize - List.length buf)%nat in
           let data := chunk_bytes c in
           if (List.length data <=? free)%nat
           then fill_until n (buf ++ data) cs None
           else (buf ++ take free data, push_chunk (drop free data) cs, None)
       end
  else (buf, src, e).

Definition Peek (n : nat) (r : Reader) : (list byte * option ioerr) * Reader :=
  let '(buf, src, e) := fill_until n (rbuf r) (rsrc r) (rerr r) in
  if (defaultBufSize <? n)%nat
  then ((buf, Some ErrBufferFull), {| rbuf := buf; rsrc := src; rerr := e |})
  else if (List.length buf <? n)%nat
  then ((buf, Some (default ErrBufferFull e)),
        {| rbuf := buf; rsrc := src; rerr := None |})
  else ((take n buf, None), {| rbuf := buf; rsrc := src; rerr := e |}).

Definition Buffered (r : Reader) : Z := Z.of_nat (List.length (rbuf r)).

(** [Read(p)] with [len(p) = n]: the bytes copied to [p], the error and
    the reader afterwards. *)
Definition Read (n : nat) (r : Reader) : (list byte * option ioerr) * Reader :=
  if (n =? 0)%nat then
    match rbuf r with
    | [] => (([], rerr r),
             {| rbuf := []; rsrc := rsrc r; rerr := None |})
    | _ => (([], None), r)
    end
  else
    match rbuf r with
    | [] =>
        match rerr r with
        | Some e => (([], Some e),
                     {| rbuf := []; rsrc := rsrc r; rerr := None |})
        | None =>
            match rsrc r with
            | [] => (([], Some EOF), r)
            | c :: cs =>
                let data := chunk_bytes c in
                if (defaultBufSize <=? n)%nat then
                  ((take n data, None),
                   {| rbuf := []; rsrc := push_chunk (drop n data) cs;
                      rerr := None |})
                else
                  let inbuf := take defaultBufSize data in
                  ((take n inbuf, None),
                   {| rbuf := drop n inbuf;
                      rsrc := push_chunk (drop defaultBufSize data) cs;
                      rerr := None |})
            end
        end
    | buf => ((take n buf, None),
              {| rbuf := drop n buf; rsrc := rsrc r; rerr := rerr r |})
    end.

(** [Decode]: the result is the slice returned ([None] for nil) and the
    error.  [binary.Read] of an [int32] fails with [io.EOF] on no bytes
    and with [io.ErrUnexpectedEOF] on fewer than four; [make] panics on
    a negative length and [pack[4:]] on a slice shorter than four. *)
Definition Decode (r : Reader)
  : outcome ((option (list byte) * option ioerr) * Reader) :=
  let '((lenBytes, _), r1) := Peek 4 r in
  match lenBytes with
  | [] => Ok ((None, Some EOF), r1)
  | [b0; b1; b2; b3] =>
      let length := wrap32 (Uint32 b0 b1 b2 b3) in
      if wrap32 (Buffered r1) <? wrap32 (length + 4)
      then Ok ((None, None), r1)
      else if wrap32 (length + 4) <? 0
      then Panic "runtime error: makeslice: len out of range"
      else
        let n := Z.to_nat (wrap32 (length + 4)) in
        let '((got, e), r2) := Read n r1 in
        match e with
        | Some e => Ok ((None, Some e), r2)
        | None =>
            let pack := got ++ replicate (n - List.length got) Byte.x00 in
            if (n <? 4)%nat
            then Panic "runtime error: slice bounds out of range"
            else Ok ((Some (drop 4 pack), None), r2)
        end
  | _ => Ok ((None, Some ErrUnexpectedEOF), r1)
  end.

(** The loop of [processCode], as far as the reader is concerned: the
    slices it hands to [json.Unmarshal], one per round, until [Decode]
    reports an error.  What is printed for each slice is not
    modelled. *)
Fixpoint processCode (fuel : nat) (r : Reader)
  : outcome (list (option (list byte))) :=
  match fuel with
  | O => OutOfFuel
  | S fuel' =>
      match Decode r with
      | Ok ((_, Some _), _) => Ok []
      | Ok ((b, None), r') =>
          obind (processCode fuel' r') (fun l => Ok (b :: l))
      | Panic msg => Panic msg
      | OutOfFuel => OutOfFuel
      end
  end.


End netx.

(** Splits conjunctions only (records such as invariants stay whole). *)
Ltac splits :=
  repeat match goal with
    | |- ?G => let G' := eval hnf in G in
               match G' with _ /\ _ => split end
    end;
  try exact eq_refl.
(** * Value lookup *)

Lemma float64_eq_sym a b : float64_eq a b = float64_eq b a.
Proof.
  unfold float64_eq.
  rewrite (orb_comm (float64_isNaN a)), (andb_comm (float64_isZero a)).
  now rewrite Z.eqb_sym.
Qed.

Lemma any_eq_sym a : forall b, any_eq a b = any_eq b a.
Proof.
  induction a as [|x|x|x|x|x IH| |x]; intros [|y|y|y|y|y| |y]; simpl;
    try reflexivity.
  - now rewrite Z.eqb_sym.
  - now rewrite float64_eq_sym.
  - now rewrite String.eqb_sym.
  - apply IH.
  - now rewrite Nat.eqb_sym.
Qed.

(** A value that holds nothing of a non-comparable type can be compared
    with every value. *)
Lemma safe_key_compares a : forall b,
  safe_key a = true -> comparable_with a b = true.
Proof.
  unfold comparable_with.
  induction a as [|x|x|x|x|x IH| |x]; intros [|y|y|y|y|y| |y] H; simpl in *;
    try reflexivity; try discriminate.
  now apply IH.
Qed.

(** Such a value, if it holds no NaN either, is equal to itself. *)
Lemma any_eq_refl v : self_equal v = true -> any_eq v v = Ok true.
Proof.
  induction v as [|x|x|x|x|x IH| |x]; cbn [any_eq self_equal]; intros H.
  - reflexivity.
  - now rewrite Z.eqb_refl.
  - unfold float64_eq. apply negb_true_iff in H. rewrite H.
    cbn [orb]. destruct (float64_isZero x); cbn [andb]; [reflexivity|].
    now rewrite Z.eqb_refl.
  - now rewrite String.eqb_refl.
  - discriminate.
  - now apply IH.
  - reflexivity.
  - now rewrite Nat.eqb_refl.
Qed.

Lemma comparable_all k bs :
  safe_key k = true \/ forallb (fun kv => comparable_with k kv.1) bs = true ->
  forallb (fun kv : any * any => comparable_with k kv.1) bs = true.
Proof.
  intros [H|H]; [|exact H].
  apply forallb_forall. intros kv _. now apply safe_key_compares.
Qed.

Lemma Value_value c key : Value c key = value c key.
Proof.
  destruct c; simpl; try reflexivity.
  unfold valueCtx_Value. now rewrite any_eq_sym.
Qed.



Lemma WithValue_Ok parent key val c :
  WithValue (Some parent) key val = Ok c ->
  c = valueCtx parent key val /\ key <> nil_ /\ Comparable key = true.
Proof.
  unfold WithValue. destruct key; simpl; try discriminate;
    intros [= <-]; repeat split; congruence.
Qed.

Lemma bind_all_lookup root bs : forall c k,
  bind_all root bs = Ok c ->
  forallb (fun kv => comparable_with k kv.1) bs = true ->
  value c k = match nearest k bs with
              | Some v => Ok v
              | None => value root k
              end.
Proof.
  induction bs as [|[k' v] bs IH]; intros c k H Hc; simpl in *.
  - now injection H as <-.
  - destruct (bind_all root bs) as [c'| |] eqn:E; simpl in H; try discriminate.
    apply WithValue_Ok in H as (-> & _ & _). simpl.
    apply andb_prop in Hc as [Hc1 Hc2].
    unfold comparable_with in Hc1. unfold key_matches.
    destruct (any_eq k k') as [[|]| |]; simpl; try discriminate;
      [reflexivity | now apply IH].
Qed.

(** C5: in a chain of value-binding nodes built by [WithValue], a lookup
    of [k] whose comparisons with the keys of the chain do not panic
    (always so when [k] holds no value of a non-comparable type) returns
    the value of the nearest binding whose key is [==] to [k], the
    starting node included; when no node of the chain binds [k] the
    lookup continues in the root, and is nil above a leaf. *)
Theorem C5_lookup_nearest_binding root bs c k :
  bind_all root bs = Ok c ->
  (safe_key k = true
   \/ forallb (fun kv => comparable_with k kv.1) bs = true) ->
  Value c k = match nearest k bs with
              | Some v => Ok v
              | None => Value root k
              end
  /\ (forall b, root = emptyCtx b ->
        Value c k = Ok (default nil_ (nearest k bs))).
Proof.
  intros H Hc. apply comparable_all in Hc. rewrite !Value_value.
  pose proof (bind_all_lookup _ _ _ k H Hc) as E.
  split; [exact E|]. intros b ->. rewrite E.
  now destruct (nearest k bs).
Qed.

Lemma C5_witness :
  let bs := [(string_ "user", int_ 7); (int_ 3, string_ "x");
             (array1_ (slice_ [1]), int_ 0); (string_ "user", int_ 1)] in
  exists c, bind_all Background bs = Ok c
            /\ Value c (string_ "user") = Ok (int_ 7)
            /\ Value c (int_ 3) = Ok (string_ "x")
            /\ Value c (array1_ (int_ 4)) = Ok nil_.
Proof.
  eexists. split; [reflexivity|].
  pose proof (C5_lookup_nearest_binding Background
    [(string_ "user", int_ 7); (int_ 3, string_ "x");
     (array1_ (slice_ [1]), int_ 0); (string_ "user", int_ 1)]
    _ (string_ "user") eq_refl (or_introl eq_refl)) as [H1 _].
  pose proof (C5_lookup_nearest_binding Background
    [(string_ "user", int_ 7); (int_ 3, string_ "x");
     (array1_ (slice_ [1]), int_ 0); (string_ "user", int_ 1)]
    _ (int_ 3) eq_refl (or_introl eq_refl)) as [H2 _].
  pose proof (C5_lookup_nearest_binding Background
    [(string_ "user", int_ 7); (int_ 3, string_ "x");
     (array1_ (slice_ [1]), int_ 0); (string_ "user", int_ 1)]
    _ (array1_ (int_ 4)) eq_refl (or_intror eq_refl)) as [_ H3].
  split; [exact H1|]. split; [exact H2|]. exact (H3 false eq_refl).
Defined.

(** The claim as the specification words it fails: [WithValue] accepts
    the key [[1]any{[]int{1}}], whose type is comparable, and the lookup
    of that key panics in the comparison instead of returning the bound
    value; a binding whose key is a NaN is accepted too and is found by
    no lookup. *)
Lemma C5_counterexample :
  let k := array1_ (slice_ [1]) in
  let nan := float64_ NaN_bits in
  exists c c',
    bind_all Background [(k, int_ 7)] = Ok c
    /\ Value c k = Panic "runtime error: comparing uncomparable type []int"
    /\ bind_all Background [(nan, int_ 7)] = Ok c'
    /\ Value c' nan = Ok nil_.
Proof.
  eexists _, _.
  split; [reflexivity|]. split; [reflexivity|].
  split; [reflexivity|]. vm_compute. reflexivity.
Qed.

(** C10: [WithValue] does not look at the value: with any parent and any
    non-nil key of a comparable type it accepts a nil value.  When the
    key is equal to itself (it holds no value of a non-comparable type
    and no NaN), looking it up afterwards gives nil, which is also what
    a lookup gives where the key was never bound. *)
Theorem C10_WithValue_nil_value parent key :
  key <> nil_ -> Comparable key = true ->
  WithValue (Some parent) key nil_ = Ok (valueCtx parent key nil_)
  /\ (self_equal key = true ->
        Value (valueCtx parent key nil_) key = Ok nil_)
  /\ forall b, Value (emptyCtx b) key = Ok nil_.
Proof.
  intros Hnil Hcmp. split; [|split].
  - unfold WithValue. rewrite Hcmp. now destruct key.
  - intros Hs. simpl. unfold valueCtx_Value.
    now rewrite (any_eq_refl key Hs).
  - reflexivity.
Qed.

Lemma C10_witness :
  WithValue (Some Background) (string_ "k") nil_
    = Ok (valueCtx Background (string_ "k") nil_)
  /\ Value (valueCtx Background (string_ "k") nil_) (string_ "k") = Ok nil_
  /\ forall b, Value (emptyCtx b) (string_ "k") = Ok nil_.
Proof.
  destruct (C10_WithValue_nil_value Background (string_ "k"))
    as (H1 & H2 & H3); [discriminate | reflexivity|].
  split; [exact H1|]. split; [exact (H2 eq_refl) | exact H3].
Defined.

(** The claim as the specification words it fails for keys that are not
    equal to themselves: with the key [[1]any{[]int{1}}] the lookup
    panics, and with a NaN key the binding is passed over, so that the
    lookup returns what the parent answers. *)
Lemma C10_counterexample :
  let k := array1_ (slice_ [1]) in
  let nan := float64_ NaN_bits in
  let parent := foreignCtx {| f_Deadline := None; f_Done := None;
                              f_Err := None; f_Value := fun _ => int_ 1 |} in
  k <> nil_ /\ Comparable k = true
  /\ WithValue (Some Background) k nil_ = Ok (valueCtx Background k nil_)
  /\ Value (valueCtx Background k nil_) k
     = Panic "runtime error: comparing uncomparable type []int"
  /\ nan <> nil_ /\ Comparable nan = true
  /\ WithValue (Some parent) nan nil_ = Ok (valueCtx parent nan nil_)
  /\ Value (valueCtx parent nan nil_) nan = Ok (int_ 1).
Proof.
  intros k nan parent.
  split; [discriminate|]. split; [reflexivity|]. split; [reflexivity|].
  split; [reflexivity|]. split; [discriminate|]. split; [reflexivity|].
  split; [reflexivity|]. vm_compute. reflexivity.
Qed.

(** * Deadlines *)

Lemma Deadline_nearest c : native c = true -> Deadline c = nearest_deadline c.
Proof.
  unfold native, nearest_deadline.
  induction c; simpl; intros H; try reflexivity; try discriminate;
    apply IHc; exact H.
Qed.

(** The monad laws used to run a computation step by step. *)
Lemma bind_Ok {A B} (m : M A) (k : A -> M B) st a st' :
  m st = Ok (a, st') -> bind m k st = k a st'.
Proof. unfold bind. now intros ->. Qed.

Lemma bind_inv {A B} (m : M A) (k : A -> M B) st b st2 :
  bind m k st = Ok (b, st2) ->
  exists a st1, m st = Ok (a, st1) /\ k a st1 = Ok (b, st2).
Proof.
  unfold bind. destruct (m st) as [[a st1]| |]; try discriminate. eauto.
Qed.

Lemma WithCancel_shape parent st c f st' :
  WithCancel (Some parent) st = Ok ((c, f), st') ->
  c = cancelCtx parent (length (heap st)).
Proof.
  unfold WithCancel, newCancelCtx. intros H.
  apply bind_inv in H as (p & st1 & Hp & H).
  injection Hp as <- <-.
  apply bind_inv in H as ([] & st2 & _ & H).
  now injection H as <- _ _.
Qed.

(** C4, as the code has it: [Deadline] reports the deadline of the
    nearest deadline node on the path from the context to the root, the
    context itself included, and reports none only when that path has no
    deadline node.  A value-binding or plain cancelable context below a
    deadline node therefore reports that node's deadline; so does the
    plain cancelable context that [WithDeadline] returns when the
    parent's deadline is earlier than the requested one. *)
Theorem C4_Deadline_inherited :
  (forall c, native c = true -> Deadline c = nearest_deadline c)
  /\ (forall parent k v, Deadline (valueCtx parent k v) = Deadline parent)
  /\ (forall parent p, Deadline (cancelCtx parent p) = Deadline parent)
  /\ (forall b, Deadline (emptyCtx b) = None)
  /\ (forall parent p d, Deadline (timerCtx parent p d) = Some d)
  /\ (forall parent d now st c f st' cur,
        Deadline parent = Some cur -> cur < d ->
        WithDeadline (Some parent) d now st = Ok ((c, f), st') ->
        is_deadline_node c = false /\ Deadline c = Some cur).
Proof.
  split; [exact Deadline_nearest|].
  repeat split; try reflexivity.
  - unfold WithDeadline in H1. rewrite H in H1.
    apply Z.ltb_lt in H0. rewrite H0 in H1.
    apply WithCancel_shape in H1. now subst c.
  - unfold WithDeadline in H1. rewrite H in H1.
    apply Z.ltb_lt in H0. rewrite H0 in H1.
    apply WithCancel_shape in H1. now subst c.
Qed.

Lemma C4_witness :
  exists c f st',
    WithDeadline (Some (timerCtx Background 0%nat 100)) 200 0
      {| heap := [new_node]; chans := [true]; timers := []; goroutines := 0;
         waiters := [] |} = Ok ((c, f), st')
    /\ is_deadline_node c = false /\ Deadline c = Some 100.
Proof.
  eexists _, _, _. split; [vm_compute; reflexivity|].
  destruct C4_Deadline_inherited as (_ & _ & _ & _ & _ & H).
  eapply (H (timerCtx Background 0%nat 100) 200 0
            {| heap := [new_node]; chans := [true]; timers := [];
               goroutines := 0; waiters := [] |} _ _ _ 100);
    [reflexivity | lia | vm_compute; reflexivity].
Defined.

(** The claim as the specification words it fails: a plain cancelable
    context made by [WithDeadline] below a deadline node whose deadline
    is earlier reports that deadline. *)
Lemma C4_counterexample :
  exists parent f1 st1 c f st,
    WithDeadline (Some Background) 100 0 init = Ok ((parent, f1), st1)
    /\ WithDeadline (Some parent) 200 0 st1 = Ok ((c, f), st)
    /\ is_deadline_node c = false
    /\ Deadline c = Some 100.
Proof.
  eexists _, _, _, _, _, _.
  split; [vm_compute; reflexivity|].
  split; [vm_compute; reflexivity|].
  split; reflexivity.
Qed.

(** * The cancelable-ancestor lookup *)

Lemma chan_eq_true a b : chan_eq a b = true <-> a = b.
Proof.
  destruct a, b; simpl; split; try discriminate; try reflexivity.
  - intros H. apply Nat.eqb_eq in H. now subst.
  - intros [= ->]. apply Nat.eqb_refl.
Qed.

Lemma chan_eq_false a b : chan_eq a b = false <-> a <> b.
Proof.
  rewrite <- chan_eq_true. destruct (chan_eq a b); split; congruence.
Qed.

Lemma lift_Ok {A} (o : outcome A) (a : A) st :
  o = Ok a -> lift o st = Ok (a, st).
Proof. now intros ->. Qed.

Lemma load_Ok p st n : heap st !! p = Some n -> load p st = Ok (n, st).
Proof. unfold load. now intros ->. Qed.

Lemma load_inv p st n st' :
  load p st = Ok (n, st') -> heap st !! p = Some n /\ st' = st.
Proof.
  unfold load. destruct (heap st !! p); [|discriminate].
  now intros [= -> ->].
Qed.

Lemma parentCancelCtx_cases parent st d st1 :
  Done parent st = Ok (d, st1) ->
  (d = None \/ d = Some closedchan ->
     parentCancelCtx parent st = Ok (None, st1))
  /\ (d <> None -> d <> Some closedchan ->
      forall p,
        parentCancelCtx parent st = Ok (Some p, st1)
        <-> Value parent ptr_cancelCtxKey = Ok (ptr_cancelCtx p)
            /\ exists n, heap st1 !! p = Some n /\ done n = d).
Proof.
  intros HD. unfold parentCancelCtx. rewrite (bind_Ok _ _ _ _ _ HD).
  split.
  - intros [-> | ->]; reflexivity.
  - intros Hnil Hcc p.
    apply chan_eq_false in Hnil, Hcc. rewrite Hnil, Hcc. simpl.
    unfold bind at 1.
    destruct (Value parent ptr_cancelCtxKey) as [v | |] eqn:EV; simpl;
      [|split; [discriminate | intros [[=] _]]..].
    destruct v; try (split; [discriminate | intros [[=] _]]).
    unfold bind, load.
    destruct (heap st1 !! p0) as [n|] eqn:En;
      [|split; [discriminate | intros [[= <-] (n & Hn & _)]; congruence]].
    destruct (chan_eq (done n) d) eqn:Ec; simpl.
    + apply chan_eq_true in Ec. split.
      * intros [= <-]. eauto.
      * intros [[= <-] _]. reflexivity.
    + apply chan_eq_false in Ec. split; [discriminate|].
      intros [[= <-] (n' & Hn' & Hd)]. congruence.
Qed.


(** C3, as the code has it: the lookup answers "not found" when the
    parent's [Done] channel is nil or is the shared [closedchan]; a
    channel that an observer obtained first and that was closed later is
    not recognised.  In every other case it succeeds with [p] exactly
    when the walk by the internal key ends in the [cancelCtx] at [p] and
    the [done] field of that struct holds the channel the parent's
    [Done] returned. *)
Theorem C3_parentCancelCtx parent st d st1 :
  Done parent st = Ok (d, st1) ->
  (d = None \/ d = Some closedchan ->
     parentCancelCtx parent st = Ok (None, st1))
  /\ (d <> None -> d <> Some closedchan ->
      forall p,
        parentCancelCtx parent st = Ok (Some p, st1)
        <-> Value parent ptr_cancelCtxKey = Ok (ptr_cancelCtx p)
            /\ exists n, heap st1 !! p = Some n /\ done n = d).
Proof. apply parentCancelCtx_cases. Qed.

Lemma C3_witness :
  let st := {| heap := [{| done := Some 1%nat; children := None;
                           err := None; timer := None |}];
               chans := [true; false]; timers := []; goroutines := 0;
               waiters := [] |} in
  parentCancelCtx (valueCtx (cancelCtx Background 0%nat) (int_ 1) (int_ 2)) st
    = Ok (Some 0%nat, st)
  /\ parentCancelCtx Background st = Ok (None, st).
Proof.
  intros st. split.
  - apply (C3_parentCancelCtx
             (valueCtx (cancelCtx Background 0%nat) (int_ 1) (int_ 2))
             st (Some 1%nat) st eq_refl).
    + discriminate.
    + discriminate.
    + split; [reflexivity|]. eexists. split; reflexivity.
  - apply (C3_parentCancelCtx Background st None st eq_refl). now left.
Defined.

(** The claim as the specification words it fails: a context whose
    [Done] channel was handed out before the cancellation has a closed
    channel that is not [closedchan], and the lookup finds it. *)
Lemma C3_counterexample :
  exists c f st1 d st2 st3,
    WithCancel (Some Background) init = Ok ((c, f), st1)
    /\ Done c st1 = Ok (Some d, st2)
    /\ call f st2 = Ok (tt, st3)
    /\ Done c st3 = Ok (Some d, st3)
    /\ is_closed st3 d = true
    /\ parentCancelCtx c st3 = Ok (Some 0%nat, st3).
Proof.
  eexists _, _, _, _, _, _.
  split; [vm_compute; reflexivity|].
  split; [vm_compute; reflexivity|].
  split; [vm_compute; reflexivity|].
  split; [vm_compute; reflexivity|].
  split; vm_compute; reflexivity.
Qed.

(** * The store: effect of the primitive steps *)

Lemma set_done_Ok p d st n :
  heap st !! p = Some n -> set_done p d st = Ok (tt, upd p (with_done n d) st).
Proof. intros H. unfold set_done, bind. now rewrite (load_Ok _ _ _ H). Qed.

Lemma set_children_Ok p cs st n :
  heap st !! p = Some n ->
  set_children p cs st = Ok (tt, upd p (with_children n cs) st).
Proof. intros H. unfold set_children, bind. now rewrite (load_Ok _ _ _ H). Qed.

Lemma set_err_Ok p e st n :
  heap st !! p = Some n -> set_err p e st = Ok (tt, upd p (with_err n e) st).
Proof. intros H. unfold set_err, bind. now rewrite (load_Ok _ _ _ H). Qed.

Lemma set_timer_Ok p t st n :
  heap st !! p = Some n ->
  set_timer p t st = Ok (tt, upd p (with_timer n t) st).
Proof. intros H. unfold set_timer, bind. now rewrite (load_Ok _ _ _ H). Qed.

Lemma heap_upd p n st : heap (upd p n st) = <[p := n]> (heap st).
Proof. reflexivity. Qed.

Lemma lookup_upd p n st q m :
  heap (upd p n st) !! q = Some m <->
  (p = q /\ n = m /\ (q < length (heap st))%nat)
  \/ (p <> q /\ heap st !! q = Some m).
Proof. apply list_lookup_insert_Some. Qed.

Lemma lookup_upd_eq p n st m :
  heap st !! p = Some m -> heap (upd p n st) !! p = Some n.
Proof.
  intros H. apply lookup_upd. left. splits.
  now apply lookup_lt_Some in H.
Qed.

Lemma lookup_upd_ne p n st q : p <> q -> heap (upd p n st) !! q = heap st !! q.
Proof. intros H. now apply list_lookup_insert_ne. Qed.

Lemma is_closed_close st d e :
  (d < length (chans st))%nat ->
  is_closed (set_chans (<[d := true]> (chans st)) st) e
  = if decide (d = e) then true else is_closed st e.
Proof.
  intros Hd. unfold is_closed. simpl. case_decide as E.
  - subst e. now rewrite list_lookup_insert_eq.
  - now rewrite list_lookup_insert_ne.
Qed.

Lemma is_closed_make st e :
  is_closed (set_chans (chans st ++ [false]) st) e = is_closed st e.
Proof.
  unfold is_closed. simpl.
  destruct (decide (e < length (chans st))%nat) as [Hlt|Hge].
  - now rewrite lookup_app_l.
  - rewrite (lookup_ge_None_2 (chans st)) by lia.
    rewrite lookup_app_r by lia.
    destruct (e - length (chans st))%nat as [|k]; [reflexivity|].
    now destruct k.
Qed.

Lemma is_closed_lt st d : is_closed st d = true -> (d < length (chans st))%nat.
Proof.
  unfold is_closed. destruct (chans st !! d) eqn:E; [|discriminate].
  intros _. now apply lookup_lt_Some in E.
Qed.

(** ** Bounded contexts *)

Lemma ptr_bounded_mono n m v :
  (n <= m)%nat -> ptr_bounded n v = true -> ptr_bounded m v = true.
Proof.
  destruct v; simpl; try reflexivity. intros Hle H.
  apply Nat.ltb_lt in H. apply Nat.ltb_lt. lia.
Qed.

Lemma bounded_mono n m c :
  (n <= m)%nat -> bounded n c = true -> bounded m c = true.
Proof.
  intros Hle. induction c; simpl; try reflexivity.
  - intros [H1 H2]%andb_prop. apply andb_true_intro.
    split; [now apply (ptr_bounded_mono n) | now apply IHc].
  - intros [H1 H2]%andb_prop. apply andb_true_intro.
    split; [|now apply IHc]. apply Nat.ltb_lt in H1. apply Nat.ltb_lt. lia.
  - intros [H1 H2]%andb_prop. apply andb_true_intro.
    split; [|now apply IHc]. apply Nat.ltb_lt in H1. apply Nat.ltb_lt. lia.
  - now apply ptr_bounded_mono.
Qed.

(** Looking up the internal key never panics, and what it returns is
    allocated. *)
Lemma value_key_bounded n c :
  bounded n c = true ->
  exists v, value c ptr_cancelCtxKey = Ok v /\ ptr_bounded n v = true.
Proof.
  induction c; simpl.
  - intros _. now exists nil_.
  - intros [H1 H2]%andb_prop.
    destruct key; simpl; try (now apply IHc).
    now exists val.
  - intros [H1 H2]%andb_prop. now exists (ptr_cancelCtx p).
  - intros [H1 H2]%andb_prop. now exists (ptr_cancelCtx p).
  - intros H. now eexists.
Qed.

Lemma Value_key_bounded n c p :
  bounded n c = true ->
  Value c ptr_cancelCtxKey = Ok (ptr_cancelCtx p) -> (p < n)%nat.
Proof.
  intros Hb. rewrite Value_value.
  destruct (value_key_bounded n c Hb) as (v & -> & Hv).
  intros [= ->]. now apply Nat.ltb_lt in Hv.
Qed.

(** ** [Done] *)

Lemma peek_Done_Some c st d :
  peek_Done (heap st) c = Some d -> Done c st = Ok (Some d, st).
Proof.
  induction c; simpl; try discriminate; try assumption.
  - unfold cancelCtx_Done, bind, load. destruct (heap st !! p); [|discriminate].
    simpl. now intros ->.
  - unfold cancelCtx_Done, bind, load. destruct (heap st !! p); [|discriminate].
    simpl. now intros ->.
  - now intros ->.
Qed.

Lemma cancelCtx_Done_None p st n :
  heap st !! p = Some n -> done n = None ->
  cancelCtx_Done p st = Ok (Some (length (chans st)), made_done p n st).
Proof.
  intros H Hd. unfold cancelCtx_Done, bind. rewrite (load_Ok _ _ _ H), Hd.
  unfold make_chan.
  erewrite set_done_Ok; [reflexivity | exact H].
Qed.

Lemma Done_cases c st :
  bounded (length (heap st)) c = true ->
  (Done c st = Ok (peek_Done (heap st) c, st))
  \/ (exists p n, heap st !! p = Some n /\ done n = None
        /\ peek_Done (heap st) c = None
        /\ peek_Done (heap (made_done p n st)) c = Some (length (chans st))
        /\ Done c st = Ok (Some (length (chans st)), made_done p n st)).
Proof.
  induction c; simpl; intros Hb.
  - now left.
  - apply andb_prop in Hb as [_ Hb]. now apply IHc.
  - apply andb_prop in Hb as [Hp _]. apply Nat.ltb_lt in Hp.
    destruct (lookup_lt_is_Some_2 _ _ Hp) as [n Hn]. rewrite Hn. simpl.
    destruct (done n) as [d|] eqn:Ed.
    + left. unfold cancelCtx_Done, bind. now rewrite (load_Ok _ _ _ Hn), Ed.
    + right. exists p, n. splits; try assumption.
      * rewrite list_lookup_insert_eq by (eapply lookup_lt_Some; exact Hn).
        reflexivity.
      * now apply cancelCtx_Done_None.
  - apply andb_prop in Hb as [Hp _]. apply Nat.ltb_lt in Hp.
    destruct (lookup_lt_is_Some_2 _ _ Hp) as [n Hn]. rewrite Hn. simpl.
    destruct (done n) as [d|] eqn:Ed.
    + left. unfold cancelCtx_Done, bind. now rewrite (load_Ok _ _ _ Hn), Ed.
    + right. exists p, n. splits; try assumption.
      * rewrite list_lookup_insert_eq by (eapply lookup_lt_Some; exact Hn).
        reflexivity.
      * now apply cancelCtx_Done_None.
  - now left.
Qed.

(** [done] fields are written once, so an answer of [peek_Done] stays. *)
Lemma peek_Done_stable h h' c d :
  (forall p n e, h !! p = Some n -> done n = Some e ->
     exists n', h' !! p = Some n' /\ done n' = Some e) ->
  peek_Done h c = Some d -> peek_Done h' c = Some d.
Proof.
  intros Hm. induction c; simpl; try discriminate; try assumption.
  - destruct (h !! p) as [n|] eqn:E; [|discriminate]. simpl. intros Hd.
    destruct (Hm _ _ _ E Hd) as (n' & -> & Hd'). exact Hd'.
  - destruct (h !! p) as [n|] eqn:E; [|discriminate]. simpl. intros Hd.
    destruct (Hm _ _ _ E Hd) as (n' & -> & Hd'). exact Hd'.
  - auto.
Qed.

(** ** [tracked] *)

Lemma tracked_false st p :
  tracked st p = false <->
  forall q n cs ch, heap st !! q = Some n -> children n = Some cs ->
                    ch ∈ cs -> canceler_ptr ch <> p.
Proof.
  unfold tracked. split.
  - intros H q n cs ch Hq Hcs Hin Heq.
    assert (existsb (fun n => existsb (fun ch => Nat.eqb (canceler_ptr ch) p)
                        (default [] (children n))) (heap st) = true) as C.
    { apply existsb_exists. exists n. split.
      - apply list_elem_of_In. eapply list_elem_of_lookup_2; eauto.
      - rewrite Hcs. simpl. apply existsb_exists. exists ch. split.
        + now apply list_elem_of_In.
        + now apply Nat.eqb_eq. }
    congruence.
  - intros H. apply not_true_is_false. intros C.
    apply existsb_exists in C as (n & Hn & C).
    apply existsb_exists in C as (ch & Hch & C).
    apply list_elem_of_In in Hn, Hch.
    apply list_elem_of_lookup_1 in Hn as [q Hq].
    destruct (children n) as [cs|] eqn:Ecs; simpl in Hch.
    + apply Nat.eqb_eq in C. exact (H q n cs ch Hq Ecs Hch C).
    + inversion Hch.
Qed.

(** * Preservation of the invariant by one struct update *)

Lemma lives_upd_ne st p n' q :
  p <> q -> lives st q -> lives (upd p n' st) q.
Proof.
  intros Hne (m & Hm & He). exists m. split; [|exact He].
  now rewrite lookup_upd_ne.
Qed.

(** The parent a child is registered with was allocated before it. *)
Lemma pinv_child_lt hs x st p n cs ch :
  pinv hs x st ->
  heap st !! p = Some n -> children n = Some cs -> ch ∈ cs ->
  (p < canceler_ptr ch)%nat.
Proof.
  intros I Hp Hcs Hin.
  destruct (pi_child _ _ _ I _ _ _ _ Hp Hcs Hin) as (Hh & Hv & _).
  destruct (pi_hs _ _ _ I _ _ Hh) as [_ Hb].
  exact (Value_key_bounded _ _ _ Hb Hv).
Qed.

Lemma pinv_step hs x st st' p n n' :
  pinv hs x st ->
  heap st !! p = Some n ->
  heap st' = <[p := n']> (heap st) ->
  timers st' = timers st ->
  waiters st' = waiters st ->
  (length (chans st) <= length (chans st'))%nat ->
  is_closed st' closedchan = true ->
  (forall q m d, q <> p -> heap st !! q = Some m -> done m = Some d ->
     is_closed st' d = is_closed st d) ->
  (forall d, done n = Some d -> done n' = Some d) ->
  (forall d, done n' = Some d ->
     (d < length (chans st'))%nat
     /\ (is_closed st' d = true <-> err n' <> None)) ->
  (forall d q m, done n = None -> done n' = Some d -> q <> p ->
     heap st !! q = Some m -> done m = Some d -> d = closedchan) ->
  (err n' <> None -> done n' <> None) ->
  (err n' <> None -> err n = None ->
   forall q m cs ch, heap st !! q = Some m -> children m = Some cs ->
     ch ∈ cs -> canceler_ptr ch = p -> err m = None -> x = Some p) ->
  (forall cs ch, children n' = Some cs -> ch ∈ cs ->
     hs !! canceler_ptr ch = Some ch
     /\ Value (canceler_parent ch) ptr_cancelCtxKey = Ok (ptr_cancelCtx p)
     /\ (exists d, done n' = Some d /\ d <> closedchan
           /\ peek_Done (heap st) (canceler_parent ch) = Some d)
     /\ (err n' = None ->
         lives st (canceler_ptr ch) \/ x = Some (canceler_ptr ch))
     /\ (forall parent child, (parent, child) ∈ waiters st ->
           canceler_ptr child <> canceler_ptr ch)) ->
  (forall cs, children n' = Some cs -> NoDup (canceler_ptr <$> cs)) ->
  (forall t, timer n' = Some t ->
     (t < length (timers st))%nat
     /\ exists parent d, hs !! p = Some (timerCtx_ parent p d)) ->
  pinv hs x st'.
Proof.
  intros I Hp Hheap Htim Hwait Hlen Hcc Hoth Hdone Hdone' Hfresh Herr Hdies
         Hch Hnd Htm.
  assert (Hlook : forall q m, heap st' !! q = Some m ->
            (p = q /\ n' = m) \/ (p <> q /\ heap st !! q = Some m)).
  { intros q m. rewrite Hheap. intros H.
    apply list_lookup_insert_Some in H. tauto. }
  assert (Hstable : forall c d, peek_Done (heap st) c = Some d ->
                                peek_Done (heap st') c = Some d).
  { intros c d. apply peek_Done_stable. intros q m e Hq He.
    destruct (decide (q = p)) as [->|Hne].
    - exists n'. split.
      + rewrite Hheap. apply list_lookup_insert_eq.
        now apply lookup_lt_Some in Hp.
      + apply Hdone. congruence.
    - exists m. split; [|exact He].
      rewrite Hheap. now rewrite list_lookup_insert_ne. }
  assert (Hlives : forall q, q <> p -> lives st q -> lives st' q).
  { intros q Hne (m & Hm & He). exists m. split; [|exact He].
    rewrite Hheap. now rewrite list_lookup_insert_ne. }
  split.
  - rewrite Hheap, length_insert. apply (pi_len _ _ _ I).
  - apply (pi_hs _ _ _ I).
  - exact Hcc.
  - intros q m d Hq Hd. destruct (Hlook _ _ Hq) as [[-> <-]|[Hne Hq']].
    + now apply Hdone'.
    + destruct (pi_done _ _ _ I _ _ _ Hq' Hd) as [H1 H2]. split; [lia|].
      rewrite (Hoth q m d); auto.
  - intros q m Hq He. destruct (Hlook _ _ Hq) as [[-> <-]|[Hne Hq']].
    + now apply Herr.
    + exact (pi_err _ _ _ I _ _ Hq' He).
  - intros q1 q2 m1 m2 d H1 H2 Hd1 Hd2.
    destruct (Hlook _ _ H1) as [[-> <-]|[Hne1 H1']];
      destruct (Hlook _ _ H2) as [[-> <-]|[Hne2 H2']].
    + now left.
    + destruct (done n) as [d0|] eqn:Ed.
      * assert (d0 = d) as -> by (specialize (Hdone _ eq_refl); congruence).
        exact (pi_uniq _ _ _ I _ _ _ _ _ Hp H2' Ed Hd2).
      * right. eapply (Hfresh d q2 m2); eauto.
    + destruct (done n) as [d0|] eqn:Ed.
      * assert (d0 = d) as -> by (specialize (Hdone _ eq_refl); congruence).
        exact (pi_uniq _ _ _ I _ _ _ _ _ H1' Hp Hd1 Ed).
      * right. eapply (Hfresh d q1 m1); eauto.
    + exact (pi_uniq _ _ _ I _ _ _ _ _ H1' H2' Hd1 Hd2).
  - intros q m cs ch Hq Hcs Hin.
    destruct (Hlook _ _ Hq) as [[-> <-]|[Hne Hq']].
    + destruct (Hch _ _ Hcs Hin) as (H1 & H2 & (d & H3 & H4 & H5) & _).
      split; [exact H1|]. split; [exact H2|]. exists d. auto.
    + destruct (pi_child _ _ _ I _ _ _ _ Hq' Hcs Hin)
        as (H1 & H2 & d & H3 & H4 & H5).
      split; [exact H1|]. split; [exact H2|]. exists d. auto.
  - intros q m cs Hq Hcs. destruct (Hlook _ _ Hq) as [[-> <-]|[Hne Hq']].
    + now apply Hnd.
    + exact (pi_nodup _ _ _ I _ _ _ Hq' Hcs).
  - intros q m cs ch Hq Hcs Hin He.
    destruct (Hlook _ _ Hq) as [[-> <-]|[Hne Hq']].
    + destruct (Hch _ _ Hcs Hin) as (H1 & H2 & _ & H4 & _).
      destruct (H4 He) as [Hl|Hx]; [|now right]. left.
      apply Hlives; [|exact Hl].
      destruct (pi_hs _ _ _ I _ _ H1) as [_ Hb].
      pose proof (Value_key_bounded _ _ _ Hb H2). lia.
    + destruct (pi_live _ _ _ I _ _ _ _ Hq' Hcs Hin He) as [Hl|Hx];
        [|now right].
      destruct (decide (canceler_ptr ch = p)) as [Heq|Hne'].
      * destruct (err n') as [e'|] eqn:Ee.
        -- right. rewrite Heq. destruct Hl as (n0 & Hn0 & He0).
           rewrite Heq in Hn0. assert (n0 = n) as -> by congruence.
           apply (Hdies ltac:(discriminate) He0 q m cs ch Hq' Hcs Hin Heq He).
        -- left. exists n'. split; [|exact Ee]. rewrite Heq, Hheap.
           apply list_lookup_insert_eq. now apply lookup_lt_Some in Hp.
      * left. now apply Hlives.
  - intros q m t Hq Ht. destruct (Hlook _ _ Hq) as [[-> <-]|[Hne Hq']].
    + rewrite Htim. now apply Htm.
    + rewrite Htim. exact (pi_timer _ _ _ I _ _ _ Hq' Ht).
  - intros t r. rewrite Htim. apply (pi_timers _ _ _ I).
  - intros parent child. rewrite Hwait. intros Hw.
    destruct (pi_waiters _ _ _ I _ _ Hw) as (H1 & H2 & H3).
    split; [exact H1|]. split; [exact H2|].
    apply tracked_false. intros q m cs ch Hq Hcs Hin.
    destruct (Hlook _ _ Hq) as [[-> <-]|[Hne Hq']].
    + destruct (Hch _ _ Hcs Hin) as (_ & _ & _ & _ & H5).
      intros Heq. exact (H5 _ _ Hw (eq_sym Heq)).
    + rewrite tracked_false in H3. exact (H3 _ _ _ _ Hq' Hcs Hin).
Qed.

(** ** The updates the package performs *)

Lemma is_closed_upd p n st d : is_closed (upd p n st) d = is_closed st d.
Proof. reflexivity. Qed.

Lemma pinv_live_no_done_err hs x st p n :
  pinv hs x st -> heap st !! p = Some n -> done n = None -> err n = None.
Proof.
  intros I Hp Hd. destruct (err n) eqn:E; [|reflexivity].
  exfalso. apply (pi_err _ _ _ I _ _ Hp); congruence.
Qed.

Lemma pinv_children_done hs x st p n cs ch :
  pinv hs x st -> heap st !! p = Some n -> children n = Some cs -> ch ∈ cs ->
  exists d, done n = Some d /\ d <> closedchan.
Proof.
  intros I Hp Hcs Hin.
  destruct (pi_child _ _ _ I _ _ _ _ Hp Hcs Hin) as (_ & _ & d & H1 & H2 & _).
  eauto.
Qed.

Lemma pinv_tracked_no_waiter hs x st p n cs ch parent child :
  pinv hs x st -> heap st !! p = Some n -> children n = Some cs -> ch ∈ cs ->
  (parent, child) ∈ waiters st -> canceler_ptr child <> canceler_ptr ch.
Proof.
  intros I Hp Hcs Hin Hw Heq.
  destruct (pi_waiters _ _ _ I _ _ Hw) as (_ & _ & Ht).
  rewrite tracked_false in Ht. exact (Ht _ _ _ _ Hp Hcs Hin (eq_sym Heq)).
Qed.

(** Conditions of [pinv_step] on the children, for an update that keeps
    the [done] and [err] fields and only drops children. *)
Lemma pinv_step_children_sub hs x st p n (cs' : option (list canceler)) :
  pinv hs x st -> heap st !! p = Some n ->
  (forall cs0 ch, cs' = Some cs0 -> ch ∈ cs0 ->
     exists cs, children n = Some cs /\ ch ∈ cs) ->
  forall cs0 ch, cs' = Some cs0 -> ch ∈ cs0 ->
     hs !! canceler_ptr ch = Some ch
     /\ Value (canceler_parent ch) ptr_cancelCtxKey = Ok (ptr_cancelCtx p)
     /\ (exists d, done n = Some d /\ d <> closedchan
           /\ peek_Done (heap st) (canceler_parent ch) = Some d)
     /\ (err n = None ->
         lives st (canceler_ptr ch) \/ x = Some (canceler_ptr ch))
     /\ (forall parent child, (parent, child) ∈ waiters st ->
           canceler_ptr child <> canceler_ptr ch).
Proof.
  intros I Hp Hsub cs0 ch E Hin.
  destruct (Hsub _ _ E Hin) as (cs & Hcs & Hin').
  destruct (pi_child _ _ _ I _ _ _ _ Hp Hcs Hin') as (H1 & H2 & H3).
  split; [exact H1|]. split; [exact H2|]. split; [exact H3|]. split.
  - intros He. exact (pi_live _ _ _ I _ _ _ _ Hp Hcs Hin' He).
  - intros parent child Hw.
    exact (pinv_tracked_no_waiter _ _ _ _ _ _ _ _ _ I Hp Hcs Hin' Hw).
Qed.

Lemma pinv_made_done hs x st p n :
  pinv hs x st -> heap st !! p = Some n -> done n = None ->
  pinv hs x (made_done p n st).
Proof.
  intros I Hp Hd.
  pose proof (pinv_live_no_done_err _ _ _ _ _ I Hp Hd) as He.
  apply (pinv_step hs x st (made_done p n st) p n
           (with_done n (Some (length (chans st)))) I Hp
           eq_refl eq_refl eq_refl).
  - simpl. rewrite length_app. lia.
  - unfold made_done. rewrite is_closed_upd, is_closed_make.
    apply (pi_cc _ _ _ I).
  - intros q m d _ _ _. unfold made_done.
    now rewrite is_closed_upd, is_closed_make.
  - intros d. congruence.
  - simpl. intros d [= <-]. split.
    + rewrite length_app. simpl. lia.
    + unfold made_done. rewrite is_closed_upd, is_closed_make. rewrite He.
      split; [|congruence]. intros C. apply is_closed_lt in C. lia.
  - simpl. intros d q m _ [= <-] _ Hq Hm.
    destruct (pi_done _ _ _ I _ _ _ Hq Hm) as [C _]. lia.
  - simpl. congruence.
  - simpl. congruence.
  - simpl. intros cs ch Hcs Hin.
    destruct (pinv_children_done _ _ _ _ _ _ _ I Hp Hcs Hin) as (d & C & _).
    congruence.
  - simpl. intros cs0; apply (pi_nodup _ _ _ I _ _ cs0 Hp).
  - simpl. intros t0; apply (pi_timer _ _ _ I _ _ t0 Hp).
Qed.

Lemma pinv_mark hs x st p n e :
  pinv hs x st -> heap st !! p = Some n -> err n = None ->
  (forall q m cs ch, heap st !! q = Some m -> children m = Some cs ->
     ch ∈ cs -> canceler_ptr ch = p -> err m = None -> x = Some p) ->
  pinv hs x (mark_state p n e st).
Proof.
  intros I Hp He Hx.
  assert (Hopen : forall d, done n = Some d ->
            is_closed st d = false /\ (d < length (chans st))%nat
            /\ d <> closedchan).
  { intros d Hd. destruct (pi_done _ _ _ I _ _ _ Hp Hd) as [H1 H2].
    assert (is_closed st d = false) as Hc.
    { destruct (is_closed st d); [|reflexivity].
      exfalso. now apply H2. }
    splits; try assumption. intros ->.
    rewrite (pi_cc _ _ _ I) in Hc. discriminate. }
  assert (Hcl : forall d', is_closed (mark_state p n e st) d' = true <->
            is_closed st d' = true \/ done n = Some d').
  { intros d'. unfold mark_state. rewrite is_closed_upd.
    destruct (done n) as [d|] eqn:Ed.
    - destruct (Hopen d eq_refl) as (_ & Hlt & _).
      rewrite (is_closed_close st d d' Hlt). case_decide; subst.
      + split; auto.
      + split; [auto|]. intros [H0|[= H0]]; congruence.
    - split; [auto|]. intros [H0|H0]; congruence. }
  assert (Hh : heap (mark_state p n e st) = <[p := mark n e]> (heap st))
    by (unfold mark_state; destruct (done n); reflexivity).
  assert (Ht : timers (mark_state p n e st) = timers st)
    by (unfold mark_state; destruct (done n); reflexivity).
  assert (Hw : waiters (mark_state p n e st) = waiters st)
    by (unfold mark_state; destruct (done n); reflexivity).
  apply (pinv_step hs x st _ p n (mark n e) I Hp Hh Ht Hw).
  - unfold mark_state. destruct (done n); simpl; [|lia].
    rewrite length_insert. lia.
  - apply Hcl. left. apply (pi_cc _ _ _ I).
  - intros q m d Hne Hq Hm.
    destruct (is_closed st d) eqn:E.
    + apply Hcl. now left.
    + apply not_true_is_false. intros C. apply Hcl in C as [C|C]; [congruence|].
      destruct (pi_uniq _ _ _ I _ _ _ _ _ Hp Hq C Hm) as [? | ->]; [congruence|].
      destruct (Hopen _ C) as (_ & _ & ?). congruence.
  - simpl. intros d ->. reflexivity.
  - simpl. intros d [= <-]. split.
    + unfold mark_state. destruct (done n) as [d|] eqn:Ed; simpl.
      * rewrite length_insert. now destruct (Hopen d eq_refl) as (_ & ? & _).
      * pose proof (is_closed_lt _ _ (pi_cc _ _ _ I)). exact H.
    + split; [congruence|]. intros _. apply Hcl.
      destruct (done n); simpl; [now right|left; apply (pi_cc _ _ _ I)].
  - simpl. intros d q m Hd [= <-]. rewrite Hd. reflexivity.
  - simpl. congruence.
  - intros _ _. exact Hx.
  - simpl. intros cs ch Hcs Hin.
    destruct (pi_child _ _ _ I _ _ _ _ Hp Hcs Hin)
      as (H1 & H2 & d & H3 & H4 & H5).
    split; [exact H1|]. split; [exact H2|]. split.
    + exists d. rewrite H3. simpl. auto.
    + split; [congruence|]. intros parent child Hw0.
      exact (pinv_tracked_no_waiter _ _ _ _ _ _ _ _ _ I Hp Hcs Hin Hw0).
  - simpl. intros cs0; apply (pi_nodup _ _ _ I _ _ cs0 Hp).
  - simpl. intros t0; apply (pi_timer _ _ _ I _ _ t0 Hp).
Qed.

(** Dropping children: clearing the map or deleting one key. *)
Lemma pinv_drop_children hs x st p n (cs' : option (list canceler)) :
  pinv hs x st -> heap st !! p = Some n ->
  (forall cs0, cs' = Some cs0 ->
     exists cs, children n = Some cs /\ cs0 `sublist_of` cs) ->
  pinv hs x (upd p (with_children n cs') st).
Proof.
  intros I Hp Hsub.
  apply (pinv_step hs x st (upd p (with_children n cs') st) p n
           (with_children n cs') I Hp eq_refl eq_refl eq_refl); simpl.
  - lia.
  - apply (pi_cc _ _ _ I).
  - auto.
  - auto.
  - intros d0; apply (pi_done _ _ _ I _ _ d0 Hp).
  - congruence.
  - apply (pi_err _ _ _ I _ _ Hp).
  - congruence.
  - apply (pinv_step_children_sub hs x st p n cs' I Hp).
    intros cs0 ch E Hin. destruct (Hsub _ E) as (cs & Hcs & Hs).
    exists cs. split; [exact Hcs|]. eapply elem_of_sublist; eauto.
  - intros cs0 E. destruct (Hsub _ E) as (cs & Hcs & Hs).
    eapply sublist_NoDup; [exact (pi_nodup _ _ _ I _ _ _ Hp Hcs)|].
    now apply fmap_sublist.
  - intros t0; apply (pi_timer _ _ _ I _ _ t0 Hp).
Qed.

Lemma pinv_clear_timer hs x st p n :
  pinv hs x st -> heap st !! p = Some n ->
  pinv hs x (upd p (with_timer n None) st).
Proof.
  intros I Hp.
  apply (pinv_step hs x st (upd p (with_timer n None) st) p n
           (with_timer n None) I Hp eq_refl eq_refl eq_refl); simpl.
  - lia.
  - apply (pi_cc _ _ _ I).
  - auto.
  - auto.
  - intros d0; apply (pi_done _ _ _ I _ _ d0 Hp).
  - congruence.
  - apply (pi_err _ _ _ I _ _ Hp).
  - congruence.
  - apply (pinv_step_children_sub hs x st p n (children n) I Hp). eauto.
  - intros cs0; apply (pi_nodup _ _ _ I _ _ cs0 Hp).
  - discriminate.
Qed.

(** * Cascades *)

Lemma same_core_refl n : same_core n n.
Proof. now splits. Qed.

Lemma cascade_refl e st : cascade e st st.
Proof.
  split; auto.
  intros p n' H. exists n'. split; [exact H|].
  left. apply same_core_refl.
Qed.

Lemma cascade_fwd e st st' p n :
  cascade e st st' -> heap st !! p = Some n ->
  exists n', heap st' !! p = Some n'
    /\ (same_core n n' \/ newly st' e n n').
Proof.
  intros C Hp.
  assert (p < length (heap st'))%nat as Hlt.
  { rewrite (ca_heap _ _ _ C). now apply lookup_lt_Some in Hp. }
  destruct (lookup_lt_is_Some_2 _ _ Hlt) as [n' Hn'].
  exists n'. split; [exact Hn'|].
  destruct (ca_node _ _ _ C _ _ Hn') as (n0 & Hn0 & H).
  assert (n0 = n) as -> by congruence. exact H.
Qed.

Lemma cascade_dead e st st' p :
  cascade e st st' -> dead st p -> dead st' p.
Proof.
  intros C (n & Hn & He).
  destruct (cascade_fwd _ _ _ _ _ C Hn) as (n' & Hn' & [S|N]).
  - exists n'. split; [exact Hn'|]. destruct S as (_ & _ & ->). exact He.
  - destruct N as (C0 & _). congruence.
Qed.

Lemma cascade_trans e st1 st2 st3 :
  cascade e st1 st2 -> cascade e st2 st3 -> cascade e st1 st3.
Proof.
  intros A B. split.
  - rewrite (ca_heap _ _ _ B). apply (ca_heap _ _ _ A).
  - rewrite (ca_chans _ _ _ B). apply (ca_chans _ _ _ A).
  - intros d H. apply (ca_closed _ _ _ B), (ca_closed _ _ _ A), H.
  - rewrite (ca_timers _ _ _ B). apply (ca_timers _ _ _ A).
  - intros p n3 H3.
    destruct (ca_node _ _ _ B _ _ H3) as (n2 & H2 & R2).
    destruct (ca_node _ _ _ A _ _ H2) as (n1 & H1 & R1).
    exists n1. split; [exact H1|].
    destruct R1 as [(D1 & C1 & E1)|(E1 & E1' & C1 & D1 & K1)];
      destruct R2 as [(D2 & C2 & E2)|(E2 & E2' & C2 & D2 & K2)].
    + left. splits; congruence.
    + right. splits; try congruence.
      intros cs ch Hcs. apply K2. congruence.
    + right. splits; try congruence.
      intros cs ch Hcs Hin. eapply cascade_dead; [exact B|].
      eapply K1; eauto.
    + congruence.
Qed.

Lemma cascade_settled e st st' : cascade e st st' -> settled st -> settled st'.
Proof.
  intros C Q p n' Hp He.
  destruct (ca_node _ _ _ C _ _ Hp) as (n & Hn & [S|N]).
  - destruct S as (_ & -> & E). apply (Q p n Hn). congruence.
  - now destruct N as (_ & _ & ? & _).
Qed.

(** ** Steps that cancel nothing *)

Lemma quiet_refl st : quiet st st.
Proof.
  split; auto.
  intros p n' H. exists n'. splits; auto.
Qed.

Lemma quiet_trans st1 st2 st3 : quiet st1 st2 -> quiet st2 st3 -> quiet st1 st3.
Proof.
  intros A B. split.
  - rewrite (qu_heap _ _ B). apply (qu_heap _ _ A).
  - intros d. rewrite (qu_closed _ _ B). apply (qu_closed _ _ A).
  - pose proof (qu_chans _ _ A). pose proof (qu_chans _ _ B). lia.
  - rewrite (qu_timers _ _ B). apply (qu_timers _ _ A).
  - intros p n3 H3.
    destruct (qu_node _ _ B _ _ H3) as (n2 & H2 & E2 & T2 & D2 & C2).
    destruct (qu_node _ _ A _ _ H2) as (n1 & H1 & E1 & T1 & D1 & C1).
    exists n1. split; [exact H1|]. split; [congruence|].
    split; [congruence|]. split; [auto|].
    destruct C1 as [C1|(cs1 & cs2 & C1 & C1' & S1)];
      destruct C2 as [C2|(cs2' & cs3 & C2 & C2' & S2)].
    + left. congruence.
    + right. exists cs2', cs3. splits; congruence.
    + right. exists cs1, cs2. splits; congruence.
    + right. exists cs1, cs3. splits; try congruence.
      assert (cs2' = cs2) as -> by congruence. now transitivity cs2.
Qed.

Lemma quiet_settled st st' : quiet st st' -> settled st -> settled st'.
Proof.
  intros C Q p n' Hp He.
  destruct (qu_node _ _ C _ _ Hp) as (n & Hn & E & _ & _ & Hc).
  assert (children n = None) as Hnone by (apply (Q p n Hn); congruence).
  destruct Hc as [->|(cs & cs' & C1 & _)]; congruence.
Qed.

Lemma quiet_fwd st st' p n :
  quiet st st' -> heap st !! p = Some n ->
  exists n', heap st' !! p = Some n' /\ err n' = err n
    /\ timer n' = timer n
    /\ (forall d, done n = Some d -> done n' = Some d)
    /\ (children n' = children n
        \/ exists cs cs', children n = Some cs /\ children n' = Some cs'
             /\ cs' `sublist_of` cs).
Proof.
  intros C Hp.
  assert (p < length (heap st'))%nat as Hlt.
  { rewrite (qu_heap _ _ C). now apply lookup_lt_Some in Hp. }
  destruct (lookup_lt_is_Some_2 _ _ Hlt) as [n' Hn'].
  exists n'. split; [exact Hn'|].
  destruct (qu_node _ _ C _ _ Hn') as (n0 & Hn0 & H1 & H2 & H3 & H4).
  assert (n0 = n) as -> by congruence. auto.
Qed.

Lemma quiet_dead st st' p : quiet st st' -> dead st p -> dead st' p.
Proof.
  intros C (n & Hn & He).
  destruct (quiet_fwd _ _ _ _ C Hn) as (n' & Hn' & E & _).
  exists n'. split; [exact Hn'|]. congruence.
Qed.

(** An update of one struct that cancels nothing. *)
Lemma quiet_upd st p n n' :
  heap st !! p = Some n ->
  err n' = err n -> timer n' = timer n ->
  (forall d, done n = Some d -> done n' = Some d) ->
  (children n' = children n
   \/ exists cs cs', children n = Some cs /\ children n' = Some cs'
        /\ cs' `sublist_of` cs) ->
  quiet st (upd p n' st).
Proof.
  intros Hp He Ht Hd Hc. split; simpl; auto.
  - apply length_insert.
  - intros q m H. apply list_lookup_insert_Some in H as [(<- & <- & _)|[Hne H]].
    + exists n. auto.
    + exists m. splits; auto.
Qed.

Lemma quiet_made_done st p n :
  heap st !! p = Some n -> done n = None -> quiet st (made_done p n st).
Proof.
  intros Hp Hd. split; simpl.
  - apply length_insert.
  - intros d. unfold made_done. now rewrite is_closed_upd, is_closed_make.
  - rewrite length_app. lia.
  - reflexivity.
  - intros q m H. apply list_lookup_insert_Some in H as [(<- & <- & _)|[Hne H]].
    + exists n. simpl. splits; auto. congruence.
    + exists m. splits; auto.
Qed.

(** * [Done], [parentCancelCtx] and [removeChild] keep the invariant *)

Lemma Done_pinv hs x st c :
  pinv hs x st -> bounded (length (heap st)) c = true ->
  exists st', Done c st = Ok (peek_Done (heap st') c, st')
    /\ pinv hs x st' /\ quiet st st'
    /\ (forall d, peek_Done (heap st) c = Some d -> st' = st)
    /\ (peek_Done (heap st') c = None -> st' = st).
Proof.
  intros I Hb. destruct (Done_cases c st Hb) as [H|(p & n & Hp & Hd & H0 & H1 & H)].
  - exists st. splits; auto using quiet_refl.
  - exists (made_done p n st). rewrite H1. splits.
    + exact H.
    + now apply pinv_made_done.
    + now apply quiet_made_done.
    + congruence.
    + discriminate.
Qed.

Lemma lift_inv {A} (o : outcome A) st a st' :
  lift o st = Ok (a, st') -> o = Ok a /\ st' = st.
Proof. unfold lift. destruct o; try discriminate. now intros [= -> ->]. Qed.

Lemma ret_inv {A} (a b : A) st st' :
  ret a st = Ok (b, st') -> b = a /\ st' = st.
Proof. unfold ret. now intros [= -> ->]. Qed.

(** The lookup changes the state only through its call of [Done]. *)
Lemma parentCancelCtx_state parent st r st' d st1 :
  parentCancelCtx parent st = Ok (r, st') ->
  Done parent st = Ok (d, st1) -> st' = st1.
Proof.
  unfold parentCancelCtx. intros H HD. rewrite (bind_Ok _ _ _ _ _ HD) in H.
  destruct (chan_eq d (Some closedchan) || chan_eq d None).
  { now apply ret_inv in H. }
  apply bind_inv in H as (v & st2 & Hv & H).
  apply lift_inv in Hv as [_ ->].
  destruct v; try (now apply ret_inv in H).
  apply bind_inv in H as (m & st3 & Hm & H).
  apply load_inv in Hm as [_ ->].
  destruct (negb (chan_eq (done m) d)); now apply ret_inv in H.
Qed.

Lemma parentCancelCtx_Some parent st q st' :
  parentCancelCtx parent st = Ok (Some q, st') ->
  exists d, Done parent st = Ok (Some d, st') /\ d <> closedchan
    /\ Value parent ptr_cancelCtxKey = Ok (ptr_cancelCtx q)
    /\ exists m, heap st' !! q = Some m /\ done m = Some d.
Proof.
  intros H. pose proof H as H'. unfold parentCancelCtx in H'.
  apply bind_inv in H' as (d & st1 & HD & _).
  pose proof (parentCancelCtx_state _ _ _ _ _ _ H HD) as ->.
  destruct (parentCancelCtx_cases parent st d st1 HD) as [Hn Hs].
  destruct d as [d|]; [|rewrite Hn in H by auto; discriminate].
  destruct (decide (d = closedchan)) as [->|Hne].
  { rewrite Hn in H by auto. discriminate. }
  exists d. split; [exact HD|]. split; [exact Hne|].
  apply Hs in H; [exact H | discriminate | congruence].
Qed.

Lemma found_inj st parent q1 q2 :
  found st parent q1 -> found st parent q2 -> q1 = q2.
Proof. intros (H1 & _) (H2 & _). congruence. Qed.

Lemma parentCancelCtx_pinv hs x st parent :
  pinv hs x st -> bounded (length (heap st)) parent = true ->
  exists r st', parentCancelCtx parent st = Ok (r, st')
    /\ pinv hs x st' /\ quiet st st'
    /\ Done parent st = Ok (peek_Done (heap st') parent, st')
    /\ (forall d, peek_Done (heap st) parent = Some d -> st' = st)
    /\ forall q, r = Some q <-> found st' parent q.
Proof.
  intros I Hb.
  destruct (Done_pinv _ _ _ _ I Hb) as (st' & HD & I' & Q & Hsame & _).
  destruct (parentCancelCtx_cases parent st _ st' HD) as [Hn Hs].
  assert (Hb' : bounded (length (heap st')) parent = true).
  { rewrite (qu_heap _ _ Q). exact Hb. }
  assert (Hnone : parentCancelCtx parent st = Ok (None, st') ->
            (forall q, ~ found st' parent q) ->
            exists r st'0, parentCancelCtx parent st = Ok (r, st'0)
              /\ pinv hs x st'0 /\ quiet st st'0
              /\ Done parent st = Ok (peek_Done (heap st'0) parent, st'0)
              /\ (forall d, peek_Done (heap st) parent = Some d -> st'0 = st)
              /\ forall q, r = Some q <-> found st'0 parent q).
  { intros HP Hnf. exists None, st'. splits; auto.
    intros q. split; [discriminate|]. intros C. now apply Hnf in C. }
  destruct (decide (peek_Done (heap st') parent = None
                    \/ peek_Done (heap st') parent = Some closedchan))
    as [Hd|Hd].
  - apply Hnone.
    + apply Hn. exact Hd.
    + intros q (_ & m & d & _ & _ & Hne & Hp). destruct Hd; congruence.
  - assert (Hd1 : peek_Done (heap st') parent <> None) by tauto.
    assert (Hd2 : peek_Done (heap st') parent <> Some closedchan) by tauto.
    specialize (Hs Hd1 Hd2).
    destruct (peek_Done (heap st') parent) as [d|] eqn:Ed; [|congruence].
    destruct (value_key_bounded _ _ Hb') as (v & Hv & Hvb).
    rewrite <- Value_value in Hv.
    assert (Hnot : (forall q, ~ found st' parent q) ->
              parentCancelCtx parent st = Ok (None, st')).
    { intros Hnf. unfold parentCancelCtx. rewrite (bind_Ok _ _ _ _ _ HD).
      replace (chan_eq (Some d) (Some closedchan)) with false
        by (symmetry; apply chan_eq_false; congruence).
      simpl. rewrite (bind_Ok _ _ _ _ _ (lift_Ok _ _ st' Hv)).
      destruct v as [| | | | | | |q0]; try reflexivity.
      simpl in Hvb. apply Nat.ltb_lt in Hvb.
      destruct (lookup_lt_is_Some_2 _ _ Hvb) as [m Hm].
      rewrite (bind_Ok _ _ _ _ _ (load_Ok _ _ _ Hm)).
      destruct (chan_eq (done m) (Some d)) eqn:Ec; [|reflexivity].
      apply chan_eq_true in Ec. exfalso. apply (Hnf q0).
      split; [exact Hv|]. exists m, d. splits; auto; congruence. }
    assert (Hcase : (exists q, found st' parent q)
                    \/ forall q, ~ found st' parent q).
    { destruct v as [| | | | | | |q0];
        try (right; intros q (C & _); congruence).
      simpl in Hvb. apply Nat.ltb_lt in Hvb.
      destruct (lookup_lt_is_Some_2 _ _ Hvb) as [m Hm].
      destruct (decide (done m = Some d)) as [Hdm|Hdm].
      - left. exists q0. split; [exact Hv|]. exists m, d.
        splits; auto; congruence.
      - right. intros q (C & m' & d' & Hm' & Hdm' & _ & Hp).
        assert (q = q0) as -> by congruence. congruence. }
    destruct Hcase as [[q Hq]|Hnf].
    + exists (Some q), st'. splits; rewrite ?Ed; auto.
      * apply Hs. destruct Hq as (Hq1 & m & d' & Hm & Hdm & _ & Hpk).
        split; [exact Hq1|]. exists m. split; [exact Hm|]. congruence.
      * intros q'. split.
        -- intros [= <-]. exact Hq.
        -- intros Hq'. f_equal. eapply found_inj; eauto.
    + apply Hnone; auto.
Qed.

Lemma same_canceler_refl c : same_canceler c c = true.
Proof. destruct c; simpl; apply Nat.eqb_refl. Qed.

Lemma pinv_exempt hs x st : pinv hs None st -> pinv hs x st.
Proof.
  intros [L HS CC DN ER UQ CH ND LV TM TS WT]. split; auto.
  intros p n cs ch Hp Hcs Hin He.
  destruct (LV p n cs ch Hp Hcs Hin He) as [H|H]; [now left|discriminate].
Qed.

Lemma pinv_unexempt hs x p st :
  pinv hs x st -> (x = None \/ x = Some p) ->
  (forall q m cs ch, heap st !! q = Some m -> children m = Some cs ->
     ch ∈ cs -> err m = None -> canceler_ptr ch <> p) ->
  pinv hs None st.
Proof.
  intros [L HS CC DN ER UQ CH ND LV TM TS WT] Hx Hno. split; auto.
  intros q n cs ch Hp Hcs Hin He.
  destruct (LV q n cs ch Hp Hcs Hin He) as [H|H]; [now left|].
  destruct Hx as [->| ->]; [discriminate|].
  injection H as H. exfalso. eapply Hno; eauto.
Qed.

(** A struct registered with [q] is found by the lookup from its own
    parent. *)
Lemma pinv_child_found hs x st q m cs ch :
  pinv hs x st -> heap st !! q = Some m -> children m = Some cs -> ch ∈ cs ->
  found st (canceler_parent ch) q.
Proof.
  intros I Hq Hcs Hin.
  destruct (pi_child _ _ _ I _ _ _ _ Hq Hcs Hin) as (_ & Hv & d & H1 & H2 & H3).
  split; [exact Hv|]. exists m, d. auto.
Qed.

Lemma pinv_handle hs x st q m cs ch c :
  pinv hs x st -> heap st !! q = Some m -> children m = Some cs -> ch ∈ cs ->
  hs !! canceler_ptr ch = Some c -> ch = c.
Proof.
  intros I Hq Hcs Hin Hc.
  destruct (pi_child _ _ _ I _ _ _ _ Hq Hcs Hin) as (Hh & _). congruence.
Qed.


Lemma removeChild_pinv hs x st p c :
  pinv hs x st -> hs !! p = Some c -> (x = None \/ x = Some p) ->
  exists st', removeChild (canceler_parent c) c st = Ok (tt, st')
    /\ pinv hs None st' /\ quiet st st'.
Proof.
  intros I Hc Hx.
  destruct (pi_hs _ _ _ I _ _ Hc) as [Hptr Hb].
  assert (Hp : (p < length (heap st))%nat).
  { rewrite <- (pi_len _ _ _ I). now apply lookup_lt_Some in Hc. }
  assert (Hb' : bounded (length (heap st)) (canceler_parent c) = true).
  { eapply bounded_mono; [|exact Hb]. lia. }
  destruct (parentCancelCtx_pinv _ _ _ _ I Hb')
    as (r & st1 & HP & I1 & Q1 & _ & _ & Hr).
  unfold removeChild. rewrite (bind_Ok _ _ _ _ _ HP).
  assert (Htr : forall q m cs ch, heap st1 !! q = Some m ->
            children m = Some cs -> ch ∈ cs -> canceler_ptr ch = p ->
            ch = c /\ r = Some q).
  { intros q m cs ch Hq Hcs Hin Heq.
    assert (ch = c) as ->.
    { eapply pinv_handle; eauto. now rewrite Heq. }
    split; [reflexivity|]. apply Hr. eapply pinv_child_found; eauto. }
  destruct r as [q|].
  - destruct (proj1 (Hr q) eq_refl) as (Hv & m & d & Hm & _).
    rewrite (bind_Ok _ _ _ _ _ (load_Ok _ _ _ Hm)).
    destruct (children m) as [cs|] eqn:Ecs.
    + rewrite (set_children_Ok _ _ _ _ Hm).
      eexists. split; [reflexivity|]. split.
      * apply (pinv_unexempt hs x p); [|exact Hx|].
        -- apply pinv_drop_children; auto.
           intros cs0 [= <-]. exists cs. split; [exact Ecs|].
           apply sublist_filter.
        -- intros q' m' cs' ch Hq' Hcs' Hin He Heq.
           apply lookup_upd in Hq' as [(<- & <- & _)|[Hne Hq']].
           ++ simpl in Hcs'. injection Hcs' as <-.
              apply list_elem_of_filter in Hin as [Hf Hin].
              destruct (Htr _ _ _ _ Hm Ecs Hin Heq) as [-> _].
              rewrite same_canceler_refl in Hf. discriminate.
           ++ destruct (Htr _ _ _ _ Hq' Hcs' Hin Heq) as [_ [= E]].
              congruence.
      * eapply quiet_trans; [exact Q1|].
        apply (quiet_upd st1 q m); auto.
        right. exists cs, (map_delete c cs). splits; auto.
        apply sublist_filter.
    + exists st1. split; [reflexivity|]. split; [|exact Q1].
      apply (pinv_unexempt hs x p); [exact I1|exact Hx|].
      intros q' m' cs' ch Hq' Hcs' Hin He Heq.
      destruct (Htr _ _ _ _ Hq' Hcs' Hin Heq) as [_ [= E]]. subst q'.
      congruence.
  - exists st1. split; [reflexivity|]. split; [|exact Q1].
    apply (pinv_unexempt hs x p); [exact I1|exact Hx|].
    intros q' m' cs' ch Hq' Hcs' Hin He Heq.
    destruct (Htr _ _ _ _ Hq' Hcs' Hin Heq) as [_ C]. discriminate.
Qed.

(** * The cascade keeps the invariant *)

(** A change of the timers that keeps the targets of the old timers. *)
Lemma pinv_timers hs x st st' :
  pinv hs x st ->
  heap st' = heap st -> chans st' = chans st -> waiters st' = waiters st ->
  (length (timers st) <= length (timers st'))%nat ->
  (forall t r, timers st' !! t = Some r ->
     hs !! canceler_ptr (t_target r) = Some (t_target r)) ->
  pinv hs x st'.
Proof.
  intros [L HS CC DN ER UQ CH ND LV TM TS WT] Hh Hc Hw Hlen Ht.
  split; unfold lives, is_closed, tracked in *; rewrite ?Hh, ?Hc, ?Hw; auto.
  intros p n t Hp Htm. destruct (TM p n t Hp Htm) as [H1 H2].
  split; [lia | exact H2].
Qed.

Lemma Stop_Ok t st : Stop t st = Ok (tt, stop_state t st).
Proof. reflexivity. Qed.

Lemma stop_state_heap t st : heap (stop_state t st) = heap st.
Proof. unfold stop_state. now destruct (timers st !! t). Qed.

Lemma stop_state_chans t st : chans (stop_state t st) = chans st.
Proof. unfold stop_state. now destruct (timers st !! t). Qed.

Lemma stop_state_waiters t st : waiters (stop_state t st) = waiters st.
Proof. unfold stop_state. now destruct (timers st !! t). Qed.

Lemma stop_state_timers t st u r :
  timers (stop_state t st) !! u = Some r ->
  exists r0, timers st !! u = Some r0 /\ t_target r = t_target r0.
Proof.
  unfold stop_state. destruct (timers st !! t) as [r0|] eqn:E; simpl.
  - intros H. apply list_lookup_insert_Some in H as [(<- & <- & _)|[Hne H]].
    + exists r0. auto.
    + exists r. auto.
  - eauto.
Qed.

Lemma stop_state_length t st :
  length (timers (stop_state t st)) = length (timers st).
Proof.
  unfold stop_state. destruct (timers st !! t); simpl; [|reflexivity].
  apply length_insert.
Qed.

Lemma pinv_stop hs x t st : pinv hs x st -> pinv hs x (stop_state t st).
Proof.
  intros I. apply (pinv_timers hs x st); auto.
  - apply stop_state_heap.
  - apply stop_state_chans.
  - apply stop_state_waiters.
  - rewrite stop_state_length. lia.
  - intros u r H. destruct (stop_state_timers _ _ _ _ H) as (r0 & H0 & ->).
    exact (pi_timers _ _ _ I _ _ H0).
Qed.

(** A change outside the heap and the channels is no change for the
    relations between stores. *)
Lemma cascade_same_store e st st' :
  heap st' = heap st -> chans st' = chans st ->
  length (timers st') = length (timers st) -> cascade e st st'.
Proof.
  intros Hh Hc Ht. split; unfold is_closed, dead; rewrite ?Hh, ?Hc; auto.
  intros p n' H. exists n'. split; [exact H|]. left. apply same_core_refl.
Qed.

Lemma quiet_same_store st st' :
  heap st' = heap st -> chans st' = chans st -> timers st' = timers st ->
  quiet st st'.
Proof.
  intros Hh Hc Ht. split; unfold is_closed; rewrite ?Hh, ?Hc; auto.
  intros p n' H. exists n'. splits; auto.
Qed.

Lemma dead_upd st p n n' q :
  heap st !! p = Some n -> err n' = err n -> dead st q -> dead (upd p n' st) q.
Proof.
  intros Hp He (m & Hm & Hd). destruct (decide (p = q)) as [->|Hne].
  - exists n'. split.
    + eapply lookup_upd_eq; eauto.
    + assert (m = n) as -> by congruence. congruence.
  - exists m. split; [|exact Hd]. now rewrite lookup_upd_ne.
Qed.

(** An update that leaves [done], [children] and [err] alone. *)
Lemma cascade_upd_core e st p n n' :
  heap st !! p = Some n -> same_core n n' -> cascade e st (upd p n' st).
Proof.
  intros Hp S. split; simpl; auto.
  - apply length_insert.
  - intros q m H. apply list_lookup_insert_Some in H as [(<- & <- & _)|[Hne H]].
    + exists n. auto.
    + exists m. split; [exact H|]. left. apply same_core_refl.
Qed.

(** ** The first two steps *)

Lemma mark_steps p n e st :
  heap st !! p = Some n ->
  (forall d, done n = Some d -> is_closed st d = false) ->
  match done n with
  | None => set_done p (Some closedchan)
  | Some d => close d
  end (upd p (with_err n (Some e)) st) = Ok (tt, mark_state p n e st).
Proof.
  intros Hp Hopen.
  unfold mark_state, mark. destruct n as [[d|] cn en tn]; simpl in *.
  - unfold close. rewrite is_closed_upd, (Hopen d eq_refl). reflexivity.
  - erewrite set_done_Ok by (eapply lookup_upd_eq; exact Hp).
    unfold upd, with_done, with_err, set_heap. simpl.
    rewrite list_insert_insert_eq. reflexivity.
Qed.

Lemma pinv_open hs x st p n d :
  pinv hs x st -> heap st !! p = Some n -> err n = None ->
  done n = Some d -> is_closed st d = false.
Proof.
  intros I Hp He Hd. destruct (pi_done _ _ _ I _ _ _ Hp Hd) as [_ H].
  destruct (is_closed st d); [|reflexivity]. exfalso. now apply H.
Qed.

Lemma mark_state_lookup p n e st q m :
  heap (mark_state p n e st) !! q = Some m ->
  (p = q /\ m = mark n e) \/ (p <> q /\ heap st !! q = Some m).
Proof.
  assert (heap (mark_state p n e st) = <[p := mark n e]> (heap st)) as ->
    by (unfold mark_state; destruct (done n); reflexivity).
  intros H. apply list_lookup_insert_Some in H as [(<- & <- & _)|[Hne H]]; auto.
Qed.

Lemma mark_state_lookup_eq p n e st :
  heap st !! p = Some n -> heap (mark_state p n e st) !! p = Some (mark n e).
Proof.
  intros Hp.
  assert (heap (mark_state p n e st) = <[p := mark n e]> (heap st)) as ->
    by (unfold mark_state; destruct (done n); reflexivity).
  apply list_lookup_insert_eq. now apply lookup_lt_Some in Hp.
Qed.

Lemma mark_state_length p n e st :
  length (heap (mark_state p n e st)) = length (heap st)
  /\ length (chans (mark_state p n e st)) = length (chans st).
Proof.
  unfold mark_state. destruct (done n); simpl;
    rewrite ?length_insert; auto.
Qed.

Lemma mark_state_closed hs x p n e st d :
  pinv hs x st -> heap st !! p = Some n -> err n = None ->
  is_closed st d = true -> is_closed (mark_state p n e st) d = true.
Proof.
  intros I Hp He Hc. unfold mark_state. rewrite is_closed_upd.
  destruct (done n) as [d0|] eqn:Ed; [|exact Hc].
  rewrite is_closed_close by (apply (pi_done _ _ _ I _ _ _ Hp Ed)).
  case_decide; auto.
Qed.

(** ** Loops over the children *)

Lemma for_each_cascade e (P : state -> Prop) (f : canceler -> M unit)
    (l : list canceler) :
  forall st,
  P st ->
  (forall ch s, ch ∈ l -> P s ->
     exists s', f ch s = Ok (tt, s') /\ P s' /\ cascade e s s'
                /\ dead s' (canceler_ptr ch)) ->
  exists st', for_each l f st = Ok (tt, st') /\ P st' /\ cascade e st st'
    /\ forall ch, ch ∈ l -> dead st' (canceler_ptr ch).
Proof.
  induction l as [|a l IH]; intros st HP Hf.
  - exists st. splits; auto using cascade_refl. intros ch H. inversion H.
  - destruct (Hf a st) as (s1 & E1 & P1 & C1 & D1); [left | exact HP |].
    destruct (IH s1 P1) as (s2 & E2 & P2 & C2 & D2).
    { intros ch s Hin. apply Hf. now right. }
    exists s2. simpl. rewrite (bind_Ok _ _ _ _ _ E1). splits; auto.
    + eapply cascade_trans; eauto.
    + intros ch Hin. apply elem_of_cons in Hin as [->|Hin]; auto.
      eapply cascade_dead; eauto.
Qed.

(** ** The body of [cancelCtx.cancel] without the detaching step *)

Section cascade_body.
Variables (hs : list canceler) (x : option nat) (e : error).
Variable child_cancel : canceler -> bool -> option error -> M unit.
Variable bound : nat.
Hypothesis IH : forall ch st,
  pinv hs x st -> hs !! canceler_ptr ch = Some ch ->
  (length (heap st) - canceler_ptr ch < bound)%nat ->
  exempt x st (canceler_ptr ch) ->
  exists st', child_cancel ch false (Some e) st = Ok (tt, st')
    /\ pinv hs x st' /\ cascade e st st' /\ dead st' (canceler_ptr ch)
    /\ forall q, (q < canceler_ptr ch)%nat -> heap st' !! q = heap st !! q.

Lemma cancelCtx_cancel_body_false parent p st c :
  pinv hs x st -> hs !! p = Some c ->
  (length (heap st) - p <= bound)%nat -> exempt x st p ->
  exists st',
    cancelCtx_cancel_body child_cancel parent p false (Some e) st
      = Ok (tt, st')
    /\ pinv hs x st' /\ cascade e st st' /\ dead st' p
    /\ (forall q, (q < p)%nat -> heap st' !! q = heap st !! q)
    /\ (forall n, heap st !! p = Some n ->
          exists n', heap st' !! p = Some n' /\ timer n' = timer n).
Proof.
  intros I Hc Hb Hx.
  assert (Hlt : (p < length (heap st))%nat).
  { rewrite <- (pi_len _ _ _ I). now apply lookup_lt_Some in Hc. }
  destruct (lookup_lt_is_Some_2 _ _ Hlt) as [n Hn].
  unfold cancelCtx_cancel_body.
  rewrite (bind_Ok _ _ _ _ _ (load_Ok _ _ _ Hn)).
  destruct (err n) as [e0|] eqn:He.
  { exists st. splits; auto using cascade_refl.
    - exists n. split; congruence.
    - intros n0 Hn0. exists n0. auto. }
  rewrite (bind_Ok _ _ _ _ _ (set_err_Ok _ _ _ _ Hn)).
  rewrite (bind_Ok _ _ _ _ _ (mark_steps p n e st Hn
             (fun d => pinv_open _ _ _ _ _ _ I Hn He))).
  remember (mark_state p n e st) as st1 eqn:Est1.
  assert (I1 : pinv hs x st1) by (subst st1; now apply pinv_mark).
  assert (Hn1 : heap st1 !! p = Some (mark n e))
    by (subst st1; now apply mark_state_lookup_eq).
  assert (Hlen1 : length (heap st1) = length (heap st))
    by (subst st1; apply mark_state_length).
  assert (Hclen1 : length (chans st1) = length (chans st))
    by (subst st1; apply mark_state_length).
  assert (Hcl1 : forall d, is_closed st d = true -> is_closed st1 d = true)
    by (intros d Hd; subst st1; eapply mark_state_closed; eauto).
  assert (Hlk1 : forall q m, heap st1 !! q = Some m ->
            (p = q /\ m = mark n e) \/ (p <> q /\ heap st !! q = Some m))
    by (intros q m; subst st1; apply mark_state_lookup).
  assert (Hne1 : forall q, q <> p -> heap st1 !! q = heap st !! q).
  { intros q Hq. subst st1. unfold mark_state.
    rewrite lookup_upd_ne by congruence. now destruct (done n). }
  (* the loop *)
  destruct (for_each_cascade e
              (fun s => pinv hs x s /\ cascade e st1 s
                 /\ forall q, (q <= p)%nat -> heap s !! q = heap st1 !! q)
              (fun child => child_cancel child false (Some e))
              (default [] (children n)) st1)
    as (st2 & E2 & (I2 & C12 & F2) & _ & D2).
  { split; [exact I1 | split; [apply cascade_refl | auto]]. }
  { intros ch s Hin (Is & Cs & Fs).
    destruct (children n) as [cs|] eqn:Ecs; [|inversion Hin].
    simpl in Hin.
    assert (Hnp : heap s !! p = Some (mark n e))
      by (rewrite Fs by lia; exact Hn1).
    assert (Hcs : children (mark n e) = Some cs) by exact Ecs.
    destruct (pi_child _ _ _ Is _ _ _ _ Hnp Hcs Hin) as (Hh & Hv & _).
    pose proof (pinv_child_lt _ _ _ _ _ _ _ Is Hnp Hcs Hin) as Hgt.
    assert (Hchlt : (canceler_ptr ch < length (heap s))%nat).
    { rewrite <- (pi_len _ _ _ Is). now apply lookup_lt_Some in Hh. }
    destruct (IH ch s Is Hh) as (s' & E' & I' & C' & D' & F').
    { pose proof (ca_heap _ _ _ Cs). lia. }
    { intros q m cs' ch' Hq Hcs' Hin' Heq Hem. exfalso.
      assert (ch' = ch) as ->.
      { eapply pinv_handle; eauto. now rewrite Heq. }
      pose proof (pinv_child_found _ _ _ _ _ _ _ Is Hq Hcs' Hin') as F1.
      pose proof (pinv_child_found _ _ _ _ _ _ _ Is Hnp Hcs Hin) as F2'.
      pose proof (found_inj _ _ _ _ F1 F2') as ->.
      assert (m = mark n e) as -> by congruence. discriminate. }
    exists s'. splits; auto.
    - eapply cascade_trans; eauto.
    - intros q Hq. rewrite F' by lia. now apply Fs. }
  rewrite (bind_Ok _ _ _ _ _ E2).
  assert (Hn2 : heap st2 !! p = Some (mark n e))
    by (rewrite F2 by lia; exact Hn1).
  rewrite (bind_Ok _ _ _ _ _ (set_children_Ok _ None _ _ Hn2)).
  exists (upd p (with_children (mark n e) None) st2).
  split; [reflexivity|]. splits.
  - apply pinv_drop_children; auto. discriminate.
  - split; simpl.
    + rewrite length_insert, (ca_heap _ _ _ C12). exact Hlen1.
    + rewrite (ca_chans _ _ _ C12). exact Hclen1.
    + intros d Hd. rewrite is_closed_upd.
      apply (ca_closed _ _ _ C12). auto.
    + rewrite (ca_timers _ _ _ C12). subst st1. unfold mark_state.
      now destruct (done n).
    + intros q m Hq.
      apply list_lookup_insert_Some in Hq as [(<- & <- & _)|[Hne Hq]].
      * exists n. split; [exact Hn|]. right. unfold newly. simpl.
        splits; auto.
        intros cs ch Hcs Hin. eapply dead_upd; eauto.
        apply D2. rewrite Hcs. exact Hin.
      * destruct (ca_node _ _ _ C12 _ _ Hq) as (m1 & Hm1 & R).
        apply Hlk1 in Hm1 as [[? _]|[_ Hm1]]; [congruence|].
        exists m1. split; [exact Hm1|].
        destruct R as [S|(N1 & N2 & N3 & N4 & N5)]; [now left|].
        right. unfold newly. splits; auto.
        intros cs ch Hcs Hin. eapply dead_upd; eauto.
  - exists (with_children (mark n e) None). split.
    + eapply lookup_upd_eq; eauto.
    + discriminate.
  - intros q Hq. rewrite lookup_upd_ne by lia.
    rewrite F2 by lia. apply Hne1. lia.
  - intros n0 Hn0. assert (n0 = n) as -> by congruence.
    exists (with_children (mark n e) None). split; [|reflexivity].
    eapply lookup_upd_eq; eauto.
Qed.
End cascade_body.

(** [child.cancel(false, err)] with enough fuel. *)
Lemma cancel_fuel_false hs x e :
  forall fuel c st,
  pinv hs x st -> hs !! canceler_ptr c = Some c ->
  (length (heap st) - canceler_ptr c < fuel)%nat ->
  exempt x st (canceler_ptr c) ->
  exists st', cancel_fuel fuel c false (Some e) st = Ok (tt, st')
    /\ pinv hs x st' /\ cascade e st st' /\ dead st' (canceler_ptr c)
    /\ forall q, (q < canceler_ptr c)%nat -> heap st' !! q = heap st !! q.
Proof.
  induction fuel as [|fuel IH]; intros c st I Hc Hf Hx; [lia|].
  destruct c as [parent p|parent p dl]; simpl in *.
  - destruct (cancelCtx_cancel_body_false hs x e (cancel_fuel fuel) fuel IH
                parent p st _ I Hc) as (st1 & E1 & I1 & C1 & D1 & F1 & _);
      [lia | exact Hx |].
    exists st1. splits; auto.
  - destruct (cancelCtx_cancel_body_false hs x e (cancel_fuel fuel) fuel IH
                parent p st _ I Hc) as (st1 & E1 & I1 & C1 & D1 & F1 & _);
      [lia | exact Hx |].
    unfold timerCtx_cancel_body. rewrite (bind_Ok _ _ _ _ _ E1).
    unfold bind at 1. unfold ret at 1.
    destruct D1 as (n1 & Hn1 & He1).
    rewrite (bind_Ok _ _ _ _ _ (load_Ok _ _ _ Hn1)).
    destruct (timer n1) as [t|] eqn:Et.
    + rewrite (bind_Ok _ _ _ _ _ (Stop_Ok t st1)).
      assert (Hn1' : heap (stop_state t st1) !! p = Some n1)
        by (now rewrite stop_state_heap).
      rewrite (set_timer_Ok _ _ _ _ Hn1').
      eexists. split; [reflexivity|]. splits.
      * apply pinv_clear_timer; auto. now apply pinv_stop.
      * eapply cascade_trans; [exact C1|].
        eapply cascade_trans.
        -- apply (cascade_same_store e st1 (stop_state t st1)).
           ++ apply stop_state_heap.
           ++ apply stop_state_chans.
           ++ apply stop_state_length.
        -- apply (cascade_upd_core e _ p n1); auto. now splits.
      * exists (with_timer n1 None). split; [|exact He1].
        eapply lookup_upd_eq; eauto.
      * intros q Hq. rewrite lookup_upd_ne by lia.
        rewrite stop_state_heap. now apply F1.
    + exists st1. splits; auto. exists n1. auto.
Qed.

(** * A whole call of [cancel] *)

Lemma bind_assoc {A B C} (m : M A) (k : A -> M B) (h : B -> M C) st :
  bind (bind m k) h st = bind m (fun a => bind (k a) h) st.
Proof. unfold bind. now destruct (m st) as [[a s]| |]. Qed.

Lemma bind_ext {A B} (m : M A) (k k' : A -> M B) st :
  (forall a s, k a s = k' a s) -> bind m k st = bind m k' st.
Proof. intros H. unfold bind. destruct (m st) as [[a s]| |]; auto. Qed.

Lemma cancelCtx_cancel_body_true cc parent p e st n :
  heap st !! p = Some n ->
  cancelCtx_cancel_body cc parent p true (Some e) st =
  match err n with
  | Some _ => Ok (tt, st)
  | None =>
      bind (cancelCtx_cancel_body cc parent p false (Some e))
           (fun _ => removeChild parent (cancelCtx_ parent p)) st
  end.
Proof.
  intros Hn. unfold cancelCtx_cancel_body.
  rewrite (bind_Ok _ _ _ _ _ (load_Ok _ _ _ Hn)).
  destruct (err n) as [e0|] eqn:He; [reflexivity|].
  rewrite bind_assoc, (bind_Ok _ _ _ _ _ (load_Ok _ _ _ Hn)), He.
  rewrite bind_assoc. apply bind_ext. intros [] s1.
  rewrite bind_assoc. apply bind_ext. intros [] s2.
  rewrite bind_assoc. apply bind_ext. intros [] s3.
  rewrite bind_assoc. apply bind_ext. intros [] s4.
  reflexivity.
Qed.

Lemma pinv_released hs x c st : pinv hs x st -> pinv hs x (released c st).
Proof.
  intros I. destruct c as [parent p|parent p dl]; simpl; [exact I|].
  destruct (heap st !! p) as [n|] eqn:Hn; [|exact I].
  destruct (timer n) as [t|]; [|exact I].
  apply pinv_clear_timer; [now apply pinv_stop|].
  now rewrite stop_state_heap.
Qed.

Lemma released_lookup c st q n' :
  heap (released c st) !! q = Some n' ->
  exists n, heap st !! q = Some n /\ same_core n n'.
Proof.
  destruct c as [parent p|parent p dl]; simpl.
  { intros H. exists n'. split; [exact H | apply same_core_refl]. }
  destruct (heap st !! p) as [n|] eqn:Hn;
    [|intros H; exists n'; split; [exact H | apply same_core_refl]].
  destruct (timer n) as [t|];
    [|intros H; exists n'; split; [exact H | apply same_core_refl]].
  intros H. apply lookup_upd in H as [(<- & <- & _)|[Hne H]].
  - exists n. split; [exact Hn | now splits].
  - rewrite stop_state_heap in H. exists n'.
    split; [exact H | apply same_core_refl].
Qed.

Lemma released_length c st :
  length (heap (released c st)) = length (heap st).
Proof.
  destruct c as [parent p|parent p dl]; simpl; [reflexivity|].
  destruct (heap st !! p) as [n|]; [|reflexivity].
  destruct (timer n); [|reflexivity].
  simpl. now rewrite length_insert, stop_state_heap.
Qed.

Lemma released_closed c st d :
  is_closed (released c st) d = is_closed st d.
Proof.
  destruct c as [parent p|parent p dl]; simpl; [reflexivity|].
  destruct (heap st !! p) as [n|]; [|reflexivity].
  destruct (timer n); [|reflexivity].
  rewrite is_closed_upd. unfold is_closed. now rewrite stop_state_chans.
Qed.

Lemma settled_released c st : settled st -> settled (released c st).
Proof.
  intros Q q n' H He. apply released_lookup in H as (n & Hn & S).
  destruct S as (_ & -> & E). apply (Q q n Hn). congruence.
Qed.

Lemma dead_released c st q : dead st q -> dead (released c st) q.
Proof.
  intros (n & Hn & He).
  assert (q < length (heap (released c st)))%nat as Hlt.
  { rewrite released_length. now apply lookup_lt_Some in Hn. }
  destruct (lookup_lt_is_Some_2 _ _ Hlt) as [n' Hn'].
  exists n'. split; [exact Hn'|].
  apply released_lookup in Hn' as (n0 & Hn0 & (_ & _ & E)).
  assert (n0 = n) as -> by congruence. congruence.
Qed.

Lemma exempt_untracked x st p : tracked st p = false -> exempt x st p.
Proof.
  intros H q m cs ch Hq Hcs Hin Heq. exfalso.
  rewrite tracked_false in H. exact (H _ _ _ _ Hq Hcs Hin Heq).
Qed.

Lemma timerCtx_cancel_body_eq cc parent p dl rfp e st st1 :
  cancelCtx_cancel_body cc parent p false e st = Ok (tt, st1) ->
  timerCtx_cancel_body cc parent p dl rfp e st =
  bind (if rfp then removeChild parent (timerCtx_ parent p dl) else ret tt)
       (fun _ => c <- load p ;;
                 match timer c with
                 | Some t => Stop t ;;; set_timer p None
                 | None => ret tt
                 end) st1.
Proof.
  intros H. unfold timerCtx_cancel_body. now rewrite (bind_Ok _ _ _ _ _ H).
Qed.

Lemma release_steps parent p dl st n :
  heap st !! p = Some n ->
  (x <- load p ;;
   match timer x with
   | Some t => Stop t ;;; set_timer p None
   | None => ret tt
   end) st = Ok (tt, released (timerCtx_ parent p dl) st).
Proof.
  intros Hn. simpl.
  rewrite (bind_Ok _ _ _ _ _ (load_Ok _ _ _ Hn)), Hn.
  destruct (timer n) as [t|]; [|reflexivity].
  rewrite (bind_Ok _ _ _ _ _ (Stop_Ok t st)).
  apply set_timer_Ok. now rewrite stop_state_heap.
Qed.

Lemma cancel_unfold c rfp e st :
  cancel c rfp e st = cancel_fuel (S (length (heap st))) c rfp e st.
Proof. reflexivity. Qed.

Lemma cancel_fuel_cancelCtx fuel parent p rfp e :
  cancel_fuel (S fuel) (cancelCtx_ parent p) rfp e
  = cancelCtx_cancel_body (cancel_fuel fuel) parent p rfp e.
Proof. reflexivity. Qed.

Lemma cancel_fuel_timerCtx fuel parent p dl rfp e :
  cancel_fuel (S fuel) (timerCtx_ parent p dl) rfp e
  = timerCtx_cancel_body (cancel_fuel fuel) parent p dl rfp e.
Proof. reflexivity. Qed.

(** A call of [cancel] from outside a cascade: either it detaches, or
    the struct is registered nowhere. *)
Lemma cancel_pinv hs e c rfp st :
  pinv hs None st -> settled st -> hs !! canceler_ptr c = Some c ->
  (rfp = true \/ tracked st (canceler_ptr c) = false) ->
  exists st1 st2,
    cancel c rfp (Some e) st = Ok (tt, released c st2)
    /\ pinv hs None (released c st2) /\ settled (released c st2)
    /\ cascade e st st1 /\ dead st1 (canceler_ptr c)
    /\ quiet st1 st2 /\ pinv hs None st2
    /\ (forall n, heap st !! canceler_ptr c = Some n ->
          exists n1, heap st1 !! canceler_ptr c = Some n1
                     /\ timer n1 = timer n).
Proof.
  intros I Q Hc Hr.
  assert (Hlt : (canceler_ptr c < length (heap st))%nat).
  { rewrite <- (pi_len _ _ _ I). now apply lookup_lt_Some in Hc. }
  destruct (lookup_lt_is_Some_2 _ _ Hlt) as [n Hn].
  set (x := if rfp then Some (canceler_ptr c) else None).
  assert (Ix : pinv hs x st) by (now apply pinv_exempt).
  assert (Hx : exempt x st (canceler_ptr c)).
  { unfold x. destruct rfp.
    - intros q m cs ch _ _ _ _ _. reflexivity.
    - destruct Hr as [?|Hr]; [discriminate|]. now apply exempt_untracked. }
  pose proof (cancel_fuel_false hs x e (length (heap st))) as IH.
  rewrite cancel_unfold.
  destruct c as [parent p|parent p dl]; cbn [canceler_ptr] in *.
  - rewrite cancel_fuel_cancelCtx. destruct (cancelCtx_cancel_body_false hs x e
                (cancel_fuel (length (heap st))) (length (heap st)) IH
                parent p st _ Ix Hc) as (st1 & E1 & I1 & C1 & D1 & F1 & T1);
      [lia | exact Hx |].
    destruct rfp.
    + rewrite (cancelCtx_cancel_body_true _ _ _ _ _ _ Hn).
      destruct (err n) as [e0|] eqn:He.
      * exists st, st. splits; auto using cascade_refl, quiet_refl.
        -- exists n. split; congruence.
        -- eauto.
      * rewrite (bind_Ok _ _ _ _ _ E1).
        destruct (removeChild_pinv hs x st1 p _ I1 Hc) as (st2 & E2 & I2 & Q2);
          [now right|].
        simpl in E2. exists st1, st2. splits; auto.
        eapply quiet_settled; [exact Q2|]. eapply cascade_settled; eauto.
    + exists st1, st1. splits; auto using quiet_refl.
      eapply cascade_settled; eauto.
  - rewrite cancel_fuel_timerCtx. destruct (cancelCtx_cancel_body_false hs x e
                (cancel_fuel (length (heap st))) (length (heap st)) IH
                parent p st _ Ix Hc) as (st1 & E1 & I1 & C1 & D1 & F1 & T1);
      [lia | exact Hx |].
    rewrite (timerCtx_cancel_body_eq _ _ _ _ _ _ _ _ E1).
    assert (exists st2, (if rfp then removeChild parent (timerCtx_ parent p dl)
                         else ret tt) st1 = Ok (tt, st2)
              /\ pinv hs None st2 /\ quiet st1 st2) as (st2 & E2 & I2 & Q2).
    { destruct rfp.
      - destruct (removeChild_pinv hs x st1 p _ I1 Hc) as (st2 & E2 & I2 & Q2);
          [now right|].
        exists st2. auto.
      - exists st1. splits; auto using quiet_refl. }
    rewrite (bind_Ok _ _ _ _ _ E2).
    assert (Hlt2 : (p < length (heap st2))%nat).
    { rewrite (qu_heap _ _ Q2), (ca_heap _ _ _ C1). exact Hlt. }
    destruct (lookup_lt_is_Some_2 _ _ Hlt2) as [n2 Hn2].
    exists st1, st2.
    rewrite (release_steps parent p dl st2 n2 Hn2).
    splits; auto.
    + now apply pinv_released.
    + apply settled_released. eapply quiet_settled; [exact Q2|].
      eapply cascade_settled; eauto.
Qed.

(** * Constructors keep the invariant *)

Lemma mono_refl st : mono st st.
Proof. split; eauto. Qed.

Lemma mono_trans st1 st2 st3 : mono st1 st2 -> mono st2 st3 -> mono st1 st3.
Proof.
  intros A B. split.
  - intros p n H. destruct (mo_node _ _ A _ _ H) as (n2 & H2 & E2 & D2).
    destruct (mo_node _ _ B _ _ H2) as (n3 & H3 & E3 & D3).
    exists n3. splits; auto.
  - intros d H. apply (mo_closed _ _ B), (mo_closed _ _ A), H.
Qed.

Lemma cascade_mono e st st' : cascade e st st' -> mono st st'.
Proof.
  intros C. split; [|apply (ca_closed _ _ _ C)].
  intros p n H. destruct (cascade_fwd _ _ _ _ _ C H) as (n' & H' & [S|N]).
  - destruct S as (Sd & _ & Se). exists n'. rewrite Sd, Se. auto.
  - destruct N as (N1 & N2 & _ & N4 & _). exists n'. split; [exact H'|].
    split; [congruence|]. intros d Hd. rewrite N4, Hd. reflexivity.
Qed.

Lemma quiet_mono st st' : quiet st st' -> mono st st'.
Proof.
  intros C. split.
  - intros p n H. destruct (quiet_fwd _ _ _ _ C H) as (n' & H' & E & _ & D & _).
    exists n'. rewrite E. auto.
  - intros d. now rewrite (qu_closed _ _ C).
Qed.

Lemma released_mono c st : mono st (released c st).
Proof.
  split.
  - intros p n H.
    assert (p < length (heap (released c st)))%nat as Hlt.
    { rewrite released_length. now apply lookup_lt_Some in H. }
    destruct (lookup_lt_is_Some_2 _ _ Hlt) as [n' Hn'].
    exists n'. split; [exact Hn'|].
    apply released_lookup in Hn' as (n0 & Hn0 & (Sd & _ & Se)).
    assert (n0 = n) as -> by congruence. rewrite Sd, Se. auto.
  - intros d. now rewrite released_closed.
Qed.

Lemma mono_dead st st' p : mono st st' -> dead st p -> dead st' p.
Proof.
  intros Hm (n & Hn & He). destruct (mo_node _ _ Hm _ _ Hn) as (n' & Hn' & E & _).
  exists n'. split; [exact Hn'|]. destruct (err n) as [e|]; [|congruence].
  rewrite (E e eq_refl). discriminate.
Qed.

(** An update of one struct that keeps [err] and [done]. *)
Lemma mono_upd st p n n' :
  heap st !! p = Some n -> err n' = err n -> done n' = done n ->
  mono st (upd p n' st).
Proof.
  intros Hp He Hd. split; [|auto].
  intros q m H. destruct (decide (p = q)) as [<-|Hne].
  - exists n'. split; [eapply lookup_upd_eq; eauto|].
    assert (m = n) as -> by congruence. rewrite He, Hd. auto.
  - exists m. rewrite lookup_upd_ne by exact Hne. auto.
Qed.

Lemma mono_same_store st st' :
  heap st' = heap st -> chans st' = chans st -> mono st st'.
Proof.
  intros Hh Hc. split; unfold is_closed; rewrite ?Hh, ?Hc; eauto.
Qed.

(** ** [newCancelCtx] *)

Lemma alloc_Ok st : alloc new_node st = Ok (length (heap st), alloc_state st).
Proof. reflexivity. Qed.

Lemma alloc_lookup st q m :
  heap (alloc_state st) !! q = Some m ->
  heap st !! q = Some m \/ (q = length (heap st) /\ m = new_node).
Proof.
  simpl. intros H. apply lookup_app_Some in H as [H|[Hge H]]; [now left|].
  right. destruct (q - length (heap st))%nat as [|k] eqn:E; simpl in H.
  - injection H as <-. split; [lia | reflexivity].
  - destruct k; discriminate.
Qed.

Lemma alloc_lookup_old st q m :
  heap st !! q = Some m -> heap (alloc_state st) !! q = Some m.
Proof. intros H. simpl. now apply lookup_app_l_Some. Qed.

Lemma alloc_lookup_new st :
  heap (alloc_state st) !! length (heap st) = Some new_node.
Proof. simpl. rewrite lookup_app_r by lia. now rewrite Nat.sub_diag. Qed.

Lemma mono_alloc st : mono st (alloc_state st).
Proof.
  split; [|auto]. intros p n H. exists n. split; [|auto].
  now apply alloc_lookup_old.
Qed.

Lemma pinv_alloc hs x c st :
  pinv hs x st ->
  canceler_ptr c = length (heap st) ->
  bounded (length (heap st)) (canceler_parent c) = true ->
  pinv (hs ++ [c]) x (alloc_state st).
Proof.
  intros I Hptr Hb.
  assert (Hhs : forall p a, hs !! p = Some a -> (hs ++ [c]) !! p = Some a)
    by (intros p a; apply lookup_app_l_Some).
  assert (Hlives : forall q, lives st q -> lives (alloc_state st) q).
  { intros q (m & Hm & He). exists m. split; [|exact He].
    now apply alloc_lookup_old. }
  split.
  - simpl. rewrite !length_app, (pi_len _ _ _ I). reflexivity.
  - intros p a H. apply lookup_app_Some in H as [H|[Hge H]].
    + apply (pi_hs _ _ _ I _ _ H).
    + rewrite (pi_len _ _ _ I) in *.
      destruct (p - length (heap st))%nat as [|k] eqn:E; simpl in H.
      * injection H as <-. assert (p = length (heap st)) as -> by lia.
        auto.
      * destruct k; discriminate.
  - apply (pi_cc _ _ _ I).
  - intros p n d H Hd. apply alloc_lookup in H as [H|[_ ->]]; [|discriminate].
    apply (pi_done _ _ _ I _ _ _ H Hd).
  - intros p n H He. apply alloc_lookup in H as [H|[_ ->]].
    + apply (pi_err _ _ _ I _ _ H He).
    + now contradict He.
  - intros p q n m d H1 H2 Hd1 Hd2.
    apply alloc_lookup in H1 as [H1|[_ ->]]; [|discriminate].
    apply alloc_lookup in H2 as [H2|[_ ->]]; [|discriminate].
    apply (pi_uniq _ _ _ I _ _ _ _ _ H1 H2 Hd1 Hd2).
  - intros p n cs ch H Hcs Hin.
    apply alloc_lookup in H as [H|[_ ->]]; [|discriminate].
    destruct (pi_child _ _ _ I _ _ _ _ H Hcs Hin) as (H1 & H2 & d & H3 & H4 & H5).
    split; [auto|]. split; [exact H2|]. exists d. splits; auto.
    eapply peek_Done_stable; [|exact H5].
    intros q m e0 Hq He0. exists m. split; [|exact He0].
    now apply alloc_lookup_old.
  - intros p n cs H Hcs.
    apply alloc_lookup in H as [H|[_ ->]]; [|discriminate].
    apply (pi_nodup _ _ _ I _ _ _ H Hcs).
  - intros p n cs ch H Hcs Hin He.
    apply alloc_lookup in H as [H|[_ ->]]; [|discriminate].
    destruct (pi_live _ _ _ I _ _ _ _ H Hcs Hin He); auto.
  - intros p n t H Ht.
    apply alloc_lookup in H as [H|[_ ->]]; [|discriminate].
    destruct (pi_timer _ _ _ I _ _ _ H Ht) as (H1 & par & dl & H2).
    split; [exact H1|]. exists par, dl. auto.
  - intros t r H. apply Hhs. apply (pi_timers _ _ _ I _ _ H).
  - intros parent child H.
    destruct (pi_waiters _ _ _ I _ _ H) as (H1 & H2 & H3).
    splits; auto. apply tracked_false. intros q m cs ch Hq Hcs Hin.
    apply alloc_lookup in Hq as [Hq|[_ ->]]; [|discriminate].
    rewrite tracked_false in H3. exact (H3 _ _ _ _ Hq Hcs Hin).
Qed.

Lemma settled_alloc st : settled st -> settled (alloc_state st).
Proof.
  intros Q p n H He. apply alloc_lookup in H as [H|[_ ->]].
  - exact (Q p n H He).
  - reflexivity.
Qed.

(** In a state of the invariant nothing refers to an address that is
    not allocated. *)
Lemma pinv_untracked_new hs x st p :
  pinv hs x st -> (length (heap st) <= p)%nat -> tracked st p = false.
Proof.
  intros I Hp. apply tracked_false. intros q m cs ch Hq Hcs Hin Heq.
  destruct (pi_child _ _ _ I _ _ _ _ Hq Hcs Hin) as (Hh & _).
  apply lookup_lt_Some in Hh. rewrite (pi_len _ _ _ I) in Hh. lia.
Qed.

Lemma pinv_no_waiter_new hs x st p parent child :
  pinv hs x st -> (length (heap st) <= p)%nat ->
  (parent, child) ∈ waiters st -> canceler_ptr child <> p.
Proof.
  intros I Hp Hw. destruct (pi_waiters _ _ _ I _ _ Hw) as (Hh & _).
  apply lookup_lt_Some in Hh. rewrite (pi_len _ _ _ I) in Hh. lia.
Qed.

(** ** Registering a child *)

Lemma map_add_elem child cs ch :
  ch ∈ map_add child cs -> ch = child \/ ch ∈ cs.
Proof.
  unfold map_add. destruct (existsb (same_canceler child) cs); [auto|].
  intros H. apply elem_of_cons in H. tauto.
Qed.

Lemma map_add_NoDup child cs :
  NoDup (canceler_ptr <$> cs) ->
  (forall ch, ch ∈ cs -> canceler_ptr ch <> canceler_ptr child) ->
  NoDup (canceler_ptr <$> map_add child cs).
Proof.
  intros Hnd Hne. unfold map_add.
  destruct (existsb (same_canceler child) cs); [exact Hnd|].
  rewrite fmap_cons. apply NoDup_cons. split; [|exact Hnd].
  intros H. apply list_elem_of_fmap in H as (ch & Heq & Hin).
  exact (Hne ch Hin (eq_sym Heq)).
Qed.

Lemma children_add_Ok q child st m :
  heap st !! q = Some m ->
  children_add q child st = Ok (tt, add_state q m child st).
Proof.
  intros H. unfold children_add.
  rewrite (bind_Ok _ _ _ _ _ (load_Ok _ _ _ H)).
  now apply set_children_Ok.
Qed.

Lemma pinv_add_child hs st q m c :
  pinv hs None st -> heap st !! q = Some m -> err m = None ->
  hs !! canceler_ptr c = Some c -> lives st (canceler_ptr c) ->
  tracked st (canceler_ptr c) = false ->
  (forall parent child, (parent, child) ∈ waiters st ->
     canceler_ptr child <> canceler_ptr c) ->
  found st (canceler_parent c) q ->
  pinv hs None (add_state q m c st).
Proof.
  intros I Hq He Hc Hl Ht Hw (Hv & m' & d & Hm' & Hd & Hne & Hpk).
  assert (m' = m) as -> by congruence.
  apply (pinv_step hs None st (add_state q m c st) q m
           (with_children m (Some (map_add c (default [] (children m)))))
           I Hq eq_refl eq_refl eq_refl); simpl.
  - lia.
  - apply (pi_cc _ _ _ I).
  - auto.
  - auto.
  - intros d0; apply (pi_done _ _ _ I _ _ d0 Hq).
  - congruence.
  - apply (pi_err _ _ _ I _ _ Hq).
  - congruence.
  - intros cs ch [= <-] Hin. apply map_add_elem in Hin as [->|Hin].
    + split; [exact Hc|]. split; [exact Hv|]. split; [eauto|].
      split; [auto|]. exact Hw.
    + destruct (children m) as [cs|] eqn:Ecs; [|inversion Hin].
      simpl in Hin.
      destruct (pi_child _ _ _ I _ _ _ _ Hq Ecs Hin) as (H1 & H2 & H3).
      split; [exact H1|]. split; [exact H2|]. split; [exact H3|]. split.
      * intros _. exact (pi_live _ _ _ I _ _ _ _ Hq Ecs Hin He).
      * intros parent child Hwc.
        exact (pinv_tracked_no_waiter _ _ _ _ _ _ _ _ _ I Hq Ecs Hin Hwc).
  - intros cs [= <-]. apply map_add_NoDup.
    + destruct (children m) as [cs|] eqn:Ecs; [|constructor].
      exact (pi_nodup _ _ _ I _ _ _ Hq Ecs).
    + intros ch Hin. destruct (children m) as [cs|] eqn:Ecs; [|inversion Hin].
      rewrite tracked_false in Ht. exact (Ht _ _ _ _ Hq Ecs Hin).
  - intros t0; apply (pi_timer _ _ _ I _ _ t0 Hq).
Qed.

Lemma settled_add q m c st :
  settled st -> heap st !! q = Some m -> err m = None ->
  settled (add_state q m c st).
Proof.
  intros Q Hq He p n H Hen. apply lookup_upd in H as [(<- & <- & _)|[_ H]].
  - simpl in Hen. congruence.
  - exact (Q p n H Hen).
Qed.

(** ** Starting a goroutine *)

Lemma pinv_wait hs x st c :
  pinv hs x st -> hs !! canceler_ptr c = Some c ->
  tracked st (canceler_ptr c) = false ->
  pinv hs x (wait_state (canceler_parent c) c st).
Proof.
  intros [L HS CC DN ER UQ CH ND LV TM TS WT] Hc Ht.
  split; auto.
  intros parent child H. simpl in H. apply elem_of_app in H as [H|H].
  - apply (WT _ _ H).
  - apply list_elem_of_singleton in H. injection H as -> ->. auto.
Qed.

(** ** Arming a timer *)

Lemma AfterFunc_set_timer p n dur c st :
  heap st !! p = Some n ->
  (t <- AfterFunc dur c ;; set_timer p (Some t)) st
  = Ok (tt, arm_state p n dur c st).
Proof.
  intros H. unfold AfterFunc, bind at 1.
  now apply set_timer_Ok.
Qed.

Lemma pinv_arm hs x st p n dur parent dl :
  pinv hs x st -> heap st !! p = Some n ->
  hs !! p = Some (timerCtx_ parent p dl) ->
  pinv hs x (arm_state p n dur (timerCtx_ parent p dl) st).
Proof.
  intros I Hp Hc.
  set (r := {| t_target := timerCtx_ parent p dl; t_dur := dur;
               t_active := true |}).
  assert (I1 : pinv hs x (set_timers (timers st ++ [r]) st)).
  { apply (pinv_timers hs x st); auto; simpl.
    - rewrite length_app. lia.
    - intros t r0 H. apply lookup_app_Some in H as [H|[_ H]].
      + apply (pi_timers _ _ _ I _ _ H).
      + destruct (t - length (timers st))%nat as [|k]; simpl in H.
        * injection H as <-. exact Hc.
        * destruct k; discriminate. }
  apply (pinv_step hs x _ (arm_state p n dur (timerCtx_ parent p dl) st) p n
           (with_timer n (Some (length (timers st)))) I1 Hp
           eq_refl eq_refl eq_refl); simpl.
  - lia.
  - apply (pi_cc _ _ _ I).
  - auto.
  - auto.
  - intros d0; apply (pi_done _ _ _ I _ _ d0 Hp).
  - congruence.
  - apply (pi_err _ _ _ I _ _ Hp).
  - congruence.
  - apply (pinv_step_children_sub hs x _ p n (children n) I1 Hp). eauto.
  - intros cs0; apply (pi_nodup _ _ _ I _ _ cs0 Hp).
  - intros t [= <-]. rewrite length_app. simpl. split; [lia|]. eauto.
Qed.

(** ** [Err] *)

Lemma Err_state c st eo st' : Err c st = Ok (eo, st') -> st' = st.
Proof.
  induction c; simpl; try (now intros [= _ ->]); try assumption.
  - unfold cancelCtx_Err. intros H. apply bind_inv in H as (n & s & H1 & H2).
    apply load_inv in H1 as [_ ->]. now injection H2.
  - unfold cancelCtx_Err. intros H. apply bind_inv in H as (n & s & H1 & H2).
    apply load_inv in H1 as [_ ->]. now injection H2.
Qed.

Lemma cancelCtx_Err_Ok p st n :
  heap st !! p = Some n -> cancelCtx_Err p st = Ok (err n, st).
Proof.
  intros H. unfold cancelCtx_Err. now rewrite (bind_Ok _ _ _ _ _ (load_Ok _ _ _ H)).
Qed.

Lemma Err_canceler c st n :
  heap st !! canceler_ptr c = Some n ->
  Err (canceler_Context c) st = Ok (err n, st).
Proof. destruct c; simpl; apply cancelCtx_Err_Ok. Qed.

(** * [propagateCancel] *)

Lemma propagateCancel_none parent child st st1 :
  Done parent st = Ok (None, st1) ->
  propagateCancel parent child st = Ok (tt, st1).
Proof.
  intros H. unfold propagateCancel. now rewrite (bind_Ok _ _ _ _ _ H).
Qed.

Lemma propagateCancel_closed parent child st d st1 :
  Done parent st = Ok (Some d, st1) -> is_closed st1 d = true ->
  propagateCancel parent child st
  = (e <- Err parent ;; cancel child false e) st1.
Proof.
  intros H Hc. unfold propagateCancel. rewrite (bind_Ok _ _ _ _ _ H).
  unfold bind at 1, get at 1. now rewrite Hc.
Qed.

Lemma propagateCancel_open parent child st d st1 :
  Done parent st = Ok (Some d, st1) -> is_closed st1 d = false ->
  propagateCancel parent child st
  = (r <- parentCancelCtx parent ;;
     match r with
     | Some p =>
         n <- load p ;;
         match err n with
         | Some e => cancel child false (Some e)
         | None => children_add p child
         end
     | None =>
         modify (fun st => set_goroutines (wrap32 (goroutines st + 1)) st) ;;;
         modify (fun st => set_waiters (waiters st ++ [(parent, child)]) st)
     end) st1.
Proof.
  intros H Hc. unfold propagateCancel. rewrite (bind_Ok _ _ _ _ _ H).
  unfold bind at 1, get at 1. now rewrite Hc.
Qed.

Lemma quiet_untracked st st' p :
  quiet st st' -> tracked st p = false -> tracked st' p = false.
Proof.
  intros Q Ht. apply tracked_false. intros q m' cs' ch Hq Hcs' Hin.
  rewrite tracked_false in Ht.
  destruct (qu_node _ _ Q _ _ Hq) as (m & Hm & _ & _ & _ & [Hc|(cs & cs0 & Hc & Hc' & Hs)]).
  - eapply Ht; eauto. congruence.
  - eapply (Ht q m cs); eauto. eapply elem_of_sublist; [|exact Hs]. congruence.
Qed.

Lemma quiet_lives st st' p : quiet st st' -> lives st p -> lives st' p.
Proof.
  intros Q (n & Hn & He).
  destruct (quiet_fwd _ _ _ _ Q Hn) as (n' & Hn' & E & _).
  exists n'. split; [exact Hn'|]. congruence.
Qed.

(** What [propagateCancel] does for a live struct that is registered
    nowhere yet. *)
Lemma propagateCancel_pinv hs st c :
  pinv hs None st -> settled st ->
  hs !! canceler_ptr c = Some c -> lives st (canceler_ptr c) ->
  tracked st (canceler_ptr c) = false ->
  (forall parent child, (parent, child) ∈ waiters st ->
     canceler_ptr child <> canceler_ptr c) ->
  exists d st1,
    Done (canceler_parent c) st = Ok (d, st1)
    /\ pinv hs None st1 /\ settled st1 /\ quiet st st1
    /\ ((d = None
         /\ propagateCancel (canceler_parent c) c st = Ok (tt, st1))
        \/ (exists d', d = Some d' /\ is_closed st1 d' = true
              /\ propagateCancel (canceler_parent c) c st
                 = (e <- Err (canceler_parent c) ;; cancel c false e) st1)
        \/ (exists d' st', d = Some d' /\ is_closed st1 d' = false
              /\ propagateCancel (canceler_parent c) c st = Ok (tt, st')
              /\ pinv hs None st' /\ settled st' /\ mono st1 st'
              /\ length (heap st') = length (heap st1)
              /\ heap st' !! canceler_ptr c = heap st1 !! canceler_ptr c
              /\ timers st' = timers st1
              /\ chans st' = chans st1)).
Proof.
  intros I Q Hc Hl Ht Hw.
  destruct (pi_hs _ _ _ I _ _ Hc) as [_ Hb].
  assert (Hlt : (canceler_ptr c < length (heap st))%nat).
  { rewrite <- (pi_len _ _ _ I). now apply lookup_lt_Some in Hc. }
  assert (Hb' : bounded (length (heap st)) (canceler_parent c) = true).
  { eapply bounded_mono; [|exact Hb]. lia. }
  destruct (Done_pinv _ _ _ _ I Hb') as (st1 & HD & I1 & Q1 & _ & _).
  pose proof (quiet_settled _ _ Q1 Q) as S1.
  exists (peek_Done (heap st1) (canceler_parent c)), st1.
  split; [exact HD|]. split; [exact I1|]. split; [exact S1|].
  split; [exact Q1|].
  destruct (peek_Done (heap st1) (canceler_parent c)) as [d|] eqn:Ed.
  2:{ left. split; [reflexivity|]. now apply propagateCancel_none. }
  right. destruct (is_closed st1 d) eqn:Ecl.
  { left. exists d. splits; auto.
    exact (propagateCancel_closed _ _ _ _ _ HD Ecl). }
  right.
  rewrite (propagateCancel_open _ _ _ _ _ HD Ecl).
  assert (Hb1 : bounded (length (heap st1)) (canceler_parent c) = true).
  { rewrite (qu_heap _ _ Q1). exact Hb'. }
  destruct (parentCancelCtx_pinv _ _ _ _ I1 Hb1)
    as (r & st2 & HP & _ & _ & _ & Hsame & Hr).
  specialize (Hsame d Ed). subst st2.
  rewrite (bind_Ok _ _ _ _ _ HP).
  pose proof (quiet_lives _ _ _ Q1 Hl) as Hl1.
  pose proof (quiet_untracked _ _ _ Q1 Ht) as Ht1.
  assert (Hw1 : forall parent child, (parent, child) ∈ waiters st1 ->
            canceler_ptr child <> canceler_ptr c).
  { intros parent child H. eapply Hw.
    destruct (Done_cases _ _ Hb') as [E|(p0 & n0 & _ & _ & _ & _ & E)];
      rewrite E in HD; injection HD as _ <-; exact H. }
  destruct r as [q|].
  - pose proof (proj1 (Hr q) eq_refl) as F.
    destruct F as (Hv & m & d0 & Hm & Hd0 & Hne & Hpk).
    assert (d0 = d) as -> by congruence.
    rewrite (bind_Ok _ _ _ _ _ (load_Ok _ _ _ Hm)).
    assert (He : err m = None).
    { destruct (pi_done _ _ _ I1 _ _ _ Hm Hd0) as [_ H].
      destruct (err m) eqn:E; [|reflexivity].
      rewrite (proj2 H) in Ecl by discriminate. discriminate. }
    rewrite He, (children_add_Ok _ _ _ _ Hm).
    assert (Hq : q <> canceler_ptr c).
    { pose proof (Value_key_bounded _ _ _ Hb Hv). lia. }
    exists d, (add_state q m c st1). splits; auto.
    + apply pinv_add_child; auto.
      split; [exact Hv|]. exists m, d. auto.
    + now apply settled_add.
    + apply (mono_upd st1 q m); auto.
    + simpl. apply length_insert.
    + unfold add_state. now rewrite lookup_upd_ne.
  - exists d, (wait_state (canceler_parent c) c st1). splits; auto.
    + now apply pinv_wait.
    + now apply mono_same_store.
Qed.

Lemma cancel_None c rfp st : cancel c rfp None st = Panic
  "context: internal error: missing cancel error".
Proof. rewrite cancel_unfold. now destruct c. Qed.

(** What a successful call of [cancel] from outside a cascade leaves. *)
Lemma cancel_keeps hs c rfp eo st st' :
  pinv hs None st -> settled st -> hs !! canceler_ptr c = Some c ->
  (rfp = true \/ tracked st (canceler_ptr c) = false) ->
  cancel c rfp eo st = Ok (tt, st') ->
  pinv hs None st' /\ settled st' /\ mono st st'
  /\ length (heap st') = length (heap st) /\ dead st' (canceler_ptr c).
Proof.
  intros I Q Hc Hr H. destruct eo as [e|]; [|now rewrite cancel_None in H].
  destruct (cancel_pinv hs e c rfp st I Q Hc Hr)
    as (st1 & st2 & E & I' & Q' & C1 & D1 & Q2 & _).
  rewrite E in H. injection H as <-. splits; auto.
  - eapply mono_trans; [exact (cascade_mono _ _ _ C1)|].
    eapply mono_trans; [exact (quiet_mono _ _ Q2)|]. apply released_mono.
  - now rewrite released_length, (qu_heap _ _ Q2), (ca_heap _ _ _ C1).
  - apply dead_released. eapply quiet_dead; eauto.
Qed.

Lemma propagateCancel_keeps hs st c st' :
  pinv hs None st -> settled st ->
  hs !! canceler_ptr c = Some c -> lives st (canceler_ptr c) ->
  tracked st (canceler_ptr c) = false ->
  (forall parent child, (parent, child) ∈ waiters st ->
     canceler_ptr child <> canceler_ptr c) ->
  propagateCancel (canceler_parent c) c st = Ok (tt, st') ->
  pinv hs None st' /\ settled st' /\ mono st st'
  /\ length (heap st') = length (heap st).
Proof.
  intros I Q Hc Hl Ht Hw H.
  destruct (propagateCancel_pinv hs st c I Q Hc Hl Ht Hw)
    as (d & st1 & HD & I1 & S1 & Q1 & Hcase).
  destruct Hcase as [(-> & E)|[(d' & -> & Hcl & E)|
    (d' & st2 & -> & Hcl & E & I2 & S2 & M2 & L2 & _)]].
  - rewrite E in H. injection H as <-. splits; auto.
    + now apply quiet_mono.
    + apply (qu_heap _ _ Q1).
  - rewrite E in H. apply bind_inv in H as (eo & s & HE & H).
    apply Err_state in HE as ->.
    destruct (cancel_keeps hs c false eo st1 st' I1 S1 Hc) as (A & B & C & D & _);
      auto.
    { right. eapply quiet_untracked; eauto. }
    splits; auto.
    + eapply mono_trans; [exact (quiet_mono _ _ Q1)|exact C].
    + rewrite D. apply (qu_heap _ _ Q1).
  - rewrite E in H. injection H as <-. splits; auto.
    + eapply mono_trans; [exact (quiet_mono _ _ Q1)|exact M2].
    + rewrite L2. apply (qu_heap _ _ Q1).
Qed.

(** ** The two constructors *)

Lemma inv_dead_untracked fs st p : inv fs st -> dead st p -> tracked st p = false.
Proof.
  intros [I Q _] (n & Hn & He). apply tracked_false.
  intros q m cs ch Hq Hcs Hin Heq.
  destruct (err m) as [e|] eqn:Em.
  - rewrite (Q q m Hq) in Hcs by congruence. discriminate.
  - destruct (pi_live _ _ _ I _ _ _ _ Hq Hcs Hin Em) as [(n0 & Hn0 & He0)|C];
      [|discriminate].
    rewrite Heq in Hn0. congruence.
Qed.

(** The state a constructor starts [propagateCancel] in. *)
Lemma inv_alloc fs st c :
  inv fs st ->
  canceler_ptr c = length (heap st) ->
  bounded (length (heap st)) (canceler_parent c) = true ->
  let hs := (cf_target <$> fs) ++ [c] in
  pinv hs None (alloc_state st) /\ settled (alloc_state st)
  /\ hs !! canceler_ptr c = Some c
  /\ lives (alloc_state st) (canceler_ptr c)
  /\ tracked (alloc_state st) (canceler_ptr c) = false
  /\ (forall parent child, (parent, child) ∈ waiters (alloc_state st) ->
        canceler_ptr child <> canceler_ptr c).
Proof.
  intros [I Q F] Hp Hb hs.
  pose proof (pinv_alloc _ _ c _ I Hp Hb) as I0.
  splits.
  - exact I0.
  - now apply settled_alloc.
  - unfold hs. rewrite Hp, <- (pi_len _ _ _ I).
    rewrite lookup_app_r by lia. now rewrite Nat.sub_diag.
  - exists new_node. rewrite Hp. split; [apply alloc_lookup_new | reflexivity].
  - apply tracked_false. intros q m cs ch Hq Hcs Hin Heq.
    apply alloc_lookup in Hq as [Hq|[_ ->]]; [|discriminate].
    assert (Hu : tracked st (canceler_ptr c) = false)
      by (eapply pinv_untracked_new; [exact I | lia]).
    rewrite tracked_false in Hu. exact (Hu _ _ _ _ Hq Hcs Hin Heq).
  - intros parent child Hw.
    eapply (pinv_no_waiter_new _ _ st); eauto. lia.
Qed.

Lemma inv_snoc fs f st st0 :
  inv fs st0 -> mono st0 st ->
  pinv ((cf_target <$> fs) ++ [cf_target f]) None st -> settled st ->
  (cf_removeFromParent f = false -> dead st (length fs)) ->
  inv (fs ++ [f]) st.
Proof.
  intros [I0 Q0 F0] Hm I Q Hf. split.
  - now rewrite fmap_app.
  - exact Q.
  - intros p g Hg Hfl. apply lookup_app_Some in Hg as [Hg|[Hge Hg]].
    + eapply mono_dead; [exact Hm|]. eapply F0; eauto.
    + destruct (p - length fs)%nat as [|k] eqn:E; simpl in Hg.
      * injection Hg as <-. assert (p = length fs) as -> by lia. auto.
      * destruct k; discriminate.
Qed.

Lemma WithCancel_inv fs st parent ctx f st' :
  inv fs st -> bounded (length (heap st)) parent = true ->
  WithCancel (Some parent) st = Ok ((ctx, f), st') ->
  inv (fs ++ [f]) st' /\ mono st st'
  /\ length (heap st') = S (length (heap st))
  /\ f = {| cf_target := cancelCtx_ parent (length (heap st));
            cf_removeFromParent := true |}.
Proof.
  intros Hinv Hb H.
  unfold WithCancel, newCancelCtx in H.
  rewrite (bind_Ok _ _ _ _ _ (alloc_Ok st)) in H.
  apply bind_inv in H as ([] & st1 & HP & H). injection H as <- <- <-.
  set (c := cancelCtx_ parent (length (heap st))) in *.
  destruct (inv_alloc fs st c Hinv eq_refl Hb) as (I0 & Q0 & Hc & Hl & Ht & Hw).
  destruct (propagateCancel_keeps _ _ c st1 I0 Q0 Hc Hl Ht Hw HP)
    as (I1 & Q1 & M1 & L1).
  splits; auto.
  - eapply inv_snoc; eauto; [|discriminate].
    eapply mono_trans; [apply mono_alloc | exact M1].
  - eapply mono_trans; [apply mono_alloc | exact M1].
  - rewrite L1. simpl. rewrite length_app. simpl. lia.
Qed.

Lemma inv_heap_length fs st : inv fs st -> length fs = length (heap st).
Proof. intros [I _ _]. rewrite <- (pi_len _ _ _ I). now rewrite length_fmap. Qed.

Lemma WithDeadline_inv fs st parent d now ctx f st' :
  inv fs st -> bounded (length (heap st)) parent = true ->
  WithDeadline (Some parent) d now st = Ok ((ctx, f), st') ->
  inv (fs ++ [f]) st' /\ mono st st'
  /\ length (heap st') = S (length (heap st)).
Proof.
  intros Hinv Hb H. unfold WithDeadline in H.
  destruct (match Deadline parent with
            | Some cur => cur <? d
            | None => false
            end).
  { destruct (WithCancel_inv _ _ _ _ _ _ Hinv Hb H) as (A & B & C & _). auto. }
  unfold newCancelCtx in H.
  rewrite (bind_Ok _ _ _ _ _ (alloc_Ok st)) in H.
  apply bind_inv in H as ([] & st1 & HP & H).
  set (c := timerCtx_ parent (length (heap st)) d) in *.
  destruct (inv_alloc fs st c Hinv eq_refl Hb) as (I0 & Q0 & Hc & Hl & Ht & Hw).
  destruct (propagateCancel_keeps _ _ c st1 I0 Q0 Hc Hl Ht Hw HP)
    as (I1 & Q1 & M1 & L1).
  assert (M01 : mono st st1)
    by (eapply mono_trans; [apply mono_alloc | exact M1]).
  assert (L01 : length (heap st1) = S (length (heap st))).
  { rewrite L1. simpl. rewrite length_app. simpl. lia. }
  pose proof (inv_heap_length _ _ Hinv) as Lfs.
  destruct (Until d now <=? 0).
  - apply bind_inv in H as ([] & st2 & HC & H). injection H as <- <- <-.
    destruct (cancel_keeps _ c true _ st1 st2 I1 Q1 Hc (or_introl eq_refl) HC)
      as (I2 & Q2 & M2 & L2 & D2).
    splits.
    + eapply inv_snoc; eauto.
      * eapply mono_trans; eauto.
      * intros _. rewrite Lfs. exact D2.
    + eapply mono_trans; eauto.
    + congruence.
  - apply bind_inv in H as (n & s & HL & H). apply load_inv in HL as [Hn ->].
    apply bind_inv in H as ([] & st2 & HA & H). injection H as <- <- <-.
    destruct (err n) as [e0|] eqn:He.
    + injection HA as <-. splits; auto.
      eapply inv_snoc; eauto. discriminate.
    + rewrite (AfterFunc_set_timer _ _ _ _ _ Hn) in HA. injection HA as <-.
      splits.
      * eapply inv_snoc; eauto.
        -- eapply mono_trans; [exact M01|].
           unfold arm_state.
           eapply mono_trans; [|apply (mono_upd _ _ n); auto].
           now apply mono_same_store.
        -- now apply pinv_arm.
        -- intros p m Hp Hm. apply lookup_upd in Hp as [(<- & <- & _)|[_ Hp]].
           ++ simpl in Hm. congruence.
           ++ exact (Q1 p m Hp Hm).
        -- discriminate.
      * eapply mono_trans; [exact M01|].
        unfold arm_state.
        eapply mono_trans; [|apply (mono_upd _ _ n); auto].
        now apply mono_same_store.
      * simpl. rewrite length_insert. exact L01.
Qed.

(** * Every reachable state satisfies the invariant *)

Lemma inv_init : inv [] init.
Proof.
  assert (Hnil : forall A (p : nat) (a : A), @nil A !! p = Some a -> False)
    by (intros A p a H; rewrite lookup_nil in H; discriminate).
  split.
  - split; intros; simpl in *; try reflexivity;
      try (exfalso; eapply Hnil; eassumption);
      try match goal with H : _ ∈ [] |- _ => inversion H end.
  - intros p n H. exfalso. eapply Hnil, H.
  - intros p f H. exfalso. eapply Hnil, H.
Qed.

Lemma pinv_waiters_sub hs x st ws :
  pinv hs x st -> (forall w, w ∈ ws -> w ∈ waiters st) ->
  pinv hs x (set_waiters ws st).
Proof.
  intros [L HS CC DN ER UQ CH ND LV TM TS WT] Hsub. split; auto.
Qed.

Lemma inv_handle fs st p f :
  inv fs st -> fs !! p = Some f ->
  (cf_target <$> fs) !! canceler_ptr (cf_target f) = Some (cf_target f)
  /\ canceler_ptr (cf_target f) = p.
Proof.
  intros [I _ _] Hf.
  assert (H : (cf_target <$> fs) !! p = Some (cf_target f))
    by (rewrite list_lookup_fmap, Hf; reflexivity).
  destruct (pi_hs _ _ _ I _ _ H) as [Hp _]. rewrite Hp. auto.
Qed.

(** A successful [cancel] between operations keeps the invariant. *)
Lemma cancel_inv fs st c rfp eo st' :
  inv fs st -> (cf_target <$> fs) !! canceler_ptr c = Some c ->
  (rfp = true \/ tracked st (canceler_ptr c) = false) ->
  cancel c rfp eo st = Ok (tt, st') ->
  inv fs st' /\ mono st st' /\ length (heap st') = length (heap st).
Proof.
  intros Hinv Hc Hr H. destruct Hinv as [I Q F].
  destruct (cancel_keeps _ c rfp eo st st' I Q Hc Hr H) as (I' & Q' & M & L & _).
  splits; auto. split; auto.
  intros p f Hf Hfl. eapply mono_dead; [exact M|]. eapply F; eauto.
Qed.

Lemma inv_mono_same fs st st' :
  inv fs st -> mono st st' -> pinv (cf_target <$> fs) None st' -> settled st' ->
  inv fs st'.
Proof.
  intros [I Q F] M I' Q'. split; auto.
  intros p f Hf Hfl. eapply mono_dead; [exact M|]. eapply F; eauto.
Qed.

Lemma Done_inv fs st c d st' :
  inv fs st -> bounded (length (heap st)) c = true ->
  Done c st = Ok (d, st') ->
  inv fs st' /\ quiet st st'.
Proof.
  intros Hinv Hb H. pose proof Hinv as [I Q F].
  destruct (Done_pinv _ _ _ _ I Hb) as (s & HD & I' & Q' & _).
  rewrite HD in H. injection H as _ <-. split; [|exact Q'].
  eapply inv_mono_same; eauto using quiet_mono, quiet_settled.
Qed.

Lemma exec_inv o st fs st' fs' :
  inv fs st -> exec o (st, fs) = Some (st', fs') ->
  inv fs' st' /\ mono st st'.
Proof.
  intros Hinv H. pose proof Hinv as [I Q F].
  destruct o as [c|parent|parent d now|p|t|t|i]; unfold exec in H.
  - (* Done *)
    destruct (bounded (length (heap st)) c) eqn:Hb; [|discriminate].
    destruct (Done c st) as [[d s]| |] eqn:E; simpl in H; try discriminate.
    injection H as <- <-.
    destruct (Done_inv _ _ _ _ _ Hinv Hb E) as [A B].
    auto using quiet_mono.
  - (* WithCancel *)
    destruct (bounded (length (heap st)) parent) eqn:Hb; [|discriminate].
    destruct (WithCancel (Some parent) st) as [[[ctx f] s]| |] eqn:E;
      simpl in H; try discriminate.
    injection H as <- <-.
    destruct (WithCancel_inv _ _ _ _ _ _ Hinv Hb E) as (A & B & _). auto.
  - (* WithDeadline *)
    destruct (bounded (length (heap st)) parent) eqn:Hb; [|discriminate].
    destruct (WithDeadline (Some parent) d now st) as [[[ctx f] s]| |] eqn:E;
      simpl in H; try discriminate.
    injection H as <- <-.
    destruct (WithDeadline_inv _ _ _ _ _ _ _ _ Hinv Hb E) as (A & B & _). auto.
  - (* a cancel function *)
    destruct (fs !! p) as [f|] eqn:Hf; simpl in H; [|discriminate].
    destruct (call f st) as [[[] s]| |] eqn:E; simpl in H; try discriminate.
    injection H as <- <-.
    destruct (inv_handle _ _ _ _ Hinv Hf) as [Hc Hp].
    unfold call in E.
    assert (Hr : cf_removeFromParent f = true
                 \/ tracked st (canceler_ptr (cf_target f)) = false).
    { destruct (cf_removeFromParent f) eqn:Hfl; [now left|right].
      rewrite Hp. eapply inv_dead_untracked; eauto. }
    destruct (cancel_inv _ _ _ _ _ _ Hinv Hc Hr E) as (A & B & _). auto.
  - (* a timer fires *)
    destruct (fire t st) as [[[] s]| |] eqn:E; simpl in H; try discriminate.
    injection H as <- <-.
    unfold fire in E. unfold bind at 1, get at 1 in E.
    destruct (timers st !! t) as [r|] eqn:Hr;
      [|injection E as <-; auto using mono_refl].
    destruct (t_active r); [|injection E as <-; auto using mono_refl].
    rewrite (bind_Ok _ _ _ _ _ (Stop_Ok t st)) in E.
    assert (Hinv1 : inv fs (stop_state t st)).
    { eapply inv_mono_same; eauto.
      - apply mono_same_store; [apply stop_state_heap | apply stop_state_chans].
      - now apply pinv_stop.
      - intros q m. rewrite stop_state_heap. apply Q. }
    unfold timer_callback in E.
    destruct (cancel_inv _ _ _ _ _ _ Hinv1 (pi_timers _ _ _ I _ _ Hr)
                (or_introl eq_refl) E) as (A & B & _).
    split; [exact A|]. eapply mono_trans; [|exact B].
    apply mono_same_store; [apply stop_state_heap | apply stop_state_chans].
  - (* a late timer callback *)
    destruct (timers st !! t) as [r|] eqn:Hr; simpl in H; [|discriminate].
    destruct (timer_callback (t_target r) st) as [[[] s]| |] eqn:E;
      simpl in H; try discriminate.
    injection H as <- <-. unfold timer_callback in E.
    destruct (cancel_inv _ _ _ _ _ _ Hinv (pi_timers _ _ _ I _ _ Hr)
                (or_introl eq_refl) E) as (A & B & _).
    auto.
  - (* a waiting goroutine *)
    destruct (waiters st !! i) as [[parent child]|] eqn:Hw; simpl in H;
      [|discriminate].
    destruct (waiter_body parent child st) as [[b s]| |] eqn:E;
      simpl in H; try discriminate.
    assert (Hin : (parent, child) ∈ waiters st)
      by (eapply list_elem_of_lookup_2; eauto).
    destruct (pi_waiters _ _ _ I _ _ Hin) as (Hc & -> & Ht).
    destruct (pi_hs _ _ _ I _ _ Hc) as [_ Hb].
    assert (Hlt : (canceler_ptr child < length (heap st))%nat).
    { rewrite <- (pi_len _ _ _ I). now apply lookup_lt_Some in Hc. }
    assert (Hb1 : bounded (length (heap st)) (canceler_parent child) = true)
      by (eapply bounded_mono; [|exact Hb]; lia).
    unfold waiter_body in E.
    apply bind_inv in E as (dp & s1 & E1 & E).
    destruct (Done_inv _ _ _ _ _ Hinv Hb1 E1) as [Hinv1 Q1].
    assert (Hb2 : bounded (length (heap s1)) (canceler_Context child) = true).
    { rewrite (qu_heap _ _ Q1). destruct child; simpl in *;
        apply andb_true_intro; (split; [now apply Nat.ltb_lt | exact Hb1]). }
    apply bind_inv in E as (dc & s2 & E2 & E).
    destruct (Done_inv _ _ _ _ _ Hinv1 Hb2 E2) as [Hinv2 Q2].
    assert (M2 : mono st s2).
    { eapply mono_trans; apply quiet_mono; eauto. }
    assert (Hdone : inv fs s2 /\ mono st s2) by auto.
    assert (Hsub : forall ws s0, inv fs s0 ->
              (forall w, w ∈ ws -> w ∈ waiters s0) ->
              inv fs (set_waiters ws s0)).
    { intros ws s0 [I0 Q0 F0] Hs. split; auto.
      now apply pinv_waiters_sub. }
    unfold bind at 1, get at 1 in E.
    destruct (match dp with Some d => is_closed s2 d | None => false end).
    + apply bind_inv in E as (eo & s3 & E3 & E).
      apply Err_state in E3 as ->.
      apply bind_inv in E as ([] & s4 & E4 & E). injection E as <- <-.
      injection H as <- <-.
      destruct (cancel_inv fs s2 child false eo s4 Hinv2 Hc) as (A & B & _);
        auto.
      { right. eapply quiet_untracked; [exact Q2|].
        eapply quiet_untracked; eauto. }
      split.
      * apply Hsub; auto. intros w. apply list_elem_of_delete_inv.
      * eapply mono_trans; [exact M2|].
        eapply mono_trans; [exact B|]. now apply mono_same_store.
    + destruct (match dc with Some d => is_closed s2 d | None => false end);
        injection E as <- <-; injection H as <- <-; auto.
      split.
      * apply Hsub; auto. intros w. apply list_elem_of_delete_inv.
      * eapply mono_trans; [exact M2|]. now apply mono_same_store.
Qed.

Lemma run_cons o tr w :
  run (o :: tr) w = match exec o w with
                    | Some w' => run tr w'
                    | None => None
                    end.
Proof. reflexivity. Qed.

Lemma run_inv tr : forall st fs st' fs',
  inv fs st -> run tr (st, fs) = Some (st', fs') ->
  inv fs' st' /\ mono st st'.
Proof.
  induction tr as [|o tr IH]; intros st fs st' fs' Hinv H.
  - injection H as <- <-. auto using mono_refl.
  - rewrite run_cons in H.
    destruct (exec o (st, fs)) as [[s1 fs1]|] eqn:E; [|discriminate].
    destruct (exec_inv _ _ _ _ _ Hinv E) as [A B].
    destruct (IH _ _ _ _ A H) as [C D].
    split; [exact C|]. eapply mono_trans; eauto.
Qed.

Lemma reachable_inv st fs : reachable (st, fs) -> inv fs st.
Proof.
  intros [tr H]. exact (proj1 (run_inv tr _ _ _ _ inv_init H)).
Qed.

(** * What a call of [cancel] does to its own struct *)

Lemma reachable_handle st fs p f :
  reachable (st, fs) -> fs !! p = Some f ->
  inv fs st
  /\ (cf_target <$> fs) !! canceler_ptr (cf_target f) = Some (cf_target f)
  /\ canceler_ptr (cf_target f) = p
  /\ exists n, heap st !! p = Some n.
Proof.
  intros Hr Hf. pose proof (reachable_inv _ _ Hr) as Hinv.
  destruct (inv_handle _ _ _ _ Hinv Hf) as [Hc Hp].
  splits; auto.
  apply lookup_lt_is_Some_2. rewrite <- (inv_heap_length _ _ Hinv).
  now apply lookup_lt_Some in Hf.
Qed.

Lemma cancel_node fs st p f rfp e n :
  inv fs st -> fs !! p = Some f -> heap st !! p = Some n ->
  exists st1 st',
    cancel (cf_target f) rfp (Some e) st = Ok (tt, st')
    /\ (exists x, pinv (cf_target <$> fs) x st')
    /\ cascade e st st1 /\ dead st1 p /\ mono st1 st'
    /\ exists n', heap st' !! p = Some n'
         /\ match err n with
            | None => err n' = Some e
                      /\ done n' = Some (default closedchan (done n))
                      /\ children n' = None
            | Some _ => err n' = err n /\ done n' = done n
                        /\ children n' = children n
            end.
Proof.
  intros Hinv Hf Hn. pose proof Hinv as [I Q F].
  destruct (inv_handle _ _ _ _ Hinv Hf) as [Hc Hp].
  set (c := cf_target f) in *. set (hs := cf_target <$> fs) in *.
  (* the struct after the cascade *)
  assert (Hcore : forall st1 n1, cascade e st st1 ->
            heap st1 !! p = Some n1 ->
            match err n with
            | None => err n1 = Some e
                      /\ done n1 = Some (default closedchan (done n))
                      /\ children n1 = None
            | Some _ => err n1 = err n /\ done n1 = done n
                        /\ children n1 = children n
            end -> dead st1 p ->
            (exists d, done n1 = Some d) /\ children n1 = None).
  { intros st1 n1 C1 Hn1 Hm D1. destruct (err n) as [e0|] eqn:He.
    - destruct Hm as (E1 & E2 & E3). split.
      + destruct (done n) as [d|] eqn:Ed; [rewrite E2; eauto|].
        exfalso. apply (pi_err _ _ _ I _ _ Hn); congruence.
      + rewrite E3. apply (Q p n Hn). congruence.
    - destruct Hm as (E1 & E2 & E3). split; [eauto | exact E3]. }
  assert (Hnode : forall st1, cascade e st st1 -> dead st1 p ->
            exists n1, heap st1 !! p = Some n1
              /\ match err n with
                 | None => err n1 = Some e
                           /\ done n1 = Some (default closedchan (done n))
                           /\ children n1 = None
                 | Some _ => err n1 = err n /\ done n1 = done n
                             /\ children n1 = children n
                 end).
  { intros st1 C1 (n1 & Hn1 & He1). exists n1. split; [exact Hn1|].
    destruct (ca_node _ _ _ C1 _ _ Hn1) as (n0 & Hn0 & R).
    assert (n0 = n) as -> by congruence.
    destruct R as [(S1 & S2 & S3)|(N1 & N2 & N3 & N4 & _)].
    - destruct (err n); [auto | congruence].
    - rewrite N1. auto. }
  destruct rfp.
  - destruct (cancel_pinv hs e c true st I Q Hc (or_introl eq_refl))
      as (st1 & st2 & E & I' & Q' & C1 & D1 & Q2 & I2 & _).
    rewrite Hp in D1.
    exists st1, (released c st2). split; [exact E|]. split; [eauto|].
    split; [exact C1|]. split; [exact D1|]. split.
    { eapply mono_trans; [exact (quiet_mono _ _ Q2) | apply released_mono]. }
    destruct (Hnode st1 C1 D1) as (n1 & Hn1 & Hm).
    destruct (Hcore st1 n1 C1 Hn1 Hm D1) as ((d & Hd) & Hcs).
    destruct (quiet_fwd _ _ _ _ Q2 Hn1) as (n2 & Hn2 & E2 & _ & D2 & C2).
    assert (Hlt : (p < length (heap (released c st2)))%nat).
    { rewrite released_length. now apply lookup_lt_Some in Hn2. }
    destruct (lookup_lt_is_Some_2 _ _ Hlt) as [n' Hn'].
    exists n'. split; [exact Hn'|].
    apply released_lookup in Hn' as (n0 & Hn0 & (S1 & S2 & S3)).
    assert (n0 = n2) as -> by congruence.
    assert (Hd2 : done n2 = done n1) by (rewrite Hd; now apply D2).
    assert (Hc2 : children n2 = children n1).
    { destruct C2 as [C2|(cs & cs' & C2 & _)]; congruence. }
    rewrite S1, S2, S3, Hd2, Hc2, E2. exact Hm.
  - assert (Ix : pinv hs (Some p) st) by (now apply pinv_exempt).
    destruct (cancel_fuel_false hs (Some p) e (S (length (heap st))) c st Ix Hc)
      as (st1 & E & I1 & C1 & D1 & _).
    { lia. }
    { rewrite Hp. intros q m cs ch _ _ _ _ _. reflexivity. }
    rewrite Hp in D1.
    exists st1, st1. rewrite cancel_unfold. split; [exact E|].
    split; [eauto|]. split; [exact C1|]. split; [exact D1|].
    split; [apply mono_refl|]. now apply Hnode.
Qed.

(** All structs registered below a struct are live, and so is the
    struct. *)
Lemma descendant_lives fs st p ch :
  inv fs st -> descendant st p ch ->
  lives st p /\ lives st (canceler_ptr ch).
Proof.
  intros [I Q F] H. induction H as [p n cs ch Hn Hcs Hin|p ch ch' _ IH1 _ IH2].
  - assert (He : err n = None).
    { destruct (err n) eqn:E; [|reflexivity].
      rewrite (Q p n Hn) in Hcs by congruence. discriminate. }
    split; [exists n; auto|].
    destruct (pi_live _ _ _ I _ _ _ _ Hn Hcs Hin He) as [H|H];
      [exact H | discriminate].
  - tauto.
Qed.

(** A cascade that cancels a live struct cancels everything registered
    below it, with its cause. *)
Lemma cascade_descendant fs e st st1 p ch :
  inv fs st -> cascade e st st1 -> descendant st p ch -> dead st1 p ->
  exists n1, heap st1 !! canceler_ptr ch = Some n1 /\ err n1 = Some e.
Proof.
  intros Hinv C H. induction H as [p n cs ch Hn Hcs Hin|p ch ch' H1 IH1 H2 IH2];
    intros D.
  - assert (Hl : lives st (canceler_ptr ch)).
    { eapply descendant_lives; [exact Hinv|]. econstructor; eauto. }
    assert (Hlp : lives st p).
    { eapply descendant_lives; [exact Hinv|]. econstructor; eauto. }
    destruct D as (n1 & Hn1 & He1).
    destruct (ca_node _ _ _ C _ _ Hn1) as (n0 & Hn0 & R).
    assert (n0 = n) as -> by congruence.
    destruct Hlp as (n0 & Hn0' & He0). assert (n0 = n) as -> by congruence.
    destruct R as [(_ & _ & S3)|(_ & _ & _ & _ & K)]; [congruence|].
    destruct (K cs ch Hcs Hin) as (m1 & Hm1 & Hem1).
    exists m1. split; [exact Hm1|].
    destruct (ca_node _ _ _ C _ _ Hm1) as (m & Hm & R).
    destruct Hl as (m0 & Hm0 & Hem0). assert (m0 = m) as -> by congruence.
    destruct R as [(_ & _ & S3)|(_ & N2 & _)]; [congruence | exact N2].
  - destruct (IH1 D) as (m1 & Hm1 & Hem1).
    apply IH2. exists m1. split; [exact Hm1 | congruence].
Qed.

(** * Cancellation: exactly once, and all the way down *)

Lemma sample_reachable : reachable sample_world.
Proof. exists sample_trace. vm_compute. reflexivity. Qed.

(** C1: in every reachable state and for every cancelable or deadline
    struct, a call of [cancel] with a cause returns; if the struct was
    not canceled yet its error becomes that cause, and if it was
    canceled before, its error, its [done] channel and its children are
    what they were, whether the call detaches or not and whatever the
    cause. *)
Theorem C1_cancel_once st fs p f rfp e n :
  reachable (st, fs) -> fs !! p = Some f -> heap st !! p = Some n ->
  exists st' n',
    cancel (cf_target f) rfp (Some e) st = Ok (tt, st')
    /\ heap st' !! p = Some n'
    /\ (err n = None -> err n' = Some e)
    /\ (err n <> None ->
        err n' = err n /\ done n' = done n /\ children n' = children n).
Proof.
  intros Hr Hf Hn. pose proof (reachable_inv _ _ Hr) as Hinv.
  destruct (cancel_node fs st p f rfp e n Hinv Hf Hn)
    as (st1 & st' & E & _ & _ & _ & _ & n' & Hn' & Hm).
  exists st', n'. split; [exact E|]. split; [exact Hn'|].
  destruct (err n) as [e0|]; split; try tauto; try congruence.
Qed.

Lemma C1_witness :
  let st := fst sample_world in
  let fs := snd sample_world in
  exists f n st' n',
    fs !! 1%nat = Some f /\ heap st !! 1%nat = Some n
    /\ cancel (cf_target f) true (Some Canceled) st = Ok (tt, st')
    /\ heap st' !! 1%nat = Some n'
    /\ (err n = None -> err n' = Some Canceled)
    /\ (err n <> None ->
        err n' = err n /\ done n' = done n /\ children n' = children n).
Proof.
  intros st fs. eexists _, _.
  assert (Hf : fs !! 1%nat = Some _) by (vm_compute; reflexivity).
  assert (Hn : heap st !! 1%nat = Some _) by (vm_compute; reflexivity).
  destruct (C1_cancel_once st fs 1%nat _ true Canceled _
              sample_reachable Hf Hn) as (st' & n' & H).
  exists st', n'. split; [exact Hf|]. split; [exact Hn|]. exact H.
Defined.

(** C2: in every reachable state, a call of [cancel] on a cancelable or
    deadline struct returns; afterwards [Err] of every struct that was
    registered below it, directly or through other structs, is the cause
    of the call, and the struct has no children map. *)
Theorem C2_cancel_descendants st fs p f rfp e :
  reachable (st, fs) -> fs !! p = Some f ->
  exists st',
    cancel (cf_target f) rfp (Some e) st = Ok (tt, st')
    /\ (forall ch, descendant st p ch ->
          Err (canceler_Context ch) st' = Ok (Some e, st'))
    /\ exists n', heap st' !! p = Some n' /\ children n' = None.
Proof.
  intros Hr Hf.
  destruct (reachable_handle _ _ _ _ Hr Hf) as (Hinv & Hc & Hp & n & Hn).
  destruct (cancel_node fs st p f rfp e n Hinv Hf Hn)
    as (st1 & st' & E & _ & C1 & D1 & M & n' & Hn' & Hm).
  exists st'. split; [exact E|]. split.
  - intros ch Hd.
    destruct (cascade_descendant _ _ _ _ _ _ Hinv C1 Hd D1) as (m1 & Hm1 & He1).
    destruct (mo_node _ _ M _ _ Hm1) as (m' & Hm' & He' & _).
    rewrite (Err_canceler _ _ _ Hm'), (He' _ He1). reflexivity.
  - exists n'. split; [exact Hn'|].
    destruct (err n) as [e0|] eqn:He.
    + destruct Hm as (_ & _ & ->). destruct Hinv as [_ Q _].
      apply (Q p n Hn). congruence.
    + tauto.
Qed.

Lemma C2_witness :
  let st := fst sample_world in
  let fs := snd sample_world in
  exists f st',
    fs !! 0%nat = Some f
    /\ descendant st 0%nat
         (timerCtx_ (valueCtx (cancelCtx Background 0%nat) (int_ 1) (int_ 5))
                    1%nat 50)
    /\ cancel (cf_target f) true (Some Canceled) st = Ok (tt, st')
    /\ (forall ch, descendant st 0%nat ch ->
          Err (canceler_Context ch) st' = Ok (Some Canceled, st'))
    /\ exists n', heap st' !! 0%nat = Some n' /\ children n' = None.
Proof.
  intros st fs. eexists _.
  assert (Hf : fs !! 0%nat = Some _) by (vm_compute; reflexivity).
  destruct (C2_cancel_descendants st fs 0%nat _ true Canceled
              sample_reachable Hf) as (st' & H).
  exists st'. split; [exact Hf|]. split; [|exact H].
  eapply desc_child; [vm_compute; reflexivity | reflexivity |].
  apply list_elem_of_singleton. reflexivity.
Defined.

Lemma Done_canceler c st n d :
  heap st !! canceler_ptr c = Some n -> done n = Some d ->
  Done (canceler_Context c) st = Ok (Some d, st).
Proof.
  intros Hn Hd. apply peek_Done_Some. destruct c; simpl in *; now rewrite Hn.
Qed.

(** C9: in every reachable state, canceling a struct that is not
    canceled yet returns, and afterwards [Done] answers, without making
    anything, with a closed channel: the shared [closedchan] if no
    channel had been made for the struct, and otherwise the very channel
    that had been made, which was open before the call. *)
Theorem C9_done_after_cancel st fs p f rfp e n :
  reachable (st, fs) -> fs !! p = Some f -> heap st !! p = Some n ->
  err n = None ->
  exists st',
    cancel (cf_target f) rfp (Some e) st = Ok (tt, st')
    /\ Done (canceler_Context (cf_target f)) st'
       = Ok (Some (default closedchan (done n)), st')
    /\ is_closed st' (default closedchan (done n)) = true
    /\ (forall d, done n = Some d -> is_closed st d = false).
Proof.
  intros Hr Hf Hn He.
  destruct (reachable_handle _ _ _ _ Hr Hf) as (Hinv & Hc & Hp & _).
  destruct (cancel_node fs st p f rfp e n Hinv Hf Hn)
    as (st1 & st' & E & (x & I') & _ & _ & _ & n' & Hn' & Hm).
  rewrite He in Hm. destruct Hm as (He' & Hd' & _).
  exists st'. split; [exact E|]. split; [|split].
  - rewrite <- Hp in Hn'. exact (Done_canceler _ _ _ _ Hn' Hd').
  - destruct (pi_done _ _ _ I' _ _ _ Hn' Hd') as [_ H]. apply H. congruence.
  - intros d Hd. destruct Hinv as [I _ _].
    exact (pinv_open _ _ _ _ _ _ I Hn He Hd).
Qed.

Lemma C9_witness :
  let st := fst sample_world in
  let fs := snd sample_world in
  exists f0 f1 n0 n1 st0 st1,
    fs !! 0%nat = Some f0 /\ fs !! 1%nat = Some f1
    /\ heap st !! 0%nat = Some n0 /\ heap st !! 1%nat = Some n1
    /\ done n1 = Some 2%nat
    /\ cancel (cf_target f1) true (Some Canceled) st = Ok (tt, st1)
    /\ Done (canceler_Context (cf_target f1)) st1 = Ok (Some 2%nat, st1)
    /\ is_closed st1 2%nat = true
    /\ cancel (cf_target f0) true (Some Canceled) st = Ok (tt, st0)
    /\ is_closed st0 (default closedchan (done n0)) = true.
Proof.
  intros st fs. eexists _, _, _, _.
  assert (Hf0 : fs !! 0%nat = Some _) by (vm_compute; reflexivity).
  assert (Hf1 : fs !! 1%nat = Some _) by (vm_compute; reflexivity).
  assert (Hn0 : heap st !! 0%nat = Some _) by (vm_compute; reflexivity).
  assert (Hn1 : heap st !! 1%nat = Some _) by (vm_compute; reflexivity).
  destruct (C9_done_after_cancel st fs 1%nat _ true Canceled _
              sample_reachable Hf1 Hn1 eq_refl) as (st1 & A1 & A2 & A3 & _).
  destruct (C9_done_after_cancel st fs 0%nat _ true Canceled _
              sample_reachable Hf0 Hn0 eq_refl) as (st0 & B1 & _ & B3 & _).
  exists st0, st1. splits; try assumption.
Defined.

(** * Deadline contexts and contexts below a canceled parent *)

Lemma released_timer_None parent p dl st n' :
  heap (released (timerCtx_ parent p dl) st) !! p = Some n' -> timer n' = None.
Proof.
  simpl. destruct (heap st !! p) as [n|] eqn:Hn; [|congruence].
  destruct (timer n) as [t|] eqn:Ht.
  - intros H. apply lookup_upd in H as [(_ & <- & _)|[C _]]; [reflexivity|].
    congruence.
  - intros H. congruence.
Qed.

Lemma released_timers_length c st :
  length (timers (released c st)) = length (timers st).
Proof.
  destruct c as [parent p|parent p dl]; simpl; [reflexivity|].
  destruct (heap st !! p) as [n|]; [|reflexivity].
  destruct (timer n); [|reflexivity].
  simpl. apply stop_state_length.
Qed.

(** A detaching [cancel] on a deadline struct leaves it without a
    timer, and the timer it had is not active any more. *)
Lemma cancel_timer hs e parent p dl st n :
  pinv hs None st -> settled st ->
  hs !! p = Some (timerCtx_ parent p dl) -> heap st !! p = Some n ->
  exists st' n',
    cancel (timerCtx_ parent p dl) true (Some e) st = Ok (tt, st')
    /\ heap st' !! p = Some n' /\ timer n' = None
    /\ length (timers st') = length (timers st)
    /\ forall t, timer n = Some t ->
         exists r, timers st' !! t = Some r /\ t_active r = false.
Proof.
  intros I Q Hc Hn.
  destruct (cancel_pinv hs e (timerCtx_ parent p dl) true st I Q Hc
              (or_introl eq_refl))
    as (st1 & st2 & E & I' & Q' & C1 & D1 & Q2 & I2 & T).
  simpl in T. destruct (T n Hn) as (n1 & Hn1 & Ht1).
  destruct (quiet_fwd _ _ _ _ Q2 Hn1) as (n2 & Hn2 & _ & Ht2 & _).
  assert (Hlt : (p < length (heap (released (timerCtx_ parent p dl) st2)))%nat).
  { rewrite released_length. now apply lookup_lt_Some in Hn2. }
  destruct (lookup_lt_is_Some_2 _ _ Hlt) as [n' Hn'].
  exists (released (timerCtx_ parent p dl) st2), n'.
  split; [exact E|]. split; [exact Hn'|].
  split; [eapply released_timer_None; eauto|]. split.
  - rewrite released_timers_length, (qu_timers _ _ Q2).
    apply (ca_timers _ _ _ C1).
  - intros t Ht. simpl. rewrite Hn2.
    assert (Ht' : timer n2 = Some t) by congruence. rewrite Ht'.
    destruct (pi_timer _ _ _ I2 _ _ _ Hn2 Ht') as [Hlen _].
    destruct (lookup_lt_is_Some_2 _ _ Hlen) as [r Hr].
    simpl. unfold stop_state. rewrite Hr. simpl.
    eexists. split; [apply list_lookup_insert_eq; exact Hlen | reflexivity].
Qed.

(** C7: in every reachable state, calling the cancel function of a
    deadline struct that is not canceled yet returns; afterwards [Err]
    is [Canceled], the struct has no timer and the timer it had is
    stopped; the timer's callback, if it still runs, returns and leaves
    [Canceled], and so does everything the program may do later. *)
Theorem C7_cancel_before_deadline st fs p f n :
  reachable (st, fs) -> fs !! p = Some f ->
  (exists parent dl, cf_target f = timerCtx_ parent p dl) ->
  heap st !! p = Some n -> err n = None ->
  exists st' n',
    call f st = Ok (tt, st')
    /\ Err (canceler_Context (cf_target f)) st' = Ok (Some Canceled, st')
    /\ heap st' !! p = Some n' /\ timer n' = None
    /\ (forall t, timer n = Some t ->
          exists r, timers st' !! t = Some r /\ t_active r = false)
    /\ (exists st'', timer_callback (cf_target f) st' = Ok (tt, st'')
          /\ Err (canceler_Context (cf_target f)) st''
             = Ok (Some Canceled, st''))
    /\ forall tr st'' fs'', run tr (st', fs) = Some (st'', fs'') ->
         Err (canceler_Context (cf_target f)) st'' = Ok (Some Canceled, st'').
Proof.
  intros Hr Hf (parent & dl & Hk) Hn He.
  destruct (reachable_handle _ _ _ _ Hr Hf) as (Hinv & Hc & Hp & _).
  pose proof Hinv as [I Q F].
  assert (Hfl : cf_removeFromParent f = true).
  { destruct (cf_removeFromParent f) eqn:E; [reflexivity|].
    destruct (F p f Hf E) as (n0 & Hn0 & He0). congruence. }
  unfold call. rewrite Hfl.
  destruct (cancel_node fs st p f true Canceled n Hinv Hf Hn)
    as (st1 & st' & E & _ & _ & _ & _ & n' & Hn' & Hm).
  rewrite He in Hm. destruct Hm as (He' & _).
  assert (Hc' : (cf_target <$> fs) !! p = Some (timerCtx_ parent p dl))
    by (rewrite <- Hk, <- Hp at 1; exact Hc).
  destruct (cancel_timer _ Canceled parent p dl st n I Q Hc' Hn)
    as (st2 & n2 & E2 & Hn2 & Ht2 & _ & Hstop).
  rewrite <- Hk in E2. rewrite E in E2. injection E2 as <-.
  assert (n2 = n') as -> by congruence.
  destruct (cancel_inv fs st (cf_target f) true (Some Canceled) st' Hinv Hc
              (or_introl eq_refl) E) as (Hinv' & _ & _).
  assert (HErr : forall s m, heap s !! p = Some m -> err m = Some Canceled ->
            Err (canceler_Context (cf_target f)) s = Ok (Some Canceled, s)).
  { intros s m Hm Hem. rewrite <- Hp in Hm.
    rewrite (Err_canceler _ _ _ Hm), Hem. reflexivity. }
  exists st', n'. split; [exact E|]. split; [eapply HErr; eauto|].
  split; [exact Hn'|]. split; [exact Ht2|]. split; [exact Hstop|]. split.
  - destruct (cancel_node fs st' p f true DeadlineExceeded n' Hinv' Hf Hn')
      as (s1 & s' & E' & _ & _ & _ & _ & m' & Hm' & Hmm).
    rewrite He' in Hmm. destruct Hmm as (Hem & _).
    exists s'. split; [exact E'|]. eapply HErr; [exact Hm' | congruence].
  - intros tr st'' fs'' Hrun.
    destruct (run_inv tr _ _ _ _ Hinv' Hrun) as [_ M].
    destruct (mo_node _ _ M _ _ Hn') as (m'' & Hm'' & Hem & _).
    eapply HErr; eauto.
Qed.

Lemma C7_witness :
  let st := fst sample_world in
  let fs := snd sample_world in
  exists f n st' n',
    fs !! 1%nat = Some f /\ heap st !! 1%nat = Some n
    /\ timer n = Some 0%nat
    /\ call f st = Ok (tt, st')
    /\ Err (canceler_Context (cf_target f)) st' = Ok (Some Canceled, st')
    /\ heap st' !! 1%nat = Some n' /\ timer n' = None
    /\ exists r, timers st' !! 0%nat = Some r /\ t_active r = false.
Proof.
  intros st fs. eexists _, _.
  assert (Hf : fs !! 1%nat = Some _) by (vm_compute; reflexivity).
  assert (Hn : heap st !! 1%nat = Some _) by (vm_compute; reflexivity).
  destruct (C7_cancel_before_deadline st fs 1%nat _ _ sample_reachable Hf
              (ex_intro _ _ (ex_intro _ _ eq_refl)) Hn eq_refl)
    as (st' & n' & A1 & A2 & A3 & A4 & A5 & _).
  exists st', n'. splits; try assumption. exact (A5 0%nat eq_refl).
Defined.

(** ** Construction below a parent *)

Lemma peek_alloc st c :
  bounded (length (heap st)) c = true ->
  peek_Done (heap (alloc_state st)) c = peek_Done (heap st) c.
Proof.
  induction c; simpl; intros Hb; try reflexivity.
  - apply andb_prop in Hb as [_ Hb]. now apply IHc.
  - apply andb_prop in Hb as [Hp _]. apply Nat.ltb_lt in Hp.
    now rewrite lookup_app_l.
  - apply andb_prop in Hb as [Hp _]. apply Nat.ltb_lt in Hp.
    now rewrite lookup_app_l.
Qed.

Lemma Err_alloc st c eo :
  Err c st = Ok (eo, st) -> Err c (alloc_state st) = Ok (eo, alloc_state st).
Proof.
  induction c; simpl; try (now intros [= ->]); try assumption.
  - unfold cancelCtx_Err. intros H. apply bind_inv in H as (n & s & H1 & H2).
    apply load_inv in H1 as [H1 ->]. injection H2 as <-.
    now rewrite (bind_Ok _ _ _ _ _ (load_Ok _ _ _ (alloc_lookup_old _ _ _ H1))).
  - unfold cancelCtx_Err. intros H. apply bind_inv in H as (n & s & H1 & H2).
    apply load_inv in H1 as [H1 ->]. injection H2 as <-.
    now rewrite (bind_Ok _ _ _ _ _ (load_Ok _ _ _ (alloc_lookup_old _ _ _ H1))).
Qed.

(** The invariant right after [newCancelCtx], with the cancel function
    that detaches. *)
Lemma inv_alloc_snoc fs st c :
  inv fs st ->
  canceler_ptr c = length (heap st) ->
  bounded (length (heap st)) (canceler_parent c) = true ->
  inv (fs ++ [{| cf_target := c; cf_removeFromParent := true |}])
      (alloc_state st).
Proof.
  intros Hinv Hp Hb.
  destruct (inv_alloc fs st c Hinv Hp Hb) as (I0 & Q0 & _).
  eapply inv_snoc; eauto using mono_alloc. discriminate.
Qed.

Lemma snoc_lookup fs (f : CancelFunc) st :
  inv fs st -> (fs ++ [f]) !! length (heap st) = Some f.
Proof.
  intros Hinv. rewrite <- (inv_heap_length _ _ Hinv).
  rewrite lookup_app_r by lia. now rewrite Nat.sub_diag.
Qed.

(** The new struct after [propagateCancel] under a parent whose channel
    is not closed: it is live and has no timer, and no timer was made. *)
Lemma propagateCancel_live fs st c :
  inv fs st ->
  canceler_ptr c = length (heap st) ->
  bounded (length (heap st)) (canceler_parent c) = true ->
  signaled st (canceler_parent c) = false ->
  exists st' n,
    propagateCancel (canceler_parent c) c (alloc_state st) = Ok (tt, st')
    /\ inv (fs ++ [{| cf_target := c; cf_removeFromParent := true |}]) st'
    /\ heap st' !! canceler_ptr c = Some n
    /\ err n = None /\ timer n = None
    /\ timers st' = timers st
    /\ length (heap st') = S (length (heap st)).
Proof.
  intros Hinv Hp Hb Hs.
  set (f := {| cf_target := c; cf_removeFromParent := true |}).
  destruct (inv_alloc fs st c Hinv Hp Hb) as (I0 & Q0 & Hc & Hl & Ht & Hw).
  pose proof (inv_alloc_snoc fs st c Hinv Hp Hb) as Hinv0. fold f in Hinv0.
  assert (Hb0 : bounded (length (heap (alloc_state st))) (canceler_parent c)
                = true).
  { eapply bounded_mono; [|exact Hb]. simpl. rewrite length_app. lia. }
  destruct (propagateCancel_pinv _ _ c I0 Q0 Hc Hl Ht Hw)
    as (d & st1 & HD & I1 & S1 & Q1 & Hcase).
  assert (Hnew : heap (alloc_state st) !! canceler_ptr c = Some new_node)
    by (rewrite Hp; apply alloc_lookup_new).
  destruct (quiet_fwd _ _ _ _ Q1 Hnew) as (n1 & Hn1 & He1 & Ht1 & _).
  assert (Hlen1 : length (heap st1) = S (length (heap st))).
  { rewrite (qu_heap _ _ Q1). simpl. rewrite length_app. simpl. lia. }
  assert (Hmk : forall s, mono st1 s -> pinv ((cf_target <$> fs) ++ [c]) None s
                  -> settled s -> inv (fs ++ [f]) s).
  { intros s M Is Qs. eapply (inv_snoc fs f s st); eauto; [|discriminate].
    eapply mono_trans; [apply mono_alloc|].
    eapply mono_trans; [exact (quiet_mono _ _ Q1) | exact M]. }
  destruct Hcase as [(-> & E)|[(d' & -> & Hcl & E)|
    (d' & st2 & -> & Hcl & E & I2 & S2 & M2 & L2 & H2 & T2 & _)]].
  - exists st1, n1. splits; auto.
    + apply Hmk; auto using mono_refl.
    + apply (qu_timers _ _ Q1).
  - exfalso.
    destruct (Done_cases _ _ Hb0) as [E0|(p0 & n0 & _ & _ & Hpk & _ & E0)];
      rewrite E0 in HD; injection HD as Hd <-.
    + change (heap st ++ [new_node]) with (heap (alloc_state st)) in Hd.
      rewrite peek_alloc in Hd by exact Hb. unfold signaled in Hs.
      rewrite Hd in Hs. unfold is_closed in *. simpl in Hcl. congruence.
    + subst d'. unfold made_done in Hcl.
      rewrite is_closed_upd, is_closed_make in Hcl.
      apply is_closed_lt in Hcl. simpl in Hcl. lia.
  - exists st2, n1. splits; auto.
    + congruence.
    + rewrite T2. apply (qu_timers _ _ Q1).
    + congruence.
Qed.

(** C6, as the code has it: in every reachable state, [WithDeadline]
    with a time that has passed, below a parent whose own deadline is not
    earlier and whose [Done] channel is not closed already, returns a
    deadline context whose [Err] is [DeadlineExceeded]; the struct has no
    timer and no timer was made; the cancel function returned does not
    detach.  (Below a parent that is canceled already the context takes
    the parent's cause instead, see C8.) *)
Theorem C6_deadline_already_passed st fs parent d now :
  reachable (st, fs) -> bounded (length (heap st)) parent = true ->
  (forall cur, Deadline parent = Some cur -> ~ cur < d) ->
  Until d now <= 0 ->
  signaled st parent = false ->
  let p := length (heap st) in
  exists st' n',
    WithDeadline (Some parent) d now st
    = Ok ((timerCtx parent p d,
           {| cf_target := timerCtx_ parent p d;
              cf_removeFromParent := false |}), st')
    /\ Err (timerCtx parent p d) st' = Ok (Some DeadlineExceeded, st')
    /\ heap st' !! p = Some n' /\ timer n' = None
    /\ length (timers st') = length (timers st).
Proof.
  intros Hr Hb Hdl Hpast Hs p.
  pose proof (reachable_inv _ _ Hr) as Hinv.
  set (c := timerCtx_ parent p d).
  set (f := {| cf_target := c; cf_removeFromParent := true |}).
  destruct (propagateCancel_live fs st c Hinv eq_refl Hb Hs)
    as (st1 & n & HP & Hinv1 & Hn & He & Ht & Htm & Hlen).
  fold f in Hinv1. simpl in Hn, HP.
  pose proof Hinv1 as [I1 Q1 _].
  assert (Hf : (fs ++ [f]) !! p = Some f) by (now apply snoc_lookup).
  assert (Hc : (cf_target <$> fs ++ [f]) !! p = Some c)
    by (rewrite list_lookup_fmap, Hf; reflexivity).
  destruct (cancel_node _ st1 p f true DeadlineExceeded n Hinv1 Hf Hn)
    as (s1 & st' & E & _ & _ & _ & _ & n' & Hn' & Hm).
  rewrite He in Hm. destruct Hm as (He' & _).
  destruct (cancel_timer _ DeadlineExceeded parent p d st1 n I1 Q1 Hc Hn)
    as (st2 & n2 & E2 & Hn2 & Ht2 & Hlen2 & _).
  change (cancel (timerCtx_ parent p d) true (Some DeadlineExceeded) st1
          = Ok (tt, st')) in E.
  assert (st2 = st') as -> by congruence.
  assert (n2 = n') as -> by congruence.
  exists st', n'. split; [|split; [|split; [exact Hn'|split; [exact Ht2|]]]].
  - unfold WithDeadline.
    replace (match Deadline parent with
             | Some cur => cur <? d
             | None => false
             end) with false.
    2:{ destruct (Deadline parent) as [cur|] eqn:Ed; [|reflexivity].
        symmetry. apply Z.ltb_ge. specialize (Hdl cur eq_refl). lia. }
    unfold newCancelCtx. rewrite (bind_Ok _ _ _ _ _ (alloc_Ok st)).
    rewrite (bind_Ok _ _ _ _ _ HP).
    replace (Until d now <=? 0) with true by (symmetry; now apply Z.leb_le).
    rewrite (bind_Ok _ _ _ _ _ E). reflexivity.
  - simpl. rewrite (cancelCtx_Err_Ok _ _ _ Hn'), He'. reflexivity.
  - congruence.
Qed.

Lemma C6_witness :
  exists st' n',
    WithDeadline (Some Background) 5 10 init
    = Ok ((timerCtx Background 0%nat 5,
           {| cf_target := timerCtx_ Background 0%nat 5;
              cf_removeFromParent := false |}), st')
    /\ Err (timerCtx Background 0%nat 5) st' = Ok (Some DeadlineExceeded, st')
    /\ heap st' !! 0%nat = Some n' /\ timer n' = None
    /\ length (timers st') = length (timers init).
Proof.
  apply (C6_deadline_already_passed init [] Background 5 10).
  - exists []. reflexivity.
  - reflexivity.
  - discriminate.
  - vm_compute. discriminate.
  - reflexivity.
Defined.

(** The claim as the specification words it fails below a parent that is
    canceled already: the new context reports the parent's cause. *)
Lemma C6_counterexample :
  exists parent f1 st1 st2 ctx f st3,
    WithCancel (Some Background) init = Ok ((parent, f1), st1)
    /\ call f1 st1 = Ok (tt, st2)
    /\ Deadline parent = None
    /\ Until 5 10 <= 0
    /\ WithDeadline (Some parent) 5 10 st2 = Ok ((ctx, f), st3)
    /\ Err ctx st3 = Ok (Some Canceled, st3)
    /\ Some Canceled <> Some DeadlineExceeded.
Proof.
  eexists _, _, _, _, _, _, _.
  split; [vm_compute; reflexivity|].
  split; [vm_compute; reflexivity|].
  split; [reflexivity|].
  split; [vm_compute; discriminate|].
  split; [vm_compute; reflexivity|].
  split; [vm_compute; reflexivity|].
  discriminate.
Qed.

(** C8: a struct that [propagateCancel] finds below a canceled parent is
    canceled at once, without detaching, with the parent's cause: with
    what the parent's [Err] reports when the parent's channel is closed,
    and with the error recorded in the ancestor when the lookup finds an
    ancestor that has one.  In every reachable state, [WithCancel] and
    [WithDeadline] below a parent whose channel is closed and whose [Err]
    is [e] therefore return a context whose [Err] is [e] and that is
    registered with no struct. *)
Theorem C8_canceled_parent :
  (forall parent child st d st1 e,
     Done parent st = Ok (Some d, st1) -> is_closed st1 d = true ->
     Err parent st1 = Ok (Some e, st1) ->
     propagateCancel parent child st = cancel child false (Some e) st1)
  /\ (forall parent child st d st1 q m e,
        Done parent st = Ok (Some d, st1) -> is_closed st1 d = false ->
        parentCancelCtx parent st1 = Ok (Some q, st1) ->
        heap st1 !! q = Some m -> err m = Some e ->
        propagateCancel parent child st = cancel child false (Some e) st1)
  /\ (forall st fs parent e,
        reachable (st, fs) -> bounded (length (heap st)) parent = true ->
        signaled st parent = true -> Err parent st = Ok (Some e, st) ->
        (exists st',
           WithCancel (Some parent) st
           = Ok ((cancelCtx parent (length (heap st)),
                  {| cf_target := cancelCtx_ parent (length (heap st));
                     cf_removeFromParent := true |}), st')
           /\ Err (cancelCtx parent (length (heap st))) st' = Ok (Some e, st')
           /\ tracked st' (length (heap st)) = false)
        /\ forall d now, exists ctx f st',
             WithDeadline (Some parent) d now st = Ok ((ctx, f), st')
             /\ Err ctx st' = Ok (Some e, st')
             /\ tracked st' (length (heap st)) = false).
Proof.
  assert (Hclosed : forall parent child st d st1 e,
     Done parent st = Ok (Some d, st1) -> is_closed st1 d = true ->
     Err parent st1 = Ok (Some e, st1) ->
     propagateCancel parent child st = cancel child false (Some e) st1).
  { intros parent child st d st1 e HD Hcl HE.
    rewrite (propagateCancel_closed _ _ _ _ _ HD Hcl).
    now rewrite (bind_Ok _ _ _ _ _ HE). }
  split; [exact Hclosed|]. split.
  { intros parent child st d st1 q m e HD Hcl HP Hm He.
    rewrite (propagateCancel_open _ _ _ _ _ HD Hcl).
    rewrite (bind_Ok _ _ _ _ _ HP), (bind_Ok _ _ _ _ _ (load_Ok _ _ _ Hm)).
    now rewrite He. }
  intros st fs parent e Hr Hb Hs HE.
  pose proof (reachable_inv _ _ Hr) as Hinv.
  set (p := length (heap st)).
  (* what both constructors do first *)
  assert (Hstart : forall c, canceler_ptr c = p -> canceler_parent c = parent ->
            exists st1 n1,
              propagateCancel parent c (alloc_state st) = Ok (tt, st1)
              /\ inv (fs ++ [{| cf_target := c; cf_removeFromParent := true |}])
                     st1
              /\ heap st1 !! p = Some n1 /\ err n1 = Some e
              /\ tracked st1 p = false).
  { intros c Hp Hpar.
    set (f := {| cf_target := c; cf_removeFromParent := true |}).
    assert (Hb' : bounded (length (heap st)) (canceler_parent c) = true)
      by (now rewrite Hpar).
    pose proof (inv_alloc_snoc fs st c Hinv Hp Hb') as Hinv0. fold f in Hinv0.
    unfold signaled in Hs.
    destruct (peek_Done (heap st) parent) as [d|] eqn:Hpk; [|discriminate].
    assert (HD : Done parent (alloc_state st) = Ok (Some d, alloc_state st)).
    { apply peek_Done_Some. now rewrite peek_alloc. }
    rewrite (Hclosed parent c _ d _ e HD Hs (Err_alloc _ _ _ HE)).
    assert (Hf : (fs ++ [f]) !! p = Some f) by (now apply snoc_lookup).
    destruct (cancel_node _ _ p f false e new_node Hinv0 Hf
                (alloc_lookup_new st))
      as (s1 & st1 & E & _ & _ & _ & _ & n1 & Hn1 & Hm).
    simpl in Hm. destruct Hm as (He1 & _).
    exists st1, n1. split; [exact E|].
    destruct (inv_handle _ _ _ _ Hinv0 Hf) as [Hc Hpf].
    assert (Hu : tracked (alloc_state st) (canceler_ptr (cf_target f)) = false).
    { destruct (inv_alloc fs st c Hinv Hp Hb') as (_ & _ & _ & _ & Ht & _).
      exact Ht. }
    destruct (cancel_inv _ _ _ false _ _ Hinv0 Hc (or_intror Hu) E)
      as (Hinv1 & _ & _).
    splits; auto.
    eapply inv_dead_untracked; [exact Hinv1|].
    exists n1. split; [exact Hn1 | congruence]. }
  assert (HWC : exists st',
           WithCancel (Some parent) st
           = Ok ((cancelCtx parent p,
                  {| cf_target := cancelCtx_ parent p;
                     cf_removeFromParent := true |}), st')
           /\ Err (cancelCtx parent p) st' = Ok (Some e, st')
           /\ tracked st' p = false).
  { destruct (Hstart (cancelCtx_ parent p) eq_refl eq_refl)
      as (st1 & n1 & HP & _ & Hn1 & He1 & Hu).
    exists st1. splits; auto.
    - unfold WithCancel, newCancelCtx.
      rewrite (bind_Ok _ _ _ _ _ (alloc_Ok st)).
      now rewrite (bind_Ok _ _ _ _ _ HP).
    - simpl. rewrite (cancelCtx_Err_Ok _ _ _ Hn1), He1. reflexivity. }
  split; [exact HWC|]. intros d now.
  unfold WithDeadline.
  destruct (match Deadline parent with
            | Some cur => cur <? d
            | None => false
            end).
  { destruct HWC as (st' & H1 & H2 & H3).
    exists (cancelCtx parent p),
      {| cf_target := cancelCtx_ parent p; cf_removeFromParent := true |}, st'.
    auto. }
  set (c := timerCtx_ parent p d).
  set (f := {| cf_target := c; cf_removeFromParent := true |}).
  destruct (Hstart c eq_refl eq_refl) as (st1 & n1 & HP & Hinv1 & Hn1 & He1 & Hu).
  fold f in Hinv1.
  unfold newCancelCtx. rewrite (bind_Ok _ _ _ _ _ (alloc_Ok st)).
  fold p. fold c. rewrite (bind_Ok _ _ _ _ _ HP).
  assert (Hf : (fs ++ [f]) !! length (heap st) = Some f)
    by (now apply snoc_lookup).
  destruct (Until d now <=? 0).
  - destruct (cancel_node _ _ p f true DeadlineExceeded n1 Hinv1 Hf Hn1)
      as (s1 & st2 & E & _ & _ & _ & _ & n2 & Hn2 & Hm).
    rewrite He1 in Hm. destruct Hm as (He2 & _).
    simpl in E. rewrite (bind_Ok _ _ _ _ _ E).
    eexists _, _, st2. split; [reflexivity|]. split.
    + simpl. rewrite (cancelCtx_Err_Ok _ _ _ Hn2), He2. reflexivity.
    + destruct (inv_handle _ _ _ _ Hinv1 Hf) as [Hc _].
      destruct (cancel_inv _ _ _ true _ _ Hinv1 Hc (or_introl eq_refl) E)
        as (Hinv2 & _ & _).
      eapply inv_dead_untracked; [exact Hinv2|].
      exists n2. split; [exact Hn2 | congruence].
  - rewrite (bind_Ok _ _ _ _ _ (load_Ok _ _ _ Hn1)), He1.
    eexists _, _, st1. split; [reflexivity|]. split; [|exact Hu].
    simpl. rewrite (cancelCtx_Err_Ok _ _ _ Hn1), He1. reflexivity.
Qed.

Lemma C8_witness :
  let st := {| heap := [{| done := Some 1%nat; children := None;
                           err := Some Canceled; timer := None |};
                        new_node];
               chans := [true; false]; timers := []; goroutines := 0;
               waiters := [] |} in
  propagateCancel (cancelCtx Background 0%nat)
                  (cancelCtx_ (cancelCtx Background 0%nat) 1%nat) st
  = cancel (cancelCtx_ (cancelCtx Background 0%nat) 1%nat) false
           (Some Canceled) st.
Proof.
  intros st. destruct C8_canceled_parent as (_ & H & _).
  apply (H (cancelCtx Background 0%nat)
           (cancelCtx_ (cancelCtx Background 0%nat) 1%nat)
           st 1%nat st 0%nat
           {| done := Some 1%nat; children := None;
              err := Some Canceled; timer := None |} Canceled);
    reflexivity.
Defined.

(** * Lookups through cancelable and deadline nodes *)

Lemma native_inv c :
  native c = true ->
  match c with
  | valueCtx parent _ _ => native parent = true
  | cancelCtx parent _ => native parent = true
  | timerCtx parent _ _ => native parent = true
  | foreignCtx _ => False
  | emptyCtx _ => True
  end.
Proof. destruct c; simpl; auto; discriminate. Qed.

Lemma plain_inv c :
  plain c = true ->
  match c with
  | valueCtx parent k _ => client_key k = true /\ plain parent = true
  | cancelCtx parent _ => plain parent = true
  | timerCtx parent _ _ => plain parent = true
  | foreignCtx _ => False
  | emptyCtx _ => True
  end.
Proof.
  unfold plain. intros H. apply andb_prop in H as [Hn Hk].
  apply native_inv in Hn. destruct c; simpl in *; auto.
  - apply andb_prop in Hk as [Hk1 Hk2]. now rewrite Hn, Hk1, Hk2.
  - now rewrite Hn, Hk.
  - now rewrite Hn, Hk.
Qed.

Lemma client_key_inv k :
  client_key k = true -> Comparable k = true /\ k <> ptr_cancelCtxKey.
Proof.
  unfold client_key. intros H. apply andb_prop in H as [H1 H2].
  split; [exact H1|]. now destruct (any_eq_dec k ptr_cancelCtxKey).
Qed.

Lemma any_eq_key key :
  key <> ptr_cancelCtxKey -> any_eq key ptr_cancelCtxKey = Ok false.
Proof. destruct key; simpl; congruence. Qed.

Lemma value_bindings c : forall key,
  native c = true ->
  forallb (fun kv => comparable_with key kv.1) (bindings c) = true ->
  key <> ptr_cancelCtxKey ->
  value c key = Ok (default nil_ (nearest key (bindings c))).
Proof.
  induction c as [b|parent IH k v|parent IH p|parent IH p d|f];
    intros key Hn Hk Hkey; simpl in *; try reflexivity; try discriminate.
  - apply andb_prop in Hk as [Hk1 Hk2].
    unfold comparable_with in Hk1. unfold key_matches.
    destruct (any_eq key k) as [[|]| |]; simpl; try discriminate;
      [reflexivity | now apply IH].
  - rewrite (any_eq_key key Hkey). simpl. now apply IH.
  - rewrite (any_eq_key key Hkey). simpl. now apply IH.
Qed.

(** The lookup of a client key does not see cancelable and deadline
    nodes.  From any context made of the package's nodes, a lookup whose
    comparisons with the keys on the path do not panic (always so when
    the key holds no value of a non-comparable type) returns the value
    of the nearest binding on the path to the root whose key is [==] to
    the key, and nil when the path has no such binding. *)
Theorem Value_nearest_binding c key :
  native c = true ->
  (safe_key key = true
   \/ forallb (fun kv => comparable_with key kv.1) (bindings c) = true) ->
  key <> ptr_cancelCtxKey ->
  Value c key = Ok (default nil_ (nearest key (bindings c))).
Proof.
  intros Hn Hk Hkey. apply comparable_all in Hk.
  rewrite Value_value. now apply value_bindings.
Qed.

Lemma Value_nearest_binding_witness :
  Value (cancelCtx (valueCtx (timerCtx (valueCtx Background (int_ 1)
                                                 (string_ "far"))
                                       0%nat 10)
                             (int_ 1) (string_ "near"))
                   1%nat) (int_ 1)
  = Ok (string_ "near").
Proof.
  apply (Value_nearest_binding
           (cancelCtx (valueCtx (timerCtx (valueCtx Background (int_ 1)
                                                    (string_ "far"))
                                          0%nat 10)
                                (int_ 1) (string_ "near"))
                      1%nat) (int_ 1)).
  - reflexivity.
  - left. reflexivity.
  - discriminate.
Defined.

Lemma value_nearest_canceler c :
  plain c = true ->
  value c ptr_cancelCtxKey
  = Ok (match nearest_canceler c with
        | Some p => ptr_cancelCtx p
        | None => nil_
        end).
Proof.
  induction c as [b|parent IH k v|parent IH p|parent IH p d|f];
    intros H; apply plain_inv in H; try reflexivity; try contradiction.
  destruct H as [Hk Hp]. apply client_key_inv in Hk as [Hc Hne].
  cbn [value nearest_canceler].
  rewrite any_eq_sym, (any_eq_key k Hne). simpl. now apply IH.
Qed.

Lemma Value_key_nearest c q :
  plain c = true -> nearest_canceler c = Some q ->
  Value c ptr_cancelCtxKey = Ok (ptr_cancelCtx q).
Proof.
  intros H Hq. rewrite Value_value, (value_nearest_canceler c H), Hq.
  reflexivity.
Qed.

(** The lookup of the package's internal key returns the struct of the
    nearest cancelable or deadline node on the path, the context itself
    included, and nil when the path has none; value bindings made by
    clients are passed over. *)
Theorem Value_internal_key c :
  plain c = true ->
  Value c ptr_cancelCtxKey
  = Ok (match nearest_canceler c with
        | Some p => ptr_cancelCtx p
        | None => nil_
        end).
Proof. intros H. rewrite Value_value. now apply value_nearest_canceler. Qed.

Lemma Value_internal_key_witness :
  Value (valueCtx (timerCtx (cancelCtx Background 0%nat) 1%nat 10)
                  (int_ 1) (int_ 2)) ptr_cancelCtxKey
  = Ok (ptr_cancelCtx 1%nat).
Proof.
  apply (Value_internal_key
           (valueCtx (timerCtx (cancelCtx Background 0%nat) 1%nat 10)
                     (int_ 1) (int_ 2))).
  reflexivity.
Defined.

(** * What [Done] and [Err] answer, now and later *)

Lemma cancelCtx_Done_inv p st d st1 :
  cancelCtx_Done p st = Ok (d, st1) ->
  exists n, heap st !! p = Some n
    /\ ((done n = d /\ d <> None /\ st1 = st)
        \/ (done n = None /\ d = Some (length (chans st))
            /\ st1 = made_done p n st)).
Proof.
  intros H0. pose proof H0 as H. unfold cancelCtx_Done in H.
  apply bind_inv in H as (n & s & Hl & H). apply load_inv in Hl as [Hn ->].
  exists n. split; [exact Hn|]. destruct (done n) as [d0|] eqn:Ed.
  - injection H as <- <-. left. repeat split. discriminate.
  - right. rewrite (cancelCtx_Done_None p st n Hn Ed) in H0.
    now injection H0 as <- <-.
Qed.

Lemma made_done_lookup p n st q m :
  heap st !! p = Some n ->
  heap (made_done p n st) !! q = Some m ->
  exists m0, heap st !! q = Some m0 /\ err m = err m0
    /\ children m = children m0 /\ timer m = timer m0.
Proof.
  intros Hn H. unfold made_done in H. apply lookup_upd in H as [(<- & <- & _)|[Hne H]].
  - exists n. now repeat split.
  - exists m. now repeat split.
Qed.

Lemma cancelCtx_Done_again p st d st1 :
  cancelCtx_Done p st = Ok (d, st1) ->
  cancelCtx_Done p st1 = Ok (d, st1)
  /\ length (heap st1) = length (heap st)
  /\ timers st1 = timers st
  /\ (forall e, is_closed st1 e = is_closed st e)
  /\ (forall q m, heap st1 !! q = Some m ->
        exists m0, heap st !! q = Some m0 /\ err m = err m0
          /\ children m = children m0 /\ timer m = timer m0).
Proof.
  intros H. pose proof H as H0.
  apply cancelCtx_Done_inv in H as (n & Hn & [(Hd & Hne & ->)|(Hd & -> & ->)]).
  - split; [exact H0|]. repeat split; auto. intros q m Hm. exists m. auto.
  - split; [|split; [|split; [|split]]].
    + unfold cancelCtx_Done.
      assert (Hl : heap (made_done p n st) !! p
                   = Some (with_done n (Some (length (chans st))))).
      { unfold made_done. eapply lookup_upd_eq. exact Hn. }
      rewrite (bind_Ok _ _ _ _ _ (load_Ok _ _ _ Hl)). reflexivity.
    + unfold made_done. rewrite heap_upd, length_insert. reflexivity.
    + reflexivity.
    + intros e. unfold made_done. rewrite is_closed_upd. apply is_closed_make.
    + intros q m. now apply made_done_lookup.
Qed.

Lemma Done_again c st d st1 :
  Done c st = Ok (d, st1) ->
  Done c st1 = Ok (d, st1)
  /\ length (heap st1) = length (heap st)
  /\ timers st1 = timers st
  /\ (forall e, is_closed st1 e = is_closed st e)
  /\ (forall q m, heap st1 !! q = Some m ->
        exists m0, heap st !! q = Some m0 /\ err m = err m0
          /\ children m = children m0 /\ timer m = timer m0).
Proof.
  induction c as [b|parent IH k v|parent IH p|parent IH p dl|f]; simpl.
  - intros [= <- <-]. repeat split; auto. intros q m Hm. exists m. auto.
  - exact IH.
  - apply cancelCtx_Done_again.
  - apply cancelCtx_Done_again.
  - intros [= <- <-]. repeat split; auto. intros q m Hm. exists m. auto.
Qed.

(** [Done] is idempotent, in any state: a call that returns may have
    made the channel of one struct, and nothing else; it leaves every
    error, children map and timer and the state of every channel as they
    were, and a second call returns the same channel and changes
    nothing. *)
Theorem Done_idempotent c st d st1 :
  Done c st = Ok (d, st1) ->
  Done c st1 = Ok (d, st1)
  /\ length (heap st1) = length (heap st)
  /\ timers st1 = timers st
  /\ (forall e, is_closed st1 e = is_closed st e)
  /\ (forall q m, heap st1 !! q = Some m ->
        exists m0, heap st !! q = Some m0 /\ err m = err m0
          /\ children m = children m0 /\ timer m = timer m0).
Proof. exact (Done_again c st d st1). Qed.

Lemma Done_idempotent_witness :
  let st := fst sample_world in
  let c := cancelCtx Background 0%nat in
  exists d st1,
    Done c st = Ok (d, st1) /\ Done c st1 = Ok (d, st1)
    /\ length (heap st1) = length (heap st).
Proof.
  intros st c. eexists _, _.
  assert (H : Done c st = Ok _) by (vm_compute; reflexivity).
  split; [exact H|].
  destruct (Done_idempotent c st _ _ H) as (H1 & H2 & _). split; assumption.
Defined.

Lemma Err_peek hs x st c :
  pinv hs x st -> bounded (length (heap st)) c = true -> native c = true ->
  exists oe, Err c st = Ok (oe, st)
    /\ (oe <> None <->
        exists d, peek_Done (heap st) c = Some d /\ is_closed st d = true).
Proof.
  intros I. induction c as [b|parent IH k v|parent IH p|parent IH p dl|f];
    intros Hb Hn; apply native_inv in Hn; simpl in Hb |- *;
    try contradiction.
  - exists None. split; [reflexivity|]. split; [congruence|].
    intros (d & Hd & _). discriminate.
  - apply andb_prop in Hb as [_ Hb]. now apply IH.
  - apply andb_prop in Hb as [Hp _]. apply Nat.ltb_lt in Hp.
    destruct (lookup_lt_is_Some_2 _ _ Hp) as [n Hl].
    exists (err n). split; [now apply cancelCtx_Err_Ok|]. rewrite Hl. simpl.
    split.
    + intros He. destruct (done n) as [d|] eqn:Ed.
      * exists d. split; [reflexivity|].
        now apply (pi_done _ _ _ I _ _ _ Hl Ed).
      * now destruct (pi_err _ _ _ I _ _ Hl He).
    + intros (d & Ed & Hc). now apply (pi_done _ _ _ I _ _ _ Hl Ed).
  - apply andb_prop in Hb as [Hp _]. apply Nat.ltb_lt in Hp.
    destruct (lookup_lt_is_Some_2 _ _ Hp) as [n Hl].
    exists (err n). split; [now apply cancelCtx_Err_Ok|]. rewrite Hl. simpl.
    split.
    + intros He. destruct (done n) as [d|] eqn:Ed.
      * exists d. split; [reflexivity|].
        now apply (pi_done _ _ _ I _ _ _ Hl Ed).
      * now destruct (pi_err _ _ _ I _ _ Hl He).
    + intros (d & Ed & Hc). now apply (pi_done _ _ _ I _ _ _ Hl Ed).
Qed.

(** The contract of the interface, for the package's own nodes: in every
    reachable state the context's [Err] is non-nil exactly when the
    channel that [Done] returns is closed; a context whose [Done] is nil
    has a nil [Err]. *)
Theorem Err_iff_Done_closed st fs c od st1 :
  reachable (st, fs) -> bounded (length (heap st)) c = true ->
  native c = true ->
  Done c st = Ok (od, st1) ->
  exists oe, Err c st1 = Ok (oe, st1)
    /\ (oe <> None <-> exists d, od = Some d /\ is_closed st1 d = true).
Proof.
  intros Hr Hb Hn HD. pose proof (reachable_inv _ _ Hr) as Hinv.
  destruct (Done_inv _ _ _ _ _ Hinv Hb HD) as [[I1 _ _] Q1].
  pose proof Hinv as [I _ _].
  destruct (Done_pinv _ _ _ _ I Hb) as (s & HD' & _).
  rewrite HD in HD'. injection HD' as -> <-.
  apply (Err_peek _ _ _ _ I1); [|exact Hn].
  now rewrite (qu_heap _ _ Q1).
Qed.

Lemma Err_iff_Done_closed_witness :
  let st := fst sample_world in
  let c := valueCtx (cancelCtx Background 0%nat) (int_ 1) (int_ 5) in
  exists od st1 oe,
    Done c st = Ok (od, st1) /\ Err c st1 = Ok (oe, st1)
    /\ (oe <> None <-> exists d, od = Some d /\ is_closed st1 d = true).
Proof.
  intros st c. eexists _, _.
  assert (H : Done c st = Ok _) by (vm_compute; reflexivity).
  destruct (Err_iff_Done_closed st (snd sample_world) c _ _
              sample_reachable eq_refl eq_refl H) as (oe & H1 & H2).
  exists oe. split; [exact H|]. split; assumption.
Defined.

Lemma Err_mono st st' c e :
  mono st st' -> Err c st = Ok (Some e, st) -> Err c st' = Ok (Some e, st').
Proof.
  intros Mo. induction c as [b|parent IH k v|parent IH p|parent IH p dl|f];
    simpl; try discriminate; try assumption.
  - unfold cancelCtx_Err. intros H.
    apply bind_inv in H as (n & s & Hl & H). apply load_inv in Hl as [Hn ->].
    injection H as He. destruct (mo_node _ _ Mo _ _ Hn) as (n' & Hn' & He' & _).
    rewrite (bind_Ok _ _ _ _ _ (load_Ok _ _ _ Hn')). unfold ret.
    now rewrite (He' _ He).
  - unfold cancelCtx_Err. intros H.
    apply bind_inv in H as (n & s & Hl & H). apply load_inv in Hl as [Hn ->].
    injection H as He. destruct (mo_node _ _ Mo _ _ Hn) as (n' & Hn' & He' & _).
    rewrite (bind_Ok _ _ _ _ _ (load_Ok _ _ _ Hn')). unfold ret.
    now rewrite (He' _ He).
  - intros [= ->]. reflexivity.
Qed.

(** The answers of a context never change once given: whatever the
    program does afterwards, [Done] keeps returning the channel it
    returned once, without making anything, a closed channel stays
    closed, and an [Err] that was non-nil stays the same error. *)
Theorem answers_are_stable st fs c d st1 tr st' fs' :
  reachable (st, fs) -> bounded (length (heap st)) c = true ->
  Done c st = Ok (Some d, st1) ->
  run tr (st1, fs) = Some (st', fs') ->
  Done c st' = Ok (Some d, st')
  /\ (is_closed st1 d = true -> is_closed st' d = true)
  /\ (forall e, Err c st1 = Ok (Some e, st1) ->
        Err c st' = Ok (Some e, st')).
Proof.
  intros Hr Hb HD Hrun. pose proof (reachable_inv _ _ Hr) as Hinv.
  destruct (Done_inv _ _ _ _ _ Hinv Hb HD) as [Hinv1 _].
  pose proof Hinv as [I _ _].
  destruct (Done_pinv _ _ _ _ I Hb) as (s & HD' & _).
  rewrite HD in HD'. injection HD' as Hpk <-.
  destruct (run_inv tr _ _ _ _ Hinv1 Hrun) as [_ Mo].
  split; [|split].
  - apply peek_Done_Some. eapply peek_Done_stable; [|symmetry; exact Hpk].
    intros p n e Hn He. destruct (mo_node _ _ Mo _ _ Hn) as (n' & Hn' & _ & Hd').
    eauto.
  - apply (mo_closed _ _ Mo).
  - intros e. now apply Err_mono.
Qed.

Lemma answers_are_stable_witness :
  let st := fst sample_world in
  let fs := snd sample_world in
  let c := timerCtx (valueCtx (cancelCtx Background 0%nat) (int_ 1) (int_ 5))
                    1%nat 50 in
  exists d st1 st' fs',
    Done c st = Ok (Some d, st1)
    /\ run [OpCall 0%nat; OpFire 0%nat] (st1, fs) = Some (st', fs')
    /\ Done c st' = Ok (Some d, st')
    /\ (is_closed st1 d = true -> is_closed st' d = true)
    /\ (forall e, Err c st1 = Ok (Some e, st1) ->
          Err c st' = Ok (Some e, st')).
Proof.
  intros st fs c.
  assert (H : exists d st1, Done c st = Ok (Some d, st1)
            /\ exists st' fs',
                 run [OpCall 0%nat; OpFire 0%nat] (st1, fs) = Some (st', fs')).
  { eexists _, _. split; [vm_compute; reflexivity|].
    eexists _, _. vm_compute. reflexivity. }
  destruct H as (d & st1 & H & st' & fs' & R).
  exists d, st1, st', fs'. split; [exact H|]. split; [exact R|].
  exact (answers_are_stable st fs c d st1 _ st' fs'
           sample_reachable eq_refl H R).
Defined.

(** * Cancellation starts no goroutine *)

Lemma same_goroutines_refl st : same_goroutines st st.
Proof. split; reflexivity. Qed.

Lemma same_goroutines_trans a b c :
  same_goroutines a b -> same_goroutines b c -> same_goroutines a c.
Proof. intros [H1 H2] [H3 H4]. split; congruence. Qed.

Lemma quiet_run_ret {A} (a : A) : quiet_run (ret a).
Proof. intros st b st' [= _ <-]. apply same_goroutines_refl. Qed.

Lemma quiet_run_bind {A B} (m : M A) (k : A -> M B) :
  quiet_run m -> (forall a, quiet_run (k a)) -> quiet_run (bind m k).
Proof.
  intros Hm Hk st b st' H. apply bind_inv in H as (a & s & H1 & H2).
  eapply same_goroutines_trans; [eapply Hm | eapply Hk]; eauto.
Qed.

Lemma quiet_run_load p : quiet_run (load p).
Proof.
  intros st n st' H. apply load_inv in H as [_ ->].
  apply same_goroutines_refl.
Qed.

Lemma quiet_run_store p n : quiet_run (store p n).
Proof. intros st [] st' [= <-]. split; reflexivity. Qed.

Lemma quiet_run_lift {A} (o : outcome A) : quiet_run (lift o).
Proof.
  intros st a st' H. apply lift_inv in H as [_ ->].
  apply same_goroutines_refl.
Qed.

Lemma quiet_run_set_done p d : quiet_run (set_done p d).
Proof.
  apply quiet_run_bind; [apply quiet_run_load | intros; apply quiet_run_store].
Qed.

Lemma quiet_run_set_children p cs : quiet_run (set_children p cs).
Proof.
  apply quiet_run_bind; [apply quiet_run_load | intros; apply quiet_run_store].
Qed.

Lemma quiet_run_set_err p e : quiet_run (set_err p e).
Proof.
  apply quiet_run_bind; [apply quiet_run_load | intros; apply quiet_run_store].
Qed.

Lemma quiet_run_set_timer p t : quiet_run (set_timer p t).
Proof.
  apply quiet_run_bind; [apply quiet_run_load | intros; apply quiet_run_store].
Qed.

Lemma quiet_run_close d : quiet_run (close d).
Proof.
  intros st [] st' H. unfold close in H.
  destruct (is_closed st d); [discriminate|]. injection H as <-.
  split; reflexivity.
Qed.

Lemma quiet_run_Stop t : quiet_run (Stop t).
Proof.
  intros st [] st' H. rewrite Stop_Ok in H. injection H as <-.
  unfold stop_state. destruct (timers st !! t); split; reflexivity.
Qed.

Lemma quiet_run_cancelCtx_Done p : quiet_run (cancelCtx_Done p).
Proof.
  apply quiet_run_bind; [apply quiet_run_load|]. intros n.
  destruct (done n); [apply quiet_run_ret|].
  apply quiet_run_bind.
  - intros st d st' [= _ <-]. split; reflexivity.
  - intros d. apply quiet_run_bind; [apply quiet_run_set_done|].
    intros _. apply quiet_run_ret.
Qed.

Lemma quiet_run_Done c : quiet_run (Done c).
Proof.
  induction c; simpl; auto using quiet_run_ret, quiet_run_cancelCtx_Done.
Qed.

Lemma quiet_run_Err c : quiet_run (Err c).
Proof.
  intros st a st' H. apply Err_state in H as ->. apply same_goroutines_refl.
Qed.

Lemma quiet_run_parentCancelCtx parent : quiet_run (parentCancelCtx parent).
Proof.
  apply quiet_run_bind; [apply quiet_run_Done|]. intros d.
  destruct (chan_eq d (Some closedchan) || chan_eq d None);
    [apply quiet_run_ret|].
  apply quiet_run_bind; [apply quiet_run_lift|]. intros v.
  destruct v; try apply quiet_run_ret.
  apply quiet_run_bind; [apply quiet_run_load|]. intros n.
  destruct (negb (chan_eq (done n) d)); apply quiet_run_ret.
Qed.

Lemma quiet_run_removeChild parent child : quiet_run (removeChild parent child).
Proof.
  apply quiet_run_bind; [apply quiet_run_parentCancelCtx|]. intros [q|];
    [|apply quiet_run_ret].
  apply quiet_run_bind; [apply quiet_run_load|]. intros n.
  destruct (children n); [apply quiet_run_set_children | apply quiet_run_ret].
Qed.

Lemma quiet_run_for_each {A} (l : list A) (f : A -> M unit) :
  (forall a, quiet_run (f a)) -> quiet_run (for_each l f).
Proof.
  intros Hf. induction l as [|a l IH]; simpl; [apply quiet_run_ret|].
  apply quiet_run_bind; auto.
Qed.

Lemma quiet_run_cancelCtx_cancel_body cc parent p rfp e :
  (forall ch b eo, quiet_run (cc ch b eo)) ->
  quiet_run (cancelCtx_cancel_body cc parent p rfp e).
Proof.
  intros Hcc. unfold cancelCtx_cancel_body. destruct e as [e|].
  2:{ intros st a st' H. discriminate. }
  apply quiet_run_bind; [apply quiet_run_load|]. intros n.
  destruct (err n); [apply quiet_run_ret|].
  apply quiet_run_bind; [apply quiet_run_set_err|]. intros _.
  apply quiet_run_bind.
  { destruct (done n); [apply quiet_run_close | apply quiet_run_set_done]. }
  intros _. apply quiet_run_bind; [now apply quiet_run_for_each|]. intros _.
  apply quiet_run_bind; [apply quiet_run_set_children|]. intros _.
  destruct rfp; [apply quiet_run_removeChild | apply quiet_run_ret].
Qed.

Lemma quiet_run_cancel_fuel fuel : forall c rfp e,
  quiet_run (cancel_fuel fuel c rfp e).
Proof.
  induction fuel as [|fuel IH]; intros c rfp e.
  { intros st a st' H. discriminate. }
  destruct c as [parent p|parent p dl]; simpl.
  - now apply quiet_run_cancelCtx_cancel_body.
  - unfold timerCtx_cancel_body.
    apply quiet_run_bind; [now apply quiet_run_cancelCtx_cancel_body|].
    intros _. apply quiet_run_bind.
    { destruct rfp; [apply quiet_run_removeChild | apply quiet_run_ret]. }
    intros _. apply quiet_run_bind; [apply quiet_run_load|]. intros n.
    destruct (timer n); [|apply quiet_run_ret].
    apply quiet_run_bind; [apply quiet_run_Stop|]. intros _.
    apply quiet_run_set_timer.
Qed.

Lemma quiet_run_cancel c rfp e : quiet_run (cancel c rfp e).
Proof.
  intros st a st' H. rewrite cancel_unfold in H.
  eapply quiet_run_cancel_fuel; eauto.
Qed.

(** * Deriving contexts: what the constructors set up *)

Lemma Err_None_unsignaled hs x st c :
  pinv hs x st -> bounded (length (heap st)) c = true -> native c = true ->
  Err c st = Ok (None, st) -> signaled st c = false.
Proof.
  intros I Hb Hn HE. destruct (Err_peek _ _ _ _ I Hb Hn) as (oe & HE' & Hiff).
  rewrite HE in HE'. injection HE' as <-. unfold signaled.
  destruct (peek_Done (heap st) c) as [d|] eqn:Hpk; [|reflexivity].
  destruct (is_closed st d) eqn:Hcl; [|reflexivity].
  exfalso. apply (proj2 Hiff); eauto.
Qed.

Lemma Done_nearest c q st od st' :
  native c = true -> nearest_canceler c = Some q ->
  Done c st = Ok (od, st') ->
  exists d m, od = Some d /\ heap st' !! q = Some m /\ done m = Some d.
Proof.
  assert (Hc : forall p, cancelCtx_Done p st = Ok (od, st') ->
            exists d m, od = Some d /\ heap st' !! p = Some m
                        /\ done m = Some d).
  { intros p H.
    apply cancelCtx_Done_inv in H as (n & Hn & [(Hd & Hne & ->)|(Hd & -> & ->)]).
    - destruct od as [d|]; [|congruence]. eauto.
    - eexists _, _. split; [reflexivity|]. split.
      + unfold made_done. eapply lookup_upd_eq. exact Hn.
      + reflexivity. }
  induction c as [b|parent IH k v|parent IH p|parent IH p dl|f];
    intros Hn Hq; apply native_inv in Hn; simpl in *; try discriminate;
    try contradiction; auto.
  - injection Hq as <-. apply Hc.
  - injection Hq as <-. apply Hc.
Qed.

Lemma map_add_fresh child cs :
  (forall ch, ch ∈ cs -> canceler_ptr ch <> canceler_ptr child) ->
  map_add child cs = child :: cs.
Proof.
  intros H. unfold map_add.
  destruct (existsb (same_canceler child) cs) eqn:E; [|reflexivity].
  apply existsb_exists in E as (ch & Hin & Hs). exfalso.
  apply (H ch); [now apply list_elem_of_In|].
  destruct child, ch; simpl in *; try discriminate;
    apply Nat.eqb_eq in Hs; congruence.
Qed.

(** Below a live cancelable ancestor [propagateCancel] puts the new
    struct into the ancestor's children map. *)
Lemma propagateCancel_registers fs st c q :
  inv fs st ->
  canceler_ptr c = length (heap st) ->
  bounded (length (heap st)) (canceler_parent c) = true ->
  plain (canceler_parent c) = true ->
  nearest_canceler (canceler_parent c) = Some q ->
  signaled st (canceler_parent c) = false ->
  exists s1 m,
    quiet (alloc_state st) s1
    /\ heap s1 !! q = Some m /\ err m = None
    /\ propagateCancel (canceler_parent c) c (alloc_state st)
       = Ok (tt, upd q (with_children m
                          (Some (c :: default [] (children m)))) s1)
    /\ same_goroutines (alloc_state st) s1.
Proof.
  intros Hinv Hp Hb Hpl Hq Hs.
  assert (Hnat : native (canceler_parent c) = true).
  { unfold plain in Hpl. now apply andb_prop in Hpl as [? _]. }
  destruct (inv_alloc fs st c Hinv Hp Hb) as (I0 & Q0 & Hc & Hl & Ht & Hw).
  assert (Hb0 : bounded (length (heap (alloc_state st))) (canceler_parent c)
                = true).
  { eapply bounded_mono; [|exact Hb]. simpl. rewrite length_app. lia. }
  destruct (Done_pinv _ _ _ _ I0 Hb0) as (s1 & HD & I1 & Q1 & Hsame & _).
  destruct (Done_nearest _ _ _ _ _ Hnat Hq HD) as (d & m & Hpk & Hm & Hd).
  assert (Hcl : is_closed s1 d = false).
  { destruct (is_closed s1 d) eqn:Hcl; [|reflexivity]. exfalso.
    destruct (Done_cases _ _ Hb0) as [E0|(p0 & n0 & _ & _ & Hpk0 & _ & E0)];
      rewrite E0 in HD; injection HD as Hd0 <-.
    - rewrite peek_alloc in Hpk by exact Hb. unfold signaled in Hs.
      rewrite Hpk in Hs. unfold is_closed in *. simpl in Hcl. congruence.
    - rewrite Hpk in Hd0. injection Hd0 as Hd0. subst d. unfold made_done in Hcl.
      rewrite is_closed_upd, is_closed_make in Hcl.
      apply is_closed_lt in Hcl. simpl in Hcl. lia. }
  assert (Hem : err m = None).
  { destruct (err m) eqn:Em; [|reflexivity]. exfalso.
    destruct (pi_done _ _ _ I1 _ _ _ Hm Hd) as [_ Hiff].
    rewrite (proj2 Hiff) in Hcl; [discriminate | congruence]. }
  assert (Hb1 : bounded (length (heap s1)) (canceler_parent c) = true)
    by (now rewrite (qu_heap _ _ Q1)).
  destruct (parentCancelCtx_pinv _ _ _ _ I1 Hb1)
    as (r & s2 & HP & _ & _ & _ & Hsame2 & Hfound).
  assert (s2 = s1) as -> by (eapply Hsame2; exact Hpk).
  assert (Hr : r = Some q).
  { apply Hfound. split; [now apply Value_key_nearest|].
    exists m, d. split; [exact Hm|]. split; [exact Hd|]. split; [|exact Hpk].
    intros ->. rewrite (pi_cc _ _ _ I1) in Hcl. discriminate. }
  subst r. exists s1, m.
  split; [exact Q1|]. split; [exact Hm|]. split; [exact Hem|].
  split; [|exact (quiet_run_Done _ _ _ _ HD)].
  rewrite Hpk in HD. rewrite (propagateCancel_open _ _ _ _ _ HD Hcl).
  rewrite (bind_Ok _ _ _ _ _ HP), (bind_Ok _ _ _ _ _ (load_Ok _ _ _ Hm)), Hem.
  rewrite (children_add_Ok _ _ _ _ Hm). unfold add_state.
  rewrite map_add_fresh; [reflexivity|].
  intros ch Hin Heq.
  assert (Ht1 : tracked s1 (canceler_ptr c) = false)
    by (eapply quiet_untracked; eauto).
  destruct (children m) as [cs|] eqn:Hcs; [|now apply elem_of_nil in Hin].
  exact (proj1 (tracked_false _ _) Ht1 _ _ _ _ Hm Hcs Hin Heq).
Qed.

Lemma nearest_canceler_bounded n c q :
  bounded n c = true -> nearest_canceler c = Some q -> (q < n)%nat.
Proof.
  induction c as [b|parent IH k v|parent IH p|parent IH p dl|f];
    simpl; intros Hb Hq; try discriminate.
  - apply andb_prop in Hb as [_ Hb]. auto.
  - apply andb_prop in Hb as [Hb _]. injection Hq as <-. now apply Nat.ltb_lt.
  - apply andb_prop in Hb as [Hb _]. injection Hq as <-. now apply Nat.ltb_lt.
Qed.

(** Canceling a struct cancels what is registered with it. *)
Lemma registered_canceled fs st q fq m cs ch e :
  inv fs st -> fs !! q = Some fq ->
  heap st !! q = Some m -> children m = Some cs -> ch ∈ cs ->
  exists st2,
    cancel (cf_target fq) true (Some e) st = Ok (tt, st2)
    /\ inv fs st2
    /\ Err (canceler_Context ch) st2 = Ok (Some e, st2).
Proof.
  intros Hinv Hf Hm Hcs Hin.
  destruct (cancel_node fs st q fq true e m Hinv Hf Hm)
    as (st1 & st2 & E & _ & C1 & D1 & Mo & _).
  exists st2. split; [exact E|].
  destruct (inv_handle _ _ _ _ Hinv Hf) as [Hc Hp].
  destruct (cancel_inv _ _ _ _ _ _ Hinv Hc (or_introl eq_refl) E)
    as (Hinv2 & _ & _).
  split; [exact Hinv2|].
  assert (Hd : descendant st q ch) by (eapply desc_child; eauto).
  destruct (cascade_descendant _ _ _ _ _ _ Hinv C1 Hd D1) as (m1 & Hm1 & He1).
  destruct (mo_node _ _ Mo _ _ Hm1) as (m' & Hm' & He' & _).
  rewrite (Err_canceler _ _ _ Hm'), (He' _ He1). reflexivity.
Qed.

(** A context made by [WithCancel] below a cancelable or deadline
    context that is not canceled, directly or through value bindings, is
    not canceled itself, and is canceled with the same cause as soon as
    that context is: as soon as its cancel function is called
    ([e = Canceled]) or its timer fires ([e = DeadlineExceeded]). *)
Theorem WithCancel_follows_parent st fs parent q :
  reachable (st, fs) -> bounded (length (heap st)) parent = true ->
  plain parent = true -> nearest_canceler parent = Some q ->
  Err parent st = Ok (None, st) ->
  let p := length (heap st) in
  exists st1,
    WithCancel (Some parent) st
    = Ok ((cancelCtx parent p,
           {| cf_target := cancelCtx_ parent p;
              cf_removeFromParent := true |}), st1)
    /\ Err (cancelCtx parent p) st1 = Ok (None, st1)
    /\ forall fq e, fs !! q = Some fq ->
         exists st2,
           cancel (cf_target fq) true (Some e) st1 = Ok (tt, st2)
           /\ Err (cancelCtx parent p) st2 = Ok (Some e, st2).
Proof.
  intros Hr Hb Hpl Hq HE p. pose proof (reachable_inv _ _ Hr) as Hinv.
  pose proof Hinv as [I _ _].
  assert (Hnat : native parent = true).
  { unfold plain in Hpl. now apply andb_prop in Hpl as [? _]. }
  pose proof (Err_None_unsignaled _ _ _ _ I Hb Hnat HE) as Hs.
  set (c := cancelCtx_ parent p).
  set (f := {| cf_target := c; cf_removeFromParent := true |}).
  destruct (propagateCancel_registers fs st c q Hinv eq_refl Hb Hpl Hq Hs)
    as (s1 & m & Q1 & Hm & Hem & HP & _).
  simpl in HP.
  assert (E : WithCancel (Some parent) st
              = Ok ((cancelCtx parent p, f),
                    upd q (with_children m
                             (Some (c :: default [] (children m)))) s1)).
  { unfold WithCancel, newCancelCtx.
    rewrite (bind_Ok _ _ _ _ _ (alloc_Ok st)).
    fold p. fold c. now rewrite (bind_Ok _ _ _ _ _ HP). }
  destruct (WithCancel_inv _ _ _ _ _ _ Hinv Hb E) as (Hinv1 & _ & _ & _).
  pose proof (nearest_canceler_bounded _ _ _ Hb Hq) as Hlt. fold p in Hlt.
  destruct (quiet_fwd _ _ _ _ Q1 (alloc_lookup_new st))
    as (n1 & Hn1 & He1 & _).
  fold p in Hn1.
  eexists. split; [exact E|]. split.
  - simpl. unfold cancelCtx_Err.
    assert (Hl : heap (upd q (with_children m
                                (Some (c :: default [] (children m)))) s1)
                 !! p = Some n1).
    { rewrite lookup_upd_ne by lia. exact Hn1. }
    rewrite (bind_Ok _ _ _ _ _ (load_Ok _ _ _ Hl)). unfold ret.
    now rewrite He1.
  - intros fq e Hf.
    assert (Hf' : (fs ++ [f]) !! q = Some fq)
      by (now apply lookup_app_l_Some).
    destruct (registered_canceled (fs ++ [f]) _ q fq _ _ c e Hinv1 Hf'
                (lookup_upd_eq _ _ _ _ Hm) eq_refl)
      as (st2 & E2 & _ & HE2).
    { apply list_elem_of_here. }
    exists st2. split; [exact E2 | exact HE2].
Qed.

Lemma WithCancel_follows_parent_witness :
  let st := fst sample_world in
  let fs := snd sample_world in
  let parent := valueCtx (cancelCtx Background 0%nat) (int_ 1) (int_ 5) in
  exists st1,
    WithCancel (Some parent) st
    = Ok ((cancelCtx parent 2%nat,
           {| cf_target := cancelCtx_ parent 2%nat;
              cf_removeFromParent := true |}), st1)
    /\ Err (cancelCtx parent 2%nat) st1 = Ok (None, st1)
    /\ forall fq e, fs !! 0%nat = Some fq ->
         exists st2,
           cancel (cf_target fq) true (Some e) st1 = Ok (tt, st2)
           /\ Err (cancelCtx parent 2%nat) st2 = Ok (Some e, st2).
Proof.
  intros st fs parent.
  apply (WithCancel_follows_parent st fs parent 0%nat sample_reachable);
    reflexivity.
Defined.

Lemma inv_stop fs t st : inv fs st -> inv fs (stop_state t st).
Proof.
  intros Hinv. pose proof Hinv as [I Q F].
  eapply inv_mono_same; eauto.
  - apply mono_same_store; [apply stop_state_heap | apply stop_state_chans].
  - now apply pinv_stop.
  - intros q m. rewrite stop_state_heap. apply Q.
Qed.

(** What [WithDeadline] does with a deadline that lies ahead, below a
    parent whose channel is not closed. *)
Lemma WithDeadline_arms fs st parent d now :
  inv fs st -> bounded (length (heap st)) parent = true ->
  (forall cur, Deadline parent = Some cur -> ~ cur < d) ->
  0 < Until d now ->
  signaled st parent = false ->
  let p := length (heap st) in
  let c := timerCtx_ parent p d in
  let f := {| cf_target := c; cf_removeFromParent := true |} in
  exists s1 n,
    propagateCancel parent c (alloc_state st) = Ok (tt, s1)
    /\ heap s1 !! p = Some n /\ err n = None /\ timers s1 = timers st
    /\ WithDeadline (Some parent) d now st
       = Ok ((timerCtx parent p d, f), arm_state p n (Until d now) c s1)
    /\ inv (fs ++ [f]) (arm_state p n (Until d now) c s1).
Proof.
  intros Hinv Hb Hdl Hfut Hs p c f.
  destruct (propagateCancel_live fs st c Hinv eq_refl Hb Hs)
    as (s1 & n & HP & Hinv1 & Hn & He & Ht & Htm & Hlen).
  simpl in HP, Hn. exists s1, n.
  assert (E : WithDeadline (Some parent) d now st
       = Ok ((timerCtx parent p d, f), arm_state p n (Until d now) c s1)).
  { unfold WithDeadline.
    replace (match Deadline parent with
             | Some cur => cur <? d
             | None => false
             end) with false.
    2:{ destruct (Deadline parent) as [cur|] eqn:Ed; [|reflexivity].
        symmetry. apply Z.ltb_ge. specialize (Hdl cur eq_refl). lia. }
    unfold newCancelCtx. rewrite (bind_Ok _ _ _ _ _ (alloc_Ok st)).
    fold p. fold c. rewrite (bind_Ok _ _ _ _ _ HP).
    replace (Until d now <=? 0) with false by (symmetry; apply Z.leb_gt; lia).
    rewrite (bind_Ok _ _ _ _ _ (load_Ok _ _ _ Hn)), He.
    rewrite (bind_Ok _ _ _ _ _ (AfterFunc_set_timer _ _ _ _ _ Hn)).
    reflexivity. }
  splits; auto.
  destruct (WithDeadline_inv _ _ _ _ _ _ _ _ Hinv Hb E) as (A & _). exact A.
Qed.

Lemma arm_state_lookup p n dur c st :
  heap st !! p = Some n ->
  heap (arm_state p n dur c st) !! p
  = Some (with_timer n (Some (length (timers st)))).
Proof. intros Hn. unfold arm_state. eapply lookup_upd_eq. exact Hn. Qed.

Lemma arm_state_lookup_ne p n dur c st q :
  p <> q -> heap (arm_state p n dur c st) !! q = heap st !! q.
Proof. intros Hne. unfold arm_state. now rewrite lookup_upd_ne. Qed.

(** A deadline that lies ahead: [WithDeadline] below a parent whose
    channel is not closed and whose deadline is not earlier returns a
    live deadline context and arms one timer for the remaining time;
    when the runtime fires that timer the context's [Err] becomes
    [DeadlineExceeded], its [Done] channel is closed, and the timer is
    stopped and released. *)
Theorem WithDeadline_timer_fires st fs parent d now :
  reachable (st, fs) -> bounded (length (heap st)) parent = true ->
  (forall cur, Deadline parent = Some cur -> ~ cur < d) ->
  0 < Until d now ->
  signaled st parent = false ->
  let p := length (heap st) in
  let t := length (timers st) in
  let c := timerCtx_ parent p d in
  exists st1,
    WithDeadline (Some parent) d now st
    = Ok ((timerCtx parent p d,
           {| cf_target := c; cf_removeFromParent := true |}), st1)
    /\ Err (timerCtx parent p d) st1 = Ok (None, st1)
    /\ timers st1 = timers st ++ [{| t_target := c; t_dur := Until d now;
                                     t_active := true |}]
    /\ (exists n, heap st1 !! p = Some n /\ timer n = Some t)
    /\ exists st2,
         fire t st1 = Ok (tt, st2)
         /\ Err (timerCtx parent p d) st2 = Ok (Some DeadlineExceeded, st2)
         /\ (exists ch, Done (timerCtx parent p d) st2 = Ok (Some ch, st2)
                        /\ is_closed st2 ch = true)
         /\ (exists n2, heap st2 !! p = Some n2 /\ timer n2 = None)
         /\ (exists r, timers st2 !! t = Some r /\ t_active r = false).
Proof.
  intros Hr Hb Hdl Hfut Hs p t c. pose proof (reachable_inv _ _ Hr) as Hinv.
  set (f := {| cf_target := c; cf_removeFromParent := true |}).
  destruct (WithDeadline_arms fs st parent d now Hinv Hb Hdl Hfut Hs)
    as (s1 & n & HP & Hn & He & Htm & E & Hinv1).
  fold p c f in HP, Hn, E, Hinv1.
  set (st1 := arm_state p n (Until d now) c s1) in *.
  assert (Hn1 : heap st1 !! p = Some (with_timer n (Some t))).
  { unfold st1, t. rewrite <- Htm. now apply arm_state_lookup. }
  assert (Ht1 : timers st1 = timers st ++ [{| t_target := c;
                   t_dur := Until d now; t_active := true |}]).
  { unfold st1, arm_state. simpl. now rewrite Htm. }
  assert (Hr1 : timers st1 !! t = Some {| t_target := c;
                   t_dur := Until d now; t_active := true |}).
  { rewrite Ht1. unfold t. rewrite lookup_app_r by lia.
    now rewrite Nat.sub_diag. }
  exists st1. split; [exact E|]. split.
  { simpl. rewrite (cancelCtx_Err_Ok _ _ _ Hn1). simpl. now rewrite He. }
  split; [exact Ht1|]. split; [eexists; split; [exact Hn1 | reflexivity]|].
  (* the timer fires *)
  pose proof (inv_stop _ t _ Hinv1) as Hinv2.
  set (s2 := stop_state t st1) in *.
  assert (Hn2 : heap s2 !! p = Some (with_timer n (Some t)))
    by (unfold s2; rewrite stop_state_heap; exact Hn1).
  assert (Hf : (fs ++ [f]) !! p = Some f) by (now apply snoc_lookup).
  destruct (cancel_node _ s2 p f true DeadlineExceeded _ Hinv2 Hf Hn2)
    as (s3 & st2 & E2 & (x & I2) & _ & _ & _ & n2 & Hn2' & Hm).
  simpl in Hm. rewrite He in Hm. destruct Hm as (He2 & Hd2 & _).
  pose proof Hinv2 as [I2' Q2' _].
  assert (Hc : (cf_target <$> fs ++ [f]) !! p = Some c)
    by (rewrite list_lookup_fmap, Hf; reflexivity).
  destruct (cancel_timer _ DeadlineExceeded parent p d s2 _ I2' Q2' Hc Hn2)
    as (st2' & n2' & E2' & Hn2'' & Htn & _ & Hstop).
  change (cancel c true (Some DeadlineExceeded) s2 = Ok (tt, st2)) in E2.
  assert (st2' = st2) as ->.
  { unfold c in E2. rewrite E2 in E2'. now injection E2'. }
  assert (n2' = n2) as -> by congruence.
  exists st2. split; [|split; [|split; [|split]]].
  - unfold fire. unfold bind at 1, get at 1. rewrite Hr1. simpl.
    rewrite (bind_Ok _ _ _ _ _ (Stop_Ok t st1)). exact E2.
  - simpl. rewrite (cancelCtx_Err_Ok _ _ _ Hn2'), He2. reflexivity.
  - eexists. split.
    + apply (Done_canceler c _ _ _ Hn2' Hd2).
    + destruct (pi_done _ _ _ I2 _ _ _ Hn2' Hd2) as [_ H]. apply H. congruence.
  - exists n2. split; assumption.
  - apply Hstop. reflexivity.
Qed.

Lemma WithDeadline_timer_fires_witness :
  exists st1 st2,
    WithDeadline (Some Background) 50 10 init
    = Ok ((timerCtx Background 0%nat 50,
           {| cf_target := timerCtx_ Background 0%nat 50;
              cf_removeFromParent := true |}), st1)
    /\ fire 0%nat st1 = Ok (tt, st2)
    /\ Err (timerCtx Background 0%nat 50) st2
       = Ok (Some DeadlineExceeded, st2).
Proof.
  destruct (WithDeadline_timer_fires init [] Background 50 10)
    as (st1 & E & _ & _ & _ & st2 & E2 & HE & _).
  - exists []. reflexivity.
  - reflexivity.
  - discriminate.
  - vm_compute. reflexivity.
  - reflexivity.
  - exists st1, st2. split; [exact E|]. split; assumption.
Defined.

(** * Cancel functions, and the goroutine of a foreign parent *)

(** Calling a cancel function, in any reachable state: the call returns,
    the context is canceled afterwards, its struct is registered in no
    children map any more, and no goroutine was started or ended. *)
Theorem cancel_function_detaches st fs p f :
  reachable (st, fs) -> fs !! p = Some f ->
  exists st' e,
    call f st = Ok (tt, st')
    /\ Err (canceler_Context (cf_target f)) st' = Ok (Some e, st')
    /\ (forall n, heap st !! p = Some n -> err n = None -> e = Canceled)
    /\ tracked st' p = false
    /\ goroutines st' = goroutines st /\ waiters st' = waiters st.
Proof.
  intros Hr Hf.
  destruct (reachable_handle _ _ _ _ Hr Hf) as (Hinv & Hc & Hp & n & Hn).
  destruct (cancel_node fs st p f (cf_removeFromParent f) Canceled n
              Hinv Hf Hn)
    as (st1 & st' & E & _ & _ & _ & _ & n' & Hn' & Hm).
  assert (Hrfp : cf_removeFromParent f = true
                 \/ tracked st (canceler_ptr (cf_target f)) = false).
  { destruct (cf_removeFromParent f) eqn:Hfl; [now left|right].
    rewrite Hp. eapply inv_dead_untracked; [exact Hinv|].
    destruct Hinv as [_ _ F]. exact (F p f Hf Hfl). }
  destruct (cancel_inv _ _ _ _ _ _ Hinv Hc Hrfp E) as (Hinv' & _ & _).
  assert (He' : exists e, err n' = Some e
                  /\ (err n = None -> e = Canceled)).
  { destruct (err n) as [e0|] eqn:He.
    - destruct Hm as (-> & _). exists e0. split; [reflexivity | discriminate].
    - destruct Hm as (-> & _). exists Canceled. auto. }
  destruct He' as (e & He' & Hcause).
  exists st', e. split; [exact E|]. split.
  { rewrite <- Hp in Hn'. rewrite (Err_canceler _ _ _ Hn'), He'. reflexivity. }
  split.
  { intros n0 Hn0 He0. apply Hcause. congruence. }
  split.
  { eapply inv_dead_untracked; [exact Hinv'|]. exists n'.
    split; [exact Hn' | congruence]. }
  exact (quiet_run_cancel _ _ _ _ _ _ E).
Qed.

Lemma cancel_function_detaches_witness :
  let st := fst sample_world in
  let fs := snd sample_world in
  exists f st' e,
    fs !! 1%nat = Some f
    /\ tracked st 1%nat = true
    /\ call f st = Ok (tt, st')
    /\ Err (canceler_Context (cf_target f)) st' = Ok (Some e, st')
    /\ tracked st' 1%nat = false.
Proof.
  intros st fs. eexists _.
  assert (Hf : fs !! 1%nat = Some _) by (vm_compute; reflexivity).
  destruct (cancel_function_detaches st fs 1%nat _ sample_reachable Hf)
    as (st' & e & E & HE & _ & Ht & _).
  exists st', e. split; [exact Hf|]. split; [reflexivity|].
  split; [exact E|]. split; assumption.
Defined.

Lemma parentCancelCtx_foreign f d st :
  f_Done f = Some d -> d <> closedchan ->
  ptr_bounded (length (heap st)) (f_Value f ptr_cancelCtxKey) = true ->
  (forall q n, f_Value f ptr_cancelCtxKey = ptr_cancelCtx q ->
     heap st !! q = Some n -> done n <> Some d) ->
  parentCancelCtx (foreignCtx f) st = Ok (None, st).
Proof.
  intros Hd Hne Hb Hv. unfold parentCancelCtx. simpl.
  unfold bind at 1, ret at 1. rewrite Hd.
  replace (chan_eq (Some d) (Some closedchan)) with false
    by (symmetry; apply chan_eq_false; congruence).
  simpl. unfold bind at 1, lift at 1.
  destruct (f_Value f ptr_cancelCtxKey) as [| | | | | | |q] eqn:Ev;
    try reflexivity.
  simpl in Hb. apply Nat.ltb_lt in Hb.
  destruct (lookup_lt_is_Some_2 _ _ Hb) as [n Hn].
  rewrite (bind_Ok _ _ _ _ _ (load_Ok _ _ _ Hn)).
  replace (chan_eq (done n) (Some d)) with false; [reflexivity|].
  symmetry. apply chan_eq_false. now apply (Hv q n).
Qed.

(** Below a parent that is a foreign implementation of [Context] whose
    channel is open and cannot be traced to a struct of the package,
    [WithCancel] starts a goroutine: the counter goes up by one (as an
    int32), the goroutine waits for the parent and the new struct, and
    the new struct is registered in no children map; nothing else in the
    store changes. *)
Theorem WithCancel_foreign_parent st fs f d :
  reachable (st, fs) ->
  bounded (length (heap st)) (foreignCtx f) = true ->
  f_Done f = Some d -> is_closed st d = false ->
  (forall q n, f_Value f ptr_cancelCtxKey = ptr_cancelCtx q ->
     heap st !! q = Some n -> done n <> Some d) ->
  let p := length (heap st) in
  let c := cancelCtx_ (foreignCtx f) p in
  exists st',
    WithCancel (Some (foreignCtx f)) st
    = Ok ((cancelCtx (foreignCtx f) p,
           {| cf_target := c; cf_removeFromParent := true |}), st')
    /\ heap st' = heap st ++ [new_node]
    /\ chans st' = chans st /\ timers st' = timers st
    /\ goroutines st' = wrap32 (goroutines st + 1)
    /\ waiters st' = waiters st ++ [(foreignCtx f, c)]
    /\ tracked st' p = false.
Proof.
  intros Hr Hb Hd Hcl Hv p c. pose proof (reachable_inv _ _ Hr) as Hinv.
  pose proof Hinv as [I _ _].
  assert (Hne : d <> closedchan).
  { intros ->. rewrite (pi_cc _ _ _ I) in Hcl. discriminate. }
  assert (HP : parentCancelCtx (foreignCtx f) (alloc_state st)
               = Ok (None, alloc_state st)).
  { apply parentCancelCtx_foreign with (d := d); auto.
    - simpl in Hb. eapply ptr_bounded_mono; [|exact Hb].
      simpl. rewrite length_app. lia.
    - intros q n Hq Hn. apply alloc_lookup in Hn as [Hn|[-> ->]].
      + now apply (Hv q n).
      + discriminate. }
  exists (wait_state (foreignCtx f) c (alloc_state st)).
  split; [|splits; try reflexivity].
  - unfold WithCancel, newCancelCtx.
    rewrite (bind_Ok _ _ _ _ _ (alloc_Ok st)). fold p. fold c.
    assert (HD : Done (foreignCtx f) (alloc_state st)
                 = Ok (Some d, alloc_state st)) by (simpl; now rewrite Hd).
    assert (Hcl' : is_closed (alloc_state st) d = false) by exact Hcl.
    unfold bind at 1.
    rewrite (propagateCancel_open _ _ _ _ _ HD Hcl').
    rewrite (bind_Ok _ _ _ _ _ HP). reflexivity.
  - apply tracked_false. intros q n cs ch Hq Hcs Hin Heq.
    change (heap (wait_state (foreignCtx f) c (alloc_state st)))
      with (heap (alloc_state st)) in Hq.
    destruct (inv_alloc fs st c Hinv eq_refl Hb) as (_ & _ & _ & _ & Ht & _).
    exact (proj1 (tracked_false _ _) Ht _ _ _ _ Hq Hcs Hin Heq).
Qed.

Lemma WithCancel_foreign_parent_witness :
  let f := {| f_Deadline := None; f_Done := Some 1%nat;
              f_Err := None; f_Value := fun _ => nil_ |} in
  let st := fst sample_world in
  exists st',
    WithCancel (Some (foreignCtx f)) st
    = Ok ((cancelCtx (foreignCtx f) 2%nat,
           {| cf_target := cancelCtx_ (foreignCtx f) 2%nat;
              cf_removeFromParent := true |}), st')
    /\ goroutines st' = 1
    /\ waiters st' = [(foreignCtx f, cancelCtx_ (foreignCtx f) 2%nat)].
Proof.
  intros f st.
  destruct (WithCancel_foreign_parent st (snd sample_world) f 1%nat
              sample_reachable eq_refl eq_refl eq_refl)
    as (st' & E & _ & _ & _ & Hg & Hw & _).
  - intros q n Hq. discriminate.
  - exists st'. split; [exact E|]. split; [exact Hg | exact Hw].
Defined.

(** The goroutine started for a foreign parent, once the parent's
    channel is closed: it calls [child.cancel(false, parent.Err())] and
    ends; the child's [Err] is the parent's error unless the child was
    canceled before. *)
Theorem waiter_cancels_child st fs parent child e :
  reachable (st, fs) -> (parent, child) ∈ waiters st ->
  signaled st parent = true -> Err parent st = Ok (Some e, st) ->
  exists st' e',
    waiter_body parent child st = Ok (true, st')
    /\ Err (canceler_Context child) st' = Ok (Some e', st')
    /\ (lives st (canceler_ptr child) -> e' = e)
    /\ goroutines st' = goroutines st.
Proof.
  intros Hr Hin Hs HE. pose proof (reachable_inv _ _ Hr) as Hinv.
  pose proof Hinv as [I _ _].
  destruct (pi_waiters _ _ _ I _ _ Hin) as (Hc & -> & Ht).
  destruct (pi_hs _ _ _ I _ _ Hc) as [_ Hb].
  assert (Hlt : (canceler_ptr child < length (heap st))%nat).
  { rewrite <- (pi_len _ _ _ I). now apply lookup_lt_Some in Hc. }
  assert (Hb1 : bounded (length (heap st)) (canceler_parent child) = true)
    by (eapply bounded_mono; [|exact Hb]; lia).
  assert (Hb2 : bounded (length (heap st)) (canceler_Context child) = true).
  { destruct child; simpl in *; apply andb_true_intro;
      (split; [now apply Nat.ltb_lt | exact Hb1]). }
  unfold signaled in Hs.
  destruct (peek_Done (heap st) (canceler_parent child)) as [d|] eqn:Hpk;
    [|discriminate].
  pose proof (peek_Done_Some _ _ _ Hpk) as HD.
  destruct (Done_pinv _ _ _ _ I Hb2) as (s1 & HD2 & _ & Q1 & _).
  destruct (Done_inv _ _ _ _ _ Hinv Hb2 HD2) as [Hinv1 _].
  rewrite list_lookup_fmap in Hc.
  destruct (fs !! canceler_ptr child) as [fq|] eqn:Hf; [|discriminate].
  injection Hc as Hc.
  destruct (lookup_lt_is_Some_2 _ _ Hlt) as [n Hn].
  destruct (quiet_fwd _ _ _ _ Q1 Hn) as (n1 & Hn1 & He1 & _).
  destruct (cancel_node fs s1 _ fq false e n1 Hinv1 Hf Hn1)
    as (s2 & st' & E & _ & _ & _ & _ & n' & Hn' & Hm).
  rewrite Hc in E.
  assert (He' : exists e', err n' = Some e' /\ (err n = None -> e' = e)).
  { rewrite He1 in Hm. destruct (err n) as [e0|] eqn:He.
    - destruct Hm as (-> & _). exists e0. split; [reflexivity | discriminate].
    - destruct Hm as (-> & _). exists e. auto. }
  destruct He' as (e' & He' & Hcause).
  exists st', e'. split; [|split; [|split]].
  - unfold waiter_body. rewrite (bind_Ok _ _ _ _ _ HD).
    rewrite (bind_Ok _ _ _ _ _ HD2). unfold bind at 1, get at 1.
    rewrite (qu_closed _ _ Q1), Hs.
    rewrite (bind_Ok _ _ _ _ _ (Err_mono _ _ _ _ (quiet_mono _ _ Q1) HE)).
    now rewrite (bind_Ok _ _ _ _ _ E).
  - rewrite (Err_canceler _ _ _ Hn'), He'. reflexivity.
  - intros (n0 & Hn0 & He0). apply Hcause. congruence.
  - destruct (quiet_run_cancel _ _ _ _ _ _ E) as [Hg _].
    destruct (quiet_run_Done _ _ _ _ HD2) as [Hg1 _]. congruence.
Qed.

Lemma waiter_cancels_child_witness :
  let st := fst waiting_world in
  let child := cancelCtx_ (foreignCtx wrapper) 1%nat in
  exists st' e',
    waiter_body (foreignCtx wrapper) child st = Ok (true, st')
    /\ Err (canceler_Context child) st' = Ok (Some e', st')
    /\ e' = errorOther "parent gone".
Proof.
  intros st child.
  destruct (waiter_cancels_child st (snd waiting_world) (foreignCtx wrapper)
              child (errorOther "parent gone"))
    as (st' & e' & E & HE & Hc & _).
  - exists waiting_trace. vm_compute. reflexivity.
  - apply list_elem_of_here.
  - reflexivity.
  - reflexivity.
  - exists st', e'. split; [exact E|]. split; [exact HE|].
    apply Hc. eexists. split; [vm_compute; reflexivity | reflexivity].
Defined.

(** * Below the package's own contexts no goroutine is needed *)

Lemma Done_no_canceler c st :
  native c = true -> nearest_canceler c = None -> Done c st = Ok (None, st).
Proof.
  induction c as [b|parent IH k v|parent IH p|parent IH p dl|f];
    intros Hn Hq; apply native_inv in Hn; simpl in *; try discriminate;
    try contradiction; auto.
Qed.

Lemma plain_native c : plain c = true -> native c = true.
Proof. unfold plain. intros H. now apply andb_prop in H as [? _]. Qed.

Lemma propagateCancel_plain fs st c :
  inv fs st ->
  canceler_ptr c = length (heap st) ->
  bounded (length (heap st)) (canceler_parent c) = true ->
  plain (canceler_parent c) = true ->
  exists s',
    propagateCancel (canceler_parent c) c (alloc_state st) = Ok (tt, s')
    /\ same_goroutines st s'
    /\ pinv ((cf_target <$> fs) ++ [c]) None s' /\ settled s'
    /\ length (heap s') = S (length (heap st)).
Proof.
  intros Hinv Hp Hb Hpl. pose proof (plain_native _ Hpl) as Hnat.
  destruct (inv_alloc fs st c Hinv Hp Hb) as (I0 & Q0 & Hc & Hl & Ht & Hw).
  assert (Hb0 : bounded (length (heap (alloc_state st))) (canceler_parent c)
                = true).
  { eapply bounded_mono; [|exact Hb]. simpl. rewrite length_app. lia. }
  assert (Hfin : forall s',
            propagateCancel (canceler_parent c) c (alloc_state st)
            = Ok (tt, s') ->
            same_goroutines (alloc_state st) s' ->
            propagateCancel (canceler_parent c) c (alloc_state st)
            = Ok (tt, s')
            /\ same_goroutines st s'
            /\ pinv ((cf_target <$> fs) ++ [c]) None s' /\ settled s'
            /\ length (heap s') = S (length (heap st))).
  { intros s' E G.
    destruct (propagateCancel_keeps _ _ c s' I0 Q0 Hc Hl Ht Hw E)
      as (I1 & Q1 & _ & L1).
    split; [exact E|]. split; [exact G|]. split; [exact I1|].
    split; [exact Q1|]. rewrite L1. simpl. rewrite length_app. simpl. lia. }
  destruct (signaled st (canceler_parent c)) eqn:Hs.
  - (* the parent is canceled already *)
    unfold signaled in Hs.
    destruct (peek_Done (heap st) (canceler_parent c)) as [d|] eqn:Hpk;
      [|discriminate].
    assert (HD : Done (canceler_parent c) (alloc_state st)
                 = Ok (Some d, alloc_state st)).
    { apply peek_Done_Some. now rewrite peek_alloc. }
    assert (Hcl : is_closed (alloc_state st) d = true) by exact Hs.
    destruct (Err_peek _ _ _ _ I0 Hb0 Hnat) as (oe & HE & Hiff).
    destruct oe as [e|].
    2:{ exfalso. apply (proj2 Hiff); [|reflexivity].
        exists d. split; [|exact Hcl]. now rewrite peek_alloc. }
    destruct (cancel_pinv _ e c false _ I0 Q0 Hc (or_intror Ht))
      as (s1 & s2 & E & _).
    exists (released c s2). apply Hfin.
    + rewrite (propagateCancel_closed _ _ _ _ _ HD Hcl).
      now rewrite (bind_Ok _ _ _ _ _ HE).
    + exact (quiet_run_cancel _ _ _ _ _ _ E).
  - destruct (nearest_canceler (canceler_parent c)) as [q|] eqn:Hq.
    + destruct (propagateCancel_registers fs st c q Hinv Hp Hb Hpl Hq Hs)
        as (s1 & m & _ & _ & _ & E & G).
      eexists. apply Hfin; [exact E|].
      destruct G as [G1 G2]. split; assumption.
    + exists (alloc_state st). apply Hfin.
      * apply propagateCancel_none. now apply Done_no_canceler.
      * apply same_goroutines_refl.
Qed.

(** Below a context made of the package's own nodes the constructors
    always return, in every reachable state, and never start a goroutine:
    the counter and the waiting goroutines are what they were. *)
Theorem constructors_start_no_goroutine st fs parent :
  reachable (st, fs) -> bounded (length (heap st)) parent = true ->
  plain parent = true ->
  (exists c f st',
     WithCancel (Some parent) st = Ok ((c, f), st')
     /\ goroutines st' = goroutines st /\ waiters st' = waiters st)
  /\ (forall d now, exists c f st',
        WithDeadline (Some parent) d now st = Ok ((c, f), st')
        /\ goroutines st' = goroutines st /\ waiters st' = waiters st)
  /\ (forall timeout now1 now2, exists c f st',
        WithTimeout (Some parent) timeout now1 now2 st = Ok ((c, f), st')
        /\ goroutines st' = goroutines st /\ waiters st' = waiters st).
Proof.
  intros Hr Hb Hpl. pose proof (reachable_inv _ _ Hr) as Hinv.
  set (p := length (heap st)).
  assert (HWC : exists c f st',
     WithCancel (Some parent) st = Ok ((c, f), st')
     /\ goroutines st' = goroutines st /\ waiters st' = waiters st).
  { destruct (propagateCancel_plain fs st (cancelCtx_ parent p) Hinv eq_refl
                Hb Hpl) as (s' & E & G & _).
    eexists _, _, s'. split; [|exact G].
    unfold WithCancel, newCancelCtx.
    rewrite (bind_Ok _ _ _ _ _ (alloc_Ok st)).
    fold p. simpl in E. now rewrite (bind_Ok _ _ _ _ _ E). }
  assert (HWD : forall d now, exists c f st',
        WithDeadline (Some parent) d now st = Ok ((c, f), st')
        /\ goroutines st' = goroutines st /\ waiters st' = waiters st).
  { intros d now. unfold WithDeadline.
    destruct (match Deadline parent with
              | Some cur => cur <? d
              | None => false
              end); [exact HWC|].
    set (c := timerCtx_ parent p d).
    destruct (propagateCancel_plain fs st c Hinv eq_refl Hb Hpl)
      as (s' & E & G & I1 & Q1 & L1).
    simpl in E. unfold newCancelCtx.
    rewrite (bind_Ok _ _ _ _ _ (alloc_Ok st)). fold p. fold c.
    rewrite (bind_Ok _ _ _ _ _ E).
    assert (Hc : ((cf_target <$> fs) ++ [c]) !! canceler_ptr c = Some c).
    { destruct Hinv as [I _ _]. simpl. unfold p.
      rewrite <- (pi_len _ _ _ I), lookup_app_r by lia.
      now rewrite Nat.sub_diag. }
    destruct (Until d now <=? 0).
    - destruct (cancel_pinv _ DeadlineExceeded c true _ I1 Q1 Hc
                  (or_introl eq_refl)) as (s1 & s2 & E2 & _).
      rewrite (bind_Ok _ _ _ _ _ E2). eexists _, _, _.
      split; [reflexivity|].
      eapply same_goroutines_trans; [exact G|].
      exact (quiet_run_cancel _ _ _ _ _ _ E2).
    - assert (Hlt : (p < length (heap s'))%nat) by (rewrite L1; unfold p; lia).
      destruct (lookup_lt_is_Some_2 _ _ Hlt) as [n Hn].
      rewrite (bind_Ok _ _ _ _ _ (load_Ok _ _ _ Hn)).
      destruct (err n).
      + eexists _, _, _. split; [reflexivity | exact G].
      + rewrite (bind_Ok _ _ _ _ _ (AfterFunc_set_timer _ _ _ _ _ Hn)).
        eexists _, _, _. split; [reflexivity|]. exact G. }
  split; [exact HWC|]. split; [exact HWD|].
  intros timeout now1 now2. apply HWD.
Qed.

Lemma constructors_start_no_goroutine_witness :
  let st := fst sample_world in
  let parent := valueCtx (cancelCtx Background 0%nat) (int_ 1) (int_ 5) in
  exists c f st',
    WithDeadline (Some parent) 20 30 st = Ok ((c, f), st')
    /\ goroutines st' = goroutines st /\ waiters st' = waiters st.
Proof.
  intros st parent.
  destruct (constructors_start_no_goroutine st (snd sample_world) parent
              sample_reachable eq_refl eq_refl) as (_ & H & _).
  exact (H 20 30).
Defined.

(** A deadline context made below a cancelable or deadline context that
    is not canceled, with a deadline that lies ahead: it is live, and
    when that ancestor is canceled it is canceled with the ancestor's
    cause; its own timer, if it still fires, and whatever else the
    program does later leave that cause in place. *)
Theorem WithDeadline_follows_parent st fs parent q d now :
  reachable (st, fs) -> bounded (length (heap st)) parent = true ->
  plain parent = true -> nearest_canceler parent = Some q ->
  Err parent st = Ok (None, st) ->
  (forall cur, Deadline parent = Some cur -> ~ cur < d) ->
  0 < Until d now ->
  let p := length (heap st) in
  let f := {| cf_target := timerCtx_ parent p d;
              cf_removeFromParent := true |} in
  exists st1,
    WithDeadline (Some parent) d now st = Ok ((timerCtx parent p d, f), st1)
    /\ Err (timerCtx parent p d) st1 = Ok (None, st1)
    /\ forall fq e, fs !! q = Some fq ->
         exists st2,
           cancel (cf_target fq) true (Some e) st1 = Ok (tt, st2)
           /\ Err (timerCtx parent p d) st2 = Ok (Some e, st2)
           /\ forall tr st3 fs3,
                run tr (st2, fs ++ [f]) = Some (st3, fs3) ->
                Err (timerCtx parent p d) st3 = Ok (Some e, st3).
Proof.
  intros Hr Hb Hpl Hq HE Hdl Hfut p f.
  pose proof (reachable_inv _ _ Hr) as Hinv. pose proof Hinv as [I _ _].
  pose proof (plain_native _ Hpl) as Hnat.
  pose proof (Err_None_unsignaled _ _ _ _ I Hb Hnat HE) as Hs.
  set (c := timerCtx_ parent p d) in *.
  destruct (WithDeadline_arms fs st parent d now Hinv Hb Hdl Hfut Hs)
    as (s1 & n & HP & Hn & He & Htm & E & Hinv1).
  fold p c f in HP, Hn, E, Hinv1.
  destruct (propagateCancel_registers fs st c q Hinv eq_refl Hb Hpl Hq Hs)
    as (s0 & m & Q0 & Hm & Hem & HP' & _).
  simpl in HP'. rewrite HP in HP'. injection HP' as Hs1.
  pose proof (nearest_canceler_bounded _ _ _ Hb Hq) as Hlt. fold p in Hlt.
  set (st1 := arm_state p n (Until d now) c s1) in *.
  assert (Hq1 : heap st1 !! q
                = Some (with_children m
                          (Some (c :: default [] (children m))))).
  { unfold st1. rewrite arm_state_lookup_ne by lia. rewrite Hs1.
    eapply lookup_upd_eq. exact Hm. }
  exists st1. split; [exact E|]. split.
  { simpl. unfold st1.
    rewrite (cancelCtx_Err_Ok _ _ _
               (arm_state_lookup _ _ (Until d now) c _ Hn)).
    simpl. now rewrite He. }
  intros fq e Hf.
  assert (Hf' : (fs ++ [f]) !! q = Some fq) by (now apply lookup_app_l_Some).
  destruct (registered_canceled (fs ++ [f]) st1 q fq _ _ c e Hinv1 Hf'
              Hq1 eq_refl) as (st2 & E2 & Hinv2 & HE2).
  { apply list_elem_of_here. }
  exists st2. split; [exact E2|]. split; [exact HE2|].
  intros tr st3 fs3 Hrun.
  destruct (run_inv tr _ _ _ _ Hinv2 Hrun) as [_ Mo].
  exact (Err_mono _ _ _ _ Mo HE2).
Qed.

Lemma WithDeadline_follows_parent_witness :
  let st := fst sample_world in
  let fs := snd sample_world in
  let parent := cancelCtx Background 0%nat in
  exists st1 fq st2,
    WithDeadline (Some parent) 90 30 st
    = Ok ((timerCtx parent 2%nat 90,
           {| cf_target := timerCtx_ parent 2%nat 90;
              cf_removeFromParent := true |}), st1)
    /\ fs !! 0%nat = Some fq
    /\ cancel (cf_target fq) true (Some Canceled) st1 = Ok (tt, st2)
    /\ Err (timerCtx parent 2%nat 90) st2 = Ok (Some Canceled, st2).
Proof.
  intros st fs parent.
  destruct (WithDeadline_follows_parent st fs parent 0%nat 90 30
              sample_reachable eq_refl eq_refl eq_refl eq_refl)
    as (st1 & E & _ & H).
  - discriminate.
  - vm_compute. reflexivity.
  - assert (Hf : fs !! 0%nat = Some _) by (vm_compute; reflexivity).
    destruct (H _ Canceled Hf) as (st2 & E2 & HE2 & _).
    eexists st1, _, st2. split; [exact E|]. split; [exact Hf|].
    split; assumption.
Defined.

(** * Contexts derived from a root *)

Lemma upd_upd p n n' st : upd p n' (upd p n st) = upd p n' st.
Proof.
  unfold upd, set_heap. simpl. now rewrite list_insert_insert_eq.
Qed.

(** Canceling a struct nobody has looked at or registered with. *)
Lemma cancelCtx_cancel_body_fresh cc parent p e st n :
  heap st !! p = Some n ->
  err n = None -> done n = None -> children n = None ->
  cancelCtx_cancel_body cc parent p false (Some e) st
  = Ok (tt, upd p {| done := Some closedchan; children := None;
                     err := Some e; timer := timer n |} st).
Proof.
  intros Hn He Hd Hc. unfold cancelCtx_cancel_body.
  rewrite (bind_Ok _ _ _ _ _ (load_Ok _ _ _ Hn)), He, Hd, Hc.
  rewrite (bind_Ok _ _ _ _ _ (set_err_Ok _ _ _ _ Hn)).
  rewrite (bind_Ok _ _ _ _ _
             (set_done_Ok _ _ _ _ (lookup_upd_eq _ _ _ _ Hn))).
  rewrite upd_upd. simpl. unfold bind at 1, ret at 1.
  rewrite (bind_Ok _ _ _ _ _
             (set_children_Ok _ _ _ _ (lookup_upd_eq _ _ _ _ Hn))).
  rewrite upd_upd. reflexivity.
Qed.

Lemma removeChild_root parent child st :
  native parent = true -> nearest_canceler parent = None ->
  removeChild parent child st = Ok (tt, st).
Proof.
  intros Hn Hq. unfold removeChild, parentCancelCtx.
  rewrite bind_assoc, (bind_Ok _ _ _ _ _ (Done_no_canceler _ st Hn Hq)).
  reflexivity.
Qed.

Lemma Deadline_root parent :
  native parent = true -> nearest_canceler parent = None ->
  Deadline parent = None.
Proof.
  induction parent as [b|parent IH k v|parent IH p|parent IH p dl|f];
    intros Hn Hq; apply native_inv in Hn; simpl in *; try discriminate;
    try contradiction; auto.
Qed.

(** Below a root, directly or through value bindings, nothing has to be
    set up, in any state: [WithCancel] only allocates the struct;
    [WithDeadline] with a deadline that lies ahead allocates it and arms
    a timer; with a deadline that has passed it allocates it canceled,
    with [closedchan] as its channel, and returns a cancel function that
    does not detach.  No channel is made, nothing is registered and no
    goroutine is started. *)
Theorem derived_from_root parent st :
  native parent = true -> nearest_canceler parent = None ->
  let p := length (heap st) in
  let c := timerCtx_ parent p in
  WithCancel (Some parent) st
  = Ok ((cancelCtx parent p,
         {| cf_target := cancelCtx_ parent p; cf_removeFromParent := true |}),
        alloc_state st)
  /\ (forall d now, 0 < Until d now ->
        WithDeadline (Some parent) d now st
        = Ok ((timerCtx parent p d,
               {| cf_target := c d; cf_removeFromParent := true |}),
              arm_state p new_node (Until d now) (c d) (alloc_state st)))
  /\ (forall d now, Until d now <= 0 ->
        WithDeadline (Some parent) d now st
        = Ok ((timerCtx parent p d,
               {| cf_target := c d; cf_removeFromParent := false |}),
              upd p {| done := Some closedchan; children := None;
                       err := Some DeadlineExceeded; timer := None |}
                  (alloc_state st))).
Proof.
  intros Hn Hq p c.
  assert (HP : forall ch, propagateCancel parent ch (alloc_state st)
                          = Ok (tt, alloc_state st)).
  { intros ch. apply propagateCancel_none. now apply Done_no_canceler. }
  assert (Hnew : heap (alloc_state st) !! p = Some new_node)
    by apply alloc_lookup_new.
  split; [|split].
  - unfold WithCancel, newCancelCtx.
    rewrite (bind_Ok _ _ _ _ _ (alloc_Ok st)). fold p.
    now rewrite (bind_Ok _ _ _ _ _ (HP _)).
  - intros d now Hfut. unfold WithDeadline.
    rewrite (Deadline_root _ Hn Hq). unfold newCancelCtx.
    rewrite (bind_Ok _ _ _ _ _ (alloc_Ok st)). fold p.
    rewrite (bind_Ok _ _ _ _ _ (HP _)).
    replace (Until d now <=? 0) with false by (symmetry; apply Z.leb_gt; lia).
    rewrite (bind_Ok _ _ _ _ _ (load_Ok _ _ _ Hnew)). simpl.
    rewrite (bind_Ok _ _ _ _ _ (AfterFunc_set_timer _ _ _ _ _ Hnew)).
    reflexivity.
  - intros d now Hpast. unfold WithDeadline.
    rewrite (Deadline_root _ Hn Hq). unfold newCancelCtx.
    rewrite (bind_Ok _ _ _ _ _ (alloc_Ok st)). fold p.
    rewrite (bind_Ok _ _ _ _ _ (HP _)).
    replace (Until d now <=? 0) with true by (symmetry; now apply Z.leb_le).
    assert (E : cancel (c d) true (Some DeadlineExceeded) (alloc_state st)
                = Ok (tt, upd p {| done := Some closedchan; children := None;
                                   err := Some DeadlineExceeded;
                                   timer := None |} (alloc_state st))).
    { rewrite cancel_unfold. unfold c. rewrite cancel_fuel_timerCtx.
      pose proof (cancelCtx_cancel_body_fresh
                    (cancel_fuel (length (heap (alloc_state st)))) parent p
                    DeadlineExceeded _ _ Hnew eq_refl eq_refl eq_refl) as E1.
      rewrite (timerCtx_cancel_body_eq _ _ _ _ _ _ _ _ E1).
      rewrite (bind_Ok _ _ _ _ _ (removeChild_root _ _ _ Hn Hq)).
      rewrite (bind_Ok _ _ _ _ _
                 (load_Ok _ _ _ (lookup_upd_eq _ _ _ _ Hnew))).
      reflexivity. }
    now rewrite (bind_Ok _ _ _ _ _ E).
Qed.

Lemma derived_from_root_witness :
  let parent := valueCtx Background (string_ "user") (int_ 7) in
  WithCancel (Some parent) init
  = Ok ((cancelCtx parent 0%nat,
         {| cf_target := cancelCtx_ parent 0%nat;
            cf_removeFromParent := true |}),
        alloc_state init).
Proof.
  intros parent.
  destruct (derived_from_root parent init eq_refl eq_refl) as (H & _).
  exact H.
Defined.

(** * The shape of the store in reachable states *)

(** The tree of children maps, in every reachable state: a struct that
    has a child registered is not canceled and its channel has been made
    and is open; the child is not canceled, is younger than the struct,
    has the struct as the nearest cancelable ancestor of its parent
    context, is registered once and nowhere else, and the cancel
    function that was returned with it detaches. *)
Theorem children_are_live st fs p n cs ch :
  reachable (st, fs) ->
  heap st !! p = Some n -> children n = Some cs -> ch ∈ cs ->
  err n = None
  /\ (exists d, done n = Some d /\ d <> closedchan /\ is_closed st d = false)
  /\ lives st (canceler_ptr ch)
  /\ (p < canceler_ptr ch)%nat
  /\ Value (canceler_parent ch) ptr_cancelCtxKey = Ok (ptr_cancelCtx p)
  /\ NoDup (canceler_ptr <$> cs)
  /\ (forall q m cs', heap st !! q = Some m -> children m = Some cs' ->
        ch ∈ cs' -> q = p)
  /\ fs !! canceler_ptr ch
     = Some {| cf_target := ch; cf_removeFromParent := true |}.
Proof.
  intros Hr Hn Hcs Hin. pose proof (reachable_inv _ _ Hr) as [I Q F].
  assert (He : err n = None).
  { destruct (err n) eqn:E; [|reflexivity].
    rewrite (Q p n Hn) in Hcs by congruence. discriminate. }
  destruct (pi_child _ _ _ I _ _ _ _ Hn Hcs Hin)
    as (Hh & Hv & d & Hd & Hne & _).
  destruct (pi_live _ _ _ I _ _ _ _ Hn Hcs Hin He) as [Hl|C]; [|discriminate].
  split; [exact He|]. split.
  { exists d. split; [exact Hd|]. split; [exact Hne|].
    eapply pinv_open; eauto. }
  split; [exact Hl|]. split; [eapply pinv_child_lt; eauto|].
  split; [exact Hv|]. split; [eapply pi_nodup; eauto|]. split.
  - intros q m cs' Hm Hcs' Hin'.
    destruct (pi_child _ _ _ I _ _ _ _ Hm Hcs' Hin') as (_ & Hv' & _).
    congruence.
  - rewrite list_lookup_fmap in Hh.
    destruct (fs !! canceler_ptr ch) as [f|] eqn:Hf; [|discriminate].
    injection Hh as Hh. destruct f as [tg [|]]; simpl in *; subst tg.
    + reflexivity.
    + destruct (F _ _ Hf eq_refl) as (m & Hm & Hem).
      destruct Hl as (m' & Hm' & Hem'). congruence.
Qed.

Lemma children_are_live_witness :
  let st := fst sample_world in
  let ch := timerCtx_ (valueCtx (cancelCtx Background 0%nat) (int_ 1) (int_ 5))
                      1%nat 50 in
  lives st 1%nat
  /\ Value (canceler_parent ch) ptr_cancelCtxKey = Ok (ptr_cancelCtx 0%nat).
Proof.
  intros st ch.
  assert (Hn : heap st !! 0%nat = Some _) by (vm_compute; reflexivity).
  destruct (children_are_live st (snd sample_world) 0%nat _ [ch] ch
              sample_reachable Hn eq_refl)
    as (_ & _ & Hl & _ & Hv & _).
  - apply list_elem_of_here.
  - split; assumption.
Defined.

(** A canceled struct, in every reachable state: its channel is closed,
    it has no children map, and it is registered in no children map. *)
Theorem canceled_is_released st fs p n e :
  reachable (st, fs) -> heap st !! p = Some n -> err n = Some e ->
  children n = None
  /\ tracked st p = false
  /\ exists d, done n = Some d /\ is_closed st d = true.
Proof.
  intros Hr Hn He. pose proof (reachable_inv _ _ Hr) as Hinv.
  pose proof Hinv as [I Q F].
  assert (Hne : err n <> None) by congruence.
  split; [exact (Q p n Hn Hne)|]. split.
  - eapply inv_dead_untracked; [exact Hinv|]. exists n. auto.
  - destruct (done n) as [d|] eqn:Hd.
    + exists d. split; [reflexivity|].
      now apply (pi_done _ _ _ I _ _ _ Hn Hd).
    + now destruct (pi_err _ _ _ I _ _ Hn Hne).
Qed.

Lemma canceled_is_released_witness :
  let st := fst waiting_world in
  tracked st 0%nat = false
  /\ exists n d, heap st !! 0%nat = Some n /\ done n = Some d
                 /\ is_closed st d = true.
Proof.
  intros st.
  set (n := {| done := Some 1%nat; children := None; err := Some Canceled;
               timer := None |}).
  assert (Hn : heap st !! 0%nat = Some n) by (vm_compute; reflexivity).
  destruct (canceled_is_released st (snd waiting_world) 0%nat n Canceled)
    as (_ & Ht & d & Hd & Hc).
  - exists waiting_trace. vm_compute. reflexivity.
  - exact Hn.
  - reflexivity.
  - split; [exact Ht|]. eexists _, d. split; [exact Hn|]. split; assumption.
Defined.

(** A foreign parent that breaks the contract of the interface, with a
    closed channel and a nil [Err]: the constructors panic with the
    package's internal error, in any state. *)
Theorem closed_parent_without_error_panics f d st :
  f_Done f = Some d -> is_closed st d = true -> f_Err f = None ->
  WithCancel (Some (foreignCtx f)) st
  = Panic "context: internal error: missing cancel error"
  /\ forall dl now,
       (forall cur, f_Deadline f = Some cur -> ~ cur < dl) ->
       WithDeadline (Some (foreignCtx f)) dl now st
       = Panic "context: internal error: missing cancel error".
Proof.
  intros Hd Hcl He.
  assert (HP : forall ch, propagateCancel (foreignCtx f) ch (alloc_state st)
                 = Panic "context: internal error: missing cancel error").
  { intros ch.
    assert (HD : Done (foreignCtx f) (alloc_state st)
                 = Ok (Some d, alloc_state st)) by (simpl; now rewrite Hd).
    assert (Hcl' : is_closed (alloc_state st) d = true) by exact Hcl.
    rewrite (propagateCancel_closed _ _ _ _ _ HD Hcl').
    unfold bind at 1. simpl. rewrite He. simpl. apply cancel_None. }
  split.
  - unfold WithCancel, newCancelCtx.
    rewrite (bind_Ok _ _ _ _ _ (alloc_Ok st)). unfold bind at 1.
    now rewrite HP.
  - intros dl now Hdl. unfold WithDeadline. simpl.
    replace (match f_Deadline f with
             | Some cur => cur <? dl
             | None => false
             end) with false.
    2:{ destruct (f_Deadline f) as [cur|]; [|reflexivity].
        symmetry. apply Z.ltb_ge. specialize (Hdl cur eq_refl). lia. }
    unfold newCancelCtx.
    rewrite (bind_Ok _ _ _ _ _ (alloc_Ok st)). unfold bind at 1.
    now rewrite HP.
Qed.

Lemma closed_parent_without_error_panics_witness :
  WithCancel (Some (foreignCtx {| f_Deadline := None; f_Done := Some closedchan;
                                  f_Err := None; f_Value := fun _ => nil_ |}))
             init
  = Panic "context: internal error: missing cancel error".
Proof.
  destruct (closed_parent_without_error_panics
              {| f_Deadline := None; f_Done := Some closedchan;
                 f_Err := None; f_Value := fun _ => nil_ |}
              closedchan init eq_refl eq_refl eq_refl) as [H _].
  exact H.
Defined.

(** * The framing codec: round trips, split frames, bad lengths *)

Lemma Z_of_byte_of_Z z : netx.Z_of_byte (netx.byte_of_Z z) = z mod 256.
Proof.
  unfold netx.Z_of_byte, netx.byte_of_Z.
  assert (Hr : 0 <= z mod 256 < 256) by (apply Z.mod_pos_bound; lia).
  destruct (Byte.of_N (Z.to_N (z mod 256))) as [b|] eqn:E.
  - simpl. rewrite (Byte.to_of_N _ E). rewrite Z2N.id; lia.
  - apply Byte.of_N_None_iff in E. lia.
Qed.

Lemma Z_of_byte_range b : 0 <= netx.Z_of_byte b < 256.
Proof.
  unfold netx.Z_of_byte. pose proof (Byte.to_N_bounded b). lia.
Qed.

Lemma testbit_mod8 a n :
  0 <= n -> Z.testbit (a mod 2 ^ 8) n = Z.testbit a n && (n <? 8).
Proof.
  intros Hn. rewrite <- Z.land_ones by lia.
  now rewrite Z.land_spec, Z.testbit_ones_nonneg by lia.
Qed.

Lemma Uint32_PutUint32 v b0 b1 b2 b3 :
  netx.PutUint32 v = [b0; b1; b2; b3] ->
  netx.Uint32 b0 b1 b2 b3 = v mod 2 ^ 32.
Proof.
  unfold netx.PutUint32. intros [= <- <- <- <-].
  unfold netx.Uint32. rewrite !Z_of_byte_of_Z.
  set (u := v mod 2 ^ 32).
  assert (Hu : 0 <= u < 2 ^ 32) by (apply Z.mod_pos_bound; lia).
  change 256 with (2 ^ 8).
  apply Z.bits_inj'. intros n Hn.
  rewrite !Z.lor_spec.
  assert (Hs : forall k, 0 <= k ->
            Z.testbit (Z.shiftl (Z.shiftr u k mod 2 ^ 8) k) n
            = Z.testbit u n && (k <=? n) && (n <? k + 8)).
  { intros k Hk. destruct (Z.leb_spec k n).
    - rewrite Z.shiftl_spec, testbit_mod8, Z.shiftr_spec by lia.
      replace (n - k + k) with n by lia. rewrite andb_true_r. f_equal.
      destruct (Z.ltb_spec (n - k) 8), (Z.ltb_spec n (k + 8)); auto; lia.
    - rewrite Z.shiftl_spec, (Z.testbit_neg_r _ (n - k)) by lia.
      now rewrite andb_false_r. }
  rewrite (Hs 8), (Hs 16), (Hs 24) by lia. rewrite testbit_mod8 by lia.
  destruct (Z.testbit u n) eqn:Hb; simpl.
  - assert (n < 32).
    { destruct (Z.ltb_spec n 32); [assumption|]. exfalso.
      rewrite Z.bits_above_log2 in Hb; [discriminate | lia |].
      destruct (Z.eq_dec u 0) as [E|Hne]; [rewrite E; simpl; lia|].
      apply Z.log2_lt_pow2; [lia|].
      eapply Z.lt_le_trans; [apply Hu|]. apply Z.pow_le_mono_r; lia. }
    destruct (Z.ltb_spec n 8), (Z.leb_spec 8 n), (Z.ltb_spec n (8 + 8)),
      (Z.leb_spec 16 n), (Z.ltb_spec n (16 + 8)), (Z.leb_spec 24 n),
      (Z.ltb_spec n (24 + 8)); simpl; auto; lia.
  - reflexivity.
Qed.

Lemma wrap32_small z : - 2 ^ 31 <= z < 2 ^ 31 -> wrap32 z = z.
Proof. intros H. unfold wrap32. rewrite Z.mod_small; lia. Qed.

Lemma wrap32_mod z : wrap32 (z mod 2 ^ 32) = wrap32 z.
Proof.
  unfold wrap32. f_equal.
  rewrite <- (Zplus_mod_idemp_l z). reflexivity.
Qed.

Lemma wrap32_range z : - 2 ^ 31 <= wrap32 z < 2 ^ 31.
Proof.
  unfold wrap32. pose proof (Z.mod_pos_bound (z + 2 ^ 31) (2 ^ 32)). lia.
Qed.

Lemma fill_until_enough n buf src e :
  (n <= length buf)%nat -> netx.fill_until n buf src e = (buf, src, e).
Proof.
  intros H. destruct src; simpl;
    replace (length buf <? n)%nat with false
      by (symmetry; apply Nat.ltb_ge; lia); reflexivity.
Qed.

Lemma Peek4_buffered buf src e :
  (4 <= length buf)%nat ->
  netx.Peek 4 {| netx.rbuf := buf; netx.rsrc := src; netx.rerr := e |}
  = ((take 4 buf, None),
     {| netx.rbuf := buf; netx.rsrc := src; netx.rerr := e |}).
Proof.
  intros H. unfold netx.Peek. simpl. rewrite fill_until_enough by lia.
  replace (length buf <? 4)%nat with false
    by (symmetry; apply Nat.ltb_ge; lia).
  reflexivity.
Qed.

(** A header read back: the length field of a frame. *)
Lemma header_length v b0 b1 b2 b3 :
  netx.PutUint32 v = [b0; b1; b2; b3] ->
  wrap32 (netx.Uint32 b0 b1 b2 b3) = wrap32 v.
Proof. intros H. rewrite (Uint32_PutUint32 _ _ _ _ _ H). apply wrap32_mod. Qed.

(** [Decode] on a reader that has a header buffered. *)
Lemma Decode_buffered b0 b1 b2 b3 rest src e :
  netx.Decode {| netx.rbuf := b0 :: b1 :: b2 :: b3 :: rest;
                 netx.rsrc := src; netx.rerr := e |}
  = let r1 := {| netx.rbuf := b0 :: b1 :: b2 :: b3 :: rest;
                 netx.rsrc := src; netx.rerr := e |} in
    let length := wrap32 (netx.Uint32 b0 b1 b2 b3) in
    if wrap32 (netx.Buffered r1) <? wrap32 (length + 4)
    then Ok ((None, None), r1)
    else if wrap32 (length + 4) <? 0
    then Panic "runtime error: makeslice: len out of range"
    else
      let n := Z.to_nat (wrap32 (length + 4)) in
      let '((got, e), r2) := netx.Read n r1 in
      match e with
      | Some e => Ok ((None, Some e), r2)
      | None =>
          let pack := got ++ replicate (n - List.length got) Byte.x00 in
          if (n <? 4)%nat
          then Panic "runtime error: slice bounds out of range"
          else Ok ((Some (drop 4 pack), None), r2)
      end.
Proof.
  unfold netx.Decode. rewrite Peek4_buffered by (simpl; lia). reflexivity.
Qed.

Lemma Decode_frame msg rest src e :
  (length ((netx.Encode msg).1 ++ rest) <= netx.defaultBufSize)%nat ->
  netx.Decode {| netx.rbuf := (netx.Encode msg).1 ++ rest;
                 netx.rsrc := src; netx.rerr := e |}
  = Ok ((Some msg, None),
        {| netx.rbuf := rest; netx.rsrc := src; netx.rerr := e |}).
Proof.
  intros Hlen. unfold netx.Encode in *. cbn [fst] in *.
  set (L := Z.of_nat (length msg)) in *.
  rewrite length_app, length_app in Hlen.
  unfold netx.defaultBufSize in Hlen.
  assert (H4 : length (netx.PutUint32 (wrap32 L)) = 4%nat) by reflexivity.
  assert (HL : 0 <= L <= 4092) by lia.
  rewrite (wrap32_small L) in * by lia.
  destruct (netx.PutUint32 L) as [|b0 [|b1 [|b2 [|b3 [|]]]]] eqn:EP;
    try discriminate.
  cbn [app]. rewrite Decode_buffered. cbv zeta.
  rewrite (header_length _ _ _ _ _ EP), (wrap32_small L) by lia.
  unfold netx.Buffered. cbn [netx.rbuf length].
  rewrite length_app.
  rewrite (wrap32_small (L + 4)) by lia.
  rewrite wrap32_small by (simpl in Hlen; lia).
  replace (_ <? L + 4) with false by (symmetry; apply Z.ltb_ge; lia).
  replace (L + 4 <? 0) with false by (symmetry; apply Z.ltb_ge; lia).
  replace (Z.to_nat (L + 4)) with (S (S (S (S (length msg))))) by lia.
  unfold netx.Read. cbn [Nat.eqb netx.rbuf netx.rsrc netx.rerr take drop].
  rewrite take_app_length, drop_app_length.
  cbn [length]. rewrite Nat.sub_diag. cbn [replicate].
  rewrite app_nil_r. reflexivity.
Qed.

(** Round trip: when the frame of a message is buffered, followed by
    whatever else has arrived, [Decode] returns the message and takes
    exactly the frame out of the reader; the connection is not read. *)
Theorem Decode_Encode msg rest src e :
  (length ((netx.Encode msg).1 ++ rest) <= netx.defaultBufSize)%nat ->
  netx.Decode {| netx.rbuf := (netx.Encode msg).1 ++ rest;
                 netx.rsrc := src; netx.rerr := e |}
  = Ok ((Some msg, None),
        {| netx.rbuf := rest; netx.rsrc := src; netx.rerr := e |}).
Proof. exact (Decode_frame msg rest src e). Qed.

Lemma Decode_Encode_witness :
  let msg := [Byte.x68; Byte.x69] in
  netx.Decode {| netx.rbuf := (netx.Encode msg).1 ++ [Byte.x07];
                 netx.rsrc := []; netx.rerr := None |}
  = Ok ((Some msg, None),
        {| netx.rbuf := [Byte.x07]; netx.rsrc := []; netx.rerr := None |}).
Proof.
  intros msg. apply (Decode_Encode msg [Byte.x07] [] None).
  vm_compute. lia.
Defined.

Lemma Decode_closed :
  netx.Decode {| netx.rbuf := []; netx.rsrc := []; netx.rerr := None |}
  = Ok ((None, Some netx.EOF),
        {| netx.rbuf := []; netx.rsrc := []; netx.rerr := None |}).
Proof. reflexivity. Qed.




(** Once [Decode] has answered (nil, nil), it answers the same on every
    later call and leaves the reader as it is. *)
Lemma Decode_nil_nil r r' :
  netx.Decode r = Ok ((None, None), r') ->
  netx.Decode r' = Ok ((None, None), r').
Proof.
  unfold netx.Decode at 1.
  destruct (netx.Peek 4 r) as [[lenBytes e] r1] eqn:EP.
  destruct lenBytes as [|b0 [|b1 [|b2 [|b3 [|]]]]]; try discriminate.
  assert (Hr1 : exists rest, netx.rbuf r1 = b0 :: b1 :: b2 :: b3 :: rest).
  { unfold netx.Peek in EP.
    destruct (netx.fill_until 4 (netx.rbuf r) (netx.rsrc r) (netx.rerr r))
      as [[buf src] e0].
    simpl in EP. destruct (length buf <? 4)%nat eqn:El.
    - injection EP as Hbuf _ _. subst buf. apply Nat.ltb_lt in El.
      simpl in El. lia.
    - injection EP as Ht _ <-. simpl.
      destruct buf as [|c0 [|c1 [|c2 [|c3 rest]]]]; try discriminate.
      simpl in Ht. injection Ht as -> -> -> ->. eauto. }
  destruct Hr1 as (rest & Hr1). destruct r1 as [buf1 src1 e1].
  simpl in Hr1. subst buf1. intros H.
  destruct (wrap32 (netx.Buffered _) <? _) eqn:Ec.
  - injection H as <-. rewrite Decode_buffered. cbv zeta.
    now rewrite Ec.
  - destruct (wrap32 _ <? 0); [discriminate|].
    destruct (netx.Read _ _) as [[got [e2|]] r2]; [discriminate|].
    destruct (_ <? 4)%nat; discriminate.
Qed.

Lemma processCode_stuck fuel : forall r r',
  netx.Decode r = Ok ((None, None), r') ->
  netx.processCode fuel r = OutOfFuel.
Proof.
  induction fuel as [|fuel IH]; intros r r' H; [reflexivity|].
  simpl. rewrite H. rewrite (IH r' r' (Decode_nil_nil _ _ H)). reflexivity.
Qed.

Lemma Decode_incomplete L part src e :
  0 <= L < 2 ^ 31 - 4 ->
  Z.of_nat (length part) < L ->
  (length (netx.PutUint32 L ++ part) <= netx.defaultBufSize)%nat ->
  let r := {| netx.rbuf := netx.PutUint32 L ++ part; netx.rsrc := src;
              netx.rerr := e |} in
  netx.Decode r = Ok ((None, None), r).
Proof.
  intros HL Hpart Hlen r. unfold r.
  destruct (netx.PutUint32 L) as [|b0 [|b1 [|b2 [|b3 [|]]]]] eqn:EP;
    try discriminate.
  cbn [app]. rewrite Decode_buffered. cbv zeta.
  rewrite (header_length _ _ _ _ _ EP), (wrap32_small L) by lia.
  unfold netx.Buffered. cbn [netx.rbuf length].
  unfold netx.defaultBufSize in Hlen. simpl in Hlen.
  rewrite (wrap32_small (L + 4)) by lia.
  rewrite wrap32_small by lia.
  replace (_ <? L + 4) with true by (symmetry; apply Z.ltb_lt; lia).
  reflexivity.
Qed.

(** A frame that is split: when the header of a frame is buffered and
    fewer bytes than it announces, [Decode] answers (nil, nil) without
    touching the reader; it does not read the connection, although the
    rest of the frame may be waiting there, and the loop of
    [processCode], which goes on after a nil error, never gets out of
    this state.  A frame of more than 4092 bytes is always in this
    case. *)
Theorem split_frame_is_never_decoded L part src e :
  0 <= L < 2 ^ 31 - 4 ->
  Z.of_nat (length part) < L ->
  (length (netx.PutUint32 L ++ part) <= netx.defaultBufSize)%nat ->
  let r := {| netx.rbuf := netx.PutUint32 L ++ part; netx.rsrc := src;
              netx.rerr := e |} in
  netx.Decode r = Ok ((None, None), r)
  /\ forall fuel, netx.processCode fuel r = OutOfFuel.
Proof.
  intros HL Hpart Hlen r.
  pose proof (Decode_incomplete L part src e HL Hpart Hlen) as HD.
  split; [exact HD|]. intros fuel. eapply processCode_stuck. exact HD.
Qed.

Lemma split_frame_is_never_decoded_witness :
  let r := {| netx.rbuf := netx.PutUint32 3 ++ [Byte.x61];
              netx.rsrc := [(Byte.x62, [Byte.x63])]; netx.rerr := None |} in
  netx.Decode r = Ok ((None, None), r)
  /\ forall fuel, netx.processCode fuel r = OutOfFuel.
Proof.
  apply (split_frame_is_never_decoded 3 [Byte.x61] [(Byte.x62, [Byte.x63])]
           None).
  - lia.
  - simpl. lia.
  - vm_compute. lia.
Defined.

(** A bad length field: a header whose length, plus four, is negative as
    an [int32] makes [Decode] panic in [make], and a length from -4 to
    -1 makes it panic in the final slice expression; four bytes from the
    peer are enough. *)
Theorem Decode_bad_length_panics b0 b1 b2 b3 rest src e :
  (length (b0 :: b1 :: b2 :: b3 :: rest) <= netx.defaultBufSize)%nat ->
  let L := wrap32 (netx.Uint32 b0 b1 b2 b3) in
  let r := {| netx.rbuf := b0 :: b1 :: b2 :: b3 :: rest; netx.rsrc := src;
              netx.rerr := e |} in
  (wrap32 (L + 4) < 0 ->
   netx.Decode r = Panic "runtime error: makeslice: len out of range")
  /\ (- 4 <= L < 0 ->
      netx.Decode r = Panic "runtime error: slice bounds out of range").
Proof.
  intros Hlen L r. unfold netx.defaultBufSize in Hlen. simpl in Hlen.
  assert (HB : wrap32 (netx.Buffered r)
               = 4 + Z.of_nat (length rest)).
  { unfold netx.Buffered, r. cbn [netx.rbuf length].
    rewrite wrap32_small; lia. }
  split; intros HL; unfold r; rewrite Decode_buffered; cbv zeta;
    fold r; fold L; rewrite HB.
  - replace (_ <? wrap32 (L + 4)) with false
      by (symmetry; apply Z.ltb_ge; lia).
    replace (wrap32 (L + 4) <? 0) with true by (symmetry; now apply Z.ltb_lt).
    reflexivity.
  - rewrite (wrap32_small (L + 4)) by lia.
    replace (_ <? L + 4) with false by (symmetry; apply Z.ltb_ge; lia).
    replace (L + 4 <? 0) with false by (symmetry; apply Z.ltb_ge; lia).
    assert (Hn : (Z.to_nat (L + 4) < 4)%nat) by lia.
    unfold netx.Read, r. cbn [netx.rbuf netx.rsrc netx.rerr].
    destruct (Z.to_nat (L + 4)) as [|[|[|[|n]]]] eqn:En; try lia;
      reflexivity.
Qed.

Lemma Decode_bad_length_panics_witness :
  netx.Decode {| netx.rbuf := [Byte.xff; Byte.xff; Byte.xff; Byte.xff];
                 netx.rsrc := []; netx.rerr := None |}
  = Panic "runtime error: slice bounds out of range".
Proof.
  destruct (Decode_bad_length_panics Byte.xff Byte.xff Byte.xff Byte.xff
              [] [] None) as [_ H].
  - vm_compute. lia.
  - apply H. vm_compute. split; [discriminate | reflexivity].
Defined.

Lemma Peek4_first_chunk c cs :
  (4 <= length (netx.chunk_bytes c) <= netx.defaultBufSize)%nat ->
  netx.Peek 4 {| netx.rbuf := []; netx.rsrc := c :: cs; netx.rerr := None |}
  = ((take 4 (netx.chunk_bytes c), None),
     {| netx.rbuf := netx.chunk_bytes c; netx.rsrc := cs;
        netx.rerr := None |}).
Proof.
  intros [H4 Hs]. unfold netx.Peek. cbn [netx.rbuf netx.rsrc netx.rerr].
  assert (E : netx.fill_until 4 [] (c :: cs) None
              = (netx.chunk_bytes c, cs, None)).
  { cbn [netx.fill_until length]. cbn [Nat.ltb Nat.leb andb].
    replace (netx.defaultBufSize - 0)%nat with netx.defaultBufSize by lia.
    replace (length (netx.chunk_bytes c) <=? netx.defaultBufSize)%nat
      with true by (symmetry; apply Nat.leb_le; lia).
    cbn [app]. apply fill_until_enough. lia. }
  rewrite E.
  replace (length (netx.chunk_bytes c) <? 4)%nat with false
    by (symmetry; apply Nat.ltb_ge; lia).
  reflexivity.
Qed.

(** From the connection: on a reader with nothing buffered, [Decode]
    reads the connection once; when the chunk that arrives holds at
    least the header, the rest of the connection is left alone, and the
    answer is the one for that chunk as the buffered data: the message,
    when the chunk starts with its whole frame, and (nil, nil) for good
    when the chunk ends inside the frame. *)
Theorem Decode_first_chunk c cs :
  (4 <= length (netx.chunk_bytes c) <= netx.defaultBufSize)%nat ->
  netx.Decode {| netx.rbuf := []; netx.rsrc := c :: cs; netx.rerr := None |}
  = netx.Decode {| netx.rbuf := netx.chunk_bytes c; netx.rsrc := cs;
                   netx.rerr := None |}
  /\ (forall msg rest,
        netx.chunk_bytes c = (netx.Encode msg).1 ++ rest ->
        netx.Decode {| netx.rbuf := []; netx.rsrc := c :: cs;
                       netx.rerr := None |}
        = Ok ((Some msg, None),
              {| netx.rbuf := rest; netx.rsrc := cs; netx.rerr := None |}))
  /\ (forall L part,
        0 <= L < 2 ^ 31 - 4 -> Z.of_nat (length part) < L ->
        netx.chunk_bytes c = netx.PutUint32 L ++ part ->
        forall fuel,
          netx.processCode fuel {| netx.rbuf := []; netx.rsrc := c :: cs;
                                   netx.rerr := None |} = OutOfFuel).
Proof.
  intros Hc.
  assert (E : netx.Decode {| netx.rbuf := []; netx.rsrc := c :: cs;
                             netx.rerr := None |}
              = netx.Decode {| netx.rbuf := netx.chunk_bytes c;
                               netx.rsrc := cs; netx.rerr := None |}).
  { unfold netx.Decode at 1 2. rewrite (Peek4_first_chunk c cs Hc).
    rewrite Peek4_buffered by lia. reflexivity. }
  split; [exact E|]. split.
  - intros msg rest Hm. rewrite E, Hm. apply Decode_frame.
    rewrite <- Hm. lia.
  - intros L part HL Hp Hm fuel. eapply processCode_stuck.
    rewrite E, Hm.
    apply (Decode_incomplete L part cs None HL Hp).
    rewrite <- Hm. lia.
Qed.

Lemma Decode_first_chunk_witness :
  let c := (Byte.x01, [Byte.x00; Byte.x00; Byte.x00; Byte.x61; Byte.x09]) in
  netx.Decode {| netx.rbuf := []; netx.rsrc := [c]; netx.rerr := None |}
  = Ok ((Some [Byte.x61], None),
        {| netx.rbuf := [Byte.x09]; netx.rsrc := []; netx.rerr := None |}).
Proof.
  intros c.
  destruct (Decode_first_chunk c []) as (_ & H & _).
  - vm_compute. split; lia.
  - apply (H [Byte.x61] [Byte.x09]). reflexivity.
Defined.

(** * Cancellation reaches every derived context *)

Lemma carries_refl st : carries st st.
Proof.
  split; [lia|]. split.
  - intros p n' Hn He. right. exists n'. auto.
  - intros q m cs ch n' Hm He Hcs Hin _ _ _. exists m, cs. auto.
Qed.

Lemma carries_trans st1 st2 st3 :
  carries st1 st2 -> carries st2 st3 -> carries st1 st3.
Proof.
  intros (L1 & A1 & B1) (L2 & A2 & B2). split; [lia|]. split.
  - intros p n3 Hn3 He3.
    destruct (A2 p n3 Hn3 He3) as [Hl|(n2 & Hn2 & He2)]; [left; lia|].
    apply (A1 p n2 Hn2 He2).
  - intros q m cs ch n3 Hm He Hcs Hin Hlt Hn3 He3.
    destruct (A2 _ _ Hn3 He3) as [Hl|(n2 & Hn2 & He2)]; [lia|].
    destruct (B1 q m cs ch n2 Hm He Hcs Hin Hlt Hn2 He2)
      as (m2 & cs2 & Hm2 & Hem2 & Hcs2 & Hin2).
    apply (B2 q m2 cs2 ch n3 Hm2 Hem2 Hcs2 Hin2); auto. lia.
Qed.

(** Steps that leave every error and every children map alone. *)
Lemma carries_same st st' :
  length (heap st') = length (heap st) ->
  (forall p n', heap st' !! p = Some n' ->
     exists n, heap st !! p = Some n /\ err n' = err n
               /\ children n' = children n) ->
  carries st st'.
Proof.
  intros L H. split; [lia|]. split.
  - intros p n' Hn' He'. right.
    destruct (H p n' Hn') as (n & Hn & He & _). exists n.
    split; [exact Hn | congruence].
  - intros q m cs ch n' Hm He Hcs Hin _ _ _.
    assert (Hlt : (q < length (heap st'))%nat)
      by (rewrite L; now apply lookup_lt_Some in Hm).
    destruct (lookup_lt_is_Some_2 _ _ Hlt) as [m' Hm'].
    destruct (H q m' Hm') as (m0 & Hm0 & He0 & Hc0).
    assert (m0 = m) as -> by congruence.
    exists m', cs. split; [exact Hm'|]. split; [congruence|].
    split; [congruence | exact Hin].
Qed.

Lemma attached_carries x hs st st' :
  attached x hs st -> carries st st' ->
  (forall p c, hs !! p = Some c ->
     canceler_ptr c = p /\ (p < length (heap st))%nat) ->
  attached x hs st'.
Proof.
  intros At (L & A & B) Hhs p c n' q Hc Hx Hn' He' Hpl Hq.
  destruct (Hhs p c Hc) as [Hp Hlt].
  destruct (A p n' Hn' He') as [Hl|(n & Hn & He)]; [lia|].
  destruct (At p c n q Hc Hx Hn He Hpl Hq) as (m & cs & Hm & Hem & Hcs & Hin).
  apply (B q m cs c n' Hm Hem Hcs Hin); rewrite ?Hp; auto.
Qed.

Lemma cascade_carries e st st' : cascade e st st' -> carries st st'.
Proof.
  intros C. split; [rewrite (ca_heap _ _ _ C); lia|]. split.
  - intros p n' Hn' He'. right.
    destruct (ca_node _ _ _ C p n' Hn') as (n & Hn & [(_ & _ & He)|N]).
    + exists n. split; [exact Hn | congruence].
    + destruct N as (_ & He & _). congruence.
  - intros q m cs ch n' Hm Hem Hcs Hin _ Hn' He'.
    destruct (cascade_fwd _ _ _ _ _ C Hm) as (m' & Hm' & [(_ & Hc & He)|N]).
    + exists m', cs. split; [exact Hm'|]. split; [congruence|].
      split; [congruence | exact Hin].
    + destruct N as (_ & _ & _ & _ & Hd).
      destruct (Hd cs ch Hcs Hin) as (n0 & Hn0 & He0). congruence.
Qed.

Lemma same_canceler_ptr a b :
  same_canceler a b = true -> canceler_ptr a = canceler_ptr b.
Proof.
  destruct a, b; simpl; try discriminate; intros H;
    now apply Nat.eqb_eq in H.
Qed.

Lemma map_delete_keeps child cs ch :
  ch ∈ cs -> canceler_ptr ch <> canceler_ptr child ->
  ch ∈ map_delete child cs.
Proof.
  intros Hin Hne. unfold map_delete. apply list_elem_of_filter.
  split; [|exact Hin].
  destruct (same_canceler child ch) eqn:E; [|reflexivity].
  apply same_canceler_ptr in E. congruence.
Qed.

Lemma parentCancelCtx_Done parent st r s :
  parentCancelCtx parent st = Ok (r, s) ->
  exists d, Done parent st = Ok (d, s).
Proof.
  intros H. unfold parentCancelCtx in H.
  apply bind_inv in H as (d & s1 & HD & H). exists d.
  destruct (chan_eq d (Some closedchan) || chan_eq d None).
  { apply ret_inv in H as [_ ->]. exact HD. }
  apply bind_inv in H as (v & s2 & Hv & H). apply lift_inv in Hv as [_ ->].
  destruct v; try (apply ret_inv in H as [_ ->]; exact HD).
  apply bind_inv in H as (n & s3 & Hl & H). apply load_inv in Hl as [_ ->].
  destruct (negb (chan_eq (done n) d)); apply ret_inv in H as [_ ->];
    exact HD.
Qed.

Lemma Done_carries c st d st' : Done c st = Ok (d, st') -> carries st st'.
Proof.
  intros H. destruct (Done_again _ _ _ _ H) as (_ & L & _ & _ & Hn).
  apply carries_same; [exact L|].
  intros p n' Hn'. destruct (Hn p n' Hn') as (n & Hn0 & He & Hc & _). eauto.
Qed.

(** Detaching a canceled struct takes nothing else out of a map. *)
Lemma removeChild_carries parent child st st' :
  removeChild parent child st = Ok (tt, st') ->
  dead st (canceler_ptr child) ->
  carries st st'.
Proof.
  intros H Hd. unfold removeChild in H.
  apply bind_inv in H as (r & s & HP & H).
  destruct (parentCancelCtx_Done _ _ _ _ HP) as (d & HD).
  pose proof (Done_carries _ _ _ _ HD) as C1.
  destruct (Done_again _ _ _ _ HD) as (_ & L & _ & _ & Hnode).
  eapply carries_trans; [exact C1|].
  destruct r as [q|]; [|apply ret_inv in H as [_ ->]; apply carries_refl].
  apply bind_inv in H as (n & s1 & Hl & H). apply load_inv in Hl as [Hn ->].
  destruct (children n) as [cs|] eqn:Hcs;
    [|apply ret_inv in H as [_ ->]; apply carries_refl].
  rewrite (set_children_Ok _ _ _ _ Hn) in H. injection H as <-.
  assert (Hds : dead s (canceler_ptr child)).
  { destruct Hd as (n0 & Hn0 & He0).
    assert (Hlt : (canceler_ptr child < length (heap s))%nat)
      by (rewrite L; now apply lookup_lt_Some in Hn0).
    destruct (lookup_lt_is_Some_2 _ _ Hlt) as [n1 Hn1].
    destruct (Hnode _ _ Hn1) as (n2 & Hn2 & He2 & _).
    exists n1. split; [exact Hn1|]. congruence. }
  split; [rewrite heap_upd, length_insert; lia|]. split.
  - intros p n' Hn' He'. right.
    apply lookup_upd in Hn' as [(<- & <- & _)|[_ Hn']].
    + exists n. auto.
    + exists n'. auto.
  - intros q0 m cs0 ch n' Hm Hem Hcs0 Hin _ Hn' He'.
    assert (Hne : canceler_ptr ch <> canceler_ptr child).
    { intros Heq. destruct Hds as (n0 & Hn0 & He0). rewrite Heq in Hn'.
      apply lookup_upd in Hn' as [(Hq & <- & _)|[_ Hn']].
      - simpl in He'. rewrite <- Hq in Hn0. congruence.
      - congruence. }
    destruct (decide (q = q0)) as [<-|Hq].
    + assert (m = n) as -> by congruence.
      assert (cs0 = cs) as -> by congruence.
      eexists _, _. split; [eapply lookup_upd_eq; exact Hn|].
      split; [exact Hem|]. split; [reflexivity|].
      now apply map_delete_keeps.
    + exists m, cs0. rewrite lookup_upd_ne by exact Hq. auto.
Qed.

(** The three phases of a cancellation: the cascade, the detaching, the
    release of the timer. *)
Lemma cancel_steps hs e c rfp st :
  pinv hs None st -> settled st -> hs !! canceler_ptr c = Some c ->
  (rfp = true \/ tracked st (canceler_ptr c) = false) ->
  exists st1 st2,
    cancel c rfp (Some e) st = Ok (tt, released c st2)
    /\ cascade e st st1 /\ dead st1 (canceler_ptr c)
    /\ (st2 = st1
        \/ removeChild (canceler_parent c) c st1 = Ok (tt, st2))
    /\ (forall q, (q < canceler_ptr c)%nat -> heap st1 !! q = heap st !! q)
    /\ quiet st1 st2.
Proof.
  intros I Q Hc Hr.
  assert (Hlt : (canceler_ptr c < length (heap st))%nat).
  { rewrite <- (pi_len _ _ _ I). now apply lookup_lt_Some in Hc. }
  destruct (lookup_lt_is_Some_2 _ _ Hlt) as [n Hn].
  set (x := if rfp then Some (canceler_ptr c) else None).
  assert (Ix : pinv hs x st) by (now apply pinv_exempt).
  assert (Hx : exempt x st (canceler_ptr c)).
  { unfold x. destruct rfp.
    - intros q m cs ch _ _ _ _ _. reflexivity.
    - destruct Hr as [?|Hr]; [discriminate|]. now apply exempt_untracked. }
  pose proof (cancel_fuel_false hs x e (length (heap st))) as IH.
  rewrite cancel_unfold.
  destruct c as [parent p|parent p dl]; cbn [canceler_ptr canceler_parent] in *.
  - rewrite cancel_fuel_cancelCtx. destruct (cancelCtx_cancel_body_false hs x e
                (cancel_fuel (length (heap st))) (length (heap st)) IH
                parent p st _ Ix Hc) as (st1 & E1 & I1 & C1 & D1 & F1 & T1);
      [lia | exact Hx |].
    destruct rfp.
    + rewrite (cancelCtx_cancel_body_true _ _ _ _ _ _ Hn).
      destruct (err n) as [e0|] eqn:He.
      * exists st, st. split; [reflexivity|].
        split; [apply cascade_refl|].
        split; [|split; [now left | auto using quiet_refl]].
        exists n. split; congruence.
      * rewrite (bind_Ok _ _ _ _ _ E1).
        destruct (removeChild_pinv hs x st1 p _ I1 Hc) as (st2 & E2 & I2 & Q2);
          [now right|].
        simpl in E2. exists st1, st2. split; [exact E2|].
        split; [exact C1|]. split; [exact D1|]. split; [now right|auto].
    + exists st1, st1. split; [exact E1|]. split; [exact C1|].
      split; [exact D1|]. split; [now left | auto using quiet_refl].
  - rewrite cancel_fuel_timerCtx. destruct (cancelCtx_cancel_body_false hs x e
                (cancel_fuel (length (heap st))) (length (heap st)) IH
                parent p st _ Ix Hc) as (st1 & E1 & I1 & C1 & D1 & F1 & T1);
      [lia | exact Hx |].
    rewrite (timerCtx_cancel_body_eq _ _ _ _ _ _ _ _ E1).
    assert (exists st2, (if rfp then removeChild parent (timerCtx_ parent p dl)
                         else ret tt) st1 = Ok (tt, st2)
              /\ quiet st1 st2
              /\ (st2 = st1
                  \/ removeChild parent (timerCtx_ parent p dl) st1
                     = Ok (tt, st2))) as (st2 & E2 & Q2 & Hst).
    { destruct rfp.
      - destruct (removeChild_pinv hs x st1 p _ I1 Hc) as (st2 & E2 & I2 & Q2);
          [now right|].
        exists st2. simpl in E2. auto.
      - exists st1. split; [reflexivity|]. split; [apply quiet_refl | now left]. }
    rewrite (bind_Ok _ _ _ _ _ E2).
    assert (Hlt2 : (p < length (heap st2))%nat).
    { rewrite (qu_heap _ _ Q2), (ca_heap _ _ _ C1). exact Hlt. }
    destruct (lookup_lt_is_Some_2 _ _ Hlt2) as [n2 Hn2].
    exists st1, st2.
    rewrite (release_steps parent p dl st2 n2 Hn2).
    split; [reflexivity|]. split; [exact C1|]. split; [exact D1|].
    split; [exact Hst | auto].
Qed.

Lemma released_carries c st : carries st (released c st).
Proof.
  apply carries_same; [apply released_length|].
  intros p n' Hn'. destruct (released_lookup _ _ _ _ Hn')
    as (n & Hn & _ & Hc & He). eauto.
Qed.

(** A cancellation takes out of the children maps only structs that it
    cancels. *)
Lemma cancel_carries hs c rfp eo st st' :
  pinv hs None st -> settled st -> hs !! canceler_ptr c = Some c ->
  (rfp = true \/ tracked st (canceler_ptr c) = false) ->
  cancel c rfp eo st = Ok (tt, st') ->
  carries st st'.
Proof.
  intros I Q Hc Hr H. destruct eo as [e|];
    [|rewrite cancel_None in H; discriminate].
  destruct (cancel_steps hs e c rfp st I Q Hc Hr)
    as (st1 & st2 & E & C1 & D1 & Hst & _).
  rewrite E in H. injection H as <-.
  eapply carries_trans; [exact (cascade_carries _ _ _ C1)|].
  eapply carries_trans; [|apply released_carries].
  destruct Hst as [->|HR]; [apply carries_refl|].
  eapply removeChild_carries; eauto.
Qed.

Lemma map_add_keeps child cs ch : ch ∈ cs -> ch ∈ map_add child cs.
Proof.
  unfold map_add. destruct (existsb (same_canceler child) cs); [auto|].
  intros H. now apply list_elem_of_further.
Qed.

Lemma children_add_carries q c st st' :
  children_add q c st = Ok (tt, st') -> carries st st'.
Proof.
  intros H. unfold children_add in H.
  apply bind_inv in H as (n & s & Hl & H). apply load_inv in Hl as [Hn ->].
  rewrite (set_children_Ok _ _ _ _ Hn) in H. injection H as <-.
  split; [rewrite heap_upd, length_insert; lia|]. split.
  - intros p n' Hn' He'. right.
    apply lookup_upd in Hn' as [(<- & <- & _)|[_ Hn']].
    + exists n. auto.
    + exists n'. auto.
  - intros q0 m cs ch n' Hm Hem Hcs Hin _ _ _.
    destruct (decide (q = q0)) as [<-|Hq].
    + assert (m = n) as -> by congruence.
      eexists _, _. split; [eapply lookup_upd_eq; exact Hn|].
      split; [exact Hem|]. split; [reflexivity|].
      rewrite Hcs. simpl. now apply map_add_keeps.
    + exists m, cs. rewrite lookup_upd_ne by exact Hq. auto.
Qed.

Lemma propagateCancel_carries hs st c st' :
  pinv hs None st -> settled st ->
  hs !! canceler_ptr c = Some c -> lives st (canceler_ptr c) ->
  tracked st (canceler_ptr c) = false ->
  (forall parent child, (parent, child) ∈ waiters st ->
     canceler_ptr child <> canceler_ptr c) ->
  propagateCancel (canceler_parent c) c st = Ok (tt, st') ->
  carries st st'.
Proof.
  intros I Q Hc Hl Ht Hw H.
  destruct (propagateCancel_pinv _ _ c I Q Hc Hl Ht Hw)
    as (d & st1 & HD & I1 & S1 & Q1 & Hcase).
  pose proof (Done_carries _ _ _ _ HD) as C1.
  assert (Ht1 : tracked st1 (canceler_ptr c) = false)
    by (eapply quiet_untracked; eauto).
  eapply carries_trans; [exact C1|].
  destruct Hcase as [(-> & E)|[(d' & -> & Hcl & E)|
    (d' & st2 & -> & Hcl & _)]].
  - rewrite E in H. injection H as <-. apply carries_refl.
  - rewrite E in H. apply bind_inv in H as (eo & s & HE & H).
    apply Err_state in HE as ->.
    exact (cancel_carries _ _ _ _ _ _ I1 S1 Hc (or_intror Ht1) H).
  - rewrite (propagateCancel_open _ _ _ _ _ HD Hcl) in H.
    apply bind_inv in H as (r & s2 & HP & H).
    destruct (parentCancelCtx_Done _ _ _ _ HP) as (d2 & HD2).
    assert (Hb1 : bounded (length (heap st1)) (canceler_parent c) = true).
    { destruct (pi_hs _ _ _ I1 _ _ Hc) as [_ Hb].
      eapply bounded_mono; [|exact Hb].
      apply lookup_lt_Some in Hc. rewrite (pi_len _ _ _ I1) in Hc. lia. }
    destruct (parentCancelCtx_pinv _ _ _ _ I1 Hb1)
      as (r' & s2' & HP' & I2 & Q2 & _).
    rewrite HP in HP'. injection HP' as <- <-.
    eapply carries_trans; [exact (Done_carries _ _ _ _ HD2)|].
    assert (S2 : settled s2) by (eapply quiet_settled; eauto).
    assert (Ht2 : tracked s2 (canceler_ptr c) = false)
      by (eapply quiet_untracked; eauto).
    destruct r as [q|].
    + apply bind_inv in H as (n & s3 & Hld & H).
      apply load_inv in Hld as [Hn ->].
      destruct (err n) as [e|].
      * exact (cancel_carries _ _ _ _ _ _ I2 S2 Hc (or_intror Ht2) H).
      * exact (children_add_carries _ _ _ _ H).
    + apply bind_inv in H as ([] & s3 & H1 & H2).
      injection H1 as <-. injection H2 as <-.
      apply carries_same; [reflexivity|]. intros p n' Hn'. exists n'. auto.
Qed.

Lemma propagateCancel_attaches fs st c st' q :
  inv fs st ->
  canceler_ptr c = length (heap st) ->
  bounded (length (heap st)) (canceler_parent c) = true ->
  plain (canceler_parent c) = true ->
  nearest_canceler (canceler_parent c) = Some q ->
  propagateCancel (canceler_parent c) c (alloc_state st) = Ok (tt, st') ->
  lives st' (canceler_ptr c) ->
  exists m cs, heap st' !! q = Some m /\ err m = None
               /\ children m = Some cs /\ c ∈ cs.
Proof.
  intros Hinv Hp Hb Hpl Hq H Hl.
  destruct (signaled st (canceler_parent c)) eqn:Hs.
  - exfalso. pose proof (plain_native _ Hpl) as Hnat.
    destruct (inv_alloc fs st c Hinv Hp Hb) as (I0 & Q0 & Hc & _ & Ht & _).
    assert (Hb0 : bounded (length (heap (alloc_state st))) (canceler_parent c)
                  = true).
    { eapply bounded_mono; [|exact Hb]. simpl. rewrite length_app. lia. }
    unfold signaled in Hs.
    destruct (peek_Done (heap st) (canceler_parent c)) as [d|] eqn:Hpk;
      [|discriminate].
    assert (HD : Done (canceler_parent c) (alloc_state st)
                 = Ok (Some d, alloc_state st)).
    { apply peek_Done_Some. now rewrite peek_alloc. }
    assert (Hcl : is_closed (alloc_state st) d = true) by exact Hs.
    rewrite (propagateCancel_closed _ _ _ _ _ HD Hcl) in H.
    apply bind_inv in H as (eo & s & HE & H). apply Err_state in HE as ->.
    destruct (cancel_keeps _ _ _ _ _ _ I0 Q0 Hc (or_intror Ht) H)
      as (_ & _ & _ & _ & (n & Hn & He)).
    destruct Hl as (n' & Hn' & He'). congruence.
  - destruct (propagateCancel_registers fs st c q Hinv Hp Hb Hpl Hq Hs)
      as (s1 & m & _ & Hm & Hem & E & _).
    rewrite E in H. injection H as <-.
    eexists _, _. split; [eapply lookup_upd_eq; exact Hm|].
    split; [exact Hem|]. split; [reflexivity|]. apply list_elem_of_here.
Qed.

Lemma inv_hs fs st p c :
  inv fs st -> (cf_target <$> fs) !! p = Some c ->
  canceler_ptr c = p /\ (p < length (heap st))%nat.
Proof.
  intros [I _ _] Hc. split; [apply (pi_hs _ _ _ I _ _ Hc)|].
  rewrite <- (pi_len _ _ _ I). now apply lookup_lt_Some in Hc.
Qed.

(** After [newCancelCtx] and [propagateCancel] the new struct is
    attached like the others. *)
Lemma construct_attached fs st c st' :
  inv fs st -> attached None (cf_target <$> fs) st ->
  canceler_ptr c = length (heap st) ->
  bounded (length (heap st)) (canceler_parent c) = true ->
  propagateCancel (canceler_parent c) c (alloc_state st) = Ok (tt, st') ->
  attached None ((cf_target <$> fs) ++ [c]) st'.
Proof.
  intros Hinv At Hp Hb H.
  destruct (inv_alloc fs st c Hinv Hp Hb) as (I0 & Q0 & Hc & Hl & Ht & Hw).
  pose proof (propagateCancel_carries _ _ _ _ I0 Q0 Hc Hl Ht Hw H) as C.
  pose proof Hinv as [I _ _].
  intros p c' n' q Hc' _ Hn' He' Hpl Hq.
  destruct (decide (p = length (heap st))) as [->|Hne].
  - rewrite <- Hp in Hc'. rewrite Hc in Hc'. injection Hc' as <-.
    eapply propagateCancel_attaches; eauto.
    exists n'. rewrite Hp. auto.
  - assert (Hold : (cf_target <$> fs) !! p = Some c').
    { apply lookup_app_Some in Hc' as [Hc'|[Hge Hc']]; [exact Hc'|].
      apply list_lookup_singleton_Some in Hc' as [Hz _].
      rewrite (pi_len _ _ _ I) in *. lia. }
    destruct (inv_hs _ _ _ _ Hinv Hold) as [Hp' Hlt].
    destruct C as (L & A & B).
    destruct (A p n' Hn' He') as [Hge|(n & Hn & He)].
    { simpl in Hge. rewrite length_app in Hge. simpl in Hge. lia. }
    apply alloc_lookup in Hn as [Hn|[-> _]]; [|lia].
    destruct (At p c' n q Hold (ltac:(discriminate)) Hn He Hpl Hq)
      as (m & cs & Hm & Hem & Hcs & Hin).
    apply (B q m cs c' n' (alloc_lookup_old _ _ _ Hm) Hem Hcs Hin);
      rewrite ?Hp'; auto.
    simpl. rewrite length_app. lia.
Qed.

Lemma attached_step fs st st' :
  inv fs st -> attached None (cf_target <$> fs) st -> carries st st' ->
  attached None (cf_target <$> fs) st'.
Proof.
  intros Hinv At C. eapply attached_carries; eauto.
  intros p c Hc. eapply inv_hs; eauto.
Qed.

Lemma fmap_snoc_target fs f :
  cf_target <$> (fs ++ [f]) = (cf_target <$> fs) ++ [cf_target f].
Proof. now rewrite fmap_app. Qed.

Lemma WithCancel_attached fs st parent ctx f st' :
  inv fs st -> attached None (cf_target <$> fs) st ->
  bounded (length (heap st)) parent = true ->
  WithCancel (Some parent) st = Ok ((ctx, f), st') ->
  attached None (cf_target <$> (fs ++ [f])) st'.
Proof.
  intros Hinv At Hb H. unfold WithCancel, newCancelCtx in H.
  rewrite (bind_Ok _ _ _ _ _ (alloc_Ok st)) in H.
  apply bind_inv in H as ([] & s1 & HP & H). injection H as <- <- <-.
  rewrite fmap_snoc_target. simpl.
  exact (construct_attached fs st (cancelCtx_ parent (length (heap st))) s1
           Hinv At eq_refl Hb HP).
Qed.

Lemma WithDeadline_attached fs st parent d now ctx f st' :
  inv fs st -> attached None (cf_target <$> fs) st ->
  bounded (length (heap st)) parent = true ->
  WithDeadline (Some parent) d now st = Ok ((ctx, f), st') ->
  attached None (cf_target <$> (fs ++ [f])) st'.
Proof.
  intros Hinv At Hb H. unfold WithDeadline in H.
  destruct (match Deadline parent with
            | Some cur => cur <? d
            | None => false
            end).
  { eapply WithCancel_attached; eauto. }
  unfold newCancelCtx in H.
  rewrite (bind_Ok _ _ _ _ _ (alloc_Ok st)) in H.
  apply bind_inv in H as ([] & s1 & HP & H).
  set (c := timerCtx_ parent (length (heap st)) d) in *.
  pose proof (construct_attached fs st c s1 Hinv At eq_refl Hb HP) as At1.
  destruct (inv_alloc fs st c Hinv eq_refl Hb) as (I0 & Q0 & Hc & Hl & Ht & Hw).
  destruct (propagateCancel_keeps _ _ c s1 I0 Q0 Hc Hl Ht Hw HP)
    as (I1 & Q1 & M1 & L1).
  assert (Hhs : forall p c', ((cf_target <$> fs) ++ [c]) !! p = Some c' ->
            canceler_ptr c' = p /\ (p < length (heap s1))%nat).
  { intros p c' Hc'. split; [apply (pi_hs _ _ _ I1 _ _ Hc')|].
    rewrite <- (pi_len _ _ _ I1). now apply lookup_lt_Some in Hc'. }
  destruct (Until d now <=? 0).
  - apply bind_inv in H as ([] & s2 & HC & H). injection H as <- <- <-.
    rewrite fmap_snoc_target. simpl. fold c.
    eapply attached_carries; [exact At1| |exact Hhs].
    exact (cancel_carries _ _ _ _ _ _ I1 Q1 Hc (or_introl eq_refl) HC).
  - apply bind_inv in H as (n & s & HL & H). apply load_inv in HL as [Hn ->].
    apply bind_inv in H as ([] & s2 & HA & H). injection H as <- <- <-.
    rewrite fmap_snoc_target. simpl. fold c.
    destruct (err n) as [e0|] eqn:He.
    + injection HA as <-. exact At1.
    + rewrite (AfterFunc_set_timer _ _ _ _ _ Hn) in HA. injection HA as <-.
      eapply attached_carries; [exact At1| |exact Hhs].
      apply carries_same.
      * unfold arm_state. rewrite heap_upd, length_insert. reflexivity.
      * intros p n' Hn'. unfold arm_state in Hn'.
        apply lookup_upd in Hn' as [(<- & <- & _)|[_ Hn']].
        -- exists n. auto.
        -- exists n'. auto.
Qed.

Lemma exec_attached o st fs st' fs' :
  inv fs st -> attached None (cf_target <$> fs) st ->
  exec o (st, fs) = Some (st', fs') ->
  attached None (cf_target <$> fs') st'.
Proof.
  intros Hinv At H. pose proof Hinv as [I Q F].
  destruct o as [c|parent|parent d now|p|t|t|i]; unfold exec in H.
  - (* Done *)
    destruct (bounded (length (heap st)) c) eqn:Hb; [|discriminate].
    destruct (Done c st) as [[d s]| |] eqn:E; simpl in H; try discriminate.
    injection H as <- <-.
    apply (attached_step fs st _ Hinv At). eapply Done_carries; eauto.
  - (* WithCancel *)
    destruct (bounded (length (heap st)) parent) eqn:Hb; [|discriminate].
    destruct (WithCancel (Some parent) st) as [[[ctx f] s]| |] eqn:E;
      simpl in H; try discriminate.
    injection H as <- <-. eapply WithCancel_attached; eauto.
  - (* WithDeadline *)
    destruct (bounded (length (heap st)) parent) eqn:Hb; [|discriminate].
    destruct (WithDeadline (Some parent) d now st) as [[[ctx f] s]| |] eqn:E;
      simpl in H; try discriminate.
    injection H as <- <-. eapply WithDeadline_attached; eauto.
  - (* a cancel function *)
    destruct (fs !! p) as [f|] eqn:Hf; simpl in H; [|discriminate].
    destruct (call f st) as [[[] s]| |] eqn:E; simpl in H; try discriminate.
    injection H as <- <-.
    destruct (inv_handle _ _ _ _ Hinv Hf) as [Hc Hp].
    unfold call in E.
    assert (Hr : cf_removeFromParent f = true
                 \/ tracked st (canceler_ptr (cf_target f)) = false).
    { destruct (cf_removeFromParent f) eqn:Hfl; [now left|right].
      rewrite Hp. eapply inv_dead_untracked; eauto. }
    apply (attached_step fs st _ Hinv At). eapply cancel_carries; eauto.
  - (* a timer fires *)
    destruct (fire t st) as [[[] s]| |] eqn:E; simpl in H; try discriminate.
    injection H as <- <-.
    unfold fire in E. unfold bind at 1, get at 1 in E.
    destruct (timers st !! t) as [r|] eqn:Hr;
      [|injection E as <-; exact At].
    destruct (t_active r); [|injection E as <-; exact At].
    rewrite (bind_Ok _ _ _ _ _ (Stop_Ok t st)) in E.
    pose proof (inv_stop _ t _ Hinv) as [I1 Q1 _].
    unfold timer_callback in E.
    apply (attached_step fs st _ Hinv At).
    eapply carries_trans.
    + apply (carries_same st (stop_state t st)).
      * now rewrite stop_state_heap.
      * intros p n'. rewrite stop_state_heap. intros Hn'. exists n'. auto.
    + eapply cancel_carries; [exact I1 | exact Q1 | |left; reflexivity|exact E].
      exact (pi_timers _ _ _ I _ _ Hr).
  - (* a late timer callback *)
    destruct (timers st !! t) as [r|] eqn:Hr; simpl in H; [|discriminate].
    destruct (timer_callback (t_target r) st) as [[[] s]| |] eqn:E;
      simpl in H; try discriminate.
    injection H as <- <-. unfold timer_callback in E.
    apply (attached_step fs st _ Hinv At).
    eapply cancel_carries; [exact I | exact Q | |left; reflexivity|exact E].
    exact (pi_timers _ _ _ I _ _ Hr).
  - (* a waiting goroutine *)
    destruct (waiters st !! i) as [[parent child]|] eqn:Hw; simpl in H;
      [|discriminate].
    destruct (waiter_body parent child st) as [[b s]| |] eqn:E;
      simpl in H; try discriminate.
    assert (Hin : (parent, child) ∈ waiters st)
      by (eapply list_elem_of_lookup_2; eauto).
    destruct (pi_waiters _ _ _ I _ _ Hin) as (Hc & -> & Ht).
    destruct (pi_hs _ _ _ I _ _ Hc) as [_ Hb].
    assert (Hlt : (canceler_ptr child < length (heap st))%nat).
    { rewrite <- (pi_len _ _ _ I). now apply lookup_lt_Some in Hc. }
    assert (Hb1 : bounded (length (heap st)) (canceler_parent child) = true)
      by (eapply bounded_mono; [|exact Hb]; lia).
    unfold waiter_body in E.
    apply bind_inv in E as (dp & s1 & E1 & E).
    destruct (Done_inv _ _ _ _ _ Hinv Hb1 E1) as [Hinv1 Q1].
    assert (Hb2 : bounded (length (heap s1)) (canceler_Context child) = true).
    { rewrite (qu_heap _ _ Q1). destruct child; simpl in *;
        apply andb_true_intro; (split; [now apply Nat.ltb_lt | exact Hb1]). }
    apply bind_inv in E as (dc & s2 & E2 & E).
    destruct (Done_inv _ _ _ _ _ Hinv1 Hb2 E2) as [Hinv2 Q2].
    assert (C2 : carries st s2).
    { eapply carries_trans; eapply Done_carries; eauto. }
    assert (Hsame : forall ws s0, carries s0 (set_waiters ws s0)).
    { intros ws s0. apply carries_same; [reflexivity|].
      intros p n' Hn'. exists n'. auto. }
    unfold bind at 1, get at 1 in E.
    destruct (match dp with Some d => is_closed s2 d | None => false end).
    + apply bind_inv in E as (eo & s3 & E3 & E).
      apply Err_state in E3 as ->.
      apply bind_inv in E as ([] & s4 & E4 & E). injection E as <- <-.
      injection H as <- <-. pose proof Hinv2 as [I2 S2 _].
      apply (attached_step fs st _ Hinv At).
      eapply carries_trans; [exact C2|].
      eapply carries_trans; [|apply Hsame].
      eapply cancel_carries; [exact I2 | exact S2 | exact Hc | |exact E4].
      right. eapply quiet_untracked; [exact Q2|].
      eapply quiet_untracked; eauto.
    + destruct (match dc with Some d => is_closed s2 d | None => false end);
        injection E as <- <-; injection H as <- <-.
      * apply (attached_step fs st _ Hinv At).
        eapply carries_trans; [exact C2 | apply Hsame].
      * apply (attached_step fs st _ Hinv At). exact C2.
Qed.

Lemma run_attached tr : forall st fs st' fs',
  inv fs st -> attached None (cf_target <$> fs) st ->
  run tr (st, fs) = Some (st', fs') ->
  attached None (cf_target <$> fs') st'.
Proof.
  induction tr as [|o tr IH]; intros st fs st' fs' Hinv At H.
  - injection H as <- <-. exact At.
  - rewrite run_cons in H.
    destruct (exec o (st, fs)) as [[s1 fs1]|] eqn:E; [|discriminate].
    destruct (exec_inv _ _ _ _ _ Hinv E) as [A _].
    exact (IH _ _ _ _ A (exec_attached _ _ _ _ _ Hinv At E) H).
Qed.

Lemma reachable_attached st fs :
  reachable (st, fs) -> attached None (cf_target <$> fs) st.
Proof.
  intros [tr H]. apply (run_attached tr _ _ _ _ inv_init); [|exact H].
  intros p c n q Hc. simpl in Hc. rewrite lookup_nil in Hc. discriminate.
Qed.

Lemma Err_no_canceler c st :
  native c = true -> nearest_canceler c = None -> Err c st = Ok (None, st).
Proof.
  induction c as [b|parent IH k v|parent IH p|parent IH p dl|f];
    intros Hn Hq; apply native_inv in Hn; simpl in *; try discriminate;
    try contradiction; auto.
Qed.

Lemma Err_nearest c q st m :
  native c = true -> nearest_canceler c = Some q ->
  heap st !! q = Some m -> Err c st = Ok (err m, st).
Proof.
  induction c as [b|parent IH k v|parent IH p|parent IH p dl|f];
    intros Hn Hq Hm; apply native_inv in Hn; simpl in *; try discriminate;
    try contradiction; auto.
  - injection Hq as ->. now apply cancelCtx_Err_Ok.
  - injection Hq as ->. now apply cancelCtx_Err_Ok.
Qed.

(** Cancellation reaches every derived context, at every moment: in
    every reachable state, a context made by [WithCancel] or
    [WithDeadline] below a context of the package is canceled whenever
    that parent context is; conversely, while it is not canceled its
    parent is not, and it is registered with the nearest cancelable
    ancestor of its parent. *)
Theorem canceled_parent_canceled_child st fs p f :
  reachable (st, fs) -> fs !! p = Some f ->
  plain (canceler_parent (cf_target f)) = true ->
  (forall e, Err (canceler_parent (cf_target f)) st = Ok (Some e, st) ->
     exists e', Err (canceler_Context (cf_target f)) st = Ok (Some e', st))
  /\ (Err (canceler_Context (cf_target f)) st = Ok (None, st) ->
      Err (canceler_parent (cf_target f)) st = Ok (None, st)
      /\ forall q, nearest_canceler (canceler_parent (cf_target f)) = Some q ->
           exists m cs, heap st !! q = Some m /\ children m = Some cs
                        /\ cf_target f ∈ cs).
Proof.
  intros Hr Hf Hpl.
  destruct (reachable_handle _ _ _ _ Hr Hf) as (Hinv & Hc & Hp & n & Hn).
  pose proof (reachable_attached _ _ Hr) as At.
  pose proof (plain_native _ Hpl) as Hnat.
  rewrite <- Hp in Hn.
  pose proof (Err_canceler _ _ _ Hn) as HE.
  assert (Hlive : err n = None ->
            Err (canceler_parent (cf_target f)) st = Ok (None, st)
            /\ forall q,
                 nearest_canceler (canceler_parent (cf_target f)) = Some q ->
                 exists m cs, heap st !! q = Some m /\ children m = Some cs
                              /\ cf_target f ∈ cs).
  { intros He.
    destruct (nearest_canceler (canceler_parent (cf_target f))) as [q|] eqn:Hq.
    - destruct (At _ _ n q Hc (ltac:(discriminate)) Hn He Hpl Hq)
        as (m & cs & Hm & Hem & Hcs & Hin).
      split.
      + rewrite (Err_nearest _ _ _ _ Hnat Hq Hm), Hem. reflexivity.
      + intros q' [= <-]. eauto.
    - split; [now apply Err_no_canceler | discriminate]. }
  split.
  - intros e HEp. destruct (err n) as [e'|] eqn:He.
    + exists e'. exact HE.
    + destruct (Hlive eq_refl) as [HN _]. congruence.
  - intros HEc. apply Hlive. congruence.
Qed.

Lemma canceled_parent_canceled_child_witness :
  let st := fst canceled_world in
  let parent := valueCtx (cancelCtx Background 0%nat) (int_ 1) (int_ 5) in
  Err parent st = Ok (Some Canceled, st)
  /\ exists e', Err (timerCtx parent 1%nat 50) st = Ok (Some e', st).
Proof.
  intros st parent.
  assert (Hr : reachable canceled_world).
  { exists (sample_trace ++ [OpCall 0%nat]). vm_compute. reflexivity. }
  assert (Hf : snd canceled_world !! 1%nat
               = Some {| cf_target := timerCtx_ parent 1%nat 50;
                         cf_removeFromParent := true |})
    by (vm_compute; reflexivity).
  destruct (canceled_parent_canceled_child st (snd canceled_world) 1%nat _
              Hr Hf eq_refl) as [H _].
  split; [reflexivity|]. apply (H Canceled). reflexivity.
Defined.

(** What [removeChild] leaves in the maps. *)
Lemma removeChild_children parent child st st' q n cs ch :
  removeChild parent child st = Ok (tt, st') ->
  heap st !! q = Some n -> children n = Some cs -> ch ∈ cs ->
  canceler_ptr ch <> canceler_ptr child ->
  exists n' cs', heap st' !! q = Some n' /\ children n' = Some cs'
                 /\ ch ∈ cs'.
Proof.
  intros H Hn Hcs Hin Hne. unfold removeChild in H.
  apply bind_inv in H as (r & s & HP & H).
  destruct (parentCancelCtx_Done _ _ _ _ HP) as (d & HD).
  destruct (Done_again _ _ _ _ HD) as (_ & L & _ & _ & Hnode).
  assert (Hs : exists n1, heap s !! q = Some n1 /\ children n1 = Some cs).
  { assert (Hlt : (q < length (heap s))%nat)
      by (rewrite L; now apply lookup_lt_Some in Hn).
    destruct (lookup_lt_is_Some_2 _ _ Hlt) as [n1 Hn1].
    destruct (Hnode _ _ Hn1) as (n0 & Hn0 & _ & Hc0 & _).
    exists n1. split; [exact Hn1 | congruence]. }
  destruct Hs as (n1 & Hn1 & Hcs1).
  destruct r as [q0|]; [|apply ret_inv in H as [_ ->]; eauto].
  apply bind_inv in H as (m & s1 & Hl & H). apply load_inv in Hl as [Hm ->].
  destruct (children m) as [cs0|] eqn:Hcs0;
    [|apply ret_inv in H as [_ ->]; eauto].
  rewrite (set_children_Ok _ _ _ _ Hm) in H. injection H as <-.
  destruct (decide (q0 = q)) as [->|Hq].
  - assert (m = n1) as -> by congruence.
    assert (cs0 = cs) as -> by congruence.
    eexists _, _. split; [eapply lookup_upd_eq; exact Hm|].
    split; [reflexivity|]. now apply map_delete_keeps.
  - exists n1, cs. rewrite lookup_upd_ne by exact Hq. auto.
Qed.

(** Canceling a context does not cancel a context made before it, in
    particular not its parent: in every reachable state the cancel
    function leaves the error, the channel and the timer of every older
    struct as they were, and takes nothing but its own struct out of
    their children maps. *)
Theorem cancel_spares_older st fs p f :
  reachable (st, fs) -> fs !! p = Some f ->
  exists st',
    call f st = Ok (tt, st')
    /\ forall q n, (q < p)%nat -> heap st !! q = Some n ->
         exists n', heap st' !! q = Some n'
           /\ err n' = err n /\ timer n' = timer n
           /\ (forall d, done n = Some d -> done n' = Some d)
           /\ forall cs ch, children n = Some cs -> ch ∈ cs ->
                canceler_ptr ch <> p ->
                exists cs', children n' = Some cs' /\ ch ∈ cs'.
Proof.
  intros Hr Hf.
  destruct (reachable_handle _ _ _ _ Hr Hf) as (Hinv & Hc & Hp & _).
  pose proof Hinv as [I Q F].
  assert (Hrfp : cf_removeFromParent f = true
                 \/ tracked st (canceler_ptr (cf_target f)) = false).
  { destruct (cf_removeFromParent f) eqn:Hfl; [now left|right].
    rewrite Hp. eapply inv_dead_untracked; [exact Hinv|]. exact (F p f Hf Hfl). }
  destruct (cancel_steps _ Canceled _ _ st I Q Hc Hrfp)
    as (st1 & st2 & E & C1 & D1 & Hst & F1 & Q2).
  exists (released (cf_target f) st2). split; [exact E|].
  intros q n Hlt Hn. rewrite <- Hp in Hlt.
  rewrite <- (F1 q Hlt) in Hn.
  destruct (quiet_fwd _ _ _ _ Q2 Hn) as (n2 & Hn2 & He2 & Ht2 & Hd2 & _).
  assert (Hrel : heap (released (cf_target f) st2) !! q = Some n2).
  { destruct (cf_target f) as [parent p0|parent p0 dl]; [exact Hn2|].
    simpl in *. destruct (heap st2 !! p0) as [m|] eqn:Hm; [|exact Hn2].
    destruct (timer m) as [t|]; [|exact Hn2].
    rewrite lookup_upd_ne by lia. now rewrite stop_state_heap. }
  exists n2. split; [exact Hrel|]. split; [exact He2|]. split; [exact Ht2|].
  split; [exact Hd2|].
  intros cs ch Hcs Hin Hne. rewrite <- Hp in Hne.
  destruct Hst as [->|HR].
  - assert (n2 = n) as -> by congruence. eauto.
  - destruct (removeChild_children _ _ _ _ _ _ _ _ HR Hn Hcs Hin Hne)
      as (n' & cs' & Hn' & Hcs' & Hin').
    assert (n' = n2) as -> by congruence. eauto.
Qed.

Lemma cancel_spares_older_witness :
  let st := fst sample_world in
  let fs := snd sample_world in
  exists f st' n',
    fs !! 1%nat = Some f /\ call f st = Ok (tt, st')
    /\ heap st' !! 0%nat = Some n' /\ err n' = None.
Proof.
  intros st fs. eexists _.
  assert (Hf : fs !! 1%nat = Some _) by (vm_compute; reflexivity).
  destruct (cancel_spares_older st fs 1%nat _ sample_reachable Hf)
    as (st' & E & H).
  assert (Hn : heap st !! 0%nat = Some _) by (vm_compute; reflexivity).
  destruct (H 0%nat _ (ltac:(lia)) Hn) as (n' & Hn' & He' & _).
  exists st', n'. split; [exact Hf|]. split; [exact E|].
  split; [exact Hn' | exact He'].
Defined.

(** * Timers are released with their contexts *)

Lemma tstep_refl x st : tstep x st st.
Proof.
  split; auto.
  - intros t r' H. exists r'. auto.
  - intros p n' H. exists n'. auto.
  - intros t r r' H1 H2 H3 H4. congruence.
  - intros p n n' t H1 H2 H3 H4. congruence.
Qed.

Lemma tstep_trans x st1 st2 st3 :
  tstep x st1 st2 -> tstep x st2 st3 -> tstep x st1 st3.
Proof.
  intros [L1 T1 R1 N1 S1 D1] [L2 T2 R2 N2 S2 D2]. split.
  - congruence.
  - congruence.
  - intros t r3 H3. destruct (R2 t r3 H3) as (r2 & H2 & Ht2 & Ha2).
    destruct (R1 t r2 H2) as (r1 & H1 & Ht1 & Ha1).
    exists r1. split; [exact H1|]. split; [congruence | auto].
  - intros p n3 H3. destruct (N2 p n3 H3) as (n2 & H2 & Hn2).
    destruct (N1 p n2 H2) as (n1 & H1 & Hn1).
    exists n1. split; [exact H1|].
    destruct Hn2 as [H|[Ht He]]; [now left|].
    destruct Hn1 as [H|[Ht' He']].
    + left. congruence.
    + right. split; [congruence|]. intros Hx. rewrite (He Hx). auto.
  - intros t r1 r3 H1 Ha1 H3 Ha3.
    assert (Hlt : (t < length (timers st2))%nat)
      by (rewrite T1; now apply lookup_lt_Some in H1).
    destruct (lookup_lt_is_Some_2 _ _ Hlt) as [r2 H2].
    destruct (t_active r2) eqn:Ha2.
    + destruct (S2 t r2 r3 H2 Ha2 H3 Ha3)
        as (p & n2 & n3 & Hn2 & Ht2 & Hn3 & Ht3).
      destruct (N1 p n2 Hn2) as (n1 & Hn1 & Hd1).
      exists p, n1, n3. split; [exact Hn1|]. split; [|auto].
      destruct Hd1 as [H|[H _]]; congruence.
    + destruct (S1 t r1 r2 H1 Ha1 H2 Ha2)
        as (p & n1 & n2 & Hn1 & Ht1 & Hn2 & Ht2).
      assert (Hlt3 : (p < length (heap st3))%nat)
        by (rewrite L2; now apply lookup_lt_Some in Hn2).
      destruct (lookup_lt_is_Some_2 _ _ Hlt3) as [n3 Hn3].
      exists p, n1, n3. split; [exact Hn1|]. split; [exact Ht1|].
      split; [exact Hn3|].
      destruct (N2 p n3 Hn3) as (n2' & Hn2' & Hd2).
      assert (n2' = n2) as -> by congruence.
      destruct Hd2 as [H|[H _]]; congruence.
  - intros p n1 n3 t Hn1 Ht1 Hn3 Ht3.
    assert (Hlt : (p < length (heap st2))%nat)
      by (rewrite L1; now apply lookup_lt_Some in Hn1).
    destruct (lookup_lt_is_Some_2 _ _ Hlt) as [n2 Hn2].
    destruct (timer n2) as [t2|] eqn:Ht2.
    + assert (t2 = t) as ->.
      { destruct (N1 p n2 Hn2) as (n1' & Hn1' & Hd1).
        assert (n1' = n1) as -> by congruence.
        destruct Hd1 as [H|[H _]]; congruence. }
      exact (D2 p n2 n3 t Hn2 Ht2 Hn3 Ht3).
    + destruct (D1 p n1 n2 t Hn1 Ht1 Hn2 Ht2) as (r2 & Hr2 & Ha2).
      assert (Hlt3 : (t < length (timers st3))%nat)
        by (rewrite T2; now apply lookup_lt_Some in Hr2).
      destruct (lookup_lt_is_Some_2 _ _ Hlt3) as [r3 Hr3].
      exists r3. split; [exact Hr3|].
      destruct (t_active r3) eqn:Ha3; [|reflexivity].
      destruct (R2 t r3 Hr3) as (r2' & Hr2' & _ & Ha).
      assert (r2' = r2) as -> by congruence.
      rewrite (Ha Ha3) in Ha2. discriminate.
Qed.

(** Steps that leave the timers and every timer field alone; the
    error may change only in the struct under way. *)
Lemma tstep_fields x st st' :
  length (heap st') = length (heap st) ->
  timers st' = timers st ->
  (forall p n', heap st' !! p = Some n' ->
     exists n, heap st !! p = Some n /\ timer n' = timer n
               /\ (x <> Some p -> err n' = err n)) ->
  tstep x st st'.
Proof.
  intros L T H. split.
  - exact L.
  - now rewrite T.
  - intros t r'. rewrite T. intros Hr. exists r'. auto.
  - intros p n' Hn'. destruct (H p n' Hn') as (n & Hn & Ht & He).
    exists n. split; [exact Hn|]. right. auto.
  - intros t r r'. rewrite T. intros H1 H2 H3 H4. congruence.
  - intros p n n' t Hn Ht Hn' Ht'.
    destruct (H p n' Hn') as (n0 & Hn0 & Ht0 & _). congruence.
Qed.

(** Once the struct under way has no timer left, nothing is pending. *)
Lemma tstep_done p st st' :
  tstep (Some p) st st' ->
  (forall n', heap st' !! p = Some n' -> timer n' = None) ->
  tstep None st st'.
Proof.
  intros [L T R N S D] Hp. split; auto.
  intros q n' Hn'. destruct (N q n' Hn') as (n & Hn & Hd).
  exists n. split; [exact Hn|].
  destruct (decide (q = p)) as [->|Hq].
  - left. now apply Hp.
  - destruct Hd as [H|[H1 H2]]; [now left|right].
    split; [exact H1|]. intros _. apply H2. congruence.
Qed.

(** A complete cancellation, seen while another struct is under way. *)
Lemma tstep_under p st st' : tstep None st st' -> tstep (Some p) st st'.
Proof.
  intros [L T R N S D]. split; auto.
  intros q n' Hn'. destruct (N q n' Hn') as (n & Hn & Hd).
  exists n. split; [exact Hn|].
  destruct Hd as [H|[H1 H2]]; [now left|right].
  split; [exact H1|]. intros _. apply H2. discriminate.
Qed.

(** The last step of [timerCtx.cancel]. *)
Lemma tstep_release x p n t st :
  heap st !! p = Some n -> timer n = Some t ->
  (t < length (timers st))%nat ->
  tstep x st (upd p (with_timer n None) (stop_state t st)).
Proof.
  intros Hn Ht Hlt.
  destruct (lookup_lt_is_Some_2 _ _ Hlt) as [r Hr].
  assert (Hts : timers (upd p (with_timer n None) (stop_state t st))
                = <[t := {| t_target := t_target r; t_dur := t_dur r;
                            t_active := false |}]> (timers st)).
  { unfold stop_state. rewrite Hr. reflexivity. }
  assert (Hh : heap (upd p (with_timer n None) (stop_state t st))
               = <[p := with_timer n None]> (heap st)).
  { rewrite heap_upd, stop_state_heap. reflexivity. }
  split.
  - rewrite Hh. apply length_insert.
  - rewrite Hts. apply length_insert.
  - intros u r'. rewrite Hts. intros Hu.
    apply list_lookup_insert_Some in Hu as [(<- & <- & _)|[Hne Hu]].
    + exists r. split; [exact Hr|]. split; [reflexivity | discriminate].
    + exists r'. auto.
  - intros q n'. rewrite Hh. intros Hq.
    apply list_lookup_insert_Some in Hq as [(<- & <- & _)|[Hne Hq]].
    + exists n. split; [exact Hn|]. now left.
    + exists n'. split; [exact Hq|]. right. auto.
  - intros u r0 r'. rewrite Hts. intros H1 H2 H3 H4.
    apply list_lookup_insert_Some in H3 as [(<- & <- & _)|[Hne H3]].
    + exists p, n, (with_timer n None). split; [exact Hn|].
      split; [exact Ht|]. split; [|reflexivity].
      rewrite Hh. apply list_lookup_insert_eq. now apply lookup_lt_Some in Hn.
    + congruence.
  - intros q m m' u Hm Hu. rewrite Hh, Hts. intros Hm' Hu'.
    apply list_lookup_insert_Some in Hm' as [(<- & <- & _)|[Hne Hm']].
    + assert (m = n) as -> by congruence.
      assert (u = t) as -> by congruence.
      eexists. split; [apply list_lookup_insert_eq; exact Hlt | reflexivity].
    + congruence.
Qed.

(** ** The cascade *)

Section timers_body.
Variables (hs : list canceler) (x : option nat) (e : error).
Variable child_cancel : canceler -> bool -> option error -> M unit.
Variable bound : nat.
Hypothesis IH : forall ch st,
  pinv hs x st -> hs !! canceler_ptr ch = Some ch ->
  (length (heap st) - canceler_ptr ch < bound)%nat ->
  exempt x st (canceler_ptr ch) ->
  exists st', child_cancel ch false (Some e) st = Ok (tt, st')
    /\ pinv hs x st' /\ cascade e st st' /\ dead st' (canceler_ptr ch)
    /\ (forall q, (q < canceler_ptr ch)%nat -> heap st' !! q = heap st !! q)
    /\ tstep None st st'.

Lemma cancelCtx_cancel_body_tstep parent p st c :
  pinv hs x st -> hs !! p = Some c ->
  (length (heap st) - p <= bound)%nat -> exempt x st p ->
  exists st',
    cancelCtx_cancel_body child_cancel parent p false (Some e) st
      = Ok (tt, st')
    /\ tstep (Some p) st st'.
Proof.
  intros I Hc Hb Hx.
  assert (Hlt : (p < length (heap st))%nat).
  { rewrite <- (pi_len _ _ _ I). now apply lookup_lt_Some in Hc. }
  destruct (lookup_lt_is_Some_2 _ _ Hlt) as [n Hn].
  unfold cancelCtx_cancel_body.
  rewrite (bind_Ok _ _ _ _ _ (load_Ok _ _ _ Hn)).
  destruct (err n) as [e0|] eqn:He.
  { exists st. split; [reflexivity | apply tstep_refl]. }
  rewrite (bind_Ok _ _ _ _ _ (set_err_Ok _ _ _ _ Hn)).
  rewrite (bind_Ok _ _ _ _ _ (mark_steps p n e st Hn
             (fun d => pinv_open _ _ _ _ _ _ I Hn He))).
  remember (mark_state p n e st) as st1 eqn:Est1.
  assert (I1 : pinv hs x st1) by (subst st1; now apply pinv_mark).
  assert (Hn1 : heap st1 !! p = Some (mark n e))
    by (subst st1; now apply mark_state_lookup_eq).
  assert (Hlen1 : length (heap st1) = length (heap st))
    by (subst st1; apply mark_state_length).
  assert (Hlk1 : forall q m, heap st1 !! q = Some m ->
            (p = q /\ m = mark n e) \/ (p <> q /\ heap st !! q = Some m))
    by (intros q m; subst st1; apply mark_state_lookup).
  assert (T01 : tstep (Some p) st st1).
  { apply tstep_fields; [exact Hlen1| |].
    - subst st1. unfold mark_state. now destruct (done n).
    - intros q m Hq. apply Hlk1 in Hq as [[<- ->]|[Hne Hq]].
      + exists n. split; [exact Hn|]. split; [reflexivity|]. congruence.
      + exists m. auto. }
  (* the loop *)
  destruct (for_each_cascade e
              (fun s => pinv hs x s /\ cascade e st1 s
                 /\ (forall q, (q <= p)%nat -> heap s !! q = heap st1 !! q)
                 /\ tstep (Some p) st1 s)
              (fun child => child_cancel child false (Some e))
              (default [] (children n)) st1)
    as (st2 & E2 & (I2 & C12 & F2 & T12) & _ & D2).
  { split; [exact I1|]. split; [apply cascade_refl|].
    split; [auto | apply tstep_refl]. }
  { intros ch s Hin (Is & Cs & Fs & Ts).
    destruct (children n) as [cs|] eqn:Ecs; [|inversion Hin].
    simpl in Hin.
    assert (Hnp : heap s !! p = Some (mark n e))
      by (rewrite Fs by lia; exact Hn1).
    assert (Hcs : children (mark n e) = Some cs) by exact Ecs.
    destruct (pi_child _ _ _ Is _ _ _ _ Hnp Hcs Hin) as (Hh & Hv & _).
    pose proof (pinv_child_lt _ _ _ _ _ _ _ Is Hnp Hcs Hin) as Hgt.
    assert (Hchlt : (canceler_ptr ch < length (heap s))%nat).
    { rewrite <- (pi_len _ _ _ Is). now apply lookup_lt_Some in Hh. }
    destruct (IH ch s Is Hh) as (s' & E' & I' & C' & D' & F' & T').
    { pose proof (ca_heap _ _ _ Cs). lia. }
    { intros q m cs' ch' Hq Hcs' Hin' Heq Hem. exfalso.
      assert (ch' = ch) as ->.
      { eapply pinv_handle; eauto. now rewrite Heq. }
      pose proof (pinv_child_found _ _ _ _ _ _ _ Is Hq Hcs' Hin') as F1.
      pose proof (pinv_child_found _ _ _ _ _ _ _ Is Hnp Hcs Hin) as F2'.
      pose proof (found_inj _ _ _ _ F1 F2') as ->.
      assert (m = mark n e) as -> by congruence. discriminate. }
    exists s'. split; [exact E'|]. split; [|split; [exact C' | exact D']].
    split; [exact I'|]. split; [eapply cascade_trans; eauto|]. split.
    - intros q Hq. rewrite F' by lia. now apply Fs.
    - eapply tstep_trans; [exact Ts|]. now apply tstep_under. }
  rewrite (bind_Ok _ _ _ _ _ E2).
  assert (Hn2 : heap st2 !! p = Some (mark n e))
    by (rewrite F2 by lia; exact Hn1).
  rewrite (bind_Ok _ _ _ _ _ (set_children_Ok _ None _ _ Hn2)).
  exists (upd p (with_children (mark n e) None) st2).
  split; [reflexivity|].
  eapply tstep_trans; [exact T01|]. eapply tstep_trans; [exact T12|].
  apply tstep_fields.
  - rewrite heap_upd. apply length_insert.
  - reflexivity.
  - intros q m Hq. apply lookup_upd in Hq as [(<- & <- & _)|[Hne Hq]].
    + exists (mark n e). auto.
    + exists m. auto.
Qed.
End timers_body.

(** [child.cancel(false, err)]: the invariant, the cascade, and the
    timers. *)
Lemma cancel_fuel_tstep hs x e :
  forall fuel c st,
  pinv hs x st -> hs !! canceler_ptr c = Some c ->
  (length (heap st) - canceler_ptr c < fuel)%nat ->
  exempt x st (canceler_ptr c) ->
  exists st', cancel_fuel fuel c false (Some e) st = Ok (tt, st')
    /\ pinv hs x st' /\ cascade e st st' /\ dead st' (canceler_ptr c)
    /\ (forall q, (q < canceler_ptr c)%nat -> heap st' !! q = heap st !! q)
    /\ tstep None st st'.
Proof.
  induction fuel as [|fuel IH]; intros c st I Hc Hf Hx; [lia|].
  assert (IH0 : forall ch st,
    pinv hs x st -> hs !! canceler_ptr ch = Some ch ->
    (length (heap st) - canceler_ptr ch < fuel)%nat ->
    exempt x st (canceler_ptr ch) ->
    exists st', cancel_fuel fuel ch false (Some e) st = Ok (tt, st')
      /\ pinv hs x st' /\ cascade e st st' /\ dead st' (canceler_ptr ch)
      /\ forall q, (q < canceler_ptr ch)%nat -> heap st' !! q = heap st !! q).
  { intros ch s Is Hh Hb He.
    destruct (IH ch s Is Hh Hb He) as (s' & A & B & C & D & F & _).
    exists s'. auto. }
  assert (Hlt : (canceler_ptr c < length (heap st))%nat).
  { rewrite <- (pi_len _ _ _ I). now apply lookup_lt_Some in Hc. }
  destruct (lookup_lt_is_Some_2 _ _ Hlt) as [n Hn].
  destruct c as [parent p|parent p dl]; simpl in *.
  - destruct (cancelCtx_cancel_body_false hs x e (cancel_fuel fuel) fuel IH0
                parent p st _ I Hc) as (st1 & E1 & I1 & C1 & D1 & F1 & T1);
      [lia | exact Hx |].
    destruct (cancelCtx_cancel_body_tstep hs x e (cancel_fuel fuel) fuel IH
                parent p st _ I Hc) as (st1' & E1' & TS); [lia | exact Hx |].
    rewrite E1 in E1'. injection E1' as <-.
    exists st1. split; [exact E1|]. split; [exact I1|]. split; [exact C1|].
    split; [exact D1|]. split; [exact F1|].
    apply (tstep_done p); [exact TS|].
    intros n' Hn'. destruct (T1 n Hn) as (n1 & Hn1 & Ht1).
    assert (n1 = n') as -> by congruence. rewrite Ht1.
    destruct (timer n) as [t|] eqn:Ht; [|reflexivity].
    destruct (pi_timer _ _ _ I _ _ _ Hn Ht) as (_ & par & d & Hh).
    congruence.
  - destruct (cancelCtx_cancel_body_false hs x e (cancel_fuel fuel) fuel IH0
                parent p st _ I Hc) as (st1 & E1 & I1 & C1 & D1 & F1 & _);
      [lia | exact Hx |].
    destruct (cancelCtx_cancel_body_tstep hs x e (cancel_fuel fuel) fuel IH
                parent p st _ I Hc) as (st1' & E1' & TS); [lia | exact Hx |].
    rewrite E1 in E1'. injection E1' as <-.
    unfold timerCtx_cancel_body. rewrite (bind_Ok _ _ _ _ _ E1).
    unfold bind at 1. unfold ret at 1.
    destruct D1 as (n1 & Hn1 & He1).
    rewrite (bind_Ok _ _ _ _ _ (load_Ok _ _ _ Hn1)).
    destruct (timer n1) as [t|] eqn:Et.
    + rewrite (bind_Ok _ _ _ _ _ (Stop_Ok t st1)).
      assert (Hn1' : heap (stop_state t st1) !! p = Some n1)
        by (now rewrite stop_state_heap).
      rewrite (set_timer_Ok _ _ _ _ Hn1').
      eexists. split; [reflexivity|]. split; [|split; [|split; [|split]]].
      * apply pinv_clear_timer; auto. now apply pinv_stop.
      * eapply cascade_trans; [exact C1|].
        eapply cascade_trans.
        -- apply (cascade_same_store e st1 (stop_state t st1)).
           ++ apply stop_state_heap.
           ++ apply stop_state_chans.
           ++ apply stop_state_length.
        -- apply (cascade_upd_core e _ p n1); auto. now splits.
      * exists (with_timer n1 None). split; [|exact He1].
        eapply lookup_upd_eq; eauto.
      * intros q Hq. rewrite lookup_upd_ne by lia.
        rewrite stop_state_heap. now apply F1.
      * apply (tstep_done p).
        -- eapply tstep_trans; [exact TS|].
           apply tstep_release; auto.
           apply (pi_timer _ _ _ I1 _ _ _ Hn1 Et).
        -- intros n' Hn'. apply lookup_upd in Hn' as [(_ & <- & _)|[C _]];
             [reflexivity | congruence].
    + exists st1. split; [reflexivity|]. split; [exact I1|].
      split; [exact C1|]. split; [exists n1; auto|]. split; [exact F1|].
      apply (tstep_done p); [exact TS|].
      intros n' Hn'. congruence.
Qed.

Lemma quiet_tstep x st st' : quiet st st' -> tstep x st st'.
Proof.
  intros Q. apply tstep_fields.
  - apply (qu_heap _ _ Q).
  - apply (qu_timers _ _ Q).
  - intros p n' Hn'. destruct (qu_node _ _ Q p n' Hn') as (n & Hn & He & Ht & _).
    exists n. auto.
Qed.

(** A cancellation from outside a cascade. *)
Lemma cancel_tstep hs c rfp eo st st' :
  pinv hs None st -> settled st -> hs !! canceler_ptr c = Some c ->
  (rfp = true \/ tracked st (canceler_ptr c) = false) ->
  cancel c rfp eo st = Ok (tt, st') ->
  tstep None st st'
  /\ (forall parent p dl n', c = timerCtx_ parent p dl ->
        heap st' !! p = Some n' -> timer n' = None).
Proof.
  intros I Q Hc Hr H. destruct eo as [e|];
    [|rewrite cancel_None in H; discriminate].
  assert (Hlt : (canceler_ptr c < length (heap st))%nat).
  { rewrite <- (pi_len _ _ _ I). now apply lookup_lt_Some in Hc. }
  destruct (lookup_lt_is_Some_2 _ _ Hlt) as [n Hn].
  set (x := if rfp then Some (canceler_ptr c) else None).
  assert (Ix : pinv hs x st) by (now apply pinv_exempt).
  assert (Hx : exempt x st (canceler_ptr c)).
  { unfold x. destruct rfp.
    - intros q m cs ch _ _ _ _ _. reflexivity.
    - destruct Hr as [?|Hr]; [discriminate|]. now apply exempt_untracked. }
  pose proof (cancel_fuel_tstep hs x e (length (heap st))) as IH.
  pose proof (cancel_fuel_false hs x e (length (heap st))) as IH0.
  rewrite cancel_unfold in H.
  destruct c as [parent p|parent p dl]; cbn [canceler_ptr canceler_parent] in *.
  - split; [|discriminate].
    rewrite cancel_fuel_cancelCtx in H.
    destruct (cancelCtx_cancel_body_false hs x e
                (cancel_fuel (length (heap st))) (length (heap st)) IH0
                parent p st _ Ix Hc) as (st1 & E1 & I1 & C1 & D1 & F1 & T1);
      [lia | exact Hx |].
    destruct (cancelCtx_cancel_body_tstep hs x e
                (cancel_fuel (length (heap st))) (length (heap st)) IH
                parent p st _ Ix Hc) as (st1' & E1' & TS); [lia | exact Hx |].
    rewrite E1 in E1'. injection E1' as <-.
    assert (Hnt : timer n = None).
    { destruct (timer n) as [t|] eqn:Ht; [|reflexivity].
      destruct (pi_timer _ _ _ I _ _ _ Hn Ht) as (_ & par & d & Hh).
      congruence. }
    destruct (T1 n Hn) as (n1 & Hn1 & Ht1).
    destruct rfp.
    + rewrite (cancelCtx_cancel_body_true _ _ _ _ _ _ Hn) in H.
      destruct (err n) as [e0|] eqn:He.
      * injection H as <-. apply tstep_refl.
      * rewrite (bind_Ok _ _ _ _ _ E1) in H.
        destruct (removeChild_pinv hs x st1 p _ I1 Hc) as (st2 & E2 & I2 & Q2);
          [now right|].
        simpl in E2. rewrite E2 in H. injection H as <-.
        apply (tstep_done p).
        -- eapply tstep_trans; [exact TS | now apply quiet_tstep].
        -- intros n' Hn'.
           destruct (quiet_fwd _ _ _ _ Q2 Hn1) as (n2 & Hn2 & _ & Ht2 & _).
           congruence.
    + rewrite E1 in H. injection H as <-.
      apply (tstep_done p); [exact TS|]. intros n' Hn'. congruence.
  - rewrite cancel_fuel_timerCtx in H.
    destruct (cancelCtx_cancel_body_false hs x e
                (cancel_fuel (length (heap st))) (length (heap st)) IH0
                parent p st _ Ix Hc) as (st1 & E1 & I1 & C1 & D1 & F1 & T1);
      [lia | exact Hx |].
    destruct (cancelCtx_cancel_body_tstep hs x e
                (cancel_fuel (length (heap st))) (length (heap st)) IH
                parent p st _ Ix Hc) as (st1' & E1' & TS); [lia | exact Hx |].
    rewrite E1 in E1'. injection E1' as <-.
    rewrite (timerCtx_cancel_body_eq _ _ _ _ _ _ _ _ E1) in H.
    assert (exists st2, (if rfp then removeChild parent (timerCtx_ parent p dl)
                         else ret tt) st1 = Ok (tt, st2)
              /\ quiet st1 st2 /\ pinv hs None st2) as (st2 & E2 & Q2 & I2).
    { destruct rfp.
      - destruct (removeChild_pinv hs x st1 p _ I1 Hc) as (st2 & E2 & I2 & Q2);
          [now right|].
        exists st2. simpl in E2. auto.
      - exists st1. split; [reflexivity|]. split; [apply quiet_refl|].
        exact I1. }
    rewrite (bind_Ok _ _ _ _ _ E2) in H.
    assert (Hlt2 : (p < length (heap st2))%nat).
    { rewrite (qu_heap _ _ Q2), (ca_heap _ _ _ C1). exact Hlt. }
    destruct (lookup_lt_is_Some_2 _ _ Hlt2) as [n2 Hn2].
    rewrite (release_steps parent p dl st2 n2 Hn2) in H. injection H as <-.
    assert (T02 : tstep (Some p) st st2).
    { eapply tstep_trans; [exact TS | now apply quiet_tstep]. }
    simpl. rewrite Hn2.
    destruct (timer n2) as [t|] eqn:Ht2.
    + assert (Hfin : forall n', heap (upd p (with_timer n2 None)
                                         (stop_state t st2)) !! p = Some n' ->
                       timer n' = None).
      { intros n' Hn'. apply lookup_upd in Hn' as [(_ & <- & _)|[C _]];
          [reflexivity | congruence]. }
      split.
      * apply (tstep_done p); [|exact Hfin].
        eapply tstep_trans; [exact T02|].
        apply tstep_release; auto.
        apply (pi_timer _ _ _ I2 _ _ _ Hn2 Ht2).
      * intros par q d n' [= _ <- _]. apply Hfin.
    + split.
      * apply (tstep_done p); [exact T02|]. intros n' Hn'. congruence.
      * intros par q d n' [= _ <- _] Hn'. congruence.
Qed.

(** ** The invariant *)

Lemma held_tstep y st st' :
  held_but y st -> tstep None st st' ->
  (forall t p n', y = Some t -> heap st' !! p = Some n' ->
     timer n' <> Some t) ->
  timers_held st'.
Proof.
  intros [H1 H2] [L T R N S D] Hy. split.
  - intros p n' u Hn' Hu.
    destruct (N p n' Hn') as (n & Hn & [C|[Ht He]]); [congruence|].
    rewrite Hu in Ht. symmetry in Ht.
    destruct (H1 p n u Hn Ht) as (Herr & r & Hr & Ha & Htg).
    split; [rewrite He by discriminate; exact Herr|].
    assert (Hact : t_active r = true).
    { apply Ha. intros Hyu. symmetry in Hyu.
      exact (Hy u p n' Hyu Hn' Hu). }
    assert (Hlt : (u < length (timers st'))%nat)
      by (rewrite T; now apply lookup_lt_Some in Hr).
    destruct (lookup_lt_is_Some_2 _ _ Hlt) as [r' Hr'].
    destruct (R u r' Hr') as (r0 & Hr0 & Htg' & _).
    assert (r0 = r) as -> by congruence.
    exists r'. split; [exact Hr'|]. split; [|congruence].
    intros _. destruct (t_active r') eqn:Ha'; [reflexivity|].
    destruct (S u r r' Hr Hact Hr' Ha')
      as (p0 & n0 & n0' & Hn0 & Ht0 & Hn0' & Ht0').
    destruct (H1 p0 n0 u Hn0 Ht0) as (_ & r1 & Hr1 & _ & Htg1).
    assert (r1 = r) as -> by congruence.
    assert (p0 = p) as -> by congruence.
    congruence.
  - intros u r' Hr' Ha'.
    destruct (R u r' Hr') as (r & Hr & Htg & Ha).
    destruct (H2 u r Hr (Ha Ha')) as (n & Hn & Ht).
    rewrite Htg.
    assert (Hlt : (canceler_ptr (t_target r) < length (heap st'))%nat)
      by (rewrite L; now apply lookup_lt_Some in Hn).
    destruct (lookup_lt_is_Some_2 _ _ Hlt) as [n' Hn'].
    exists n'. split; [exact Hn'|].
    destruct (N _ n' Hn') as (n0 & Hn0 & Hd).
    assert (n0 = n) as -> by congruence.
    destruct Hd as [Hnone|[Hsame _]]; [|congruence].
    destruct (D _ n n' u Hn Ht Hn' Hnone) as (r1 & Hr1 & Ha1). congruence.
Qed.

Lemma held_stop t st : timers_held st -> held_but (Some t) (stop_state t st).
Proof.
  intros [H1 H2]. unfold stop_state.
  destruct (timers st !! t) as [r0|] eqn:Hr0.
  2:{ split.
      - intros p n u Hn Hu. destruct (H1 p n u Hn Hu) as (He & r & Hr & Ha & Htg).
        split; [exact He|]. exists r. split; [exact Hr|]. split; [|exact Htg].
        intros _. apply Ha. discriminate.
      - exact H2. }
  split.
  - intros p n u Hn Hu. simpl in Hn.
    destruct (H1 p n u Hn Hu) as (He & r & Hr & Ha & Htg).
    split; [exact He|]. simpl.
    destruct (decide (u = t)) as [->|Hne].
    + eexists. split; [apply list_lookup_insert_eq; now apply lookup_lt_Some in Hr0|].
      split; [congruence|]. simpl. congruence.
    + exists r. rewrite list_lookup_insert_ne by congruence.
      split; [exact Hr|]. split; [|exact Htg]. intros _. apply Ha. discriminate.
  - intros u r. simpl. intros Hr Ha.
    apply list_lookup_insert_Some in Hr as [(<- & <- & _)|[Hne Hr]];
      [discriminate|].
    exact (H2 u r Hr Ha).
Qed.

Lemma held_alloc st : timers_held st -> timers_held (alloc_state st).
Proof.
  intros [H1 H2]. split.
  - intros p n u Hn Hu. apply alloc_lookup in Hn as [Hn|[_ ->]];
      [|discriminate].
    exact (H1 p n u Hn Hu).
  - intros u r Hr Ha. destruct (H2 u r Hr Ha) as (n & Hn & Ht).
    exists n. split; [now apply alloc_lookup_old | exact Ht].
Qed.

Lemma held_arm p n dur c st :
  timers_held st -> heap st !! p = Some n ->
  timer n = None -> err n = None -> canceler_ptr c = p ->
  timers_held (arm_state p n dur c st).
Proof.
  intros [H1 H2] Hn Ht He Hp. unfold arm_state. split.
  - intros q m u Hm Hu.
    apply lookup_upd in Hm as [(<- & <- & _)|[Hne Hm]].
    + simpl in Hu. injection Hu as <-. split; [exact He|].
      eexists. simpl. split.
      { rewrite lookup_app_r by lia. now rewrite Nat.sub_diag. }
      split; [intros _; reflexivity | exact Hp].
    + simpl in Hm. destruct (H1 q m u Hm Hu) as (Hem & r & Hr & Ha & Htg).
      split; [exact Hem|]. exists r. split; [|auto].
      simpl. apply lookup_app_l_Some. exact Hr.
  - intros u r Hr Ha. simpl in Hr.
    apply lookup_app_Some in Hr as [Hr|[Hge Hr]].
    + destruct (H2 u r Hr Ha) as (m & Hm & Hu).
      assert (Hne : p <> canceler_ptr (t_target r)) by congruence.
      exists m. rewrite lookup_upd_ne by exact Hne. auto.
    + apply list_lookup_singleton_Some in Hr as [Hz <-]. simpl.
      rewrite Hp. eexists. split; [eapply lookup_upd_eq; exact Hn|].
      simpl. f_equal. lia.
Qed.

Lemma Done_tstep x c st d st' : Done c st = Ok (d, st') -> tstep x st st'.
Proof.
  intros H. destruct (Done_again _ _ _ _ H) as (_ & L & T & _ & Hn).
  apply tstep_fields; [exact L | exact T|].
  intros p n' Hn'. destruct (Hn p n' Hn') as (n & Hn0 & He & _ & Ht).
  exists n. auto.
Qed.

Lemma children_add_tstep x q c st st' :
  children_add q c st = Ok (tt, st') -> tstep x st st'.
Proof.
  intros H. unfold children_add in H.
  apply bind_inv in H as (n & s & Hl & H). apply load_inv in Hl as [Hn ->].
  rewrite (set_children_Ok _ _ _ _ Hn) in H. injection H as <-.
  apply tstep_fields.
  - rewrite heap_upd. apply length_insert.
  - reflexivity.
  - intros p n' Hn'. apply lookup_upd in Hn' as [(<- & <- & _)|[_ Hn']].
    + exists n. auto.
    + exists n'. auto.
Qed.

Lemma propagateCancel_tstep hs st c st' :
  pinv hs None st -> settled st ->
  hs !! canceler_ptr c = Some c -> lives st (canceler_ptr c) ->
  tracked st (canceler_ptr c) = false ->
  (forall parent child, (parent, child) ∈ waiters st ->
     canceler_ptr child <> canceler_ptr c) ->
  propagateCancel (canceler_parent c) c st = Ok (tt, st') ->
  tstep None st st'.
Proof.
  intros I Q Hc Hl Ht Hw H.
  destruct (propagateCancel_pinv _ _ c I Q Hc Hl Ht Hw)
    as (d & st1 & HD & I1 & S1 & Q1 & Hcase).
  assert (Ht1 : tracked st1 (canceler_ptr c) = false)
    by (eapply quiet_untracked; eauto).
  eapply tstep_trans; [exact (Done_tstep _ _ _ _ _ HD)|].
  destruct Hcase as [(-> & E)|[(d' & -> & Hcl & E)|
    (d' & st2 & -> & Hcl & _)]].
  - rewrite E in H. injection H as <-. apply tstep_refl.
  - rewrite E in H. apply bind_inv in H as (eo & s & HE & H).
    apply Err_state in HE as ->.
    exact (proj1 (cancel_tstep _ _ _ _ _ _ I1 S1 Hc (or_intror Ht1) H)).
  - rewrite (propagateCancel_open _ _ _ _ _ HD Hcl) in H.
    apply bind_inv in H as (r & s2 & HP & H).
    destruct (parentCancelCtx_Done _ _ _ _ HP) as (d2 & HD2).
    assert (Hb1 : bounded (length (heap st1)) (canceler_parent c) = true).
    { destruct (pi_hs _ _ _ I1 _ _ Hc) as [_ Hb].
      eapply bounded_mono; [|exact Hb].
      apply lookup_lt_Some in Hc. rewrite (pi_len _ _ _ I1) in Hc. lia. }
    destruct (parentCancelCtx_pinv _ _ _ _ I1 Hb1)
      as (r' & s2' & HP' & I2 & Q2 & _).
    rewrite HP in HP'. injection HP' as <- <-.
    eapply tstep_trans; [exact (Done_tstep _ _ _ _ _ HD2)|].
    assert (S2 : settled s2) by (eapply quiet_settled; eauto).
    assert (Ht2 : tracked s2 (canceler_ptr c) = false)
      by (eapply quiet_untracked; eauto).
    destruct r as [q|].
    + apply bind_inv in H as (n & s3 & Hld & H).
      apply load_inv in Hld as [Hn ->].
      destruct (err n) as [e|].
      * exact (proj1 (cancel_tstep _ _ _ _ _ _ I2 S2 Hc (or_intror Ht2) H)).
      * exact (children_add_tstep _ _ _ _ _ H).
    + apply bind_inv in H as ([] & s3 & H1 & H2).
      injection H1 as <-. injection H2 as <-.
      apply tstep_fields; [reflexivity | reflexivity|].
      intros p n' Hn'. exists n'. auto.
Qed.

(** ** The trace semantics keeps the invariant *)

Lemma held_step st st' : timers_held st -> tstep None st st' -> timers_held st'.
Proof.
  intros Hh T. apply (held_tstep None st st' Hh T). discriminate.
Qed.

Lemma cancel_held hs c rfp eo st st' :
  pinv hs None st -> settled st -> hs !! canceler_ptr c = Some c ->
  (rfp = true \/ tracked st (canceler_ptr c) = false) ->
  timers_held st -> cancel c rfp eo st = Ok (tt, st') -> timers_held st'.
Proof.
  intros I Q Hc Hr Hh E.
  eapply held_tstep; [exact Hh| |discriminate].
  exact (proj1 (cancel_tstep _ _ _ _ _ _ I Q Hc Hr E)).
Qed.

Lemma construct_held fs st c st' :
  inv fs st -> timers_held st ->
  canceler_ptr c = length (heap st) ->
  bounded (length (heap st)) (canceler_parent c) = true ->
  propagateCancel (canceler_parent c) c (alloc_state st) = Ok (tt, st') ->
  timers_held st'
  /\ forall n', heap st' !! length (heap st) = Some n' -> timer n' = None.
Proof.
  intros Hinv Hh Hp Hb H.
  destruct (inv_alloc fs st c Hinv Hp Hb) as (I0 & Q0 & Hc & Hl & Ht & Hw).
  pose proof (propagateCancel_tstep _ _ _ _ I0 Q0 Hc Hl Ht Hw H) as T.
  split.
  - eapply held_tstep; [apply held_alloc; exact Hh | exact T | discriminate].
  - intros n' Hn'. destruct (ts_node _ _ _ T _ _ Hn') as (n & Hn & [Hd|[Hd _]]);
      [exact Hd|].
    apply alloc_lookup in Hn as [Hn|[_ ->]].
    + apply lookup_lt_Some in Hn. lia.
    + rewrite Hd. reflexivity.
Qed.

Lemma WithCancel_held fs st parent ctx f st' :
  inv fs st -> timers_held st ->
  bounded (length (heap st)) parent = true ->
  WithCancel (Some parent) st = Ok ((ctx, f), st') -> timers_held st'.
Proof.
  intros Hinv Hh Hb H. unfold WithCancel, newCancelCtx in H.
  rewrite (bind_Ok _ _ _ _ _ (alloc_Ok st)) in H.
  apply bind_inv in H as ([] & s1 & HP & H). injection H as <- <- <-.
  exact (proj1 (construct_held fs st (cancelCtx_ parent (length (heap st))) s1
                  Hinv Hh eq_refl Hb HP)).
Qed.

Lemma WithDeadline_held fs st parent d now ctx f st' :
  inv fs st -> timers_held st ->
  bounded (length (heap st)) parent = true ->
  WithDeadline (Some parent) d now st = Ok ((ctx, f), st') -> timers_held st'.
Proof.
  intros Hinv Hh Hb H. unfold WithDeadline in H.
  destruct (match Deadline parent with
            | Some cur => cur <? d
            | None => false
            end).
  { eapply WithCancel_held; eauto. }
  unfold newCancelCtx in H.
  rewrite (bind_Ok _ _ _ _ _ (alloc_Ok st)) in H.
  apply bind_inv in H as ([] & s1 & HP & H).
  set (c := timerCtx_ parent (length (heap st)) d) in *.
  destruct (construct_held fs st c s1 Hinv Hh eq_refl Hb HP) as [Hh1 Hnew].
  destruct (inv_alloc fs st c Hinv eq_refl Hb) as (I0 & Q0 & Hc & Hl & Ht & Hw).
  destruct (propagateCancel_keeps _ _ c s1 I0 Q0 Hc Hl Ht Hw HP)
    as (I1 & Q1 & M1 & L1).
  destruct (Until d now <=? 0).
  - apply bind_inv in H as ([] & s2 & HC & H). injection H as <- <- <-.
    exact (cancel_held _ _ _ _ _ _ I1 Q1 Hc (or_introl eq_refl) Hh1 HC).
  - apply bind_inv in H as (n & s & HL & H). apply load_inv in HL as [Hn ->].
    apply bind_inv in H as ([] & s2 & HA & H). injection H as <- <- <-.
    destruct (err n) as [e0|] eqn:He.
    + injection HA as <-. exact Hh1.
    + rewrite (AfterFunc_set_timer _ _ _ _ _ Hn) in HA. injection HA as <-.
      apply held_arm; auto.
Qed.

Lemma set_waiters_held ws st : timers_held st -> timers_held (set_waiters ws st).
Proof. intros H. exact H. Qed.

Lemma fire_held fs st t r st' :
  inv fs st -> timers_held st -> timers st !! t = Some r ->
  timer_callback (t_target r) (stop_state t st) = Ok (tt, st') ->
  timers_held st'.
Proof.
  intros Hinv Hh Hr E. pose proof Hinv as [I Q F].
  pose proof (inv_stop _ t _ Hinv) as [I1 Q1 _].
  pose proof (held_stop t st Hh) as Hs.
  unfold timer_callback in E.
  assert (Hc : (cf_target <$> fs) !! canceler_ptr (t_target r)
               = Some (t_target r)) by exact (pi_timers _ _ _ I _ _ Hr).
  destruct (cancel_tstep _ _ _ _ _ _ I1 Q1 Hc (or_introl eq_refl) E)
    as [T Hnone].
  eapply held_tstep; [exact Hs | exact T|].
  intros u p n' Hu Hn' Ht. injection Hu as ->.
  destruct (ts_node _ _ _ T _ _ Hn') as (n & Hn & [Hd|[Hd _]]); [congruence|].
  rewrite Ht in Hd. symmetry in Hd.
  destruct Hs as [Hs1 _].
  destruct (Hs1 p n u Hn Hd) as (_ & r' & Hr' & _ & Htg).
  destruct (pi_timer _ _ _ I1 _ _ _ Hn Hd) as (_ & parent & dl & Hp).
  assert (Hrr : t_target r' = t_target r).
  { unfold stop_state in Hr'. rewrite Hr in Hr'. simpl in Hr'.
    rewrite list_lookup_insert_eq in Hr'
      by (now apply lookup_lt_Some in Hr).
    injection Hr' as <-. reflexivity. }
  rewrite Hrr in Htg. rewrite Htg in Hc. rewrite Hp in Hc.
  injection Hc as Hc.
  rewrite (Hnone parent p dl n' (eq_sym Hc) Hn') in Ht. discriminate.
Qed.

Lemma exec_held o st fs st' fs' :
  inv fs st -> timers_held st ->
  exec o (st, fs) = Some (st', fs') -> timers_held st'.
Proof.
  intros Hinv Hh H. pose proof Hinv as [I Q F].
  destruct o as [c|parent|parent d now|p|t|t|i]; unfold exec in H.
  - (* Done *)
    destruct (bounded (length (heap st)) c) eqn:Hb; [|discriminate].
    destruct (Done c st) as [[d s]| |] eqn:E; simpl in H; try discriminate.
    injection H as <- <-.
    eapply held_tstep; [exact Hh | exact (Done_tstep None _ _ _ _ E)
                       | discriminate].
  - (* WithCancel *)
    destruct (bounded (length (heap st)) parent) eqn:Hb; [|discriminate].
    destruct (WithCancel (Some parent) st) as [[[ctx f] s]| |] eqn:E;
      simpl in H; try discriminate.
    injection H as <- <-. eapply WithCancel_held; eauto.
  - (* WithDeadline *)
    destruct (bounded (length (heap st)) parent) eqn:Hb; [|discriminate].
    destruct (WithDeadline (Some parent) d now st) as [[[ctx f] s]| |] eqn:E;
      simpl in H; try discriminate.
    injection H as <- <-. eapply WithDeadline_held; eauto.
  - (* a cancel function *)
    destruct (fs !! p) as [f|] eqn:Hf; simpl in H; [|discriminate].
    destruct (call f st) as [[[] s]| |] eqn:E; simpl in H; try discriminate.
    injection H as <- <-.
    destruct (inv_handle _ _ _ _ Hinv Hf) as [Hc Hp].
    unfold call in E.
    assert (Hr : cf_removeFromParent f = true
                 \/ tracked st (canceler_ptr (cf_target f)) = false).
    { destruct (cf_removeFromParent f) eqn:Hfl; [now left|right].
      rewrite Hp. eapply inv_dead_untracked; eauto. }
    eapply cancel_held; eauto.
  - (* a timer fires *)
    destruct (fire t st) as [[[] s]| |] eqn:E; simpl in H; try discriminate.
    injection H as <- <-.
    unfold fire in E. unfold bind at 1, get at 1 in E.
    destruct (timers st !! t) as [r|] eqn:Hr;
      [|injection E as <-; exact Hh].
    destruct (t_active r); [|injection E as <-; exact Hh].
    rewrite (bind_Ok _ _ _ _ _ (Stop_Ok t st)) in E.
    eapply fire_held; eauto.
  - (* a late timer callback *)
    destruct (timers st !! t) as [r|] eqn:Hr; simpl in H; [|discriminate].
    destruct (timer_callback (t_target r) st) as [[[] s]| |] eqn:E;
      simpl in H; try discriminate.
    injection H as <- <-. unfold timer_callback in E.
    eapply cancel_held; [exact I | exact Q | |left; reflexivity|exact Hh
                        |exact E].
    exact (pi_timers _ _ _ I _ _ Hr).
  - (* a waiting goroutine *)
    destruct (waiters st !! i) as [[parent child]|] eqn:Hw; simpl in H;
      [|discriminate].
    destruct (waiter_body parent child st) as [[b s]| |] eqn:E;
      simpl in H; try discriminate.
    assert (Hin : (parent, child) ∈ waiters st)
      by (eapply list_elem_of_lookup_2; eauto).
    destruct (pi_waiters _ _ _ I _ _ Hin) as (Hc & -> & Ht).
    destruct (pi_hs _ _ _ I _ _ Hc) as [_ Hb].
    assert (Hlt : (canceler_ptr child < length (heap st))%nat).
    { rewrite <- (pi_len _ _ _ I). now apply lookup_lt_Some in Hc. }
    assert (Hb1 : bounded (length (heap st)) (canceler_parent child) = true)
      by (eapply bounded_mono; [|exact Hb]; lia).
    unfold waiter_body in E.
    apply bind_inv in E as (dp & s1 & E1 & E).
    destruct (Done_inv _ _ _ _ _ Hinv Hb1 E1) as [Hinv1 Q1].
    assert (Hb2 : bounded (length (heap s1)) (canceler_Context child) = true).
    { rewrite (qu_heap _ _ Q1). destruct child; simpl in *;
        apply andb_true_intro; (split; [now apply Nat.ltb_lt | exact Hb1]). }
    apply bind_inv in E as (dc & s2 & E2 & E).
    destruct (Done_inv _ _ _ _ _ Hinv1 Hb2 E2) as [Hinv2 Q2].
    assert (Hh2 : timers_held s2).
    { apply (held_step s1 s2); [|exact (Done_tstep None _ _ _ _ E2)].
      apply (held_step st s1); [exact Hh|exact (Done_tstep None _ _ _ _ E1)]. }
    unfold bind at 1, get at 1 in E.
    destruct (match dp with Some d => is_closed s2 d | None => false end).
    + apply bind_inv in E as (eo & s3 & E3 & E).
      apply Err_state in E3 as ->.
      apply bind_inv in E as ([] & s4 & E4 & E). injection E as <- <-.
      injection H as <- <-. pose proof Hinv2 as [I2 S2 _].
      apply set_waiters_held.
      eapply cancel_held; [exact I2 | exact S2 | exact Hc | |exact Hh2
                          |exact E4].
      right. eapply quiet_untracked; [exact Q2|].
      eapply quiet_untracked; eauto.
    + destruct (match dc with Some d => is_closed s2 d | None => false end);
        injection E as <- <-; injection H as <- <-.
      * apply set_waiters_held. exact Hh2.
      * exact Hh2.
Qed.

Lemma run_held tr : forall st fs st' fs',
  inv fs st -> timers_held st ->
  run tr (st, fs) = Some (st', fs') -> timers_held st'.
Proof.
  induction tr as [|o tr IH]; intros st fs st' fs' Hinv Hh H.
  - injection H as <- <-. exact Hh.
  - rewrite run_cons in H.
    destruct (exec o (st, fs)) as [[s1 fs1]|] eqn:E; [|discriminate].
    destruct (exec_inv _ _ _ _ _ Hinv E) as [A _].
    exact (IH _ _ _ _ A (exec_held _ _ _ _ _ Hinv Hh E) H).
Qed.

Lemma reachable_held st fs : reachable (st, fs) -> timers_held st.
Proof.
  intros [tr H]. apply (run_held tr init [] st fs inv_init); [|exact H].
  split.
  - intros p n t Hn. simpl in Hn. rewrite lookup_nil in Hn. discriminate.
  - intros t r Hr. simpl in Hr. rewrite lookup_nil in Hr. discriminate.
Qed.

(** Timers and deadline contexts stay paired in every state a program
    can reach.  A struct that holds a timer is not canceled, and its
    timer is still active and aimed at that struct; an active timer is
    held by the struct it is aimed at, which is therefore not canceled.
    So no cancellation, from whichever side it comes, leaves a timer
    running, and a timer that fires finds a context that is not canceled
    yet. *)
Theorem timers_follow_contexts st fs :
  reachable (st, fs) ->
  (forall p n t, heap st !! p = Some n -> timer n = Some t ->
     err n = None
     /\ exists r, timers st !! t = Some r /\ t_active r = true
                  /\ canceler_ptr (t_target r) = p)
  /\ (forall t r, timers st !! t = Some r -> t_active r = true ->
        exists n, heap st !! canceler_ptr (t_target r) = Some n
                  /\ timer n = Some t /\ err n = None).
Proof.
  intros Hr. destruct (reachable_held _ _ Hr) as [H1 H2]. split.
  - intros p n t Hn Ht. destruct (H1 p n t Hn Ht) as (He & r & Hr' & Ha & Hp).
    split; [exact He|]. exists r. split; [exact Hr'|].
    split; [apply Ha; discriminate | exact Hp].
  - intros t r Hr' Ha. destruct (H2 t r Hr' Ha) as (n & Hn & Ht).
    exists n. split; [exact Hn|]. split; [exact Ht|].
    exact (proj1 (H1 _ n t Hn Ht)).
Qed.

Lemma timers_follow_contexts_witness :
  let st := fst sample_world in
  exists r n,
    timers st !! 0%nat = Some r /\ t_active r = true
    /\ heap st !! 1%nat = Some n /\ timer n = Some 0%nat /\ err n = None.
Proof.
  intros st.
  destruct (timers_follow_contexts st (snd sample_world) sample_reachable)
    as [_ H].
  assert (Hr : timers st !! 0%nat = Some _) by (vm_compute; reflexivity).
  destruct (H 0%nat _ Hr eq_refl) as (n & Hn & Ht & He).
  eexists _, n. split; [exact Hr|]. split; [reflexivity|].
  split; [exact Hn|]. split; [exact Ht | exact He].
Defined.
